(** * ProducerConsumer: thread-safe STL adapters and worker-lifecycle controllers

    A shallow embedding of [ThreadsafeSTLAdapter.h], [ProducerConsumerBase.h],
    [Producer.h] and [Consumer.h] (namespaces [concurrency] and [mt]), and the
    properties of the specification proved or refuted on it. *)

From stdpp Require Import base option list gmap sorting.
From Stdlib Require Import Lia ZArith.

(** ** The standard container adapters the repository wraps

    [std::queue], [std::stack] and [std::priority_queue] over a sequence
    container [c].  The priority queue keeps [c] heap-ordered with
    [std::push_heap] and [std::pop_heap]; the two are written as libstdc++
    has them ([__push_heap], [__adjust_heap], [__pop_heap]): a hole travels
    through the array and the displaced value is written last. *)
Module stl.

Section heap_algorithms.
Context {T : Type} (comp : T → T → bool).

(** [__push_heap(first, holeIndex, topIndex, value, comp)]:
    while (holeIndex > topIndex && comp(first + parent, value)) the parent
    moves into the hole; then the value is stored in the hole.  The hole
    index strictly decreases, so [fuel := holeIndex] iterations suffice. *)
Fixpoint push_heap_loop (fuel : nat) (first : list T)
    (holeIndex topIndex : nat) (value : T) : list T :=
  match fuel with
  | 0 => <[holeIndex := value]> first
  | S fuel =>
      let parent := (holeIndex - 1) / 2 in
      if topIndex <? holeIndex then
        match first !! parent with
        | Some p =>
            if comp p value
            then push_heap_loop fuel (<[holeIndex := p]> first) parent topIndex value
            else <[holeIndex := value]> first
        | None => <[holeIndex := value]> first
        end
      else <[holeIndex := value]> first
  end.

Definition push_heap_from (first : list T) (holeIndex topIndex : nat) (value : T) : list T :=
  push_heap_loop holeIndex first holeIndex topIndex value.

(** [std::push_heap(first, last, comp)] on the whole container:
    the value is the last element, the hole starts at its index. *)
Definition push_heap (first : list T) : list T :=
  let n := length first in
  match first !! (n - 1) with
  | Some value => push_heap_from first (n - 1) 0 value
  | None => first
  end.

(** First loop of [__adjust_heap(first, holeIndex, len, value, comp)]:
    while (secondChild < (len - 1) / 2) the larger child moves into the
    hole.  [secondChild] equals [holeIndex] at every loop head, so one index
    is threaded.  Returns the array and the final hole. *)
Fixpoint adjust_heap_down (fuel : nat) (first : list T) (holeIndex len : nat)
    : list T * nat :=
  match fuel with
  | 0 => (first, holeIndex)
  | S fuel =>
      if holeIndex <? (len - 1) / 2 then
        let secondChild := 2 * (holeIndex + 1) in
        match first !! secondChild, first !! (secondChild - 1) with
        | Some r, Some l =>
            if comp r l
            then adjust_heap_down fuel (<[holeIndex := l]> first) (secondChild - 1) len
            else adjust_heap_down fuel (<[holeIndex := r]> first) secondChild len
        | _, _ => (first, holeIndex)
        end
      else (first, holeIndex)
  end.

(** The step after the loop: an even [len] leaves a last node with a single
    (left) child. *)
Definition adjust_heap_last (first : list T) (holeIndex len : nat) : list T * nat :=
  if Nat.even len && (holeIndex =? (len - 2) / 2) then
    let secondChild := 2 * (holeIndex + 1) in
    match first !! (secondChild - 1) with
    | Some l => (<[holeIndex := l]> first, secondChild - 1)
    | None => (first, holeIndex)
    end
  else (first, holeIndex).

Definition adjust_heap (first : list T) (holeIndex len : nat) (value : T) : list T :=
  let topIndex := holeIndex in
  let '(first, holeIndex) := adjust_heap_down len first holeIndex len in
  let '(first, holeIndex) := adjust_heap_last first holeIndex len in
  push_heap_from first holeIndex topIndex value.

(** [std::pop_heap(first, last, comp)]: for more than one element,
    [__pop_heap(first, last - 1, last - 1, comp)] saves the last element,
    stores the first one in the last slot and adjusts the first
    [last - first - 1] elements around the saved value. *)
Definition pop_heap (first : list T) : list T :=
  let n := length first in
  if 1 <? n then
    match first !! (n - 1), first !! 0 with
    | Some value, Some top => adjust_heap (<[n - 1 := top]> first) 0 (n - 1) value
    | _, _ => first
    end
  else first.

(** [std::is_heap(first, last, comp)]: no element is less than one of its
    two children. *)
Definition is_heap (first : list T) : bool :=
  forallb (λ i, match first !! ((i - 1) / 2), first !! i with
                | Some p, Some x => negb (comp p x)
                | _, _ => true
                end)
          (seq 1 (length first - 1)).

(** The same on the first [len] elements, as a proposition. *)
Definition heap_upto (first : list T) (len : nat) : Prop :=
  ∀ i p x, 0 < i → i < len →
    first !! ((i - 1) / 2) = Some p → first !! i = Some x → comp p x = false.

(** A heap with a hole: the order holds between every node and its parent
    as long as neither is the hole, and between the children of the hole
    and the parent of the hole. *)
Definition heap_around (first : list T) (len holeIndex : nat) : Prop :=
  (∀ i p x, 0 < i → i < len → i ≠ holeIndex → (i - 1) / 2 ≠ holeIndex →
     first !! ((i - 1) / 2) = Some p → first !! i = Some x → comp p x = false) ∧
  (∀ i p x, 0 < holeIndex → i < len → i ≠ holeIndex → (i - 1) / 2 = holeIndex →
     first !! ((holeIndex - 1) / 2) = Some p → first !! i = Some x → comp p x = false).

(** [value] is not less than a child of the hole. *)
Definition covers (first : list T) (len holeIndex : nat) (value : T) : Prop :=
  ∀ i x, 0 < i → i < len → i ≠ holeIndex → (i - 1) / 2 = holeIndex →
    first !! i = Some x → comp value x = false.

(** The requirements on a comparator: a strict weak ordering. *)
Definition strict_weak_order : Prop :=
  (∀ x y, comp x y = true → comp y x = false) ∧
  (∀ x y z, comp x z = true → comp x y = true ∨ comp y z = true).

End heap_algorithms.

(** The three adapters; [Compare] is the comparator type of the priority
    queue and [call] is how a comparator object is applied to two elements. *)
Inductive adapter (T Compare : Type) : Type :=
  | queue (c : list T)
  | stack (c : list T)
  | priority_queue (c : list T) (comp : Compare).
Global Arguments queue {T Compare} c.
Global Arguments stack {T Compare} c.
Global Arguments priority_queue {T Compare} c comp.

(** The ordering rule of an adapter. *)
Inductive discipline : Set := FIFO | LIFO | prioritized.

Definition discipline_of {T Compare : Type} (a : adapter T Compare) : discipline :=
  match a with
  | queue _ => FIFO
  | stack _ => LIFO
  | priority_queue _ _ => prioritized
  end.

Section adapter_members.
Context {T Compare : Type} (call : Compare → T → T → bool).

(** the protected member [c] *)
Definition c (a : adapter T Compare) : list T :=
  match a with queue c | stack c | priority_queue c _ => c end.

Definition empty (a : adapter T Compare) : bool :=
  match c a with [] => true | _ :: _ => false end.

Definition size (a : adapter T Compare) : nat := length (c a).

(** [queue::front] is [c.front()]; [None] stands for the undefined
    behaviour of calling it on an empty container. *)
Definition front (a : adapter T Compare) : option T := head (c a).

(** [stack::top] is [c.back()], [priority_queue::top] is [c.front()];
    a queue has no such member. *)
Definition top (a : adapter T Compare) : option T :=
  match a with
  | queue _ => None
  | stack c => last c
  | priority_queue c _ => head c
  end.

(** the protected member [comp] of a priority queue *)
Definition comp (a : adapter T Compare) : option Compare :=
  match a with
  | priority_queue _ comp => Some comp
  | _ => None
  end.

(** [queue::push], [stack::push]: [c.push_back(x)];
    [priority_queue::push]: [c.push_back(x); std::push_heap(...)]. *)
Definition push (x : T) (a : adapter T Compare) : adapter T Compare :=
  match a with
  | queue c => queue (c ++ [x])
  | stack c => stack (c ++ [x])
  | priority_queue c comp => priority_queue (push_heap (call comp) (c ++ [x])) comp
  end.

(** [queue::pop]: [c.pop_front()]; [stack::pop]: [c.pop_back()];
    [priority_queue::pop]: [std::pop_heap(...); c.pop_back()]. *)
Definition pop (a : adapter T Compare) : adapter T Compare :=
  match a with
  | queue c => queue (tail c)
  | stack c => stack (removelast c)
  | priority_queue c comp => priority_queue (removelast (pop_heap (call comp) c)) comp
  end.
End adapter_members.

End stl.

(** ** [ThreadsafeSTLAdapter.h] (namespace [concurrency]) *)
Module concurrency.

(** [struct EmptyAdapter : std::exception] *)
Inductive exception : Set := EmptyAdapter.

(** How a member function ends: it returns, it throws, it suspends on a
    condition variable whose predicate is false, or it has undefined
    behaviour (a null or dangling pointer is dereferenced, [front]/[top] is
    taken of an empty container).  The state after a throw is kept. *)
Inductive outcome (R S : Type) : Type :=
  | Returns (r : R) (s : S)
  | Throws (e : exception) (s : S)
  | Suspends (s : S)
  | Undefined.
Global Arguments Returns {R S} r s.
Global Arguments Throws {R S} e s.
Global Arguments Suspends {R S} s.
Global Arguments Undefined {R S}.

(** Addresses of the cells [std::make_shared] allocates; a
    [std::shared_ptr<Elem>] is the address of its cell. *)
Abbreviation loc := positive.

Section ThreadsafeSTLAdapter.
Context {Elem : Type} `{!Inhabited Elem}.
(** the state [std::move_if_noexcept] leaves its source in: the value
    itself for a type that is copied, the moved-from state otherwise *)
Context (moved_from : Elem → Elem).

(** [std::make_shared<Elem>(v)]: a cell that no live handle points to. *)
Definition make_shared (v : Elem) (σ : gmap loc Elem) : loc * gmap loc Elem :=
  let p := fresh (dom σ) in (p, <[p := v]> σ).

(** [class CustomComparator]: [operator()] applies [m_comparator] to the
    pointees of its two handles. *)
Record CustomComparator : Type := { m_comparator : Elem → Elem → bool }.

Definition CustomComparator_call (σ : gmap loc Elem) (cmp : CustomComparator)
    (x y : loc) : bool :=
  m_comparator cmp (σ !!! x) (σ !!! y).

(** [detectTopMethod<Adapter>()]: does the adapter have a member [top]? *)
Definition detectTopMethod {T Compare} (adapter : stl.adapter T Compare) : bool :=
  match adapter with
  | stl.queue _ => false
  | stl.stack _ | stl.priority_queue _ _ => true
  end.

Definition getCurrent {T Compare} (adapter : stl.adapter T Compare) : option T :=
  if detectTopMethod adapter then stl.top adapter else stl.front adapter.

(** The adapter object and the memory its handles point into.  Every
    member function holds [m_mutex] from entry to exit, so each is one
    atomic step on this state. *)
Record ThreadsafeSTLAdapter : Type := {
  m_adapter : stl.adapter loc CustomComparator;
  heap : gmap loc Elem
}.

Definition push (value : Elem) (this : ThreadsafeSTLAdapter) : ThreadsafeSTLAdapter :=
  let '(item, σ) := make_shared value (heap this) in
  {| m_adapter := stl.push (CustomComparator_call σ) item (m_adapter this);
     heap := σ |}.

(** [push] followed by [m_condVar.notify_one()], which changes no data. *)
Definition pushAndNotify (value : Elem) (this : ThreadsafeSTLAdapter) : ThreadsafeSTLAdapter :=
  push value this.

(** [void waitAndPop(Elem& value)]; the state pairs the caller's variable
    with the adapter. *)
Definition waitAndPop_ref (value : Elem) (this : ThreadsafeSTLAdapter)
    : outcome unit (Elem * ThreadsafeSTLAdapter) :=
  if negb (negb (stl.empty (m_adapter this))) then Suspends (value, this)
  else
    match getCurrent (m_adapter this) with
    | Some p =>
        match heap this !! p with
        | Some v =>
            let σ := <[p := moved_from v]> (heap this) in
            Returns tt (v, {| m_adapter := stl.pop (CustomComparator_call σ) (m_adapter this);
                              heap := σ |})
        | None => Undefined
        end
    | None => Undefined
    end.

(** [std::shared_ptr<Elem> waitAndPop()] *)
Definition waitAndPop (this : ThreadsafeSTLAdapter) : outcome loc ThreadsafeSTLAdapter :=
  if negb (negb (stl.empty (m_adapter this))) then Suspends this
  else
    match getCurrent (m_adapter this) with
    | Some res =>
        Returns res {| m_adapter := stl.pop (CustomComparator_call (heap this)) (m_adapter this);
                       heap := heap this |}
    | None => Undefined
    end.

(** [bool tryPop(Elem& value)] *)
Definition tryPop_ref (value : Elem) (this : ThreadsafeSTLAdapter)
    : outcome bool (Elem * ThreadsafeSTLAdapter) :=
  if stl.empty (m_adapter this) then Returns false (value, this)
  else
    match getCurrent (m_adapter this) with
    | Some p =>
        match heap this !! p with
        | Some v =>
            let σ := <[p := moved_from v]> (heap this) in
            Returns true (v, {| m_adapter := stl.pop (CustomComparator_call σ) (m_adapter this);
                                heap := σ |})
        | None => Undefined
        end
    | None => Undefined
    end.

(** [std::shared_ptr<Elem> tryPop()]; [None] is the null handle. *)
Definition tryPop (this : ThreadsafeSTLAdapter) : outcome (option loc) ThreadsafeSTLAdapter :=
  if stl.empty (m_adapter this) then Returns None this
  else
    match getCurrent (m_adapter this) with
    | Some res =>
        Returns (Some res)
                {| m_adapter := stl.pop (CustomComparator_call (heap this)) (m_adapter this);
                   heap := heap this |}
    | None => Undefined
    end.

(** [void pop(Elem& value)] *)
Definition pop_ref (value : Elem) (this : ThreadsafeSTLAdapter)
    : outcome unit (Elem * ThreadsafeSTLAdapter) :=
  if stl.empty (m_adapter this) then Throws EmptyAdapter (value, this)
  else
    match getCurrent (m_adapter this) with
    | Some p =>
        match heap this !! p with
        | Some v =>
            let σ := <[p := moved_from v]> (heap this) in
            Returns tt (v, {| m_adapter := stl.pop (CustomComparator_call σ) (m_adapter this);
                              heap := σ |})
        | None => Undefined
        end
    | None => Undefined
    end.

(** [std::shared_ptr<Elem> pop()] *)
Definition pop (this : ThreadsafeSTLAdapter) : outcome loc ThreadsafeSTLAdapter :=
  if stl.empty (m_adapter this) then Throws EmptyAdapter this
  else
    match getCurrent (m_adapter this) with
    | Some res =>
        Returns res {| m_adapter := stl.pop (CustomComparator_call (heap this)) (m_adapter this);
                       heap := heap this |}
    | None => Undefined
    end.

(** [getProtectedContainer]: the adapter's protected member [c]. *)
Definition getProtectedContainer {T Compare} (adapter : stl.adapter T Compare) : list T :=
  stl.c adapter.

(** [std::transform(first, last, std::back_inserter(out),
    [](auto& item) { return std::make_shared<AdaptElem>(item); })] *)
Fixpoint transform_copy (items : list Elem) (out : list loc) (σ : gmap loc Elem)
    : list loc * gmap loc Elem :=
  match items with
  | [] => (out, σ)
  | item :: items =>
      let '(p, σ) := make_shared item σ in
      transform_copy items (out ++ [p]) σ
  end.

(** The same with [std::make_shared<AdaptElem>(std::move(item))]: the
    source items are left moved-from. *)
Fixpoint transform_move (items : list Elem) (out : list loc) (σ : gmap loc Elem)
    : list Elem * list loc * gmap loc Elem :=
  match items with
  | [] => ([], out, σ)
  | item :: items =>
      let '(p, σ) := make_shared item σ in
      let '(items, out, σ) := transform_move items (out ++ [p]) σ in
      (moved_from item :: items, out, σ)
  end.

(** The parameter pack [Ts... comparator]: one comparator for a
    [std::priority_queue], nothing for [std::stack] and [std::queue]. *)
Definition Ts (adapter : stl.adapter Elem (Elem → Elem → bool)) : Type :=
  match adapter with
  | stl.priority_queue _ _ => Elem → Elem → bool
  | _ => unit
  end.

(** [createThreadsafeSTLAdapterFrom(const Adapt<...>& adapter, Ts... comparator)] *)
Definition createThreadsafeSTLAdapterFrom
    (adapter : stl.adapter Elem (Elem → Elem → bool)) (comparator : Ts adapter)
    (σ : gmap loc Elem) : ThreadsafeSTLAdapter :=
  let underlyingContainer := getProtectedContainer adapter in
  match adapter return Ts adapter → ThreadsafeSTLAdapter with
  | stl.priority_queue _ _ => λ comparator,
      let '(underlyingSharedPtrContainer, σ) := transform_copy underlyingContainer [] σ in
      {| m_adapter := stl.priority_queue underlyingSharedPtrContainer
                                         {| m_comparator := comparator |};
         heap := σ |}
  | stl.queue _ => λ _,
      let '(underlyingSharedPtrContainer, σ) := transform_copy underlyingContainer [] σ in
      {| m_adapter := stl.queue underlyingSharedPtrContainer; heap := σ |}
  | stl.stack _ => λ _,
      let '(underlyingSharedPtrContainer, σ) := transform_copy underlyingContainer [] σ in
      {| m_adapter := stl.stack underlyingSharedPtrContainer; heap := σ |}
  end comparator.

(** The source adapter with container [c], as the rvalue overload leaves it. *)
Definition with_container {T Compare} (adapter : stl.adapter T Compare) (c : list T)
    : stl.adapter T Compare :=
  match adapter with
  | stl.queue _ => stl.queue c
  | stl.stack _ => stl.stack c
  | stl.priority_queue _ comp => stl.priority_queue c comp
  end.

(** [createThreadsafeSTLAdapterFrom(Adapt<...>&& adapter, Ts... comparator)];
    also returns the moved-from source. *)
Definition createThreadsafeSTLAdapterFrom_rvalue
    (adapter : stl.adapter Elem (Elem → Elem → bool)) (comparator : Ts adapter)
    (σ : gmap loc Elem)
    : ThreadsafeSTLAdapter * stl.adapter Elem (Elem → Elem → bool) :=
  let underlyingContainer := getProtectedContainer adapter in
  match adapter return Ts adapter → _ with
  | stl.priority_queue _ _ => λ comparator,
      let '(source, underlyingSharedPtrContainer, σ) :=
        transform_move underlyingContainer [] σ in
      ({| m_adapter := stl.priority_queue underlyingSharedPtrContainer
                                          {| m_comparator := comparator |};
          heap := σ |}, with_container adapter source)
  | stl.queue _ => λ _,
      let '(source, underlyingSharedPtrContainer, σ) :=
        transform_move underlyingContainer [] σ in
      ({| m_adapter := stl.queue underlyingSharedPtrContainer; heap := σ |},
       with_container adapter source)
  | stl.stack _ => λ _,
      let '(source, underlyingSharedPtrContainer, σ) :=
        transform_move underlyingContainer [] σ in
      ({| m_adapter := stl.stack underlyingSharedPtrContainer; heap := σ |},
       with_container adapter source)
  end comparator.

(** The payloads an adapter holds, in container order. *)
Definition payloads (this : ThreadsafeSTLAdapter) : list Elem :=
  (λ p, heap this !!! p) <$> stl.c (m_adapter this).

(** What [*getCurrent(m_adapter)] reads: the payload behind the handle that
    [top] or [front] selects. *)
Definition peek (this : ThreadsafeSTLAdapter) : option Elem :=
  p ← getCurrent (m_adapter this); heap this !! p.

(** What the private constructor and the member functions maintain: the
    handles in the container are distinct and point to allocated cells. *)
Definition valid (this : ThreadsafeSTLAdapter) : Prop :=
  NoDup (stl.c (m_adapter this)) ∧
  Forall (λ p, is_Some (heap this !! p)) (stl.c (m_adapter this)).

(** The container of a priority adapter is a heap for the wrapped
    comparator; nothing is asked of the other two adapters. *)
Definition heap_ordered (this : ThreadsafeSTLAdapter) : Prop :=
  match m_adapter this with
  | stl.priority_queue c cmp => stl.is_heap (CustomComparator_call (heap this) cmp) c = true
  | _ => True
  end.

(** What every adapter the factory built satisfies, and keeps satisfying:
    valid handles and, for a priority adapter, a container that is a heap
    for its comparator [comp], a strict weak ordering. *)
Definition well_formed (comp : Elem → Elem → bool) (this : ThreadsafeSTLAdapter) : Prop :=
  valid this ∧ heap_ordered this ∧
  ∀ cmp, stl.comp (m_adapter this) = Some cmp →
         m_comparator cmp = comp ∧ stl.strict_weak_order comp.

(** A valid adapter over a [std::queue]. *)
Definition is_fifo (this : ThreadsafeSTLAdapter) : Prop :=
  valid this ∧ stl.discipline_of (m_adapter this) = stl.FIFO.

(** A single-threaded client: a sequence of calls on one adapter.  The
    client keeps one variable [value] for the by-reference overloads and
    catches [EmptyAdapter]. *)
Inductive call : Type :=
  | do_push (v : Elem)
  | do_pushAndNotify (v : Elem)
  | do_tryPop
  | do_tryPop_ref
  | do_pop
  | do_pop_ref.

(** What a pop showed: the payloads the adapter held when it was called and
    the value the caller obtained, if any. *)
Record observation : Type := { before : list Elem; obtained : option Elem }.

(** One call; [None] when the call has undefined behaviour or never returns. *)
Definition perform (c : call) (value : Elem) (this : ThreadsafeSTLAdapter)
    : option (list observation * Elem * ThreadsafeSTLAdapter) :=
  let before := payloads this in
  match c with
  | do_push v => Some ([], value, push v this)
  | do_pushAndNotify v => Some ([], value, pushAndNotify v this)
  | do_tryPop =>
      match tryPop this with
      | Returns (Some res) this' =>
          v ← heap this' !! res;
          Some ([{| before := before; obtained := Some v |}], value, this')
      | Returns None this' => Some ([{| before := before; obtained := None |}], value, this')
      | _ => None
      end
  | do_tryPop_ref =>
      match tryPop_ref value this with
      | Returns true (value', this') =>
          Some ([{| before := before; obtained := Some value' |}], value', this')
      | Returns false (value', this') =>
          Some ([{| before := before; obtained := None |}], value', this')
      | _ => None
      end
  | do_pop =>
      match pop this with
      | Returns res this' =>
          v ← heap this' !! res;
          Some ([{| before := before; obtained := Some v |}], value, this')
      | Throws EmptyAdapter this' =>
          Some ([{| before := before; obtained := None |}], value, this')
      | _ => None
      end
  | do_pop_ref =>
      match pop_ref value this with
      | Returns _ (value', this') =>
          Some ([{| before := before; obtained := Some value' |}], value', this')
      | Throws EmptyAdapter (value', this') =>
          Some ([{| before := before; obtained := None |}], value', this')
      | _ => None
      end
  end.

Fixpoint client (calls : list call) (value : Elem) (this : ThreadsafeSTLAdapter)
    : option (list observation * ThreadsafeSTLAdapter) :=
  match calls with
  | [] => Some ([], this)
  | c :: calls =>
      '(obs, value, this) ← perform c value this;
      '(obs', this) ← client calls value this;
      Some (obs ++ obs', this)
  end.

(** The values a sequence of calls pushes, and the values its pops obtained. *)
Definition pushed_by (calls : list call) : list Elem :=
  omap (λ c, match c with do_push v | do_pushAndNotify v => Some v | _ => None end) calls.

Definition popped_in (obs : list observation) : list Elem := omap obtained obs.

(** [v] is the element the discipline selects among [held]: the oldest, the
    newest, or one that is not less than any other. *)
Definition selected (d : stl.discipline) (comp : Elem → Elem → bool)
    (held : list Elem) (v : Elem) : Prop :=
  match d with
  | stl.FIFO => head held = Some v
  | stl.LIFO => last held = Some v
  | stl.prioritized => v ∈ held ∧ ∀ w, w ∈ held → comp v w = false
  end.

(** A pop that obtained a value obtained the selected one; a pop that
    obtained none found the adapter empty. *)
Definition as_selected (d : stl.discipline) (comp : Elem → Elem → bool)
    (o : observation) : Prop :=
  match obtained o with
  | Some v => selected d comp (before o) v
  | None => before o = []
  end.

(** The state a member function leaves, and whether it kept its caller
    waiting. *)
Definition state_after {R S : Type} (o : outcome R S) : option S :=
  match o with
  | Returns _ s | Throws _ s | Suspends s => Some s
  | Undefined => None
  end.

Definition blocks {R S : Type} (o : outcome R S) : bool :=
  match o with
  | Suspends _ => true
  | _ => false
  end.

(** What the pops of a client obtained, call by call. *)
Definition obtained_by (r : option (list observation * ThreadsafeSTLAdapter))
    : option (list (option Elem)) :=
  match r with
  | Some (obs, _) => Some (obtained <$> obs)
  | None => None
  end.

(** A plain priority queue filled by pushing the elements of [seed] one
    after the other. *)
Definition seeded_priority_queue (comp : Elem → Elem → bool) (seed : list Elem)
    : stl.adapter Elem (Elem → Elem → bool) :=
  foldl (λ q x, stl.push (λ f, f) x q) (stl.priority_queue [] comp) seed.

(** A valid adapter over a [std::stack]. *)
Definition is_lifo (this : ThreadsafeSTLAdapter) : Prop :=
  valid this ∧ stl.discipline_of (m_adapter this) = stl.LIFO.

(** The calls that take an element out. *)
Definition is_pop (c : call) : bool :=
  match c with
  | do_push _ | do_pushAndNotify _ => false
  | _ => true
  end.

End ThreadsafeSTLAdapter.


(** ** [ProducerConsumerBase.h], [Producer.h], [Consumer.h] (namespace [concurrency]) *)

(** [enum class Command] *)
Inductive Command : Set := EnableWorkerThread | DisableWorkerThread | ShutdownMainThread.

Global Instance Command_inhabited : Inhabited Command := populate EnableWorkerThread.

(** [enum class Type] *)
Inductive Type_ : Set := Producer | Consumer.

(** A [std::thread] object: its function is still running, has returned
    but the thread was not joined, or the thread was joined. *)
Inductive thread : Set := running | finished | joined.

(** [std::thread::joinable] *)
Definition joinable (t : thread) : bool :=
  match t with running | finished => true | joined => false end.

(** Where the control thread stands in [mainThreadWork]. *)
Inductive main_pc : Set :=
  | in_waitAndPop                          (* m_commandQueue.waitAndPop(currentCommand) *)
  | at_command (currentCommand : Command)  (* about to lock m_workerThreadMutex *)
  | in_join (currentCommand : Command)     (* m_workerThread->join() *)
  | returned.                              (* mainThreadWork has returned *)

(** How control leaves [disableWorkerThreadIfEnabled]: back to the loop head
    for [DisableWorkerThread], out of the loop for [ShutdownMainThread]. *)
Definition after_disable (currentCommand : Command) : main_pc :=
  match currentCommand with
  | ShutdownMainThread => returned
  | _ => in_waitAndPop
  end.

Section ProducerConsumer.
Context {Elem : Type} `{!Inhabited Elem}.
Context (moved_from : Elem → Elem) (moved_from_vector : list Elem → list Elem).
(** the role, and the consumer's callback: [true] when the call returns,
    [false] when it throws *)
Context (type : Type_) (m_callable : Elem → bool).

(** Where the worker thread stands in [workerThreadWork].  [held] is the
    local variable the wait predicate pops into: [vectorItem] for a
    producer, and for a consumer [item], written as a list of at most one
    element that is empty until [tryPop] has assigned it. *)
Inductive worker_pc : Type :=
  | at_lock                          (* std::unique_lock lock(m_workerThreadMutex) *)
  | at_predicate (held : list Elem)  (* the wait predicate, mutex held *)
  | in_wait (held : list Elem)       (* suspended in wait, mutex released *)
  | at_check (held : list Elem)      (* if (!m_workerThreadEnabled), mutex held *)
  | at_body (held : list Elem)       (* the for loop / the callback, mutex held *)
  | worker_returned.                 (* the thread function has returned *)

Definition held_by (pc : worker_pc) : list Elem :=
  match pc with
  | at_predicate held | in_wait held | at_check held | at_body held => held
  | at_lock | worker_returned => []
  end.

(** One role object with its two threads.  [pushed], [forwarded], [popped]
    and [delivered] are history variables: the items given to
    [Producer::push], the items the worker pushed into the shared
    container, the items the worker popped from it, and the items the
    callback was called with. *)
Record System : Type := {
  m_commandQueue : @ThreadsafeSTLAdapter Command;
  m_mainThread : option thread;
  m_sharedContainer : @ThreadsafeSTLAdapter Elem;
  m_workerThread : option thread;
  m_workerThreadMutex : bool;
  m_workerThreadEnabled : bool;
  m_isWorkerThreadRunning : bool;
  m_vectorItemsQueue : @ThreadsafeSTLAdapter (list Elem);
  main_at : main_pc;
  worker_at : worker_pc;
  pushed : list Elem;
  forwarded : list Elem;
  popped : list Elem;
  delivered : list Elem
}.

Definition set_m_commandQueue (x : @ThreadsafeSTLAdapter Command) (s : System) : System :=
  {| m_commandQueue := x; m_mainThread := m_mainThread s;
     m_sharedContainer := m_sharedContainer s; m_workerThread := m_workerThread s;
     m_workerThreadMutex := m_workerThreadMutex s;
     m_workerThreadEnabled := m_workerThreadEnabled s;
     m_isWorkerThreadRunning := m_isWorkerThreadRunning s;
     m_vectorItemsQueue := m_vectorItemsQueue s; main_at := main_at s;
     worker_at := worker_at s; pushed := pushed s; forwarded := forwarded s;
     popped := popped s; delivered := delivered s |}.
Definition set_m_mainThread (x : option thread) (s : System) : System :=
  {| m_commandQueue := m_commandQueue s; m_mainThread := x;
     m_sharedContainer := m_sharedContainer s; m_workerThread := m_workerThread s;
     m_workerThreadMutex := m_workerThreadMutex s;
     m_workerThreadEnabled := m_workerThreadEnabled s;
     m_isWorkerThreadRunning := m_isWorkerThreadRunning s;
     m_vectorItemsQueue := m_vectorItemsQueue s; main_at := main_at s;
     worker_at := worker_at s; pushed := pushed s; forwarded := forwarded s;
     popped := popped s; delivered := delivered s |}.
Definition set_m_sharedContainer (x : @ThreadsafeSTLAdapter Elem) (s : System) : System :=
  {| m_commandQueue := m_commandQueue s; m_mainThread := m_mainThread s;
     m_sharedContainer := x; m_workerThread := m_workerThread s;
     m_workerThreadMutex := m_workerThreadMutex s;
     m_workerThreadEnabled := m_workerThreadEnabled s;
     m_isWorkerThreadRunning := m_isWorkerThreadRunning s;
     m_vectorItemsQueue := m_vectorItemsQueue s; main_at := main_at s;
     worker_at := worker_at s; pushed := pushed s; forwarded := forwarded s;
     popped := popped s; delivered := delivered s |}.
Definition set_m_workerThread (x : option thread) (s : System) : System :=
  {| m_commandQueue := m_commandQueue s; m_mainThread := m_mainThread s;
     m_sharedContainer := m_sharedContainer s; m_workerThread := x;
     m_workerThreadMutex := m_workerThreadMutex s;
     m_workerThreadEnabled := m_workerThreadEnabled s;
     m_isWorkerThreadRunning := m_isWorkerThreadRunning s;
     m_vectorItemsQueue := m_vectorItemsQueue s; main_at := main_at s;
     worker_at := worker_at s; pushed := pushed s; forwarded := forwarded s;
     popped := popped s; delivered := delivered s |}.
Definition set_m_workerThreadMutex (x : bool) (s : System) : System :=
  {| m_commandQueue := m_commandQueue s; m_mainThread := m_mainThread s;
     m_sharedContainer := m_sharedContainer s; m_workerThread := m_workerThread s;
     m_workerThreadMutex := x; m_workerThreadEnabled := m_workerThreadEnabled s;
     m_isWorkerThreadRunning := m_isWorkerThreadRunning s;
     m_vectorItemsQueue := m_vectorItemsQueue s; main_at := main_at s;
     worker_at := worker_at s; pushed := pushed s; forwarded := forwarded s;
     popped := popped s; delivered := delivered s |}.
Definition set_m_workerThreadEnabled (x : bool) (s : System) : System :=
  {| m_commandQueue := m_commandQueue s; m_mainThread := m_mainThread s;
     m_sharedContainer := m_sharedContainer s; m_workerThread := m_workerThread s;
     m_workerThreadMutex := m_workerThreadMutex s; m_workerThreadEnabled := x;
     m_isWorkerThreadRunning := m_isWorkerThreadRunning s;
     m_vectorItemsQueue := m_vectorItemsQueue s; main_at := main_at s;
     worker_at := worker_at s; pushed := pushed s; forwarded := forwarded s;
     popped := popped s; delivered := delivered s |}.
Definition set_m_isWorkerThreadRunning (x : bool) (s : System) : System :=
  {| m_commandQueue := m_commandQueue s; m_mainThread := m_mainThread s;
     m_sharedContainer := m_sharedContainer s; m_workerThread := m_workerThread s;
     m_workerThreadMutex := m_workerThreadMutex s;
     m_workerThreadEnabled := m_workerThreadEnabled s; m_isWorkerThreadRunning := x;
     m_vectorItemsQueue := m_vectorItemsQueue s; main_at := main_at s;
     worker_at := worker_at s; pushed := pushed s; forwarded := forwarded s;
     popped := popped s; delivered := delivered s |}.
Definition set_m_vectorItemsQueue (x : @ThreadsafeSTLAdapter (list Elem)) (s : System) : System :=
  {| m_commandQueue := m_commandQueue s; m_mainThread := m_mainThread s;
     m_sharedContainer := m_sharedContainer s; m_workerThread := m_workerThread s;
     m_workerThreadMutex := m_workerThreadMutex s;
     m_workerThreadEnabled := m_workerThreadEnabled s;
     m_isWorkerThreadRunning := m_isWorkerThreadRunning s; m_vectorItemsQueue := x;
     main_at := main_at s; worker_at := worker_at s; pushed := pushed s;
     forwarded := forwarded s; popped := popped s; delivered := delivered s |}.
Definition set_main_at (x : main_pc) (s : System) : System :=
  {| m_commandQueue := m_commandQueue s; m_mainThread := m_mainThread s;
     m_sharedContainer := m_sharedContainer s; m_workerThread := m_workerThread s;
     m_workerThreadMutex := m_workerThreadMutex s;
     m_workerThreadEnabled := m_workerThreadEnabled s;
     m_isWorkerThreadRunning := m_isWorkerThreadRunning s;
     m_vectorItemsQueue := m_vectorItemsQueue s; main_at := x; worker_at := worker_at s;
     pushed := pushed s; forwarded := forwarded s; popped := popped s;
     delivered := delivered s |}.
Definition set_worker_at (x : worker_pc) (s : System) : System :=
  {| m_commandQueue := m_commandQueue s; m_mainThread := m_mainThread s;
     m_sharedContainer := m_sharedContainer s; m_workerThread := m_workerThread s;
     m_workerThreadMutex := m_workerThreadMutex s;
     m_workerThreadEnabled := m_workerThreadEnabled s;
     m_isWorkerThreadRunning := m_isWorkerThreadRunning s;
     m_vectorItemsQueue := m_vectorItemsQueue s; main_at := main_at s; worker_at := x;
     pushed := pushed s; forwarded := forwarded s; popped := popped s;
     delivered := delivered s |}.
Definition set_pushed (x : list Elem) (s : System) : System :=
  {| m_commandQueue := m_commandQueue s; m_mainThread := m_mainThread s;
     m_sharedContainer := m_sharedContainer s; m_workerThread := m_workerThread s;
     m_workerThreadMutex := m_workerThreadMutex s;
     m_workerThreadEnabled := m_workerThreadEnabled s;
     m_isWorkerThreadRunning := m_isWorkerThreadRunning s;
     m_vectorItemsQueue := m_vectorItemsQueue s; main_at := main_at s;
     worker_at := worker_at s; pushed := x; forwarded := forwarded s; popped := popped s;
     delivered := delivered s |}.
Definition set_forwarded (x : list Elem) (s : System) : System :=
  {| m_commandQueue := m_commandQueue s; m_mainThread := m_mainThread s;
     m_sharedContainer := m_sharedContainer s; m_workerThread := m_workerThread s;
     m_workerThreadMutex := m_workerThreadMutex s;
     m_workerThreadEnabled := m_workerThreadEnabled s;
     m_isWorkerThreadRunning := m_isWorkerThreadRunning s;
     m_vectorItemsQueue := m_vectorItemsQueue s; main_at := main_at s;
     worker_at := worker_at s; pushed := pushed s; forwarded := x; popped := popped s;
     delivered := delivered s |}.
Definition set_popped (x : list Elem) (s : System) : System :=
  {| m_commandQueue := m_commandQueue s; m_mainThread := m_mainThread s;
     m_sharedContainer := m_sharedContainer s; m_workerThread := m_workerThread s;
     m_workerThreadMutex := m_workerThreadMutex s;
     m_workerThreadEnabled := m_workerThreadEnabled s;
     m_isWorkerThreadRunning := m_isWorkerThreadRunning s;
     m_vectorItemsQueue := m_vectorItemsQueue s; main_at := main_at s;
     worker_at := worker_at s; pushed := pushed s; forwarded := forwarded s; popped := x;
     delivered := delivered s |}.
Definition set_delivered (x : list Elem) (s : System) : System :=
  {| m_commandQueue := m_commandQueue s; m_mainThread := m_mainThread s;
     m_sharedContainer := m_sharedContainer s; m_workerThread := m_workerThread s;
     m_workerThreadMutex := m_workerThreadMutex s;
     m_workerThreadEnabled := m_workerThreadEnabled s;
     m_isWorkerThreadRunning := m_isWorkerThreadRunning s;
     m_vectorItemsQueue := m_vectorItemsQueue s; main_at := main_at s;
     worker_at := worker_at s; pushed := pushed s; forwarded := forwarded s;
     popped := popped s; delivered := x |}.

(** [ProducerConsumerBase(type, sharedContainer)], before [runMainThread]. *)
Definition ProducerConsumerBase (sharedContainer : @ThreadsafeSTLAdapter Elem) : System :=
  {| m_commandQueue := createThreadsafeSTLAdapterFrom (stl.queue []) tt ∅;
     m_mainThread := None;
     m_sharedContainer := sharedContainer;
     m_workerThread := None;
     m_workerThreadMutex := false;
     m_workerThreadEnabled := false;
     m_isWorkerThreadRunning := false;
     m_vectorItemsQueue := createThreadsafeSTLAdapterFrom (stl.queue []) tt ∅;
     main_at := returned;
     worker_at := worker_returned;
     pushed := []; forwarded := []; popped := []; delivered := [] |}.

(** [runMainThread]: [std::make_unique<std::thread>] either starts the
    control thread or throws; the exception is caught and [m_mainThread]
    stays null. *)
Definition runMainThread (thread_starts : bool) (s : System) : System :=
  if thread_starts
  then set_main_at in_waitAndPop (set_m_mainThread (Some running) s)
  else s.

(** The constructors of [Producer] and [Consumer]. *)
Definition construct (sharedContainer : @ThreadsafeSTLAdapter Elem) (thread_starts : bool)
    : System :=
  runMainThread thread_starts (ProducerConsumerBase sharedContainer).

Definition enableWorkerThread (s : System) : System :=
  set_m_commandQueue (pushAndNotify EnableWorkerThread (m_commandQueue s)) s.

Definition disableWorkerThread (s : System) : System :=
  set_m_commandQueue (pushAndNotify DisableWorkerThread (m_commandQueue s)) s.

(** [shutdownMainThread], the try block: the command is queued. *)
Definition shutdownMainThread_push (s : System) : System :=
  set_m_commandQueue (pushAndNotify ShutdownMainThread (m_commandQueue s)) s.

(** [shutdownMainThread], after the try block:
    [if (m_mainThread->joinable()) m_mainThread->join();]. *)
Definition shutdownMainThread_join (s : System) : outcome unit System :=
  match m_mainThread s with
  | None => Undefined
  | Some running => Suspends s
  | Some finished => Returns tt (set_m_mainThread (Some joined) s)
  | Some joined => Returns tt s
  end.

Definition shutdownMainThread (s : System) : outcome unit System :=
  shutdownMainThread_join (shutdownMainThread_push s).

(** [Producer::push(items)] *)
Definition Producer_push (items : list Elem) (s : System) : System :=
  set_pushed (pushed s ++ items)
    (set_m_vectorItemsQueue (push items (m_vectorItemsQueue s)) s).

(** What one thread does when it is scheduled. *)
Inductive step_result : Type :=
  | Steps (s : System)
  | Blocked               (* a lock, a wait or a join keeps the thread where it is *)
  | Terminates            (* std::terminate: a joinable std::thread is destroyed *)
  | UndefinedBehaviour.   (* a null pointer is dereferenced *)

(** [mainThreadWork] returns, by [break] or through its catch clauses. *)
Definition mainThreadWork_returns (s : System) : System :=
  set_main_at returned (set_m_mainThread (Some finished) s).

Definition go_after_disable (currentCommand : Command) (s : System) : System :=
  match currentCommand with
  | ShutdownMainThread => mainThreadWork_returns s
  | _ => set_main_at in_waitAndPop s
  end.

(** [disableWorkerThreadIfEnabled] up to the call of [join]. *)
Definition disableWorkerThreadIfEnabled (currentCommand : Command) (s : System)
    : step_result :=
  if m_workerThreadMutex s then Blocked
  else if m_workerThreadEnabled s then
    let s := set_m_workerThreadEnabled false s in
    match m_workerThread s with
    | None => UndefinedBehaviour
    | Some t =>
        if joinable t then Steps (set_main_at (in_join currentCommand) s)
        else Steps (go_after_disable currentCommand s)
    end
  else Steps (go_after_disable currentCommand s).

(** One statement of [mainThreadWork].  [thread_starts] tells whether
    [std::make_unique<std::thread>] succeeds, should the statement be the
    creation of the worker thread. *)
Definition mainThreadWork (thread_starts : bool) (s : System) : step_result :=
  match main_at s with
  | in_waitAndPop =>
      match waitAndPop_ref id inhabitant (m_commandQueue s) with
      | Returns _ (currentCommand, q) =>
          Steps (set_main_at (at_command currentCommand) (set_m_commandQueue q s))
      | Suspends _ => Blocked
      | Throws _ _ => Steps (mainThreadWork_returns s)
      | Undefined => UndefinedBehaviour
      end
  | at_command EnableWorkerThread =>
      if m_workerThreadMutex s then Blocked
      else if negb (m_workerThreadEnabled s) && negb (m_isWorkerThreadRunning s) then
        let s := set_m_workerThreadEnabled true s in
        if thread_starts then
          match m_workerThread s with
          | Some running | Some finished => Terminates
          | Some joined | None =>
              Steps (set_main_at in_waitAndPop
                       (set_worker_at at_lock (set_m_workerThread (Some running) s)))
          end
        else Steps (mainThreadWork_returns s)
      else Steps (set_main_at in_waitAndPop s)
  | at_command DisableWorkerThread => disableWorkerThreadIfEnabled DisableWorkerThread s
  | at_command ShutdownMainThread => disableWorkerThreadIfEnabled ShutdownMainThread s
  | in_join currentCommand =>
      match m_workerThread s with
      | None => UndefinedBehaviour
      | Some running => Blocked
      | Some finished =>
          Steps (go_after_disable currentCommand (set_m_workerThread (Some joined) s))
      | Some joined => Steps (go_after_disable currentCommand s)
      end
  | returned => Blocked
  end.

(** The next statement of the control thread creates a worker thread: it
    handles [EnableWorkerThread], the mutex is free, and the worker is
    neither enabled nor running. *)
Definition spawns (s : System) : bool :=
  match main_at s with
  | at_command EnableWorkerThread =>
      negb (m_workerThreadMutex s) &&
      (negb (m_workerThreadEnabled s) && negb (m_isWorkerThreadRunning s))
  | _ => false
  end.

(** The thread function of the worker returns: by [break], or through the
    catch clauses around [workerThreadWork]. *)
Definition workerThread_returns (s : System) : System :=
  set_worker_at worker_returned (set_m_workerThread (Some finished) s).

(** The wait predicate of [Producer::workerThreadWork] when the worker is
    enabled: [m_vectorItemsQueue.tryPop(vectorItem)]. *)
Definition Producer_predicate (held : list Elem) (s : System) : step_result :=
  match tryPop_ref moved_from_vector held (m_vectorItemsQueue s) with
  | Returns true (vectorItem, q) =>
      Steps (set_worker_at (at_check vectorItem) (set_m_vectorItemsQueue q s))
  | Returns false _ =>
      Steps (set_worker_at (in_wait held) (set_m_workerThreadMutex false s))
  | Throws _ _ | Suspends _ => Steps (workerThread_returns (set_m_workerThreadMutex false s))
  | Undefined => UndefinedBehaviour
  end.

(** The wait predicate of [Consumer::workerThreadWork] when the worker is
    enabled: [m_sharedContainer.tryPop(item)]. *)
Definition Consumer_predicate (held : list Elem) (s : System) : step_result :=
  match tryPop_ref moved_from (default inhabitant (head held)) (m_sharedContainer s) with
  | Returns true (item, q) =>
      Steps (set_worker_at (at_check [item])
               (set_popped (popped s ++ [item]) (set_m_sharedContainer q s)))
  | Returns false _ =>
      Steps (set_worker_at (in_wait held) (set_m_workerThreadMutex false s))
  | Throws _ _ | Suspends _ => Steps (workerThread_returns (set_m_workerThreadMutex false s))
  | Undefined => UndefinedBehaviour
  end.

(** One statement of [workerThreadWork]. *)
Definition workerThreadWork (s : System) : step_result :=
  match m_workerThread s with
  | Some running =>
      match worker_at s with
      | at_lock =>
          if m_workerThreadMutex s then Blocked
          else Steps (set_worker_at (at_predicate [])
                        (set_m_isWorkerThreadRunning true (set_m_workerThreadMutex true s)))
      | at_predicate held =>
          if negb (m_workerThreadEnabled s) then Steps (set_worker_at (at_check held) s)
          else
            match type with
            | Producer => Producer_predicate held s
            | Consumer => Consumer_predicate held s
            end
      | in_wait held =>
          if m_workerThreadMutex s then Blocked
          else Steps (set_worker_at (at_predicate held) (set_m_workerThreadMutex true s))
      | at_check held =>
          if negb (m_workerThreadEnabled s) then
            Steps (workerThread_returns
                     (set_m_workerThreadMutex false (set_m_isWorkerThreadRunning false s)))
          else Steps (set_worker_at (at_body held) s)
      | at_body held =>
          match type with
          | Producer =>
              match held with
              | item :: rest =>
                  Steps (set_worker_at (at_body rest)
                           (set_forwarded (forwarded s ++ [item])
                              (set_m_sharedContainer (push item (m_sharedContainer s)) s)))
              | [] => Steps (set_worker_at at_lock (set_m_workerThreadMutex false s))
              end
          | Consumer =>
              let item := default inhabitant (head held) in
              let s := set_delivered (delivered s ++ [item]) (set_m_workerThreadMutex false s) in
              if m_callable item
              then Steps (set_worker_at at_lock s)
              else Steps (workerThread_returns s)
          end
      | worker_returned => Blocked
      end
  | _ => Blocked
  end.

(** Who moves next.  The client calls a public member function; other
    roles sharing the container push into it or pop from it. *)
Inductive event : Type :=
  | call_enableWorkerThread
  | call_disableWorkerThread
  | call_shutdownMainThread
  | call_push (items : list Elem)
  | shared_push (x : Elem)
  | shared_tryPop
  | main_thread (thread_starts : bool)
  | worker_thread.

Definition step (e : event) (s : System) : step_result :=
  match e with
  | call_enableWorkerThread => Steps (enableWorkerThread s)
  | call_disableWorkerThread => Steps (disableWorkerThread s)
  | call_shutdownMainThread => Steps (shutdownMainThread_push s)
  | call_push items =>
    match type with
    | Producer => Steps (Producer_push items s)
    | Consumer => Blocked
    end
  | shared_push x => Steps (set_m_sharedContainer (push x (m_sharedContainer s)) s)
  | shared_tryPop =>
      match tryPop (m_sharedContainer s) with
      | Returns _ q => Steps (set_m_sharedContainer q s)
      | _ => Blocked
      end
  | main_thread thread_starts => mainThreadWork thread_starts s
  | worker_thread => workerThreadWork s
  end.

(** A schedule runs event by event, as long as each scheduled thread can move. *)
Fixpoint run (schedule : list event) (s : System) : step_result :=
  match schedule with
  | [] => Steps s
  | e :: schedule =>
      match step e s with
      | Steps s => run schedule s
      | r => r
      end
  end.

Inductive reachable (s0 : System) : System → Prop :=
  | reachable_init : reachable s0 s0
  | reachable_step s e s' : reachable s0 s → step e s = Steps s' → reachable s0 s'.

(** The worker holds [m_workerThreadMutex] from the moment its
    [std::unique_lock] is built to the end of the loop body, except while
    it is suspended in [wait]. *)
Definition holds_mutex (pc : worker_pc) : bool :=
  match pc with
  | at_predicate _ | at_check _ | at_body _ => true
  | at_lock | in_wait _ | worker_returned => false
  end.

(** What holds of the threads and the flags in every state the system
    reaches. *)
Definition threads_consistent (s : System) : Prop :=
  (m_workerThread s = Some running ↔ worker_at s ≠ worker_returned) ∧
  m_workerThreadMutex s = holds_mutex (worker_at s) ∧
  (m_workerThreadEnabled s = false → (∀ c, main_at s ≠ in_join c) →
     m_workerThread s = None ∨ m_workerThread s = Some joined) ∧
  (∀ c, main_at s = in_join c → m_workerThreadEnabled s = false) ∧
  (m_workerThreadEnabled s = true → main_at s ≠ returned →
     m_workerThread s = Some running ∨ m_workerThread s = Some finished) ∧
  (main_at s ≠ returned → m_mainThread s = Some running).

(** The control thread only ever joins a thread object that exists and is
    joinable. *)
Definition joins_a_thread (s : System) : Prop :=
  ∀ c, main_at s = in_join c →
       m_workerThread s = Some running ∨ m_workerThread s = Some finished.

(** What holds of the items: a producer has forwarded, holds or still
    buffers exactly the items it was given, in their order; a consumer has
    delivered or holds exactly the items it popped, and holds one item
    when it is about to call the callback.  The worker holds nothing while it
    evaluates the wait predicate or waits, and nothing when it finds itself
    disabled. *)
Definition items_consistent (s : System) : Prop :=
  is_fifo (m_commandQueue s) ∧
  is_fifo (m_vectorItemsQueue s) ∧
  (∀ held, worker_at s = at_predicate held ∨ worker_at s = in_wait held → held = []) ∧
  (∀ held, worker_at s = at_check held → m_workerThreadEnabled s = true ∨ held = []) ∧
  match type with
  | Producer =>
      forwarded s ++ held_by (worker_at s) ++ concat (payloads (m_vectorItemsQueue s))
      = pushed s
  | Consumer =>
      popped s = delivered s ++ held_by (worker_at s) ∧
      ∀ held, worker_at s = at_body held ∨
              (worker_at s = at_check held ∧ m_workerThreadEnabled s = true) →
              ∃ item, held = [item]
  end.

(** The worker is inside the loop body only while it is enabled. *)
Definition body_enabled (s : System) : Prop :=
  ∀ held, worker_at s = at_body held → m_workerThreadEnabled s = true.

(** [m_isWorkerThreadRunning] is set from the first statement after the
    lock to the statement that leaves the loop. *)
Definition running_flag (s : System) : Prop :=
  match worker_at s with
  | at_lock | worker_returned => True
  | _ => m_isWorkerThreadRunning s = true
  end.

(** A schedule in which only the two threads of the controller move, and
    every thread they create starts. *)
Definition threads_only (schedule : list event) : bool :=
  forallb (λ e, match e with
                | main_thread thread_starts => thread_starts
                | worker_thread => true
                | _ => false
                end) schedule.

(** The commands a schedule makes the client issue, and the commands it
    makes the control thread take from [m_commandQueue], in order. *)
Definition issued (schedule : list event) : list Command :=
  omap (λ e, match e with
             | call_enableWorkerThread => Some EnableWorkerThread
             | call_disableWorkerThread => Some DisableWorkerThread
             | call_shutdownMainThread => Some ShutdownMainThread
             | _ => None
             end) schedule.

Fixpoint taken (schedule : list event) (s : System) : list Command :=
  match schedule with
  | [] => []
  | e :: schedule =>
      match step e s with
      | Steps s' =>
          match e, main_at s, main_at s' with
          | main_thread _, in_waitAndPop, at_command currentCommand => [currentCommand]
          | _, _, _ => []
          end ++ taken schedule s'
      | _ => []
      end
  end.

(** What a schedule can observe of a state: the contents of the three
    queues in place of their handles, and every other field but
    [m_mainThread]. *)
Definition view (s : System) :=
  (payloads (m_commandQueue s), m_workerThread s, m_workerThreadMutex s,
   m_workerThreadEnabled s, m_isWorkerThreadRunning s, payloads (m_vectorItemsQueue s),
   main_at s, worker_at s, pushed s, forwarded s, popped s, delivered s,
   payloads (m_sharedContainer s)).

(** The command queue and the buffer are [std::queue]s by construction;
    [queues_fifo] asks the same of the shared container. *)
Definition queues_fifo (s : System) : Prop :=
  is_fifo (m_commandQueue s) ∧ is_fifo (m_vectorItemsQueue s) ∧
  is_fifo (m_sharedContainer s).

(** [schedule] takes every state that looks like [before] to a state that
    looks like [after], with no thread blocked on the way. *)
Definition reaches (schedule : list event) (before after : _) : Prop :=
  ∀ s, queues_fifo s → view s = before →
       ∃ s', run schedule s = Steps s' ∧ queues_fifo s' ∧ view s' = after.

End ProducerConsumer.

(** The state a schedule ends in, when every scheduled thread could move. *)
Definition final {Elem : Type} (r : @step_result Elem) : option (@System Elem) :=
  match r with
  | Steps s => Some s
  | _ => None
  end.

(** *** Schedules of the sequence Enable, push, Disable, Enable

    A producer is enabled and given the batches 1, 2 and 3; its worker has
    taken the first batch from the buffer and pushed 1 when the client asks
    for Disable.  [producer_interrupted] ends there, with the control thread
    about to lock the mutex the worker holds; [producer_disabled] lets the
    worker finish the batch and see the flag, and the control thread join
    it; [producer_enabled_again] is the second Enable and the worker's run
    through the remaining batch. *)
Definition producer_interrupted : list (@event Z) :=
  [call_enableWorkerThread; main_thread true; main_thread true;
   call_push [1; 2]%Z; call_push [3]%Z;
   worker_thread; worker_thread; worker_thread; worker_thread;
   call_disableWorkerThread; main_thread true].

Definition producer_disabled : list (@event Z) :=
  [worker_thread; worker_thread; main_thread true;
   worker_thread; worker_thread; worker_thread; main_thread true].

Definition producer_enabled_again : list (@event Z) :=
  [call_enableWorkerThread; main_thread true; main_thread true;
   worker_thread; worker_thread; worker_thread; worker_thread; worker_thread].

(** The client asks for Enable, Disable and Enable before the control
    thread runs.  [rapid_commands_joining] ends with the control thread in
    [join], the first worker still running; [rapid_commands_served] lets that
    worker return and the control thread handle the second Enable. *)
Definition rapid_commands_joining {Elem : Type} : list (@event Elem) :=
  [call_enableWorkerThread; call_disableWorkerThread; call_enableWorkerThread;
   main_thread true; main_thread true; main_thread true; main_thread true].

Definition rapid_commands_served {Elem : Type} : list (@event Elem) :=
  [worker_thread; worker_thread; worker_thread;
   main_thread true; main_thread true; main_thread true].

(** A consumer of a queue holding 1, 2 and 3 whose callback throws on 1
    ([fails_on_1]): the worker is created, pops 1 and calls the callback.
    [consumer_calls_back] ends just before the call. *)
Definition fails_on_1 (item : Z) : bool := negb (item =? 1)%Z.

Definition consumer_calls_back : list (@event Z) :=
  [call_enableWorkerThread; main_thread true; main_thread true;
   worker_thread; worker_thread; worker_thread].

(** The client asks for Enable and [std::make_unique<std::thread>] throws
    when the control thread creates the worker. *)
Definition worker_start_fails {Elem : Type} : list (@event Elem) :=
  [call_enableWorkerThread; main_thread true; main_thread false].

(** The first command the control thread handles is a Disable, or the
    Shutdown of the destructor: no worker thread was created yet. *)
Definition disable_first {Elem : Type} : list (@event Elem) :=
  [call_disableWorkerThread; main_thread true; main_thread true].

Definition shutdown_first {Elem : Type} : list (@event Elem) :=
  [call_shutdownMainThread; main_thread true; main_thread true].

(** The same sequence for any batches: the producer is enabled and its
    worker waits on the empty buffer; the client pushes the batches and asks
    for Disable; the worker is woken, sees the flag and returns, and the
    control thread joins it ([producer_sequence_idle]).  After the second
    Enable the new worker needs four statements and one per item for each
    batch, and two more to wait on the empty buffer ([drain_steps]). *)
Definition producer_sequence_idle {Elem : Type} (batches : list (list Elem))
    : list (@event Elem) :=
  [call_enableWorkerThread; main_thread true; main_thread true;
   worker_thread; worker_thread] ++
  (call_push <$> batches) ++
  [call_disableWorkerThread; main_thread true; main_thread true;
   worker_thread; worker_thread; worker_thread; main_thread true].

Definition drain_steps {Elem : Type} (batches : list (list Elem)) : nat :=
  foldr (λ batch n, length batch + 4 + n) 2 batches.

Definition producer_sequence {Elem : Type} (batches : list (list Elem))
    : list (@event Elem) :=
  producer_sequence_idle batches ++
  [call_enableWorkerThread; main_thread true; main_thread true] ++
  replicate (drain_steps batches) worker_thread.

(** For a consumer the items are pushed into the shared container by its
    other users; the new worker needs four statements per item. *)
Definition consumer_sequence_idle {Elem : Type} (items : list Elem) : list (@event Elem) :=
  [call_enableWorkerThread; main_thread true; main_thread true;
   worker_thread; worker_thread] ++
  (shared_push <$> items) ++
  [call_disableWorkerThread; main_thread true; main_thread true;
   worker_thread; worker_thread; worker_thread; main_thread true].

Definition consumer_sequence {Elem : Type} (items : list Elem) : list (@event Elem) :=
  consumer_sequence_idle items ++
  [call_enableWorkerThread; main_thread true; main_thread true] ++
  replicate (4 * length items + 2) worker_thread.

(** A consumer of a queue holding 1, 2 and 3 is enabled; its worker has
    popped 1 and is about to call the callback when the client asks for
    Disable. *)
Definition consumer_interrupted : list (@event Z) :=
  [call_enableWorkerThread; main_thread true; main_thread true;
   worker_thread; worker_thread; worker_thread;
   call_disableWorkerThread; main_thread true].

Definition consumer_disabled : list (@event Z) :=
  [worker_thread; main_thread true;
   worker_thread; worker_thread; worker_thread; main_thread true].

Definition consumer_enabled_again : list (@event Z) :=
  [call_enableWorkerThread; main_thread true; main_thread true;
   worker_thread; worker_thread; worker_thread; worker_thread;
   worker_thread; worker_thread; worker_thread; worker_thread;
   worker_thread; worker_thread].

End concurrency.

(** ** The variant of namespace [mt]

    [mt::ThreadSafeSTLAdapter] has the member functions of
    [concurrency::ThreadsafeSTLAdapter] statement for statement, so the
    definitions above serve both.  The controller differs: the enabled flag is
    a [std::atomic<bool>] that the worker polls, there is no condition
    variable and no [m_isWorkerThreadRunning], the threads are
    [std::jthread]s, and [interruptWorkerThread] has no guard.
    [m_workerThreadMutex] is only ever locked by the control thread and is
    left out. *)
Module mt.
Import concurrency.

Inductive Command : Set := EnableWorkerThread | DisableWorkerThread | ShutdownMainThread.

Global Instance Command_inhabited : Inhabited Command := populate EnableWorkerThread.

Inductive Type_ : Set := Producer | Consumer.

Inductive main_pc : Set :=
  | in_waitAndPop
  | at_command (currentCommand : Command)
  | in_join (currentCommand : Command)
  | returned.

Section ProducerConsumer.
Context {Elem : Type} `{!Inhabited Elem}.
Context (moved_from : Elem → Elem) (moved_from_vector : list Elem → list Elem).
Context (type : Type_) (m_callable : Elem → bool).

(** Where the worker stands in [workerThreadWork]; [held] is [vectorItem]
    or, for a consumer, the popped [item]. *)
Inductive worker_pc : Type :=
  | at_while                     (* while (this->m_workerThreadEnabled) *)
  | at_tryPop                    (* if (....tryPop(...)) *)
  | at_body (held : list Elem)   (* the for loop / the callback *)
  | worker_returned.

Definition held_by (pc : worker_pc) : list Elem :=
  match pc with
  | at_body held => held
  | at_while | at_tryPop | worker_returned => []
  end.

Record System : Type := {
  m_commandQueue : @ThreadsafeSTLAdapter Command;
  m_mainThread : option thread;
  m_sharedContainer : @ThreadsafeSTLAdapter Elem;
  m_workerThread : option thread;
  m_workerThreadEnabled : bool;
  m_vectorItemsQueue : @ThreadsafeSTLAdapter (list Elem);
  main_at : main_pc;
  worker_at : worker_pc;
  delivered : list Elem
}.

Definition set_m_commandQueue (x : @ThreadsafeSTLAdapter Command) (s : System) : System :=
  {| m_commandQueue := x; m_mainThread := m_mainThread s;
     m_sharedContainer := m_sharedContainer s; m_workerThread := m_workerThread s;
     m_workerThreadEnabled := m_workerThreadEnabled s;
     m_vectorItemsQueue := m_vectorItemsQueue s; main_at := main_at s;
     worker_at := worker_at s; delivered := delivered s |}.
Definition set_m_mainThread (x : option thread) (s : System) : System :=
  {| m_commandQueue := m_commandQueue s; m_mainThread := x;
     m_sharedContainer := m_sharedContainer s; m_workerThread := m_workerThread s;
     m_workerThreadEnabled := m_workerThreadEnabled s;
     m_vectorItemsQueue := m_vectorItemsQueue s; main_at := main_at s;
     worker_at := worker_at s; delivered := delivered s |}.
Definition set_m_sharedContainer (x : @ThreadsafeSTLAdapter Elem) (s : System) : System :=
  {| m_commandQueue := m_commandQueue s; m_mainThread := m_mainThread s;
     m_sharedContainer := x; m_workerThread := m_workerThread s;
     m_workerThreadEnabled := m_workerThreadEnabled s;
     m_vectorItemsQueue := m_vectorItemsQueue s; main_at := main_at s;
     worker_at := worker_at s; delivered := delivered s |}.
Definition set_m_workerThread (x : option thread) (s : System) : System :=
  {| m_commandQueue := m_commandQueue s; m_mainThread := m_mainThread s;
     m_sharedContainer := m_sharedContainer s; m_workerThread := x;
     m_workerThreadEnabled := m_workerThreadEnabled s;
     m_vectorItemsQueue := m_vectorItemsQueue s; main_at := main_at s;
     worker_at := worker_at s; delivered := delivered s |}.
Definition set_m_workerThreadEnabled (x : bool) (s : System) : System :=
  {| m_commandQueue := m_commandQueue s; m_mainThread := m_mainThread s;
     m_sharedContainer := m_sharedContainer s; m_workerThread := m_workerThread s;
     m_workerThreadEnabled := x; m_vectorItemsQueue := m_vectorItemsQueue s;
     main_at := main_at s; worker_at := worker_at s; delivered := delivered s |}.
Definition set_m_vectorItemsQueue (x : @ThreadsafeSTLAdapter (list Elem)) (s : System) : System :=
  {| m_commandQueue := m_commandQueue s; m_mainThread := m_mainThread s;
     m_sharedContainer := m_sharedContainer s; m_workerThread := m_workerThread s;
     m_workerThreadEnabled := m_workerThreadEnabled s; m_vectorItemsQueue := x;
     main_at := main_at s; worker_at := worker_at s; delivered := delivered s |}.
Definition set_main_at (x : main_pc) (s : System) : System :=
  {| m_commandQueue := m_commandQueue s; m_mainThread := m_mainThread s;
     m_sharedContainer := m_sharedContainer s; m_workerThread := m_workerThread s;
     m_workerThreadEnabled := m_workerThreadEnabled s;
     m_vectorItemsQueue := m_vectorItemsQueue s; main_at := x; worker_at := worker_at s;
     delivered := delivered s |}.
Definition set_worker_at (x : worker_pc) (s : System) : System :=
  {| m_commandQueue := m_commandQueue s; m_mainThread := m_mainThread s;
     m_sharedContainer := m_sharedContainer s; m_workerThread := m_workerThread s;
     m_workerThreadEnabled := m_workerThreadEnabled s;
     m_vectorItemsQueue := m_vectorItemsQueue s; main_at := main_at s; worker_at := x;
     delivered := delivered s |}.
Definition set_delivered (x : list Elem) (s : System) : System :=
  {| m_commandQueue := m_commandQueue s; m_mainThread := m_mainThread s;
     m_sharedContainer := m_sharedContainer s; m_workerThread := m_workerThread s;
     m_workerThreadEnabled := m_workerThreadEnabled s;
     m_vectorItemsQueue := m_vectorItemsQueue s; main_at := main_at s;
     worker_at := worker_at s; delivered := x |}.

Definition ProducerConsumerBase (sharedContainer : @ThreadsafeSTLAdapter Elem) : System :=
  {| m_commandQueue := createThreadsafeSTLAdapterFrom (stl.queue []) tt ∅;
     m_mainThread := None;
     m_sharedContainer := sharedContainer;
     m_workerThread := None;
     m_workerThreadEnabled := false;
     m_vectorItemsQueue := createThreadsafeSTLAdapterFrom (stl.queue []) tt ∅;
     main_at := returned;
     worker_at := worker_returned;
     delivered := [] |}.

Definition runMainThread (thread_starts : bool) (s : System) : System :=
  if thread_starts
  then set_main_at in_waitAndPop (set_m_mainThread (Some running) s)
  else s.

Definition construct (sharedContainer : @ThreadsafeSTLAdapter Elem) (thread_starts : bool)
    : System :=
  runMainThread thread_starts (ProducerConsumerBase sharedContainer).

Definition enableWorkerThread (s : System) : System :=
  set_m_commandQueue (pushAndNotify EnableWorkerThread (m_commandQueue s)) s.

Definition disableWorkerThread (s : System) : System :=
  set_m_commandQueue (pushAndNotify DisableWorkerThread (m_commandQueue s)) s.

Definition shutdownMainThread_push (s : System) : System :=
  set_m_commandQueue (pushAndNotify ShutdownMainThread (m_commandQueue s)) s.

(** [shutdownMainThread], after the try block:
    [if (m_mainThread->joinable()) m_mainThread->join();]. *)
Definition shutdownMainThread_join (s : System) : outcome unit System :=
  match m_mainThread s with
  | None => Undefined
  | Some running => Suspends s
  | Some finished => Returns tt (set_m_mainThread (Some joined) s)
  | Some joined => Returns tt s
  end.

Definition shutdownMainThread (s : System) : outcome unit System :=
  shutdownMainThread_join (shutdownMainThread_push s).

Definition Producer_push (items : list Elem) (s : System) : System :=
  set_m_vectorItemsQueue (push items (m_vectorItemsQueue s)) s.

Inductive step_result : Type :=
  | Steps (s : System)
  | Blocked
  | SecondWorker          (* a worker is started while the previous one still runs *)
  | UndefinedBehaviour.   (* a null pointer is dereferenced *)

Definition mainThreadWork_returns (s : System) : System :=
  set_main_at returned (set_m_mainThread (Some finished) s).

Definition go_after_interrupt (currentCommand : Command) (s : System) : System :=
  match currentCommand with
  | ShutdownMainThread => mainThreadWork_returns s
  | _ => set_main_at in_waitAndPop s
  end.

(** [interruptWorkerThread] up to the call of [join]. *)
Definition interruptWorkerThread (currentCommand : Command) (s : System) : step_result :=
  let s := set_m_workerThreadEnabled false s in
  match m_workerThread s with
  | None => UndefinedBehaviour
  | Some t =>
      if joinable t then Steps (set_main_at (in_join currentCommand) s)
      else Steps (go_after_interrupt currentCommand s)
  end.

(** One statement of [mainThreadWork]. *)
Definition mainThreadWork (thread_starts : bool) (s : System) : step_result :=
  match main_at s with
  | in_waitAndPop =>
      match waitAndPop_ref id inhabitant (m_commandQueue s) with
      | Returns _ (currentCommand, q) =>
          Steps (set_main_at (at_command currentCommand) (set_m_commandQueue q s))
      | Suspends _ => Blocked
      | Throws _ _ => Steps (mainThreadWork_returns s)
      | Undefined => UndefinedBehaviour
      end
  | at_command EnableWorkerThread =>
      if negb (m_workerThreadEnabled s) then
        let s := set_m_workerThreadEnabled true s in
        if thread_starts then
          match m_workerThread s with
          | Some running => SecondWorker
          | Some finished | Some joined | None =>
              Steps (set_main_at in_waitAndPop
                       (set_worker_at at_while (set_m_workerThread (Some running) s)))
          end
        else Steps (mainThreadWork_returns s)
      else Steps (set_main_at in_waitAndPop s)
  | at_command DisableWorkerThread => interruptWorkerThread DisableWorkerThread s
  | at_command ShutdownMainThread => interruptWorkerThread ShutdownMainThread s
  | in_join currentCommand =>
      match m_workerThread s with
      | None => UndefinedBehaviour
      | Some running => Blocked
      | Some finished =>
          Steps (go_after_interrupt currentCommand (set_m_workerThread (Some joined) s))
      | Some joined => Steps (go_after_interrupt currentCommand s)
      end
  | returned => Blocked
  end.

Definition workerThread_returns (s : System) : System :=
  set_worker_at worker_returned (set_m_workerThread (Some finished) s).

(** The next statement of the control thread creates a worker thread. *)
Definition spawns (s : System) : bool :=
  match main_at s with
  | at_command EnableWorkerThread => negb (m_workerThreadEnabled s)
  | _ => false
  end.

(** One statement of [workerThreadWork]. *)
Definition workerThreadWork (s : System) : step_result :=
  match m_workerThread s with
  | Some running =>
      match worker_at s with
      | at_while =>
          if m_workerThreadEnabled s then Steps (set_worker_at at_tryPop s)
          else Steps (workerThread_returns s)
      | at_tryPop =>
          match type with
          | Producer =>
              match tryPop_ref moved_from_vector [] (m_vectorItemsQueue s) with
              | Returns true (vectorItem, q) =>
                  Steps (set_worker_at (at_body vectorItem) (set_m_vectorItemsQueue q s))
              | Returns false _ => Steps (set_worker_at at_while s)
              | Throws _ _ | Suspends _ => Steps (workerThread_returns s)
              | Undefined => UndefinedBehaviour
              end
          | Consumer =>
              match tryPop_ref moved_from inhabitant (m_sharedContainer s) with
              | Returns true (item, q) =>
                  Steps (set_worker_at (at_body [item]) (set_m_sharedContainer q s))
              | Returns false _ => Steps (set_worker_at at_while s)
              | Throws _ _ | Suspends _ => Steps (workerThread_returns s)
              | Undefined => UndefinedBehaviour
              end
          end
      | at_body held =>
          match type with
          | Producer =>
              match held with
              | item :: rest =>
                  Steps (set_worker_at (at_body rest)
                           (set_m_sharedContainer (push item (m_sharedContainer s)) s))
              | [] => Steps (set_worker_at at_while s)
              end
          | Consumer =>
              let item := default inhabitant (head held) in
              let s := set_delivered (delivered s ++ [item]) s in
              if m_callable item
              then Steps (set_worker_at at_while s)
              else Steps (workerThread_returns s)
          end
      | worker_returned => Blocked
      end
  | _ => Blocked
  end.

Inductive event : Type :=
  | call_enableWorkerThread
  | call_disableWorkerThread
  | call_shutdownMainThread
  | call_push (items : list Elem)
  | shared_push (x : Elem)
  | shared_tryPop
  | main_thread (thread_starts : bool)
  | worker_thread.

Definition step (e : event) (s : System) : step_result :=
  match e with
  | call_enableWorkerThread => Steps (enableWorkerThread s)
  | call_disableWorkerThread => Steps (disableWorkerThread s)
  | call_shutdownMainThread => Steps (shutdownMainThread_push s)
  | call_push items =>
    match type with
    | Producer => Steps (Producer_push items s)
    | Consumer => Blocked
    end
  | shared_push x => Steps (set_m_sharedContainer (push x (m_sharedContainer s)) s)
  | shared_tryPop =>
      match tryPop (m_sharedContainer s) with
      | Returns _ q => Steps (set_m_sharedContainer q s)
      | _ => Blocked
      end
  | main_thread thread_starts => mainThreadWork thread_starts s
  | worker_thread => workerThreadWork s
  end.

Fixpoint run (schedule : list event) (s : System) : step_result :=
  match schedule with
  | [] => Steps s
  | e :: schedule =>
      match step e s with
      | Steps s => run schedule s
      | r => r
      end
  end.

Inductive reachable (s0 : System) : System → Prop :=
  | reachable_init : reachable s0 s0
  | reachable_step s e s' : reachable s0 s → step e s = Steps s' → reachable s0 s'.

(** What holds of the threads and the flag in every state the system
    reaches. *)
Definition threads_consistent (s : System) : Prop :=
  is_fifo (m_commandQueue s) ∧
  (m_workerThread s = Some running ↔ worker_at s ≠ worker_returned) ∧
  (m_workerThreadEnabled s = false → (∀ c, main_at s ≠ in_join c) →
     m_workerThread s = None ∨ m_workerThread s = Some joined) ∧
  (∀ c, main_at s = in_join c → m_workerThreadEnabled s = false) ∧
  (m_workerThreadEnabled s = true → main_at s ≠ returned →
     m_workerThread s = Some running ∨ m_workerThread s = Some finished).

(** The commands a schedule makes the client issue, in call order. *)
Definition issued (schedule : list event) : list Command :=
  omap (λ e, match e with
             | call_enableWorkerThread => Some EnableWorkerThread
             | call_disableWorkerThread => Some DisableWorkerThread
             | call_shutdownMainThread => Some ShutdownMainThread
             | _ => None
             end) schedule.

(** A schedule in which only the two threads of the controller move, and
    every thread they create starts. *)
Definition threads_only (schedule : list event) : bool :=
  forallb (λ e, match e with
                | main_thread thread_starts => thread_starts
                | worker_thread => true
                | _ => false
                end) schedule.


(** No worker was created yet and no command was issued. *)
Definition nothing_issued (s : System) : Prop :=
  m_workerThread s = None ∧ payloads (m_commandQueue s) = [] ∧
  (main_at s = in_waitAndPop ∨ main_at s = returned) ∧ m_workerThreadEnabled s = false.

(** As long as no worker was created, the command to be handled next is
    [EnableWorkerThread], or the control thread has returned. *)
Definition enable_pending (s : System) : Prop :=
  m_workerThread s = None →
  main_at s = returned ∨
  (main_at s = in_waitAndPop ∧
   head (payloads (m_commandQueue s)) = Some EnableWorkerThread) ∨
  (main_at s = at_command EnableWorkerThread ∧ m_workerThreadEnabled s = false).

(** A controller whose control thread exists and whose first command was
    Enable: what holds of it in every state it reaches. *)
Definition well_started (s : System) : Prop :=
  threads_consistent s ∧ enable_pending s ∧
  is_fifo (m_vectorItemsQueue s) ∧ valid (m_sharedContainer s) ∧
  (main_at s = returned → m_mainThread s = Some finished).

(** The elements on their way through a producer, oldest first: those in
    the shared container, the rest of the batch the worker forwards, and
    the batches still queued.  The elements on their way through a
    consumer: those handed to the callback, the one the worker holds, and
    those still in the shared container. *)
Definition items_of_producer (s : System) : list Elem :=
  payloads (m_sharedContainer s) ++ held_by (worker_at s) ++
  concat (payloads (m_vectorItemsQueue s)).

Definition items_of_consumer (s : System) : list Elem :=
  delivered s ++ held_by (worker_at s) ++ payloads (m_sharedContainer s).

(** The batches a schedule hands to [Producer::push], and the elements it
    makes other users push into the shared container. *)
Definition batches (schedule : list event) : list (list Elem) :=
  omap (λ e, match e with call_push items => Some items | _ => None end) schedule.

Definition shared_pushes (schedule : list event) : list Elem :=
  omap (λ e, match e with shared_push x => Some x | _ => None end) schedule.

(** The events of the controller and of its client, and the events other
    than a pop by another user of the shared container. *)
Definition own (e : event) : bool :=
  match e with
  | shared_push _ | shared_tryPop => false
  | _ => true
  end.

Definition no_shared_pop (e : event) : bool :=
  match e with
  | shared_tryPop => false
  | _ => true
  end.

End ProducerConsumer.

Definition final {Elem : Type} (r : @step_result Elem) : option (@System Elem) :=
  match r with
  | Steps s => Some s
  | _ => None
  end.

(** The client asks for Enable, Disable and Enable before the control
    thread runs; the worker of [mt] needs one statement to see the flag. *)
Definition rapid_commands_joining {Elem : Type} : list (@event Elem) :=
  [call_enableWorkerThread; call_disableWorkerThread; call_enableWorkerThread;
   main_thread true; main_thread true; main_thread true; main_thread true].

Definition rapid_commands_served {Elem : Type} : list (@event Elem) :=
  [worker_thread; main_thread true; main_thread true; main_thread true].

(** A consumer of a queue holding 1, 2 and 3 whose callback throws on 1:
    the worker is created, pops 1 and is about to call the callback. *)
Definition consumer_calls_back : list (@event Z) :=
  [call_enableWorkerThread; main_thread true; main_thread true;
   worker_thread; worker_thread].

(** The first command the control thread handles is a Disable, or the
    Shutdown of the destructor: [m_workerThread] is still null. *)
Definition disable_first {Elem : Type} : list (@event Elem) :=
  [call_disableWorkerThread; main_thread true; main_thread true].

Definition shutdown_first {Elem : Type} : list (@event Elem) :=
  [call_shutdownMainThread; main_thread true; main_thread true].

End mt.

Import concurrency.

(** * Properties *)

(** ** Index arithmetic of the implicit binary tree *)

Lemma div2_bounds (n : nat) : 2 * (n / 2) ≤ n ∧ n < 2 * (n / 2) + 2.
Proof.
  pose proof (Nat.div_mod n 2 ltac:(lia)).
  pose proof (Nat.mod_upper_bound n 2 ltac:(lia)). lia.
Qed.

(** [lia] after the bounds of every quotient by two in sight. *)
Ltac halves :=
  repeat match goal with
  | |- context [?n / 2] =>
      lazymatch goal with
      | _ : 2 * (n / 2) ≤ n ∧ _ |- _ => fail
      | _ => pose proof (div2_bounds n)
      end
  | H : context [?n / 2] |- _ =>
      lazymatch goal with
      | _ : 2 * (n / 2) ≤ n ∧ _ |- _ => fail
      | _ => pose proof (div2_bounds n)
      end
  end; lia.

Lemma even_double (len : nat) : Nat.even len = true → ∃ k, len = 2 * k.
Proof. intros He. apply Nat.even_spec in He. exact He. Qed.

(** ** The heap algorithms *)
Section heap_facts.
Context {T : Type} (comp : T → T → bool).
Implicit Types (first : list T) (value x y z : T).

Lemma is_heap_spec first :
  stl.is_heap comp first = true ↔ stl.heap_upto comp first (length first).
Proof.
  unfold stl.is_heap, stl.heap_upto. rewrite forallb_forall. split.
  - intros H i p x Hi Hlen Hp Hx.
    specialize (H i). rewrite Hp, Hx in H.
    apply negb_true_iff, H, in_seq. lia.
  - intros H i [Hi Hlen]%in_seq.
    destruct (first !! ((i - 1) / 2)) as [p|] eqn:Hp; [|done].
    destruct (first !! i) as [x|] eqn:Hx; [|done].
    apply negb_true_iff. eapply H; eauto; lia.
Qed.

Lemma heap_upto_le first len len' :
  len' ≤ len → stl.heap_upto comp first len → stl.heap_upto comp first len'.
Proof. intros ? H i p x ? ? ? ?. eapply H; eauto; lia. Qed.

Lemma heap_upto_agree first first' len :
  (∀ i, i < len → first' !! i = first !! i) →
  stl.heap_upto comp first len → stl.heap_upto comp first' len.
Proof.
  intros Hag H i p x Hi Hlen Hp Hx.
  rewrite Hag in Hp by halves. rewrite Hag in Hx by lia. eauto.
Qed.

(** The order only depends on the comparator at the elements of the array. *)
Lemma heap_upto_ext (comp' : T → T → bool) first len :
  (∀ x y, x ∈ first → y ∈ first → comp' x y = comp x y) →
  stl.heap_upto comp first len → stl.heap_upto comp' first len.
Proof.
  intros Hext H i p x Hi Hlen Hp Hx.
  rewrite Hext by (eapply list_elem_of_lookup_2; eauto). eauto.
Qed.

Lemma push_heap_loop_length fuel first holeIndex topIndex value :
  length (stl.push_heap_loop comp fuel first holeIndex topIndex value) = length first.
Proof.
  revert first holeIndex.
  induction fuel as [|fuel IH]; intros first holeIndex; simpl.
  { by rewrite length_insert. }
  repeat case_match; rewrite ?IH, ?length_insert; done.
Qed.

Lemma push_heap_loop_above fuel first holeIndex topIndex value j :
  holeIndex < j →
  stl.push_heap_loop comp fuel first holeIndex topIndex value !! j = first !! j.
Proof.
  revert first holeIndex.
  induction fuel as [|fuel IH]; intros first holeIndex Hj; cbn [stl.push_heap_loop].
  { rewrite list_lookup_insert_ne; [done|lia]. }
  repeat case_match; try (rewrite list_lookup_insert_ne; [done|lia]).
  rewrite IH by halves. rewrite list_lookup_insert_ne; [done|lia].
Qed.

Lemma push_heap_loop_perm fuel first holeIndex topIndex value :
  holeIndex < length first →
  stl.push_heap_loop comp fuel first holeIndex topIndex value
    ≡ₚ <[holeIndex := value]> first.
Proof.
  revert first holeIndex.
  induction fuel as [|fuel IH]; intros first holeIndex Hlen; cbn [stl.push_heap_loop]; [done|].
  destruct (topIndex <? holeIndex) eqn:Htop; [|done].
  apply Nat.ltb_lt in Htop.
  destruct (first !! ((holeIndex - 1) / 2)) as [p|] eqn:Hp; [|done].
  destruct (comp p value); [|done].
  rewrite IH by (rewrite length_insert; halves).
  assert ((holeIndex - 1) / 2 ≠ holeIndex) as Hne by halves.
  rewrite <-(list_insert_insert_eq first holeIndex p value).
  apply Permutation_insert_swap.
  - by apply list_lookup_insert_eq.
  - by rewrite list_lookup_insert_ne.
Qed.

Lemma adjust_heap_down_length fuel first holeIndex len :
  length (stl.adjust_heap_down comp fuel first holeIndex len).1 = length first.
Proof.
  revert first holeIndex.
  induction fuel as [|fuel IH]; intros first holeIndex; simpl; [done|].
  repeat case_match; rewrite ?IH, ?length_insert; done.
Qed.

Lemma adjust_heap_down_hole fuel first holeIndex len :
  holeIndex < len →
  holeIndex ≤ (stl.adjust_heap_down comp fuel first holeIndex len).2 < len.
Proof.
  revert first holeIndex.
  induction fuel as [|fuel IH]; intros first holeIndex Hlen; cbn [stl.adjust_heap_down fst snd]; [lia|].
  destruct (holeIndex <? (len - 1) / 2) eqn:Hc; [|cbn [fst snd]; lia].
  apply Nat.ltb_lt in Hc.
  destruct (first !! (2 * (holeIndex + 1))) as [r|]; [|cbn [fst snd]; lia].
  destruct (first !! (2 * (holeIndex + 1) - 1)) as [l|]; [|cbn [fst snd]; lia].
  destruct (comp r l).
  - specialize (IH (<[holeIndex := l]> first) (2 * (holeIndex + 1) - 1)). halves.
  - specialize (IH (<[holeIndex := r]> first) (2 * (holeIndex + 1))). halves.
Qed.

Lemma adjust_heap_down_above fuel first holeIndex len j :
  holeIndex < len → len ≤ j →
  (stl.adjust_heap_down comp fuel first holeIndex len).1 !! j = first !! j.
Proof.
  revert first holeIndex.
  induction fuel as [|fuel IH]; intros first holeIndex Hlen Hj; cbn [stl.adjust_heap_down fst snd]; [done|].
  destruct (holeIndex <? (len - 1) / 2) eqn:Hc; [|done].
  apply Nat.ltb_lt in Hc.
  destruct (first !! (2 * (holeIndex + 1))) as [r|]; [|done].
  destruct (first !! (2 * (holeIndex + 1) - 1)) as [l|]; [|done].
  destruct (comp r l); rewrite IH by halves;
    (rewrite list_lookup_insert_ne; [done|lia]).
Qed.

Lemma adjust_heap_down_perm fuel first holeIndex len value :
  holeIndex < len → len ≤ length first →
  let r := stl.adjust_heap_down comp fuel first holeIndex len in
  <[r.2 := value]> r.1 ≡ₚ <[holeIndex := value]> first.
Proof.
  revert first holeIndex.
  induction fuel as [|fuel IH]; intros first holeIndex Hlen Hfirst; cbn [stl.adjust_heap_down fst snd]; [done|].
  destruct (holeIndex <? (len - 1) / 2) eqn:Hc; [|done].
  apply Nat.ltb_lt in Hc.
  destruct (first !! (2 * (holeIndex + 1))) as [r|] eqn:Hr; [|done].
  destruct (first !! (2 * (holeIndex + 1) - 1)) as [l|] eqn:Hl; [|done].
  destruct (comp r l).
  - rewrite IH by (rewrite ?length_insert; halves).
    rewrite <-(list_insert_insert_eq first holeIndex l value).
    apply Permutation_insert_swap.
    + apply list_lookup_insert_eq. lia.
    + rewrite list_lookup_insert_ne by lia. done.
  - rewrite IH by (rewrite ?length_insert; halves).
    rewrite <-(list_insert_insert_eq first holeIndex r value).
    apply Permutation_insert_swap.
    + apply list_lookup_insert_eq. lia.
    + rewrite list_lookup_insert_ne by lia. done.
Qed.

(** When the loop stops the hole has at most a left child. *)
Lemma adjust_heap_down_stops fuel first holeIndex len :
  len ≤ fuel + holeIndex →
  len ≤ 2 * ((stl.adjust_heap_down comp fuel first holeIndex len).2 + 1) ∨
  length first ≤ 2 * ((stl.adjust_heap_down comp fuel first holeIndex len).2 + 1).
Proof.
  revert first holeIndex.
  induction fuel as [|fuel IH]; intros first holeIndex Hfuel; cbn [stl.adjust_heap_down fst snd]; [left; lia|].
  destruct (holeIndex <? (len - 1) / 2) eqn:Hc; [|apply Nat.ltb_ge in Hc; left; cbn [fst snd]; halves].
  apply Nat.ltb_lt in Hc.
  destruct (first !! (2 * (holeIndex + 1))) as [r|] eqn:Hr;
    [|right; cbn [fst snd]; apply lookup_ge_None in Hr; lia].
  destruct (first !! (2 * (holeIndex + 1) - 1)) as [l|] eqn:Hl;
    [|right; cbn [fst snd]; apply lookup_ge_None in Hl; lia].
  destruct (comp r l).
  - destruct (IH (<[holeIndex := l]> first) (2 * (holeIndex + 1) - 1)) as [?|?];
      [lia|by left|right]. by rewrite length_insert in *.
  - destruct (IH (<[holeIndex := r]> first) (2 * (holeIndex + 1))) as [?|?];
      [lia|by left|right]. by rewrite length_insert in *.
Qed.

End heap_facts.

Section heap_order.
Context {T : Type} (comp : T → T → bool).
Hypothesis comp_swo : stl.strict_weak_order comp.
Implicit Types (first : list T) (value x y z : T).

Lemma comp_asym x y : comp x y = true → comp y x = false.
Proof. apply comp_swo. Qed.

Lemma comp_irrefl x : comp x x = false.
Proof. destruct (comp x x) eqn:H; [|done]. by rewrite (comp_asym _ _ H) in H. Qed.

Lemma comp_trans x y z : comp x y = true → comp y z = true → comp x z = true.
Proof.
  intros Hxy Hyz. destruct comp_swo as [_ Hneg].
  destruct (Hneg y x z Hyz) as [Hyx|Hxz]; [|done].
  by rewrite (comp_asym _ _ Hxy) in Hyx.
Qed.

Lemma comp_ge_trans x y z : comp x y = false → comp y z = false → comp x z = false.
Proof.
  intros Hxy Hyz. destruct (comp x z) eqn:Hxz; [|done].
  destruct comp_swo as [_ Hneg]. destruct (Hneg x y z Hxz); congruence.
Qed.

(** The first element of a heap is not less than any other. *)
Lemma heap_top_greatest first x :
  stl.heap_upto comp first (length first) → first !! 0 = Some x →
  ∀ i y, first !! i = Some y → comp x y = false.
Proof.
  intros Hheap Hx i. induction i as [i IH] using lt_wf_ind. intros y Hy.
  destruct (decide (i = 0)) as [->|Hi].
  { rewrite Hx in Hy. injection Hy as <-. apply comp_irrefl. }
  pose proof (lookup_lt_Some _ _ _ Hy) as Hlen.
  destruct (lookup_lt_is_Some_2 first ((i - 1) / 2)) as [p Hp]; [halves|].
  apply comp_ge_trans with p.
  - apply (IH ((i - 1) / 2)); [halves|done].
  - apply (Hheap i); [lia|done..].
Qed.

(** Storing the value in the hole closes the heap when the parent of the
    hole is not less than the value. *)
Lemma fill_hole_heap first len holeIndex value :
  (holeIndex = 0 ∨ ∃ p, first !! ((holeIndex - 1) / 2) = Some p ∧ comp p value = false) →
  holeIndex < length first →
  stl.heap_around comp first len holeIndex →
  stl.covers comp first len holeIndex value →
  stl.heap_upto comp (<[holeIndex := value]> first) len.
Proof.
  intros Hexit Hlen [Ha Hb] Hc i p x Hi Hilen Hp Hx.
  destruct (decide (i = holeIndex)) as [->|Hne].
  - rewrite list_lookup_insert_eq in Hx by done. injection Hx as <-.
    rewrite list_lookup_insert_ne in Hp by halves.
    destruct Hexit as [?|(p' & Hp' & ?)]; [lia|]. congruence.
  - rewrite list_lookup_insert_ne in Hx by done.
    destruct (decide ((i - 1) / 2 = holeIndex)) as [Hpar|Hpar].
    + rewrite Hpar, list_lookup_insert_eq in Hp by done. injection Hp as <-.
      eapply Hc; eauto.
    + rewrite list_lookup_insert_ne in Hp by done. eapply Ha; eauto.
Qed.

(** One iteration of [__push_heap] keeps the heap around the hole. *)
Lemma push_heap_step first len holeIndex value p :
  0 < holeIndex → holeIndex < len → len ≤ length first →
  first !! ((holeIndex - 1) / 2) = Some p → comp p value = true →
  stl.heap_around comp first len holeIndex →
  stl.covers comp first len holeIndex value →
  stl.heap_around comp (<[holeIndex := p]> first) len ((holeIndex - 1) / 2) ∧
  stl.covers comp (<[holeIndex := p]> first) len ((holeIndex - 1) / 2) value.
Proof.
  intros Hpos Hlen Hfirst Hp Hcomp [Ha Hb] Hc.
  assert ((holeIndex - 1) / 2 < holeIndex) as Hlt by halves.
  split; [split|].
  - intros i q x Hi Hilen Hne Hpar Hq Hx.
    destruct (decide (i = holeIndex)) as [->|Hih]; [done|].
    rewrite list_lookup_insert_ne in Hx by done.
    destruct (decide ((i - 1) / 2 = holeIndex)) as [Hph|Hph].
    + rewrite Hph, list_lookup_insert_eq in Hq by lia. injection Hq as <-.
      eapply Hb; eauto.
    + rewrite list_lookup_insert_ne in Hq by done. eapply Ha; eauto.
  - intros i q x Hppos Hilen Hne Hpar Hq Hx.
    rewrite list_lookup_insert_ne in Hq by halves.
    assert (comp q p = false) as Hqp.
    { apply (Ha ((holeIndex - 1) / 2) q p); [halves..|done|done]. }
    destruct (decide (i = holeIndex)) as [->|Hih].
    + rewrite list_lookup_insert_eq in Hx by lia. by injection Hx as <-.
    + rewrite list_lookup_insert_ne in Hx by done.
      apply comp_ge_trans with p; [done|].
      apply (Ha i p x); [halves..|by rewrite Hpar|done].
  - intros i x Hi Hilen Hne Hpar Hx.
    destruct (decide (i = holeIndex)) as [->|Hih].
    + rewrite list_lookup_insert_eq in Hx by lia. injection Hx as <-.
      by apply comp_asym.
    + rewrite list_lookup_insert_ne in Hx by done.
      assert (comp p x = false) as Hpx.
      { apply (Ha i p x); [halves..|by rewrite Hpar|done]. }
      destruct (comp value x) eqn:Hvx; [|done].
      by rewrite (comp_trans _ _ _ Hcomp Hvx) in Hpx.
Qed.

Lemma push_heap_loop_heap fuel first len holeIndex value :
  holeIndex ≤ fuel → holeIndex < len → len ≤ length first →
  stl.heap_around comp first len holeIndex →
  stl.covers comp first len holeIndex value →
  stl.heap_upto comp (stl.push_heap_loop comp fuel first holeIndex 0 value) len.
Proof.
  revert first holeIndex.
  induction fuel as [|fuel IH]; intros first holeIndex Hfuel Hlen Hfirst Hh Hc;
    cbn [stl.push_heap_loop].
  { apply fill_hole_heap; [left|..]; done || lia. }
  destruct (0 <? holeIndex) eqn:Hpos;
    [apply Nat.ltb_lt in Hpos|apply Nat.ltb_ge in Hpos].
  2: { apply fill_hole_heap; [left|..]; done || lia. }
  destruct (lookup_lt_is_Some_2 first ((holeIndex - 1) / 2)) as [p Hp]; [halves|].
  rewrite Hp. destruct (comp p value) eqn:Hcomp.
  - destruct (push_heap_step first len holeIndex value p) as [Hh' Hc']; try done.
    apply IH; rewrite ?length_insert; try done; halves.
  - apply fill_hole_heap; [right; eauto|..]; done || lia.
Qed.

(** One iteration of the first loop of [__adjust_heap]: the larger child
    [x], at [child], moves into the hole; [y] is the other child. *)
Lemma adjust_heap_step first len holeIndex child other x y :
  child < len → len ≤ length first →
  (child = 2 * holeIndex + 1 ∧ (other = 2 * holeIndex + 2 ∨ len ≤ 2 * holeIndex + 2) ∨
   child = 2 * holeIndex + 2 ∧ other = 2 * holeIndex + 1) →
  first !! child = Some x →
  (other < len → first !! other = Some y ∧ comp x y = false) →
  stl.heap_around comp first len holeIndex →
  stl.heap_around comp (<[holeIndex := x]> first) len child.
Proof.
  intros Hlen Hfirst Hchild Hx Hy [Ha Hb]. split.
  - intros i q z Hi Hilen Hne Hpar Hq Hz.
    destruct (decide (i = holeIndex)) as [->|Hih].
    + rewrite list_lookup_insert_eq in Hz by lia. injection Hz as <-.
      rewrite list_lookup_insert_ne in Hq by halves.
      apply (Hb child q x); [halves..|done|done].
    + rewrite list_lookup_insert_ne in Hz by done.
      destruct (decide ((i - 1) / 2 = holeIndex)) as [Hph|Hph].
      * rewrite Hph, list_lookup_insert_eq in Hq by lia. injection Hq as <-.
        assert (i = other ∧ other < len) as [-> Ho] by halves.
        destruct (Hy Ho) as [Hy1 Hy2]. congruence.
      * rewrite list_lookup_insert_ne in Hq by done. eapply Ha; eauto.
  - intros i q z Hcpos Hilen Hne Hpar Hq Hz.
    assert ((child - 1) / 2 = holeIndex) as Hcp by halves.
    rewrite Hcp, list_lookup_insert_eq in Hq by lia. injection Hq as <-.
    rewrite list_lookup_insert_ne in Hz by halves.
    apply (Ha i x z); [halves..|by rewrite Hpar|done].
Qed.

Lemma adjust_heap_down_heap fuel first len holeIndex :
  holeIndex < len → len ≤ length first →
  stl.heap_around comp first len holeIndex →
  let r := stl.adjust_heap_down comp fuel first holeIndex len in
  stl.heap_around comp r.1 len r.2.
Proof.
  revert first holeIndex.
  induction fuel as [|fuel IH]; intros first holeIndex Hlen Hfirst Hh;
    cbn [stl.adjust_heap_down fst snd]; [done|].
  destruct (holeIndex <? (len - 1) / 2) eqn:Hc; [|done].
  apply Nat.ltb_lt in Hc.
  destruct (first !! (2 * (holeIndex + 1))) as [r|] eqn:Hr; [|done].
  destruct (first !! (2 * (holeIndex + 1) - 1)) as [l|] eqn:Hl; [|done].
  destruct (comp r l) eqn:Hrl.
  - apply IH; rewrite ?length_insert; [halves|done|].
    apply (adjust_heap_step first len holeIndex
             (2 * (holeIndex + 1) - 1) (2 * (holeIndex + 1)) l r);
      [halves|done|left; lia|done| |done].
    intros _. split; [done|]. by apply comp_asym.
  - apply IH; rewrite ?length_insert; [halves|done|].
    apply (adjust_heap_step first len holeIndex
             (2 * (holeIndex + 1)) (2 * (holeIndex + 1) - 1) r l);
      [halves|done|right; lia|done| |done].
    intros _. done.
Qed.

End heap_order.

(** What the algorithms do to the array as a collection: nothing is lost,
    whatever the comparator. *)
Section heap_shape.
Context {T : Type} (comp : T → T → bool).
Implicit Types (first : list T) (value x y z : T).

Lemma adjust_heap_last_shape first len holeIndex value :
  holeIndex < len → len ≤ length first → len ≤ 2 * (holeIndex + 1) →
  let r := stl.adjust_heap_last first holeIndex len in
  r.2 < len ∧ len ≤ 2 * r.2 + 1 ∧
  length r.1 = length first ∧
  (∀ j, len ≤ j → r.1 !! j = first !! j) ∧
  <[r.2 := value]> r.1 ≡ₚ <[holeIndex := value]> first.
Proof.
  intros Hlen Hfirst Hstop. unfold stl.adjust_heap_last.
  destruct (Nat.even len && (holeIndex =? (len - 2) / 2)) eqn:Hc.
  - apply andb_true_iff in Hc as [[k ->]%even_double ->%Nat.eqb_eq].
    destruct (lookup_lt_is_Some_2 first (2 * ((2 * k - 2) / 2 + 1) - 1)) as [l Hl];
      [halves|].
    rewrite Hl. cbn [fst snd]. split_and!.
    + halves.
    + halves.
    + by rewrite length_insert.
    + intros j Hj. rewrite list_lookup_insert_ne by halves. done.
    + rewrite <-(list_insert_insert_eq first ((2 * k - 2) / 2) l value).
      apply Permutation_insert_swap.
      * apply list_lookup_insert_eq. lia.
      * rewrite list_lookup_insert_ne by halves. done.
  - cbn [fst snd]. split_and!; try done.
    apply andb_false_iff in Hc as [Hc|Hc].
    + destruct (decide (len = 2 * (holeIndex + 1))) as [->|]; [|lia].
      rewrite Nat.even_mul in Hc. done.
    + apply Nat.eqb_neq in Hc. halves.
Qed.

Lemma adjust_heap_shape first len value :
  0 < len → len ≤ length first →
  let r := stl.adjust_heap comp first 0 len value in
  length r = length first ∧
  (∀ j, len ≤ j → r !! j = first !! j) ∧
  r ≡ₚ <[0 := value]> first.
Proof.
  intros Hpos Hfirst. unfold stl.adjust_heap, stl.push_heap_from.
  pose proof (adjust_heap_down_hole comp len first 0 len Hpos) as Hhole.
  pose proof (adjust_heap_down_length comp len first 0 len) as Hlen1.
  pose proof (adjust_heap_down_perm comp len first 0 len value Hpos Hfirst) as Hperm1.
  pose proof (λ j, adjust_heap_down_above comp len first 0 len j Hpos) as Habove1.
  pose proof (adjust_heap_down_stops comp len first 0 len ltac:(lia)) as Hstop.
  destruct (stl.adjust_heap_down comp len first 0 len) as [first1 hole1].
  cbn [fst snd] in *.
  destruct (adjust_heap_last_shape first1 len hole1 value)
    as (Hhole2 & Hleaf & Hlen2 & Habove2 & Hperm2); [lia..|].
  destruct (stl.adjust_heap_last first1 hole1 len) as [first2 hole2].
  cbn [fst snd] in *. split_and!.
  - rewrite push_heap_loop_length. lia.
  - intros j Hj. rewrite push_heap_loop_above by lia.
    rewrite Habove2, Habove1 by done. done.
  - rewrite push_heap_loop_perm by lia. by rewrite Hperm2, Hperm1.
Qed.

(** [pop_heap] puts the first element last and keeps the others. *)
Lemma pop_heap_shape first top :
  first !! 0 = Some top →
  ∃ rest, stl.pop_heap comp first = rest ++ [top] ∧ rest ≡ₚ tail first.
Proof.
  intros Htop. unfold stl.pop_heap.
  destruct (1 <? length first) eqn:Hn;
    [apply Nat.ltb_lt in Hn|apply Nat.ltb_ge in Hn].
  2: { destruct first as [|x [|??]]; simplify_eq/=; [|lia]. by exists []. }
  destruct (lookup_lt_is_Some_2 first (length first - 1)) as [value Hvalue]; [lia|].
  rewrite Hvalue, Htop.
  set (first0 := <[length first - 1 := top]> first).
  assert (length first0 = length first) as Hlen0 by apply length_insert.
  destruct (adjust_heap_shape first0 (length first - 1) value)
    as (Hlen & Habove & Hperm); [lia|lia|].
  set (r := stl.adjust_heap comp first0 0 (length first - 1) value) in *.
  assert (r = take (length first - 1) r ++ [top]) as Hr.
  { rewrite <-(take_drop (length first - 1) r) at 1. f_equal.
    apply list_eq. intros [|j].
    - rewrite lookup_drop, Nat.add_0_r, Habove by lia.
      unfold first0. rewrite list_lookup_insert_eq by lia. done.
    - rewrite lookup_drop. simpl. apply lookup_ge_None. lia. }
  exists (take (length first - 1) r). split; [done|].
  assert (r ≡ₚ first) as Hrf.
  { rewrite Hperm. unfold first0. by apply Permutation_insert_swap. }
  rewrite Hr in Hrf. destruct first as [|top' rest]; [simpl in *; lia|].
  injection Htop as ->. simpl.
  rewrite <-Permutation_cons_append in Hrf. by apply Permutation_cons_inv in Hrf.
Qed.

Lemma push_heap_perm first x : stl.push_heap comp (first ++ [x]) ≡ₚ first ++ [x].
Proof.
  unfold stl.push_heap, stl.push_heap_from.
  rewrite length_app. simpl.
  replace (length first + 1 - 1) with (length first) by lia.
  rewrite lookup_app_r, Nat.sub_diag by lia. simpl.
  rewrite push_heap_loop_perm by (rewrite length_app; simpl; lia).
  rewrite list_insert_id; [done|].
  rewrite lookup_app_r, Nat.sub_diag by lia. done.
Qed.

End heap_shape.

(** What they do to the order, for a strict weak ordering. *)
Section heap_operations.
Context {T : Type} (comp : T → T → bool).
Hypothesis comp_swo : stl.strict_weak_order comp.
Implicit Types (first : list T) (value x y z : T).

Lemma adjust_heap_last_heap first len holeIndex :
  holeIndex < len → len ≤ length first → len ≤ 2 * (holeIndex + 1) →
  stl.heap_around comp first len holeIndex →
  let r := stl.adjust_heap_last first holeIndex len in
  stl.heap_around comp r.1 len r.2.
Proof.
  intros Hlen Hfirst Hstop Hh. unfold stl.adjust_heap_last.
  destruct (Nat.even len && (holeIndex =? (len - 2) / 2)) eqn:Hc; [|done].
  apply andb_true_iff in Hc as [[k ->]%even_double ->%Nat.eqb_eq].
  destruct (lookup_lt_is_Some_2 first (2 * ((2 * k - 2) / 2 + 1) - 1)) as [l Hl];
    [halves|].
  rewrite Hl. cbn [fst snd].
  apply (adjust_heap_step comp first (2 * k) ((2 * k - 2) / 2)
           (2 * ((2 * k - 2) / 2 + 1) - 1) (2 * k) l l);
    [halves|done|left; halves|done|lia|done].
Qed.

(** [__adjust_heap] from the root: the first [len] elements become a heap. *)
Lemma adjust_heap_heap first len value :
  0 < len → len ≤ length first →
  stl.heap_around comp first len 0 →
  stl.heap_upto comp (stl.adjust_heap comp first 0 len value) len.
Proof.
  intros Hpos Hfirst Hh. unfold stl.adjust_heap, stl.push_heap_from.
  pose proof (adjust_heap_down_heap comp comp_swo len first len 0 Hpos Hfirst Hh) as Hd.
  pose proof (adjust_heap_down_hole comp len first 0 len Hpos) as Hhole.
  pose proof (adjust_heap_down_length comp len first 0 len) as Hlen1.
  pose proof (adjust_heap_down_stops comp len first 0 len ltac:(lia)) as Hstop.
  destruct (stl.adjust_heap_down comp len first 0 len) as [first1 hole1].
  cbn [fst snd] in *.
  pose proof (adjust_heap_last_heap first1 len hole1) as Hl.
  destruct (adjust_heap_last_shape first1 len hole1 value)
    as (Hhole2 & Hleaf & Hlen2 & _); [lia..|].
  destruct (stl.adjust_heap_last first1 hole1 len) as [first2 hole2].
  cbn [fst snd] in *.
  apply push_heap_loop_heap; [done|lia|done|lia| |].
  - apply Hl; [lia..|done].
  - intros i x Hi Hilen Hne Hpar Hx. halves.
Qed.

(** [priority_queue::pop]: what remains is a heap.  Only the order below
    the root is needed: the root itself is never compared. *)
Lemma pop_heap_heap first :
  stl.heap_around comp first (length first) 0 →
  let r := removelast (stl.pop_heap comp first) in
  stl.heap_upto comp r (length r).
Proof.
  intros Hh. unfold stl.pop_heap.
  destruct (1 <? length first) eqn:Hn;
    [apply Nat.ltb_lt in Hn|apply Nat.ltb_ge in Hn].
  2: { destruct first as [|x [|??]]; simpl in *; [| |lia]; intros ???; lia. }
  destruct (lookup_lt_is_Some_2 first (length first - 1)) as [value Hvalue]; [lia|].
  destruct (lookup_lt_is_Some_2 first 0) as [top Htop]; [lia|].
  rewrite Hvalue, Htop.
  set (first0 := <[length first - 1 := top]> first).
  assert (length first0 = length first) as Hlen0 by apply length_insert.
  destruct (adjust_heap_shape comp first0 (length first - 1) value)
    as (Hlen & _); [lia|lia|].
  pose proof (adjust_heap_heap first0 (length first - 1) value) as Hheap.
  set (r := stl.adjust_heap comp first0 0 (length first - 1) value) in *.
  rewrite removelast_firstn_len, Hlen, Hlen0.
  replace (Init.Nat.pred (length first)) with (length first - 1) by lia.
  rewrite length_take, Hlen, Hlen0, Nat.min_l by lia.
  eapply heap_upto_agree; [|apply Hheap; [lia..|]].
  { intros i Hi. by rewrite lookup_take_lt. }
  destruct Hh as [Ha _]. split; [|intros; lia].
  intros i p x Hi Hilen Hne Hpar Hp Hx. unfold first0 in Hp, Hx.
  rewrite list_lookup_insert_ne in Hp by halves.
  rewrite list_lookup_insert_ne in Hx by lia.
  apply (Ha i p x); [lia..|done|done].
Qed.

(** [priority_queue::push] *)
Lemma push_heap_heap first x :
  stl.heap_upto comp first (length first) →
  let r := stl.push_heap comp (first ++ [x]) in
  stl.heap_upto comp r (length r).
Proof.
  intros Hh. unfold stl.push_heap, stl.push_heap_from.
  rewrite length_app. simpl.
  replace (length first + 1 - 1) with (length first) by lia.
  rewrite lookup_app_r, Nat.sub_diag by lia. simpl.
  rewrite push_heap_loop_length, length_app. simpl.
  apply push_heap_loop_heap; [done|lia|lia|by rewrite length_app| |].
  - split.
    + intros i p y Hi Hilen Hne Hpar Hp Hy.
      rewrite lookup_app_l in Hp by halves. rewrite lookup_app_l in Hy by lia.
      apply (Hh i p y); [lia..|done|done].
    + intros i p y Hpos Hilen Hne Hpar. halves.
  - intros i y Hi Hilen Hne Hpar. halves.
Qed.

End heap_operations.

(** ** The container adapters *)
Section stl_adapter_facts.
Context {T Compare : Type} (call : Compare → T → T → bool).
Implicit Types a : stl.adapter T Compare.

Lemma empty_true a : stl.empty a = true ↔ stl.c a = [].
Proof. unfold stl.empty. destruct (stl.c a); naive_solver. Qed.

Lemma empty_false a : stl.empty a = false ↔ stl.c a ≠ [].
Proof. unfold stl.empty. destruct (stl.c a); naive_solver. Qed.

Lemma getCurrent_is_Some a : stl.empty a = false → is_Some (getCurrent a).
Proof.
  rewrite empty_false. destruct a as [c|c|c cmp]; unfold getCurrent, stl.front, stl.top; cbn; intros Hc.
  - destruct c; [done|]. by eexists.
  - by apply last_is_Some.
  - destruct c; [done|]. by eexists.
Qed.

Lemma getCurrent_None a : stl.empty a = true → getCurrent a = None.
Proof.
  rewrite empty_true. destruct a as [c|c|c cmp]; unfold getCurrent, stl.front, stl.top; cbn; by intros ->.
Qed.

(** The current element is what the discipline says. *)
Lemma getCurrent_discipline a :
  getCurrent a = match stl.discipline_of a with
                 | stl.LIFO => last (stl.c a)
                 | stl.FIFO | stl.prioritized => head (stl.c a)
                 end.
Proof. by destruct a. Qed.

(** [pop] removes the current element and nothing else. *)
Lemma pop_perm a cur :
  getCurrent a = Some cur → stl.c a ≡ₚ cur :: stl.c (stl.pop call a).
Proof.
  destruct a as [c|c|c cmp]; unfold getCurrent, stl.front, stl.top; cbn.
  - destruct c; intros; simplify_eq/=; done.
  - intros [c' ->]%last_Some. rewrite removelast_last.
    symmetry. apply Permutation_cons_append.
  - intros Hc. rewrite head_lookup in Hc.
    destruct (pop_heap_shape (call cmp) c cur Hc) as (rest & -> & Hrest).
    rewrite removelast_last, Hrest. destruct c; by simplify_eq/=.
Qed.

Lemma pop_queue a cur :
  stl.discipline_of a = stl.FIFO → getCurrent a = Some cur →
  stl.c a = cur :: stl.c (stl.pop call a).
Proof.
  destruct a as [c|c|c cmp]; [|done..]. unfold getCurrent, stl.front, stl.top. cbn.
  destruct c; intros; simplify_eq/=; done.
Qed.

Lemma pop_stack a cur :
  stl.discipline_of a = stl.LIFO → getCurrent a = Some cur →
  stl.c a = stl.c (stl.pop call a) ++ [cur].
Proof.
  destruct a as [c|c|c cmp]; [done| |done]. unfold getCurrent, stl.front, stl.top. cbn.
  intros _ [c' ->]%last_Some. by rewrite removelast_last.
Qed.

Lemma push_perm a x : stl.c (stl.push call x a) ≡ₚ stl.c a ++ [x].
Proof. destruct a as [c|c|c cmp]; cbn; [done..|]. apply push_heap_perm. Qed.

Lemma push_sequential a x :
  stl.discipline_of a ≠ stl.prioritized → stl.c (stl.push call x a) = stl.c a ++ [x].
Proof. by destruct a. Qed.

Lemma push_discipline a x : stl.discipline_of (stl.push call x a) = stl.discipline_of a.
Proof. by destruct a. Qed.

Lemma pop_discipline a : stl.discipline_of (stl.pop call a) = stl.discipline_of a.
Proof. by destruct a. Qed.

End stl_adapter_facts.

(** [std::is_heap] through a projection of the elements. *)
Lemma is_heap_fmap {A B : Type} (comp : B → B → bool) (f : A → B) (l : list A) :
  stl.is_heap (λ x y, comp (f x) (f y)) l = stl.is_heap comp (f <$> l).
Proof.
  unfold stl.is_heap. rewrite length_fmap.
  induction (seq 1 (length l - 1)) as [|i idx IH]; [done|].
  cbn [forallb]. rewrite IH, !list_lookup_fmap.
  by destruct (l !! _), (l !! i).
Qed.

(** ** The thread-safe adapter *)
Section adapter_facts.
Context {Elem : Type} `{!Inhabited Elem} (moved_from : Elem → Elem).
Implicit Types (this : @ThreadsafeSTLAdapter Elem) (σ : gmap loc Elem).

Lemma make_shared_fresh v σ : σ !! (make_shared v σ).1 = None.
Proof. apply not_elem_of_dom, is_fresh. Qed.

Lemma payloads_agree (c : list loc) σ σ' :
  (∀ p, p ∈ c → σ' !! p = σ !! p) →
  (λ p, σ' !!! p) <$> c = (λ p, σ !!! p) <$> c.
Proof.
  intros H. apply list_fmap_ext. intros i p Hp.
  rewrite !lookup_total_alt, H; [done|]. by eapply list_elem_of_lookup_2.
Qed.

Lemma CustomComparator_call_swo σ (cmp : CustomComparator) :
  stl.strict_weak_order (m_comparator cmp) →
  stl.strict_weak_order (CustomComparator_call σ cmp).
Proof. intros [Ha Hn]. split; unfold CustomComparator_call; eauto. Qed.

Lemma CustomComparator_call_agree σ σ' (cmp : CustomComparator) x y :
  σ' !! x = σ !! x → σ' !! y = σ !! y →
  CustomComparator_call σ' cmp x y = CustomComparator_call σ cmp x y.
Proof. unfold CustomComparator_call. rewrite !lookup_total_alt. by intros -> ->. Qed.

(** The heap order of a priority adapter is the heap order of its payloads. *)
Lemma heap_ordered_payloads this :
  heap_ordered this ↔
  match m_adapter this with
  | stl.priority_queue _ cmp => stl.is_heap (m_comparator cmp) (payloads this) = true
  | _ => True
  end.
Proof.
  unfold heap_ordered, payloads. destruct (m_adapter this) as [c|c|c cmp]; [done..|].
  cbn. unfold CustomComparator_call. by rewrite is_heap_fmap.
Qed.

(** *** [push] *)

Lemma push_discipline_of v this :
  stl.discipline_of (m_adapter (push v this)) = stl.discipline_of (m_adapter this).
Proof. unfold push. cbn. apply push_discipline. Qed.

Lemma push_valid v this : valid this → valid (push v this).
Proof.
  intros [Hnd Hdom]. rewrite Forall_forall in Hdom. unfold push, valid. cbn.
  pose proof (make_shared_fresh v (heap this)) as Hfresh. cbn in Hfresh.
  set (p := fresh (dom (heap this))) in *.
  assert (p ∉ stl.c (m_adapter this)) as Hp.
  { intros [x Hx]%Hdom. congruence. }
  split.
  - rewrite push_perm. apply NoDup_app. split_and!; [done| |apply NoDup_singleton].
    intros q Hq ->%list_elem_of_singleton. done.
  - apply Forall_forall. intros q.
    rewrite push_perm, elem_of_app, list_elem_of_singleton.
    intros [Hq| ->]; [|by rewrite lookup_insert_eq].
    rewrite lookup_insert_ne by (intros <-; done). auto.
Qed.

Lemma push_payloads v this :
  valid this → payloads (push v this) ≡ₚ payloads this ++ [v].
Proof.
  intros [Hnd Hdom]. rewrite Forall_forall in Hdom. unfold push, payloads. cbn.
  pose proof (make_shared_fresh v (heap this)) as Hfresh. cbn in Hfresh.
  set (p := fresh (dom (heap this))) in *.
  rewrite push_perm, fmap_app. cbn. rewrite lookup_total_insert_eq.
  rewrite (payloads_agree _ (heap this) (<[p:=v]> (heap this))); [done|].
  intros q [x Hx]%Hdom. rewrite lookup_insert_ne; [done|congruence].
Qed.

Lemma push_payloads_sequential v this :
  valid this → stl.discipline_of (m_adapter this) ≠ stl.prioritized →
  payloads (push v this) = payloads this ++ [v].
Proof.
  intros [Hnd Hdom] Hd. rewrite Forall_forall in Hdom. unfold push, payloads. cbn.
  pose proof (make_shared_fresh v (heap this)) as Hfresh. cbn in Hfresh.
  set (p := fresh (dom (heap this))) in *.
  rewrite push_sequential, fmap_app by done. cbn. rewrite lookup_total_insert_eq.
  f_equal. apply payloads_agree. intros q [x Hx]%Hdom.
  rewrite lookup_insert_ne; [done|congruence].
Qed.

Lemma push_heap_ordered v this :
  valid this →
  (∀ c cmp, m_adapter this = stl.priority_queue c cmp →
            stl.strict_weak_order (m_comparator cmp)) →
  heap_ordered this → heap_ordered (push v this).
Proof.
  intros [Hnd Hdom] Hswo. rewrite Forall_forall in Hdom. unfold heap_ordered, push. cbn.
  pose proof (make_shared_fresh v (heap this)) as Hfresh. cbn in Hfresh.
  set (p := fresh (dom (heap this))) in *.
  destruct (m_adapter this) as [c|c|c cmp] eqn:Ha; [done..|]. cbn in *.
  rewrite !is_heap_spec. intros Hheap.
  apply push_heap_heap; [by eapply CustomComparator_call_swo, Hswo|].
  eapply heap_upto_ext; [|exact Hheap].
  intros x y [? Hx]%Hdom [? Hy]%Hdom.
  apply CustomComparator_call_agree; rewrite lookup_insert_ne; congruence.
Qed.

(** *** The state a successful pop leaves

    The by-reference overloads overwrite the popped cell before they call
    [m_adapter.pop()]; [σ'] is the memory at that call. *)

Lemma popped_valid this res σ' :
  valid this → getCurrent (m_adapter this) = Some res →
  (∀ q, q ≠ res → σ' !! q = heap this !! q) →
  let this' := {| m_adapter := stl.pop (CustomComparator_call σ') (m_adapter this);
                  heap := σ' |} in
  valid this' ∧ (res ∉ stl.c (m_adapter this')) ∧
  payloads this ≡ₚ ((heap this !!! res) :: payloads this').
Proof.
  intros [Hnd Hdom] Hres Hσ. rewrite Forall_forall in Hdom. cbn.
  pose proof (pop_perm (CustomComparator_call σ') _ _ Hres) as Hperm.
  rewrite Hperm in Hnd. apply NoDup_cons in Hnd as [Hnotin Hnd'].
  split_and!; [split|..]; cbn; [done| |done|].
  - apply Forall_forall. intros q Hq. rewrite Hσ by (intros ->; done). apply Hdom.
    rewrite Hperm. by right.
  - unfold payloads. cbn. rewrite Hperm at 1. cbn.
    rewrite (payloads_agree _ (heap this) σ'); [done|].
    intros q Hq. apply Hσ. by intros ->.
Qed.

Lemma popped_payloads_queue this res σ' :
  valid this → getCurrent (m_adapter this) = Some res →
  (∀ q, q ≠ res → σ' !! q = heap this !! q) →
  stl.discipline_of (m_adapter this) = stl.FIFO →
  let this' := {| m_adapter := stl.pop (CustomComparator_call σ') (m_adapter this);
                  heap := σ' |} in
  payloads this = (heap this !!! res) :: payloads this'.
Proof.
  intros Hv Hres Hσ Hd. cbn.
  destruct (popped_valid this res σ' Hv Hres Hσ) as (_ & Hnotin & _). cbn in Hnotin.
  unfold payloads. cbn.
  rewrite (pop_queue (CustomComparator_call σ') _ _ Hd Hres) at 1. cbn. f_equal.
  symmetry. apply payloads_agree. intros q Hq. apply Hσ. by intros ->.
Qed.

Lemma popped_payloads_stack this res σ' :
  valid this → getCurrent (m_adapter this) = Some res →
  (∀ q, q ≠ res → σ' !! q = heap this !! q) →
  stl.discipline_of (m_adapter this) = stl.LIFO →
  let this' := {| m_adapter := stl.pop (CustomComparator_call σ') (m_adapter this);
                  heap := σ' |} in
  payloads this = payloads this' ++ [heap this !!! res].
Proof.
  intros Hv Hres Hσ Hd. cbn.
  destruct (popped_valid this res σ' Hv Hres Hσ) as (_ & Hnotin & _). cbn in Hnotin.
  unfold payloads. cbn.
  rewrite (pop_stack (CustomComparator_call σ') _ _ Hd Hres) at 1.
  rewrite fmap_app. cbn. f_equal.
  symmetry. apply payloads_agree. intros q Hq. apply Hσ. by intros ->.
Qed.

Lemma popped_heap_ordered this res σ' :
  valid this → getCurrent (m_adapter this) = Some res →
  (∀ q, q ≠ res → σ' !! q = heap this !! q) →
  (∀ c cmp, m_adapter this = stl.priority_queue c cmp →
            stl.strict_weak_order (m_comparator cmp)) →
  heap_ordered this →
  heap_ordered {| m_adapter := stl.pop (CustomComparator_call σ') (m_adapter this);
                  heap := σ' |}.
Proof.
  intros [Hnd Hdom] Hres Hσ Hswo. unfold heap_ordered. cbn.
  destruct (m_adapter this) as [c|c|c cmp] eqn:Ha; [done..|]. cbn in *.
  rewrite !is_heap_spec. intros Hheap.
  apply pop_heap_heap; [by eapply CustomComparator_call_swo, Hswo|].
  split; [|intros; lia].
  intros i p x Hi Hilen Hne Hpar Hp Hx. rewrite head_lookup in Hres.
  rewrite CustomComparator_call_agree with (σ := heap this).
  - by apply (Hheap i p x).
  - apply Hσ. intros ->.
    eapply Hpar, NoDup_lookup; [exact Hnd|exact Hp|exact Hres].
  - apply Hσ. intros ->.
    eapply Hne, NoDup_lookup; [exact Hnd|exact Hx|exact Hres].
Qed.

(** The current element of a heap-ordered priority adapter is not less than
    any payload. *)
Lemma peek_greatest this c cmp v :
  m_adapter this = stl.priority_queue c cmp →
  stl.strict_weak_order (m_comparator cmp) →
  heap_ordered this → peek this = Some v →
  ∀ w, w ∈ payloads this → m_comparator cmp v w = false.
Proof.
  intros Ha Hswo Hheap Hpeek w Hw.
  apply heap_ordered_payloads in Hheap. rewrite Ha in Hheap.
  apply is_heap_spec in Hheap.
  unfold peek in Hpeek. rewrite Ha in Hpeek. cbn in Hpeek.
  destruct (head c) as [p|] eqn:Hp; [|done]. cbn in Hpeek.
  apply list_elem_of_lookup in Hw as [i Hi].
  eapply (heap_top_greatest _ Hswo _ _ Hheap); [|exact Hi].
  unfold payloads. rewrite Ha. cbn. rewrite list_lookup_fmap, <-head_lookup, Hp. cbn.
  by rewrite lookup_total_alt, Hpeek.
Qed.

End adapter_facts.

Section pop_facts.
Context {Elem : Type} `{!Inhabited Elem} (moved_from : Elem → Elem).
Implicit Types (this : @ThreadsafeSTLAdapter Elem) (σ : gmap loc Elem).

(** *** The six pops *)

Lemma pops_of_empty value this :
  stl.empty (m_adapter this) = true →
  pop_ref moved_from value this = Throws EmptyAdapter (value, this) ∧
  tryPop_ref moved_from value this = Returns false (value, this) ∧
  waitAndPop_ref moved_from value this = Suspends (value, this) ∧
  pop this = Throws EmptyAdapter this ∧
  tryPop this = Returns None this ∧
  waitAndPop this = Suspends this.
Proof.
  intros He. unfold pop_ref, tryPop_ref, waitAndPop_ref, pop, tryPop, waitAndPop.
  by rewrite He.
Qed.

Lemma pops_of_nonempty this res :
  stl.empty (m_adapter this) = false → getCurrent (m_adapter this) = Some res →
  let this' := {| m_adapter := stl.pop (CustomComparator_call (heap this)) (m_adapter this);
                  heap := heap this |} in
  pop this = Returns res this' ∧
  tryPop this = Returns (Some res) this' ∧
  waitAndPop this = Returns res this'.
Proof.
  intros He Hres. unfold pop, tryPop, waitAndPop. by rewrite He, Hres.
Qed.

Lemma pops_ref_of_nonempty value this p v :
  stl.empty (m_adapter this) = false → getCurrent (m_adapter this) = Some p →
  heap this !! p = Some v →
  let σ := <[p := moved_from v]> (heap this) in
  let this' := {| m_adapter := stl.pop (CustomComparator_call σ) (m_adapter this);
                  heap := σ |} in
  pop_ref moved_from value this = Returns tt (v, this') ∧
  tryPop_ref moved_from value this = Returns true (v, this') ∧
  waitAndPop_ref moved_from value this = Returns tt (v, this').
Proof.
  intros He Hp Hv. unfold pop_ref, tryPop_ref, waitAndPop_ref.
  by rewrite He, Hp, Hv.
Qed.

(** On a valid adapter that is not empty there is a current handle and it
    points to a value. *)
Lemma peek_is_Some this :
  valid this → stl.empty (m_adapter this) = false →
  ∃ res v, getCurrent (m_adapter this) = Some res ∧ heap this !! res = Some v ∧
           peek this = Some v.
Proof.
  intros [_ Hdom] He. rewrite Forall_forall in Hdom.
  destruct (getCurrent_is_Some _ He) as [res Hres].
  assert (res ∈ stl.c (m_adapter this)) as Hin.
  { rewrite (pop_perm (λ _ _ _, true) _ _ Hres). by left. }
  destruct (Hdom _ Hin) as [v Hv]. exists res, v. split_and!; [done..|].
  unfold peek. by rewrite Hres.
Qed.

Lemma peek_of_empty this : stl.empty (m_adapter this) = true → peek this = None.
Proof. intros He. unfold peek. by rewrite getCurrent_None. Qed.

Lemma payloads_of_empty this : stl.empty (m_adapter this) = true ↔ payloads this = [].
Proof.
  rewrite empty_true. unfold payloads. split; [by intros ->|].
  by intros ?%fmap_nil_inv.
Qed.

Lemma payloads_lookup this i p v :
  stl.c (m_adapter this) !! i = Some p → heap this !! p = Some v →
  payloads this !! i = Some v.
Proof.
  intros Hp Hv. unfold payloads. rewrite list_lookup_fmap, Hp. cbn.
  by rewrite lookup_total_alt, Hv.
Qed.

(** The peeked value is the one the discipline selects among the payloads. *)
Lemma peek_selected this v comp :
  valid this → heap_ordered this →
  (∀ cmp, stl.comp (m_adapter this) = Some cmp →
          m_comparator cmp = comp ∧ stl.strict_weak_order comp) →
  peek this = Some v →
  selected (stl.discipline_of (m_adapter this)) comp (payloads this) v.
Proof.
  intros Hv Hheap Hcomp Hpeek. pose proof Hpeek as Hpeek'.
  unfold peek in Hpeek. rewrite getCurrent_discipline in Hpeek.
  destruct (m_adapter this) as [c|c|c cmp] eqn:Ha; cbn in *.
  - destruct (head c) as [p|] eqn:Hp; [|done]. cbn in Hpeek.
    unfold selected. rewrite head_lookup in Hp. rewrite head_lookup.
    eapply payloads_lookup; [|exact Hpeek]. rewrite Ha. exact Hp.
  - destruct (last c) as [p|] eqn:Hp; [|done]. cbn in Hpeek.
    apply last_Some in Hp as [c' ->]. unfold selected, payloads. rewrite Ha. cbn.
    rewrite fmap_app. cbn. rewrite last_snoc. by rewrite lookup_total_alt, Hpeek.
  - destruct (Hcomp cmp eq_refl) as [<- Hswo]. split.
    + destruct (head c) as [p|] eqn:Hp; [|done]. cbn in Hpeek.
      rewrite head_lookup in Hp.
      eapply list_elem_of_lookup_2, payloads_lookup; [|exact Hpeek]. rewrite Ha. exact Hp.
    + by eapply peek_greatest.
Qed.

(** *** The factory *)

Lemma transform_copy_spec items out σ :
  ∃ ps, (transform_copy items out σ).1 = out ++ ps ∧
        length ps = length items ∧ NoDup ps ∧
        Forall (λ p, σ !! p = None) ps ∧
        σ ⊆ (transform_copy items out σ).2 ∧
        (λ p, (transform_copy items out σ).2 !! p) <$> ps = Some <$> items.
Proof.
  revert out σ. induction items as [|item items IH]; intros out σ; cbn.
  { exists []. rewrite app_nil_r. split_and!; by try constructor. }
  pose proof (make_shared_fresh item σ) as Hfresh. cbn in Hfresh.
  set (p := fresh (dom σ)) in *.
  destruct (IH (out ++ [p]) (<[p := item]> σ)) as (ps & Hout & Hlen & Hnd & Hnew & Hsub & Hval).
  assert (<[p := item]> σ !! p = Some item) as Hp by apply lookup_insert_eq.
  rewrite Forall_forall in Hnew.
  exists (p :: ps). split_and!.
  - by rewrite Hout, <-app_assoc.
  - cbn. by rewrite Hlen.
  - apply NoDup_cons. split; [|done]. intros Hin%Hnew. congruence.
  - constructor; [done|]. apply Forall_forall. intros q Hq.
    specialize (Hnew q Hq). destruct (decide (q = p)) as [->|Hne]; [congruence|].
    by rewrite lookup_insert_ne in Hnew.
  - etrans; [|exact Hsub]. by apply insert_subseteq.
  - cbn. rewrite Hval. f_equal. by eapply lookup_weaken.
Qed.

Lemma transform_move_copy items out σ :
  transform_move moved_from items out σ =
  (moved_from <$> items, (transform_copy items out σ).1, (transform_copy items out σ).2).
Proof.
  revert out σ. induction items as [|item items IH]; intros out σ; cbn; [done|].
  rewrite IH. by destruct (transform_copy _ _ _).
Qed.

Lemma create_members adapter (comparator : Ts adapter) σ :
  let this := createThreadsafeSTLAdapterFrom adapter comparator σ in
  stl.c (m_adapter this) = (transform_copy (stl.c adapter) [] σ).1 ∧
  heap this = (transform_copy (stl.c adapter) [] σ).2 ∧
  stl.discipline_of (m_adapter this) = stl.discipline_of adapter.
Proof.
  destruct adapter as [c|c|c cmp]; cbn;
    unfold getProtectedContainer; cbn; by destruct (transform_copy _ _ _).
Qed.

Lemma create_rvalue adapter (comparator : Ts adapter) σ :
  createThreadsafeSTLAdapterFrom_rvalue moved_from adapter comparator σ =
  (createThreadsafeSTLAdapterFrom adapter comparator σ,
   with_container adapter (moved_from <$> stl.c adapter)).
Proof.
  destruct adapter as [c|c|c cmp]; cbn; unfold getProtectedContainer; cbn;
    rewrite transform_move_copy; by destruct (transform_copy _ _ _).
Qed.

Lemma create_comp adapter (comparator : Ts adapter) σ :
  stl.comp (m_adapter (createThreadsafeSTLAdapterFrom adapter comparator σ)) =
  match adapter return Ts adapter → option CustomComparator with
  | stl.priority_queue _ _ => λ comparator, Some {| m_comparator := comparator |}
  | _ => λ _, None
  end comparator.
Proof.
  destruct adapter as [c|c|c cmp]; cbn; unfold getProtectedContainer; cbn;
    by destruct (transform_copy _ _ _).
Qed.

Lemma create_handles adapter (comparator : Ts adapter) σ :
  let this := createThreadsafeSTLAdapterFrom adapter comparator σ in
  let handles := stl.c (m_adapter this) in
  length handles = length (stl.c adapter) ∧
  NoDup handles ∧
  Forall (λ p, σ !! p = None) handles ∧
  σ ⊆ heap this ∧
  (λ p, heap this !! p) <$> handles = Some <$> stl.c adapter.
Proof.
  cbn. destruct (create_members adapter comparator σ) as (-> & -> & _).
  destruct (transform_copy_spec (stl.c adapter) [] σ) as (ps & -> & ? & ? & ? & ? & ?).
  done.
Qed.

Lemma create_valid adapter (comparator : Ts adapter) σ :
  valid (createThreadsafeSTLAdapterFrom adapter comparator σ).
Proof.
  destruct (create_handles adapter comparator σ) as (_ & Hnd & _ & _ & Hval).
  split; [done|]. apply Forall_forall. intros p [i Hi]%list_elem_of_lookup.
  apply (f_equal (λ l, l !! i)) in Hval. rewrite !list_lookup_fmap, Hi in Hval. cbn in Hval.
  destruct (stl.c adapter !! i); by simplify_eq/=.
Qed.

Lemma create_payloads adapter (comparator : Ts adapter) σ :
  payloads (createThreadsafeSTLAdapterFrom adapter comparator σ) = stl.c adapter.
Proof.
  destruct (create_handles adapter comparator σ) as (_ & _ & _ & _ & Hval).
  unfold payloads. apply list_eq. intros i.
  apply (f_equal (λ l, l !! i)) in Hval. rewrite !list_lookup_fmap in Hval.
  rewrite list_lookup_fmap.
  destruct (stl.c _ !! i) as [p|]; destruct (stl.c adapter !! i); simplify_eq/=; [|done].
  by rewrite lookup_total_alt, Hval.
Qed.

End pop_facts.

(** ** Sequences of calls from one thread *)
Section client_facts.
Context {Elem : Type} `{!Inhabited Elem} (moved_from : Elem → Elem).
Implicit Types (this : @ThreadsafeSTLAdapter Elem) (σ : gmap loc Elem).

Lemma well_formed_swo comp this c cmp :
  well_formed comp this → m_adapter this = stl.priority_queue c cmp →
  stl.strict_weak_order (m_comparator cmp).
Proof.
  intros (_ & _ & Hcomp) Ha. destruct (Hcomp cmp) as [-> ?]; [|done]. by rewrite Ha.
Qed.

Lemma push_well_formed comp v this :
  well_formed comp this → well_formed comp (push v this).
Proof.
  intros Hwf. pose proof Hwf as (Hv & Hheap & Hcomp). split_and!.
  - by apply push_valid.
  - apply push_heap_ordered; [done| |done]. intros c cmp. by apply (well_formed_swo comp).
  - intros cmp. unfold push. cbn. intros Hc. apply Hcomp.
    by destruct (m_adapter this).
Qed.

(** The state after a pop that took the handle [res] with payload [v]. *)
Lemma popped_well_formed comp this res v σ' :
  well_formed comp this → getCurrent (m_adapter this) = Some res →
  heap this !! res = Some v →
  (∀ q, q ≠ res → σ' !! q = heap this !! q) →
  let this' := {| m_adapter := stl.pop (CustomComparator_call σ') (m_adapter this);
                  heap := σ' |} in
  well_formed comp this' ∧
  stl.discipline_of (m_adapter this') = stl.discipline_of (m_adapter this) ∧
  v :: payloads this' ≡ₚ payloads this ∧
  (stl.discipline_of (m_adapter this) = stl.FIFO → v :: payloads this' = payloads this) ∧
  selected (stl.discipline_of (m_adapter this)) comp (payloads this) v.
Proof.
  intros Hwf Hres Hv Hσ. pose proof Hwf as (Hvalid & Hheap & Hcomp). cbn.
  destruct (popped_valid this res σ' Hvalid Hres Hσ) as (Hvalid' & _ & Hperm).
  rewrite lookup_total_alt, Hv in Hperm. cbn in Hperm.
  split_and!.
  - split_and!; [done| |].
    + apply (popped_heap_ordered this res σ'); [done..| |done].
      intros c cmp. by apply (well_formed_swo comp).
    + intros cmp. cbn. intros Hc. apply Hcomp. by destruct (m_adapter this).
  - apply pop_discipline.
  - done.
  - intros Hd. pose proof (popped_payloads_queue this res σ' Hvalid Hres Hσ Hd) as Heq.
    cbn in Heq. by rewrite lookup_total_alt, Hv in Heq.
  - apply peek_selected; [done..|]. unfold peek. by rewrite Hres.
Qed.

Lemma perform_push v value this :
  perform moved_from (do_push v) value this = Some ([], value, push v this) ∧
  perform moved_from (do_pushAndNotify v) value this = Some ([], value, push v this).
Proof. done. Qed.

Lemma perform_pop_empty c value this :
  pushed_by [c] = [] → stl.empty (m_adapter this) = true →
  perform moved_from c value this =
  Some ([{| before := payloads this; obtained := None |}], value, this).
Proof.
  intros Hc He.
  destruct (pops_of_empty moved_from value this He) as (Hpr & Htr & _ & Hp & Ht & _).
  destruct c; cbn in Hc |- *; [done..| | | |]; by rewrite ?Hpr, ?Htr, ?Hp, ?Ht.
Qed.

Lemma perform_pop_nonempty c value this :
  pushed_by [c] = [] → valid this → stl.empty (m_adapter this) = false →
  ∃ res v σ' value',
    getCurrent (m_adapter this) = Some res ∧ heap this !! res = Some v ∧
    (∀ q, q ≠ res → σ' !! q = heap this !! q) ∧
    perform moved_from c value this =
    Some ([{| before := payloads this; obtained := Some v |}], value',
          {| m_adapter := stl.pop (CustomComparator_call σ') (m_adapter this);
             heap := σ' |}).
Proof.
  intros Hc Hvalid He.
  destruct (peek_is_Some this Hvalid He) as (res & v & Hres & Hv & Hpeek).
  destruct (pops_of_nonempty this res He Hres) as (Hp & Ht & _).
  destruct (pops_ref_of_nonempty moved_from value this res v He Hres Hv)
    as (Hpr & Htr & _).
  cbn zeta in Hp, Ht, Hpr, Htr.
  destruct c; cbn in Hc |- *; [done..| | | |]; rewrite ?Hpr, ?Htr, ?Hp, ?Ht; cbn.
  - exists res, v, (heap this), value. rewrite Hv. done.
  - exists res, v, (<[res := moved_from v]> (heap this)), v. split_and!; [done..| |done].
    intros q Hq. by rewrite lookup_insert_ne.
  - exists res, v, (heap this), value. rewrite Hv. done.
  - exists res, v, (<[res := moved_from v]> (heap this)), v. split_and!; [done..| |done].
    intros q Hq. by rewrite lookup_insert_ne.
Qed.

Lemma perform_spec comp c value this :
  well_formed comp this →
  ∃ obs value' this',
    perform moved_from c value this = Some (obs, value', this') ∧
    well_formed comp this' ∧
    stl.discipline_of (m_adapter this') = stl.discipline_of (m_adapter this) ∧
    popped_in obs ++ payloads this' ≡ₚ payloads this ++ pushed_by [c] ∧
    (stl.discipline_of (m_adapter this) = stl.FIFO →
       popped_in obs ++ payloads this' = payloads this ++ pushed_by [c]) ∧
    Forall (as_selected (stl.discipline_of (m_adapter this)) comp) obs ∧
    length (popped_in obs) ≤ 1 ∧
    (∀ v, v ∈ popped_in obs →
          selected (stl.discipline_of (m_adapter this)) comp (payloads this) v).
Proof.
  intros Hwf. pose proof Hwf as (Hvalid & _).
  destruct (pushed_by [c]) as [|v pushed] eqn:Hc.
  - destruct (stl.empty (m_adapter this)) eqn:He.
    + rewrite (perform_pop_empty c value this Hc He).
      eexists _, _, _. split_and!.
      * done.
      * done.
      * done.
      * cbn. by rewrite app_nil_r.
      * cbn. by rewrite app_nil_r.
      * apply Forall_singleton. unfold as_selected. cbn. by apply payloads_of_empty.
      * cbn. lia.
      * cbn. by intros ? ?%elem_of_nil.
    + destruct (perform_pop_nonempty c value this Hc Hvalid He)
        as (res & v & σ' & value' & Hres & Hv & Hσ & ->).
      destruct (popped_well_formed comp this res v σ' Hwf Hres Hv Hσ)
        as (? & ? & ? & ? & ?).
      eexists _, _, _. split_and!.
      * done.
      * done.
      * done.
      * cbn. by rewrite app_nil_r.
      * cbn. rewrite app_nil_r. done.
      * by apply Forall_singleton.
      * cbn. lia.
      * cbn. by intros ? ->%list_elem_of_singleton.
  - assert (pushed = [] ∧ perform moved_from c value this = Some ([], value, push v this))
      as [-> ->].
    { destruct c; simplify_eq/=; done. }
    eexists _, _, _. split_and!.
    + done.
    + by apply push_well_formed.
    + apply push_discipline_of.
    + by apply push_payloads.
    + intros Hd. apply push_payloads_sequential; [done|]. by rewrite Hd.
    + constructor.
    + cbn. lia.
    + cbn. by intros ? ?%elem_of_nil.
Qed.

Lemma client_spec comp calls value this :
  well_formed comp this →
  ∃ obs this',
    client moved_from calls value this = Some (obs, this') ∧
    well_formed comp this' ∧
    stl.discipline_of (m_adapter this') = stl.discipline_of (m_adapter this) ∧
    popped_in obs ++ payloads this' ≡ₚ payloads this ++ pushed_by calls ∧
    (stl.discipline_of (m_adapter this) = stl.FIFO →
       popped_in obs ++ payloads this' = payloads this ++ pushed_by calls) ∧
    Forall (as_selected (stl.discipline_of (m_adapter this)) comp) obs ∧
    (stl.discipline_of (m_adapter this) = stl.prioritized → pushed_by calls = [] →
       StronglySorted (λ a b, comp a b = false) (popped_in obs)).
Proof.
  revert value this. induction calls as [|c calls IH]; intros value this Hwf.
  { exists [], this. cbn. rewrite app_nil_r.
    split_and!; [done..|apply Forall_nil_2|intros; apply SSorted_nil]. }
  destruct (perform_spec comp c value this Hwf)
    as (obs1 & value1 & this1 & Hperf & Hwf1 & Hd1 & Hperm1 & Heq1 & Hsel1 & Hlen1 & Hsel1').
  destruct (IH value1 this1 Hwf1) as (obs2 & this2 & Hcl & Hwf2 & Hd2 & Hperm2 & Heq2 & Hsel2 & Hsort2).
  exists (obs1 ++ obs2), this2. cbn [client]. rewrite Hperf.
  cbn -[popped_in pushed_by payloads]. rewrite Hcl. cbn -[popped_in pushed_by payloads].
  assert (pushed_by (c :: calls) = pushed_by [c] ++ pushed_by calls) as Hpushed.
  { unfold pushed_by. by rewrite (omap_app _ [c] calls). }
  assert (popped_in (obs1 ++ obs2) = popped_in obs1 ++ popped_in obs2) as Hpopped.
  { unfold popped_in. by rewrite omap_app. }
  rewrite Hpushed, Hpopped. rewrite Hd1 in Hd2, Heq2, Hsel2, Hsort2.
  split_and!; [done..| | | |].
  - rewrite <-(assoc_L (++)), Hperm2, (assoc_L (++)), Hperm1. by rewrite (assoc_L (++)).
  - intros Hd. rewrite <-(assoc_L (++)), (Heq2 Hd), (assoc_L (++)), (Heq1 Hd).
    by rewrite (assoc_L (++)).
  - by apply Forall_app.
  - intros Hd [Hp1 Hp2]%app_eq_nil. rewrite Hp1, Hp2, !app_nil_r in *.
    apply StronglySorted_app_2.
    + intros v w Hv Hw. rewrite Hd in Hsel1'. destruct (Hsel1' v Hv) as [_ Hgreatest].
      apply Hgreatest. rewrite <-Hperm1. apply elem_of_app. right.
      rewrite <-Hperm2. apply elem_of_app. by left.
    + destruct (popped_in obs1) as [|v [|? ?]]; [repeat constructor..|cbn in Hlen1; lia].
    + by apply Hsort2.
Qed.

End client_facts.

Section created_adapters.
Context {Elem : Type} `{!Inhabited Elem} (moved_from : Elem → Elem).
Implicit Types (this : @ThreadsafeSTLAdapter Elem) (σ : gmap loc Elem).

Lemma create_sequential_well_formed comp adapter (comparator : Ts adapter) σ :
  stl.discipline_of adapter ≠ stl.prioritized →
  well_formed comp (createThreadsafeSTLAdapterFrom adapter comparator σ).
Proof.
  intros Hd. split_and!.
  - apply create_valid.
  - unfold heap_ordered.
    destruct adapter as [c|c|c cmp]; [| |done]; cbn; unfold getProtectedContainer;
      by destruct (transform_copy _ _ _).
  - intros cmp. rewrite create_comp. by destruct adapter.
Qed.

Lemma create_priority_well_formed c comp0 (comparator : Elem → Elem → bool) σ :
  stl.strict_weak_order comparator → stl.is_heap comparator c = true →
  well_formed comparator
    (createThreadsafeSTLAdapterFrom (stl.priority_queue c comp0) comparator σ).
Proof.
  intros Hswo Hheap.
  pose proof (create_valid (stl.priority_queue c comp0) comparator σ) as Hvalid.
  pose proof (create_comp (stl.priority_queue c comp0) comparator σ) as Hcomp.
  pose proof (create_payloads (stl.priority_queue c comp0) comparator σ) as Hpay.
  cbv beta iota in Hcomp.
  set (this := createThreadsafeSTLAdapterFrom (stl.priority_queue c comp0) comparator σ)
    in *.
  clearbody this. split_and!.
  - done.
  - apply heap_ordered_payloads. rewrite Hpay.
    destruct (m_adapter this) as [?|?|c' cmp]; [done..|].
    cbn in Hcomp. by injection Hcomp as ->.
  - intros cmp. rewrite Hcomp. by intros [= <-].
Qed.

(** A priority queue filled by pushes is a heap of the pushed elements. *)
Lemma seeded_priority_queue_heap (comp : Elem → Elem → bool) (seed : list Elem) :
  stl.strict_weak_order comp →
  ∃ c, seeded_priority_queue comp seed = stl.priority_queue c comp ∧
       stl.is_heap comp c = true ∧ c ≡ₚ seed.
Proof.
  intros Hswo. unfold seeded_priority_queue.
  induction seed as [|x seed IH] using rev_ind.
  { by exists []. }
  destruct IH as (c & Hc & Hheap & Hperm).
  rewrite foldl_snoc, Hc. cbn. eexists. split; [done|]. split.
  - apply is_heap_spec, push_heap_heap; [done|]. by apply is_heap_spec.
  - by rewrite push_heap_perm, Hperm.
Qed.

End created_adapters.

Lemma Z_ltb_strict_weak_order : stl.strict_weak_order Z.ltb.
Proof.
  split.
  - intros x y Hxy%Z.ltb_lt. apply Z.ltb_ge. lia.
  - intros x y z Hxz%Z.ltb_lt. destruct (Z.ltb_spec x y); [by left|].
    right. apply Z.ltb_lt. lia.
Qed.

(** ** The claims about the adapter *)

(** C1.  A client thread makes any sequence of calls on one adapter.  With
    a FIFO adapter built from the queue [seed], the values its pops obtain,
    followed by the payloads still held, are the seed followed by the pushed
    values: elements come out in insertion order.  With a priority adapter
    built from a container [seed] that is a heap for the comparator given to
    the factory, a strict weak ordering, every pop obtains an element that is
    not less than any element held, nothing is lost or duplicated, and pops
    that no push separates obtain a descending sequence.
    Seeded with 5, 1, 3, a FIFO adapter yields 5, 1, 3 and then no value, a
    max-first priority adapter yields 5, 3, 1. *)
Theorem C1_pops_follow_the_discipline :
  (∀ (Elem : Type) (I : Inhabited Elem) (moved_from : Elem → Elem)
     (seed : list Elem) (calls : list call) (value : Elem) (σ : gmap loc Elem),
     ∃ obs this',
       client moved_from calls value
         (createThreadsafeSTLAdapterFrom (stl.queue seed) tt σ) = Some (obs, this') ∧
       popped_in obs ++ payloads this' = seed ++ pushed_by calls ∧
       Forall (as_selected stl.FIFO (λ _ _, false)) obs) ∧
  (∀ (Elem : Type) (I : Inhabited Elem) (moved_from : Elem → Elem)
     (seed : list Elem) (comp0 comparator : Elem → Elem → bool)
     (calls : list call) (value : Elem) (σ : gmap loc Elem),
     stl.strict_weak_order comparator → stl.is_heap comparator seed = true →
     ∃ obs this',
       client moved_from calls value
         (createThreadsafeSTLAdapterFrom (stl.priority_queue seed comp0) comparator σ)
         = Some (obs, this') ∧
       popped_in obs ++ payloads this' ≡ₚ seed ++ pushed_by calls ∧
       Forall (as_selected stl.prioritized comparator) obs ∧
       (pushed_by calls = [] →
        StronglySorted (λ a b, comparator a b = false) (popped_in obs))) ∧
  obtained_by (client id [do_tryPop; do_tryPop; do_tryPop; do_tryPop] 0%Z
                 (createThreadsafeSTLAdapterFrom (stl.queue [5; 1; 3]%Z) tt ∅))
    = Some [Some 5; Some 1; Some 3; None]%Z ∧
  obtained_by (client id [do_tryPop_ref; do_tryPop_ref; do_tryPop_ref; do_tryPop_ref] 0%Z
                 (createThreadsafeSTLAdapterFrom (stl.queue [5; 1; 3]%Z) tt ∅))
    = Some [Some 5; Some 1; Some 3; None]%Z ∧
  stl.c (seeded_priority_queue Z.ltb [5; 1; 3]%Z) = [5; 1; 3]%Z ∧
  obtained_by (client id [do_tryPop; do_tryPop; do_tryPop] 0%Z
                 (createThreadsafeSTLAdapterFrom
                    (stl.priority_queue [5; 1; 3]%Z Z.ltb) Z.ltb ∅))
    = Some [Some 5; Some 3; Some 1]%Z ∧
  obtained_by (client id [do_tryPop_ref; do_tryPop_ref; do_tryPop_ref] 0%Z
                 (createThreadsafeSTLAdapterFrom
                    (stl.priority_queue [5; 1; 3]%Z Z.ltb) Z.ltb ∅))
    = Some [Some 5; Some 3; Some 1]%Z.
Proof.
  split_and!.
  - intros Elem I moved_from seed calls value σ.
    destruct (client_spec moved_from (λ _ _, false) calls value
                (createThreadsafeSTLAdapterFrom (stl.queue seed) tt σ))
      as (obs & this' & Hcl & _ & _ & _ & Heq & Hsel & _).
    { by apply create_sequential_well_formed. }
    exists obs, this'. rewrite create_payloads in Heq.
    destruct (create_members (stl.queue seed) tt σ) as (_ & _ & Hd).
    rewrite Hd in Heq, Hsel. split_and!; [done| |done]. by apply Heq.
  - intros Elem I moved_from seed comp0 comparator calls value σ Hswo Hheap.
    destruct (client_spec moved_from comparator calls value
                (createThreadsafeSTLAdapterFrom (stl.priority_queue seed comp0) comparator σ))
      as (obs & this' & Hcl & _ & _ & Hperm & _ & Hsel & Hsort).
    { by apply create_priority_well_formed. }
    exists obs, this'. rewrite create_payloads in Hperm.
    destruct (create_members (stl.priority_queue seed comp0) comparator σ) as (_ & _ & Hd).
    rewrite Hd in Hsel, Hsort. split_and!; [done..|]. by apply Hsort.
  - by vm_compute.
  - by vm_compute.
  - by vm_compute.
  - by vm_compute.
  - by vm_compute.
Qed.

(** The priority part of C1 at the comparator [Z.ltb] and the heap 5, 1, 3,
    for three pops. *)
Lemma C1_pops_follow_the_discipline_witness :
  ∃ obs this',
    client id [do_tryPop; do_tryPop_ref; do_pop] 0%Z
      (createThreadsafeSTLAdapterFrom (stl.priority_queue [5; 1; 3]%Z Z.ltb) Z.ltb ∅)
      = Some (obs, this') ∧
    popped_in obs ++ payloads this' ≡ₚ [5; 1; 3]%Z ++ [] ∧
    Forall (as_selected stl.prioritized Z.ltb) obs ∧
    (@pushed_by Z [do_tryPop; do_tryPop_ref; do_pop] = [] →
     StronglySorted (λ a b, Z.ltb a b = false) (popped_in obs)).
Proof.
  apply (proj1 (proj2 C1_pops_follow_the_discipline) Z _ id [5; 1; 3]%Z Z.ltb Z.ltb
           [do_tryPop; do_tryPop_ref; do_pop] 0%Z ∅).
  - exact Z_ltb_strict_weak_order.
  - reflexivity.
Defined.

(** C1, as the claim states it, fails.  The factory copies the container
    of the source queue as it is and wraps the comparator it is given, without
    rebuilding the heap.  The priority queue that holds 1, 5, 3 under [>] is a
    heap for [>]; the adapter built from it with the comparator [<] yields
    1, 5, 3, which is not descending for [<]: the first pop already returns
    an element below one that is still held. *)
Lemma C1_a_priority_adapter_pops_in_the_order_of_the_source :
  stl.is_heap Z.gtb [1; 5; 3]%Z = true ∧
  stl.is_heap Z.ltb [1; 5; 3]%Z = false ∧
  obtained_by (client id [do_tryPop; do_tryPop; do_tryPop] 0%Z
                 (createThreadsafeSTLAdapterFrom
                    (stl.priority_queue [1; 5; 3]%Z Z.gtb) Z.ltb ∅))
    = Some [Some 1; Some 5; Some 3]%Z ∧
  obtained_by (client id [do_tryPop_ref; do_tryPop_ref; do_tryPop_ref] 0%Z
                 (createThreadsafeSTLAdapterFrom
                    (stl.priority_queue [1; 5; 3]%Z Z.gtb) Z.ltb ∅))
    = Some [Some 1; Some 5; Some 3]%Z ∧
  ¬ selected stl.prioritized Z.ltb [1; 5; 3]%Z 1%Z ∧
  ¬ StronglySorted (λ a b, Z.ltb a b = false) [1; 5; 3]%Z.
Proof.
  split_and!; try (by vm_compute).
  - intros [_ Hmax]. specialize (Hmax 5%Z). cbn in Hmax.
    assert (5%Z ∈ [1; 5; 3]%Z) as Hin by (apply elem_of_cons; right; by left).
    by specialize (Hmax Hin).
  - intros Hsorted. apply StronglySorted_inv in Hsorted as [_ Hall].
    by apply Forall_cons in Hall as [? _].
Qed.

(** C2.  On an empty adapter [pop] throws [EmptyAdapter] and [tryPop]
    returns "no value" (false, the null handle) without throwing; on an
    adapter that is not empty both return the element the discipline
    selects: the payload of the handle at the back of a stack, at the front
    of a queue or of a priority queue.  Neither ever suspends its caller. *)
Theorem C2_pop_throws_and_tryPop_declines_when_empty
    {Elem : Type} `{!Inhabited Elem} (moved_from : Elem → Elem)
    (value : Elem) (this : @ThreadsafeSTLAdapter Elem) :
  valid this →
  (stl.empty (m_adapter this) = true →
     pop_ref moved_from value this = Throws EmptyAdapter (value, this) ∧
     pop this = Throws EmptyAdapter this ∧
     tryPop_ref moved_from value this = Returns false (value, this) ∧
     tryPop this = Returns None this) ∧
  (stl.empty (m_adapter this) = false →
     ∃ res v this_r this_h,
       Some res = match stl.discipline_of (m_adapter this) with
                  | stl.LIFO => last (stl.c (m_adapter this))
                  | stl.FIFO | stl.prioritized => head (stl.c (m_adapter this))
                  end ∧
       heap this !! res = Some v ∧
       pop_ref moved_from value this = Returns tt (v, this_r) ∧
       tryPop_ref moved_from value this = Returns true (v, this_r) ∧
       pop this = Returns res this_h ∧
       tryPop this = Returns (Some res) this_h) ∧
  blocks (pop_ref moved_from value this) = false ∧
  blocks (pop this) = false ∧
  blocks (tryPop_ref moved_from value this) = false ∧
  blocks (tryPop this) = false.
Proof.
  intros Hvalid. split_and!.
  - intros He. destruct (pops_of_empty moved_from value this He) as (? & ? & _ & ? & ? & _).
    done.
  - intros He. destruct (peek_is_Some this Hvalid He) as (res & v & Hres & Hv & _).
    destruct (pops_of_nonempty this res He Hres) as (? & ? & _).
    destruct (pops_ref_of_nonempty moved_from value this res v He Hres Hv) as (? & ? & _).
    eexists res, v, _, _. rewrite <-getCurrent_discipline. done.
  - unfold pop_ref. by repeat case_match.
  - unfold pop. by repeat case_match.
  - unfold tryPop_ref. by repeat case_match.
  - unfold tryPop. by repeat case_match.
Qed.

(** C2 at the FIFO adapter seeded with 5, 1, 3. *)
Lemma C2_pop_throws_and_tryPop_declines_when_empty_witness :
  let this := createThreadsafeSTLAdapterFrom (stl.queue [5; 1; 3]%Z) tt ∅ in
  (stl.empty (m_adapter this) = true →
     pop_ref id 0%Z this = Throws EmptyAdapter (0%Z, this) ∧
     pop this = Throws EmptyAdapter this ∧
     tryPop_ref id 0%Z this = Returns false (0%Z, this) ∧
     tryPop this = Returns None this) ∧
  (stl.empty (m_adapter this) = false →
     ∃ res v this_r this_h,
       Some res = match stl.discipline_of (m_adapter this) with
                  | stl.LIFO => last (stl.c (m_adapter this))
                  | stl.FIFO | stl.prioritized => head (stl.c (m_adapter this))
                  end ∧
       heap this !! res = Some v ∧
       pop_ref id 0%Z this = Returns tt (v, this_r) ∧
       tryPop_ref id 0%Z this = Returns true (v, this_r) ∧
       pop this = Returns res this_h ∧
       tryPop this = Returns (Some res) this_h) ∧
  blocks (pop_ref id 0%Z this) = false ∧
  blocks (pop this) = false ∧
  blocks (tryPop_ref id 0%Z this) = false ∧
  blocks (tryPop this) = false.
Proof.
  apply (C2_pop_throws_and_tryPop_declines_when_empty id 0%Z).
  apply (bool_decide_unpack _). vm_compute. exact I.
Defined.

(** C7.  Every pop that succeeds returns what [getCurrent] selects at that
    moment: the handle-returning overloads return that handle, which points
    to the peeked payload, and the by-reference overloads assign that
    payload.  On an adapter that is not empty [pop], [tryPop] and
    [waitAndPop] return the same element and leave the same adapter. *)
Theorem C7_a_successful_pop_returns_the_current_element
    {Elem : Type} `{!Inhabited Elem} (moved_from : Elem → Elem)
    (value : Elem) (this : @ThreadsafeSTLAdapter Elem) :
  valid this →
  (∀ v this', pop_ref moved_from value this = Returns tt (v, this') ∨
              tryPop_ref moved_from value this = Returns true (v, this') ∨
              waitAndPop_ref moved_from value this = Returns tt (v, this') →
              peek this = Some v) ∧
  (∀ res this', pop this = Returns res this' ∨
                tryPop this = Returns (Some res) this' ∨
                waitAndPop this = Returns res this' →
                getCurrent (m_adapter this) = Some res ∧
                heap this' !! res = peek this) ∧
  (stl.empty (m_adapter this) = false →
     ∃ res v this_h this_r,
       getCurrent (m_adapter this) = Some res ∧ peek this = Some v ∧
       pop this = Returns res this_h ∧
       tryPop this = Returns (Some res) this_h ∧
       waitAndPop this = Returns res this_h ∧
       pop_ref moved_from value this = Returns tt (v, this_r) ∧
       tryPop_ref moved_from value this = Returns true (v, this_r) ∧
       waitAndPop_ref moved_from value this = Returns tt (v, this_r)).
Proof.
  intros Hvalid.
  assert (stl.empty (m_adapter this) = false →
     ∃ res v this_h this_r,
       getCurrent (m_adapter this) = Some res ∧ peek this = Some v ∧
       heap this_h !! res = Some v ∧
       pop this = Returns res this_h ∧
       tryPop this = Returns (Some res) this_h ∧
       waitAndPop this = Returns res this_h ∧
       pop_ref moved_from value this = Returns tt (v, this_r) ∧
       tryPop_ref moved_from value this = Returns true (v, this_r) ∧
       waitAndPop_ref moved_from value this = Returns tt (v, this_r)) as Hnonempty.
  { intros He. destruct (peek_is_Some this Hvalid He) as (res & v & Hres & Hv & Hpeek).
    destruct (pops_of_nonempty this res He Hres) as (? & ? & ?).
    destruct (pops_ref_of_nonempty moved_from value this res v He Hres Hv) as (? & ? & ?).
    eexists res, v,
      {| m_adapter := stl.pop (CustomComparator_call (heap this)) (m_adapter this);
         heap := heap this |}, _.
    split_and!; done. }
  split_and!.
  - intros v this' Hret. destruct (stl.empty (m_adapter this)) eqn:He.
    + destruct (pops_of_empty moved_from value this He) as (Hpr & Htr & Hwr & _).
      rewrite Hpr, Htr, Hwr in Hret. by destruct Hret as [?|[?|?]].
    + destruct (Hnonempty eq_refl)
        as (res & v' & this_h & this_r & _ & Hpeek & _ & _ & _ & _ & Hpr & Htr & Hwr).
      rewrite Hpr, Htr, Hwr in Hret. by destruct Hret as [?|[?|?]]; simplify_eq.
  - intros res this' Hret. destruct (stl.empty (m_adapter this)) eqn:He.
    + destruct (pops_of_empty moved_from value this He) as (_ & _ & _ & Hp & Ht & Hw).
      rewrite Hp, Ht, Hw in Hret. by destruct Hret as [?|[?|?]].
    + destruct (Hnonempty eq_refl)
        as (res' & v' & this_h & this_r & Hres & Hpeek & Hh & Hp & Ht & Hw & _).
      rewrite Hp, Ht, Hw in Hret. rewrite Hpeek.
      by destruct Hret as [?|[?|?]]; simplify_eq.
  - intros He. destruct (Hnonempty He)
      as (res & v & this_h & this_r & ? & ? & ? & ? & ? & ? & ? & ? & ?).
    by exists res, v, this_h, this_r.
Qed.

(** C7 at the max-first priority adapter seeded with 5, 1, 3. *)
Lemma C7_a_successful_pop_returns_the_current_element_witness :
  let this := createThreadsafeSTLAdapterFrom (stl.priority_queue [5; 1; 3]%Z Z.ltb) Z.ltb ∅ in
  (∀ v this', pop_ref id 0%Z this = Returns tt (v, this') ∨
              tryPop_ref id 0%Z this = Returns true (v, this') ∨
              waitAndPop_ref id 0%Z this = Returns tt (v, this') →
              peek this = Some v) ∧
  (∀ res this', pop this = Returns res this' ∨
                tryPop this = Returns (Some res) this' ∨
                waitAndPop this = Returns res this' →
                getCurrent (m_adapter this) = Some res ∧
                heap this' !! res = peek this) ∧
  (stl.empty (m_adapter this) = false →
     ∃ res v this_h this_r,
       getCurrent (m_adapter this) = Some res ∧ peek this = Some v ∧
       pop this = Returns res this_h ∧
       tryPop this = Returns (Some res) this_h ∧
       waitAndPop this = Returns res this_h ∧
       pop_ref id 0%Z this = Returns tt (v, this_r) ∧
       tryPop_ref id 0%Z this = Returns true (v, this_r) ∧
       waitAndPop_ref id 0%Z this = Returns tt (v, this_r)).
Proof.
  apply (C7_a_successful_pop_returns_the_current_element id 0%Z).
  apply (bool_decide_unpack _). vm_compute. exact I.
Defined.

(** C10.  On an empty adapter the failing [pop] and the value-less
    [tryPop] change nothing: the adapter and the memory are the ones before
    the call, the container is still empty, and the by-reference overloads
    leave the caller's variable as it was. *)
Theorem C10_pops_of_an_empty_adapter_change_nothing
    {Elem : Type} `{!Inhabited Elem} (moved_from : Elem → Elem)
    (value : Elem) (this : @ThreadsafeSTLAdapter Elem) :
  stl.empty (m_adapter this) = true →
  state_after (pop_ref moved_from value this) = Some (value, this) ∧
  state_after (tryPop_ref moved_from value this) = Some (value, this) ∧
  state_after (pop this) = Some this ∧
  state_after (tryPop this) = Some this ∧
  pop_ref moved_from value this = Throws EmptyAdapter (value, this) ∧
  tryPop_ref moved_from value this = Returns false (value, this) ∧
  pop this = Throws EmptyAdapter this ∧
  tryPop this = Returns None this ∧
  payloads this = [].
Proof.
  intros He. destruct (pops_of_empty moved_from value this He) as (Hpr & Htr & _ & Hp & Ht & _).
  rewrite Hpr, Htr, Hp, Ht. split_and!; try done. by apply payloads_of_empty.
Qed.

(** C10 at the adapter built from an empty queue, with 7 in the caller's
    variable. *)
Lemma C10_pops_of_an_empty_adapter_change_nothing_witness :
  let this := createThreadsafeSTLAdapterFrom (stl.queue ([] : list Z)) tt ∅ in
  state_after (pop_ref id 7%Z this) = Some (7%Z, this) ∧
  state_after (tryPop_ref id 7%Z this) = Some (7%Z, this) ∧
  state_after (pop this) = Some this ∧
  state_after (tryPop this) = Some this ∧
  pop_ref id 7%Z this = Throws EmptyAdapter (7%Z, this) ∧
  tryPop_ref id 7%Z this = Returns false (7%Z, this) ∧
  pop this = Throws EmptyAdapter this ∧
  tryPop this = Returns None this ∧
  payloads this = [].
Proof.
  apply (C10_pops_of_an_empty_adapter_change_nothing id 7%Z). reflexivity.
Defined.

(** C8.  From a plain container the factory builds an adapter of the same
    discipline that holds one handle per element of the source, in the
    order of the source: the handles are distinct, none of them was
    allocated before, the memory that was allocated is unchanged, and each
    handle points to a copy of its element.  The rvalue overload builds the
    same adapter from the moved values and leaves the source elements
    moved-from.  For a priority queue the adapter's comparator is the
    caller's comparator applied to the payloads of the two handles. *)
Theorem C8_the_factory_wraps_every_element_in_a_fresh_handle :
  (∀ (Elem : Type) (I : Inhabited Elem) (moved_from : Elem → Elem)
     (adapter : stl.adapter Elem (Elem → Elem → bool)) (comparator : Ts adapter)
     (σ : gmap loc Elem),
     let this := createThreadsafeSTLAdapterFrom adapter comparator σ in
     let handles := stl.c (m_adapter this) in
     length handles = length (stl.c adapter) ∧
     NoDup handles ∧
     Forall (λ p, σ !! p = None) handles ∧
     σ ⊆ heap this ∧
     (λ p, heap this !! p) <$> handles = Some <$> stl.c adapter ∧
     payloads this = stl.c adapter ∧
     stl.discipline_of (m_adapter this) = stl.discipline_of adapter ∧
     createThreadsafeSTLAdapterFrom_rvalue moved_from adapter comparator σ =
       (this, with_container adapter (moved_from <$> stl.c adapter))) ∧
  (∀ (Elem : Type) (I : Inhabited Elem) (c : list Elem)
     (comp0 comparator : Elem → Elem → bool) (σ : gmap loc Elem),
     let this := createThreadsafeSTLAdapterFrom (stl.priority_queue c comp0) comparator σ in
     stl.comp (m_adapter this) = Some {| m_comparator := comparator |} ∧
     ∀ x y a b, heap this !! x = Some a → heap this !! y = Some b →
       CustomComparator_call (heap this) {| m_comparator := comparator |} x y
       = comparator a b).
Proof.
  split.
  - intros Elem I moved_from adapter comparator σ. cbv zeta.
    destruct (create_handles adapter comparator σ) as (? & ? & ? & ? & ?).
    destruct (create_members adapter comparator σ) as (_ & _ & ?).
    split_and!; try done.
    + apply create_payloads.
    + apply create_rvalue.
  - intros Elem I c comp0 comparator σ. cbv zeta. split.
    + apply (create_comp (stl.priority_queue c comp0)).
    + intros x y a b Hx Hy. unfold CustomComparator_call. cbn [m_comparator].
      by rewrite !lookup_total_alt, Hx, Hy.
Qed.

(** ** The FIFO adapters inside a controller *)
Section fifo_facts.
Context {Elem : Type} `{!Inhabited Elem} (moved_from : Elem → Elem).
Implicit Types (q : @ThreadsafeSTLAdapter Elem).

Lemma is_fifo_create (c : list Elem) σ :
  is_fifo (createThreadsafeSTLAdapterFrom (stl.queue c) tt σ) ∧
  payloads (createThreadsafeSTLAdapterFrom (stl.queue c) tt σ) = c.
Proof.
  split; [split|].
  - apply create_valid.
  - by destruct (create_members (stl.queue c) tt σ) as (_ & _ & ->).
  - apply create_payloads.
Qed.

Lemma is_fifo_push v q :
  is_fifo q → is_fifo (push v q) ∧ payloads (push v q) = payloads q ++ [v].
Proof.
  intros [Hvalid Hd]. split; [split|].
  - by apply push_valid.
  - by rewrite push_discipline_of.
  - apply push_payloads_sequential; [done|]. by rewrite Hd.
Qed.

Lemma is_fifo_pops_ref value q :
  is_fifo q →
  match payloads q with
  | [] =>
      tryPop_ref moved_from value q = Returns false (value, q) ∧
      waitAndPop_ref moved_from value q = Suspends (value, q)
  | x :: rest =>
      ∃ q', is_fifo q' ∧ payloads q' = rest ∧
            tryPop_ref moved_from value q = Returns true (x, q') ∧
            waitAndPop_ref moved_from value q = Returns tt (x, q')
  end.
Proof.
  intros [Hvalid Hd]. destruct (stl.empty (m_adapter q)) eqn:He.
  - pose proof (proj1 (payloads_of_empty q) He) as ->.
    by destruct (pops_of_empty moved_from value q He) as (_ & ? & ? & _).
  - destruct (peek_is_Some q Hvalid He) as (res & v & Hres & Hv & _).
    destruct (pops_ref_of_nonempty moved_from value q res v He Hres Hv) as (_ & Ht & Hw).
    pose proof (popped_valid q res (<[res := moved_from v]> (heap q)) Hvalid Hres) as Hpv.
    pose proof (popped_payloads_queue q res (<[res := moved_from v]> (heap q)) Hvalid Hres)
      as Hpq.
    cbn zeta in *. rewrite Hpq; [|by intros; rewrite lookup_insert_ne|done].
    rewrite lookup_total_alt, Hv. cbn.
    destruct Hpv as (Hvalid' & _); [by intros; rewrite lookup_insert_ne|].
    eexists. split_and!; [split; [exact Hvalid'|]|done|exact Ht|exact Hw].
    cbn. by rewrite pop_discipline.
Qed.

End fifo_facts.

(** ** The controller of namespace [concurrency] *)

(** Unfolds one step down to the case it takes. *)
Ltac step_cases H :=
  unfold concurrency.step, concurrency.mainThreadWork, concurrency.workerThreadWork,
    disableWorkerThreadIfEnabled, Producer_predicate, Consumer_predicate,
    enableWorkerThread, disableWorkerThread, shutdownMainThread_push, Producer_push,
    go_after_disable, mainThreadWork_returns, workerThread_returns in H;
  repeat case_match; simplify_eq.

(** Reads the fields of an updated state. *)
Ltac fields :=
  cbn [m_commandQueue m_mainThread m_sharedContainer m_workerThread m_workerThreadMutex
       m_workerThreadEnabled m_isWorkerThreadRunning m_vectorItemsQueue main_at worker_at
       pushed forwarded popped delivered
       set_m_commandQueue set_m_mainThread set_m_sharedContainer set_m_workerThread
       set_m_workerThreadMutex set_m_workerThreadEnabled set_m_isWorkerThreadRunning
       set_m_vectorItemsQueue set_main_at set_worker_at
       set_pushed set_forwarded set_popped set_delivered
       held_by holds_mutex].

(** Feeds the hypotheses of an invariant their premises, and closes the goal. *)
Ltac use_invariant :=
  intros;
  repeat match goal with
  | H : ∀ c : Command, in_join ?c0 = in_join c → _ |- _ => specialize (H c0 eq_refl)
  | H : ∀ c : Command, in_join ?c0 ≠ in_join c |- _ => destruct (H c0 eq_refl)
  | t : thread |- _ => destruct t; simplify_eq/=
  | H : ?P → ?Q |- _ =>
      let HP := fresh in
      assert P as HP
        by (first [reflexivity | assumption | by intros; discriminate | congruence]);
      specialize (H HP); clear HP
  | H : _ ∨ _ |- _ => destruct H
  | H : _ ↔ _ |- _ => destruct H
  end;
  first [assumption | discriminate | congruence | by left | by right
        | by split; intros; congruence | by eauto].

Section controller_threads.
Context {Elem : Type} `{!Inhabited Elem}.
Context (moved_from : Elem → Elem) (moved_from_vector : list Elem → list Elem).
Context (type : Type_) (m_callable : Elem → bool).

Lemma threads_consistent_init (sharedContainer : @ThreadsafeSTLAdapter Elem) thread_starts :
  threads_consistent (construct sharedContainer thread_starts).
Proof.
  unfold threads_consistent, construct, runMainThread.
  destruct thread_starts; cbn; split_and!; try done; auto.
Qed.

Lemma threads_consistent_step e s s' :
  threads_consistent s →
  step moved_from moved_from_vector type m_callable e s = Steps s' →
  threads_consistent s'.
Proof.
  intros (Hrun & Hmutex & Hidle & Hjoin & Hen & Hmain) Hstep.
  destruct e; step_cases Hstep; unfold threads_consistent; fields;
    try (by split_and!); split_and!; try assumption.
  all: try (use_invariant; fail).
  all: rewrite ?Hmutex in *; destruct (worker_at s) eqn:Hpc; simplify_eq; fields;
    use_invariant.
Qed.

Lemma threads_consistent_reachable s0 s :
  threads_consistent s0 →
  reachable moved_from moved_from_vector type m_callable s0 s →
  threads_consistent s.
Proof. induction 2; eauto using threads_consistent_step. Qed.

End controller_threads.

Section controller_items.
Context {Elem : Type} `{!Inhabited Elem}.
Context (moved_from : Elem → Elem) (moved_from_vector : list Elem → list Elem).
Context (type : Type_) (m_callable : Elem → bool).

Lemma items_consistent_init (sharedContainer : @ThreadsafeSTLAdapter Elem) thread_starts :
  items_consistent type (construct sharedContainer thread_starts).
Proof.
  unfold items_consistent, construct, runMainThread.
  destruct (is_fifo_create ([] : list Command) ∅) as [Hc _].
  destruct (is_fifo_create ([] : list (list Elem)) ∅) as [Hb Hbp].
  destruct thread_starts; unfold ProducerConsumerBase; fields.
  all: split_and!; [done|done|by intros ? [?|?]|done|].
  all: destruct type; [by rewrite Hbp|]; split; [done|]; by intros ? [?|[? _]].
Qed.

(** Closes one conjunct of [items_consistent] after a step. *)
Ltac items_goal :=
  first
  [ assumption
  | reflexivity
  | done
  | by apply is_fifo_push
  | by intros ? [?|?]; simplify_eq; eauto
  | by intros ? ?; simplify_eq; eauto
  | by intros ? [?|[? ?]]; simplify_eq; first [congruence | eauto] ].

(** The calls of the client and of the other roles. *)
Lemma items_consistent_call e s s' :
  (∀ thread_starts, e ≠ main_thread thread_starts) → e ≠ worker_thread →
  items_consistent type s →
  step moved_from moved_from_vector type m_callable e s = Steps s' →
  items_consistent type s'.
Proof.
  intros Hmain Hworker (Hcq & Hbq & Hwait & Hcheck & Hitems) Hstep.
  destruct e as [| | |items|x| |thread_starts|];
    [..|by destruct (Hmain thread_starts)|done]; step_cases Hstep;
    unfold items_consistent, pushAndNotify; fields;
    try destruct Hitems as [Hitems Hone];
    split_and!; try items_goal.
  destruct (is_fifo_push items (m_vectorItemsQueue s) Hbq) as [? Hpay].
  rewrite Hpay, concat_app. cbn.
  by rewrite app_nil_r, !(assoc_L (++)).
Qed.

(** The statements of the control thread. *)
Lemma items_consistent_main thread_starts (s s' : @System Elem) :
  threads_consistent s → items_consistent type s →
  mainThreadWork thread_starts s = Steps s' → items_consistent type s'.
Proof.
  intros (Hrun & Hmutex & Hidle & Hjoin & Hen & Hmain)
         (Hcq & Hbq & Hwait & Hcheck & Hitems) Hstep.
  unfold mainThreadWork in Hstep.
  destruct (main_at s) as [|[| |]|c|] eqn:Hpc; [| | | | |done].
  { pose proof (is_fifo_pops_ref id inhabitant (m_commandQueue s) Hcq) as Hpop.
    destruct (payloads (m_commandQueue s)) as [|x rest].
    - destruct Hpop as [_ Hw]. by rewrite Hw in Hstep.
    - destruct Hpop as (q' & Hq' & _ & _ & Hw). rewrite Hw in Hstep. simplify_eq.
      by split_and!. }
  all: step_cases Hstep; unfold items_consistent; fields;
      try destruct Hitems as [Hitems Hone];
      rewrite ?Hmutex in *; destruct (worker_at s) eqn:Hw; simplify_eq/=;
      split_and!; try items_goal.
  all: try (by destruct Hrun as [_ Hr]; rewrite Hr in *).
  all: try (by rewrite app_nil_r in *).
Qed.

(** The statements of the worker thread. *)
Lemma items_consistent_worker (s s' : @System Elem) :
  threads_consistent s → items_consistent type s →
  workerThreadWork moved_from moved_from_vector type m_callable s = Steps s' →
  items_consistent type s'.
Proof.
  intros (Hrun & Hmutex & Hidle & Hjoin & Hen & Hmain)
         (Hcq & Hbq & Hwait & Hcheck & Hitems) Hstep.
  unfold workerThreadWork in Hstep.
  destruct (m_workerThread s) as [[| |]|]; try done.
  destruct (worker_at s) as [|held|held|held|held|] eqn:Hpc; [| | | | |done].
  - destruct (m_workerThreadMutex s); simplify_eq.
    unfold items_consistent; fields. split_and!; try items_goal.
    destruct type; [done|]. destruct Hitems. split; items_goal.
  - assert (held = []) as -> by (apply Hwait; by left).
    destruct (m_workerThreadEnabled s) eqn:He; cbn [negb] in Hstep.
    + destruct type.
      * unfold Producer_predicate in Hstep.
        pose proof (is_fifo_pops_ref moved_from_vector [] (m_vectorItemsQueue s) Hbq) as Hpop.
        destruct (payloads (m_vectorItemsQueue s)) as [|x rest] eqn:Hp.
        -- destruct Hpop as [Ht _]. rewrite Ht in Hstep. simplify_eq.
           unfold items_consistent; fields. split_and!; try items_goal.
           by rewrite Hp.
        -- destruct Hpop as (q' & Hq' & Hrest & Ht & _). rewrite Ht in Hstep. simplify_eq.
           unfold items_consistent; fields. by split_and!; try items_goal.
      * unfold Consumer_predicate in Hstep. destruct Hitems as [Hitems Hone].
        repeat case_match; simplify_eq;
          unfold items_consistent, workerThread_returns; fields;
          split_and!; try items_goal.
        all: cbn in Hitems; rewrite app_nil_r in Hitems; by rewrite Hitems.
    + simplify_eq. unfold items_consistent; fields. split_and!; try items_goal.
      destruct type; [done|]. destruct Hitems. split; items_goal.
  - assert (held = []) as -> by (apply Hwait; by right).
    destruct (m_workerThreadMutex s); simplify_eq.
    unfold items_consistent; fields. split_and!; try items_goal.
    destruct type; [done|]. destruct Hitems. split; items_goal.
  - destruct (m_workerThreadEnabled s) eqn:He; cbn [negb] in Hstep; simplify_eq.
    + unfold items_consistent; fields. split_and!; try items_goal.
      destruct type; [done|]. destruct Hitems as [Hitems Hone]. split; [done|].
      intros ? [?|[? ?]]; simplify_eq. apply Hone. by right.
    + destruct (Hcheck held eq_refl) as [?| ->]; [done|].
      unfold items_consistent, workerThread_returns; fields. split_and!; try items_goal.
      destruct type; [done|]. destruct Hitems. split; items_goal.
  - destruct type.
    + destruct held as [|item rest]; simplify_eq;
        unfold items_consistent; fields; split_and!; try items_goal.
      cbn in Hitems. by rewrite <-(assoc_L (++)).
    + destruct Hitems as [Hitems Hone].
      destruct (Hone held) as [item ->]; [by left|]. cbn in Hstep.
      destruct (m_callable item); simplify_eq;
        unfold items_consistent, workerThread_returns; fields; split_and!; try items_goal.
      all: by rewrite app_nil_r.
Qed.

Lemma items_consistent_step e s s' :
  threads_consistent s → items_consistent type s →
  step moved_from moved_from_vector type m_callable e s = Steps s' →
  items_consistent type s'.
Proof.
  intros Hthreads Hitems Hstep.
  destruct e as [| | |items|x| |thread_starts|] eqn:He;
    [by apply (items_consistent_call e s s'); subst e..
    |by apply (items_consistent_main thread_starts s)
    |by apply (items_consistent_worker s)].
Qed.

Lemma items_consistent_reachable s0 s :
  threads_consistent s0 → items_consistent type s0 →
  reachable moved_from moved_from_vector type m_callable s0 s →
  threads_consistent s ∧ items_consistent type s.
Proof.
  intros Ht0 Hi0. induction 1 as [|s e s' _ [IHt IHi] Hstep]; [done|]. split.
  - by apply (threads_consistent_step moved_from moved_from_vector type m_callable e s).
  - by apply (items_consistent_step e s).
Qed.

End controller_items.

Section controller_runs.
Context {Elem : Type} `{!Inhabited Elem}.
Context (moved_from : Elem → Elem) (moved_from_vector : list Elem → list Elem).
Context (type : Type_) (m_callable : Elem → bool).

Lemma run_app schedule1 schedule2 s :
  run moved_from moved_from_vector type m_callable (schedule1 ++ schedule2) s =
  match run moved_from moved_from_vector type m_callable schedule1 s with
  | Steps s' => run moved_from moved_from_vector type m_callable schedule2 s'
  | r => r
  end.
Proof.
  revert s. induction schedule1 as [|e schedule1 IH]; intros s; [done|].
  cbn. by destruct (step _ _ _ _ e s).
Qed.

Lemma run_reachable schedule s0 s s' :
  reachable moved_from moved_from_vector type m_callable s0 s →
  run moved_from moved_from_vector type m_callable schedule s = Steps s' →
  reachable moved_from moved_from_vector type m_callable s0 s'.
Proof.
  revert s. induction schedule as [|e schedule IH]; intros s Hs Hrun; cbn in Hrun.
  - by simplify_eq.
  - destruct (step _ _ _ _ e s) as [s1| | |] eqn:Hstep; try done.
    apply (IH s1); [|done]. by eapply reachable_step.
Qed.

(** A worker thread that is not running stands at the end of its thread
    function, where it holds no item. *)
Lemma not_running_holds_nothing (s : @System Elem) :
  threads_consistent s → m_workerThread s ≠ Some running → held_by (worker_at s) = [].
Proof.
  intros (Hrun & _) Hnot. destruct (worker_at s) eqn:Hpc; try done.
  all: by destruct Hnot, (proj2 Hrun).
Qed.

End controller_runs.

(** ** Schedules, statement by statement *)

(** Opens a statement about one scheduled step: names what the view fixes,
    and unfolds the step. *)
Ltac view_step s Hcq Hbq Hsq :=
  intros s (Hcq & Hbq & Hsq) Hview; unfold view in Hview; simplify_eq;
  cbn [run step]; unfold mainThreadWork, workerThreadWork, disableWorkerThreadIfEnabled,
    Producer_predicate, Consumer_predicate, enableWorkerThread, disableWorkerThread,
    Producer_push, pushAndNotify;
  repeat match goal with H : _ = _ |- _ => rewrite H end; cbn [negb andb joinable];
  fields; repeat match goal with H : _ = _ |- _ => rewrite H end; cbn [joinable].

(** Closes it: the step is the one computed, the queues are still queues,
    and the view is the one announced. *)
Ltac view_done :=
  eexists; split; [reflexivity|]; split;
  [unfold queues_fifo; fields; by split_and!
  |unfold view; fields; repeat match goal with H : _ = _ |- _ => rewrite H end; done].

Section schedules.
Context {Elem : Type} `{!Inhabited Elem}.
Context (moved_from : Elem → Elem) (moved_from_vector : list Elem → list Elem).
Context (type : Type_) (m_callable : Elem → bool).

Local Abbreviation reaches := (reaches moved_from moved_from_vector type m_callable).

Lemma reaches_nil v : reaches [] v v.
Proof. intros s Hq Hv. by exists s. Qed.

Lemma reaches_app schedule1 schedule2 v1 v2 v3 :
  reaches schedule1 v1 v2 → reaches schedule2 v2 v3 → reaches (schedule1 ++ schedule2) v1 v3.
Proof.
  intros H1 H2 s Hq Hv. destruct (H1 s Hq Hv) as (s1 & Hrun1 & Hq1 & Hv1).
  destruct (H2 s1 Hq1 Hv1) as (s2 & Hrun2 & Hq2 & Hv2).
  exists s2. by rewrite run_app, Hrun1.
Qed.

Lemma reaches_cons e schedule v1 v2 v3 :
  reaches [e] v1 v2 → reaches schedule v2 v3 → reaches (e :: schedule) v1 v3.
Proof. apply (reaches_app [e]). Qed.

(** *** The client and the other users of the shared container *)

Lemma reaches_call_enableWorkerThread cq w mu en ru buf pcm pcw pu fw po de sh :
  reaches [call_enableWorkerThread]
    (cq, w, mu, en, ru, buf, pcm, pcw, pu, fw, po, de, sh)
    (cq ++ [EnableWorkerThread], w, mu, en, ru, buf, pcm, pcw, pu, fw, po, de, sh).
Proof.
  view_step s Hcq Hbq Hsq.
  destruct (is_fifo_push EnableWorkerThread (m_commandQueue s) Hcq) as [? Hp].
  view_done.
Qed.

Lemma reaches_call_disableWorkerThread cq w mu en ru buf pcm pcw pu fw po de sh :
  reaches [call_disableWorkerThread]
    (cq, w, mu, en, ru, buf, pcm, pcw, pu, fw, po, de, sh)
    (cq ++ [DisableWorkerThread], w, mu, en, ru, buf, pcm, pcw, pu, fw, po, de, sh).
Proof.
  view_step s Hcq Hbq Hsq.
  destruct (is_fifo_push DisableWorkerThread (m_commandQueue s) Hcq) as [? Hp].
  view_done.
Qed.

Lemma reaches_shared_push x cq w mu en ru buf pcm pcw pu fw po de sh :
  reaches [shared_push x]
    (cq, w, mu, en, ru, buf, pcm, pcw, pu, fw, po, de, sh)
    (cq, w, mu, en, ru, buf, pcm, pcw, pu, fw, po, de, sh ++ [x]).
Proof.
  view_step s Hcq Hbq Hsq.
  destruct (is_fifo_push x (m_sharedContainer s) Hsq) as [? Hp].
  view_done.
Qed.

(** *** The control thread *)

Lemma reaches_waitAndPop starts c cq w mu en ru buf pcw pu fw po de sh :
  reaches [main_thread starts]
    (c :: cq, w, mu, en, ru, buf, in_waitAndPop, pcw, pu, fw, po, de, sh)
    (cq, w, mu, en, ru, buf, at_command c, pcw, pu, fw, po, de, sh).
Proof.
  view_step s Hcq Hbq Hsq.
  pose proof (is_fifo_pops_ref id inhabitant (m_commandQueue s) Hcq) as Hpop.
  destruct (payloads (m_commandQueue s)) as [|c' cq']; simplify_eq.
  destruct Hpop as (q' & Hq' & Hrest & _ & ->). view_done.
Qed.

Lemma reaches_spawn cq w buf pcw pu fw po de sh :
  w = None ∨ w = Some joined →
  reaches [main_thread true]
    (cq, w, false, false, false, buf, at_command EnableWorkerThread, pcw, pu, fw, po, de, sh)
    (cq, Some running, false, true, false, buf, in_waitAndPop, at_lock, pu, fw, po, de, sh).
Proof. intros [-> | ->]; view_step s Hcq Hbq Hsq; view_done. Qed.

Lemma reaches_disable starts cq w ru buf pcw pu fw po de sh :
  w = Some running ∨ w = Some finished →
  reaches [main_thread starts]
    (cq, w, false, true, ru, buf, at_command DisableWorkerThread, pcw, pu, fw, po, de, sh)
    (cq, w, false, false, ru, buf, in_join DisableWorkerThread, pcw, pu, fw, po, de, sh).
Proof. intros [-> | ->]; view_step s Hcq Hbq Hsq; view_done. Qed.

Lemma reaches_join starts cq mu en ru buf pcw pu fw po de sh :
  reaches [main_thread starts]
    (cq, Some finished, mu, en, ru, buf, in_join DisableWorkerThread, pcw, pu, fw, po, de, sh)
    (cq, Some joined, mu, en, ru, buf, in_waitAndPop, pcw, pu, fw, po, de, sh).
Proof. view_step s Hcq Hbq Hsq. unfold go_after_disable. view_done. Qed.

(** *** The worker, whatever the role *)

Lemma reaches_lock cq en ru buf pcm pu fw po de sh :
  reaches [worker_thread]
    (cq, Some running, false, en, ru, buf, pcm, at_lock, pu, fw, po, de, sh)
    (cq, Some running, true, en, true, buf, pcm, at_predicate [], pu, fw, po, de, sh).
Proof. view_step s Hcq Hbq Hsq. view_done. Qed.

Lemma reaches_wake cq en ru buf pcm held pu fw po de sh :
  reaches [worker_thread]
    (cq, Some running, false, en, ru, buf, pcm, in_wait held, pu, fw, po, de, sh)
    (cq, Some running, true, en, ru, buf, pcm, at_predicate held, pu, fw, po, de, sh).
Proof. view_step s Hcq Hbq Hsq. view_done. Qed.

Lemma reaches_predicate_disabled cq mu ru buf pcm held pu fw po de sh :
  reaches [worker_thread]
    (cq, Some running, mu, false, ru, buf, pcm, at_predicate held, pu, fw, po, de, sh)
    (cq, Some running, mu, false, ru, buf, pcm, at_check held, pu, fw, po, de, sh).
Proof. view_step s Hcq Hbq Hsq. view_done. Qed.

Lemma reaches_check_disabled cq mu ru buf pcm held pu fw po de sh :
  reaches [worker_thread]
    (cq, Some running, mu, false, ru, buf, pcm, at_check held, pu, fw, po, de, sh)
    (cq, Some finished, false, false, false, buf, pcm, worker_returned, pu, fw, po, de, sh).
Proof. view_step s Hcq Hbq Hsq. unfold workerThread_returns. view_done. Qed.

Lemma reaches_check_enabled cq mu ru buf pcm held pu fw po de sh :
  reaches [worker_thread]
    (cq, Some running, mu, true, ru, buf, pcm, at_check held, pu, fw, po, de, sh)
    (cq, Some running, mu, true, ru, buf, pcm, at_body held, pu, fw, po, de, sh).
Proof. view_step s Hcq Hbq Hsq. view_done. Qed.

End schedules.

(** *** The producer *)

Section producer_schedules.
Context {Elem : Type} `{!Inhabited Elem}.
Context (moved_from : Elem → Elem) (moved_from_vector : list Elem → list Elem).
Context (m_callable : Elem → bool).

Local Abbreviation reaches := (reaches moved_from moved_from_vector Producer m_callable).

Lemma reaches_call_push items cq w mu en ru buf pcm pcw pu fw po de sh :
  reaches [call_push items]
    (cq, w, mu, en, ru, buf, pcm, pcw, pu, fw, po, de, sh)
    (cq, w, mu, en, ru, buf ++ [items], pcm, pcw, pu ++ items, fw, po, de, sh).
Proof.
  view_step s Hcq Hbq Hsq.
  destruct (is_fifo_push items (m_vectorItemsQueue s) Hbq) as [? Hp].
  view_done.
Qed.

Lemma reaches_call_pushes batches cq w mu en ru buf pcm pcw pu fw po de sh :
  reaches (call_push <$> batches)
    (cq, w, mu, en, ru, buf, pcm, pcw, pu, fw, po, de, sh)
    (cq, w, mu, en, ru, buf ++ batches, pcm, pcw, pu ++ concat batches, fw, po, de, sh).
Proof.
  revert buf pu. induction batches as [|items batches IH]; intros buf pu.
  - rewrite !app_nil_r. apply reaches_nil.
  - cbn. rewrite (cons_middle items buf batches), (assoc_L (++) buf [items] batches),
      (assoc_L (++) pu items (concat batches)).
    eapply reaches_cons; [apply reaches_call_push|]. apply IH.
Qed.

Lemma reaches_producer_pops cq mu ru batch buf pcm held pu fw po de sh :
  reaches [worker_thread]
    (cq, Some running, mu, true, ru, batch :: buf, pcm, at_predicate held, pu, fw, po, de, sh)
    (cq, Some running, mu, true, ru, buf, pcm, at_check batch, pu, fw, po, de, sh).
Proof.
  view_step s Hcq Hbq Hsq.
  pose proof (is_fifo_pops_ref moved_from_vector held (m_vectorItemsQueue s) Hbq) as Hpop.
  destruct (payloads (m_vectorItemsQueue s)) as [|b' buf']; simplify_eq.
  destruct Hpop as (q' & Hq' & Hrest & -> & _). view_done.
Qed.

Lemma reaches_producer_waits cq mu ru pcm held pu fw po de sh :
  reaches [worker_thread]
    (cq, Some running, mu, true, ru, [], pcm, at_predicate held, pu, fw, po, de, sh)
    (cq, Some running, false, true, ru, [], pcm, in_wait held, pu, fw, po, de, sh).
Proof.
  view_step s Hcq Hbq Hsq.
  pose proof (is_fifo_pops_ref moved_from_vector held (m_vectorItemsQueue s) Hbq) as Hpop.
  destruct (payloads (m_vectorItemsQueue s)) as [|b' buf'] eqn:Hbuf; simplify_eq.
  destruct Hpop as [-> _]. view_done.
Qed.

Lemma reaches_forward cq mu en ru buf pcm item rest pu fw po de sh :
  reaches [worker_thread]
    (cq, Some running, mu, en, ru, buf, pcm, at_body (item :: rest), pu, fw, po, de, sh)
    (cq, Some running, mu, en, ru, buf, pcm, at_body rest, pu, fw ++ [item], po, de,
     sh ++ [item]).
Proof.
  view_step s Hcq Hbq Hsq.
  destruct (is_fifo_push item (m_sharedContainer s) Hsq) as [? Hp].
  view_done.
Qed.

Lemma reaches_forward_all cq mu en ru buf pcm held pu fw po de sh :
  reaches (replicate (length held) worker_thread)
    (cq, Some running, mu, en, ru, buf, pcm, at_body held, pu, fw, po, de, sh)
    (cq, Some running, mu, en, ru, buf, pcm, at_body [], pu, fw ++ held, po, de, sh ++ held).
Proof.
  revert fw sh. induction held as [|item rest IH]; intros fw sh.
  - rewrite !app_nil_r. apply reaches_nil.
  - cbn. rewrite (cons_middle item fw rest), (cons_middle item sh rest),
      (assoc_L (++) fw [item] rest), (assoc_L (++) sh [item] rest).
    eapply reaches_cons; [apply reaches_forward|]. apply IH.
Qed.

Lemma reaches_batch_done cq mu en ru buf pcm pu fw po de sh :
  reaches [worker_thread]
    (cq, Some running, mu, en, ru, buf, pcm, at_body [], pu, fw, po, de, sh)
    (cq, Some running, false, en, ru, buf, pcm, at_lock, pu, fw, po, de, sh).
Proof. view_step s Hcq Hbq Hsq. view_done. Qed.

(** An enabled worker that starts an iteration forwards every batch of the
    buffer, one after the other, and then waits. *)
Lemma reaches_drained batches cq ru pcm pu fw po de sh :
  reaches (replicate (drain_steps batches) worker_thread)
    (cq, Some running, false, true, ru, batches, pcm, at_lock, pu, fw, po, de, sh)
    (cq, Some running, false, true, true, [], pcm, in_wait [], pu, fw ++ concat batches,
     po, de, sh ++ concat batches).
Proof.
  revert ru fw sh. induction batches as [|batch batches IH]; intros ru fw sh.
  - cbn. rewrite !app_nil_r.
    eapply reaches_cons; [apply reaches_lock|]. apply reaches_producer_waits.
  - cbn [drain_steps foldr concat].
    replace (length batch + 4 + foldr (λ batch n, length batch + 4 + n) 2 batches)
      with (3 + (length batch + (1 + drain_steps batches))) by (unfold drain_steps; lia).
    rewrite !replicate_add. cbn [replicate app].
    rewrite (assoc_L (++) fw batch (concat batches)), (assoc_L (++) sh batch (concat batches)).
    eapply reaches_cons; [apply reaches_lock|].
    eapply reaches_cons; [apply reaches_producer_pops|].
    eapply reaches_cons; [apply reaches_check_enabled|].
    eapply reaches_app; [apply reaches_forward_all|].
    eapply reaches_cons; [apply reaches_batch_done|]. apply IH.
Qed.

End producer_schedules.

(** *** The consumer *)

Section consumer_schedules.
Context {Elem : Type} `{!Inhabited Elem}.
Context (moved_from : Elem → Elem) (moved_from_vector : list Elem → list Elem).
Context (m_callable : Elem → bool).

Local Abbreviation reaches := (reaches moved_from moved_from_vector Consumer m_callable).

Lemma reaches_shared_pushes items cq w mu en ru buf pcm pcw pu fw po de sh :
  reaches (shared_push <$> items)
    (cq, w, mu, en, ru, buf, pcm, pcw, pu, fw, po, de, sh)
    (cq, w, mu, en, ru, buf, pcm, pcw, pu, fw, po, de, sh ++ items).
Proof.
  revert sh. induction items as [|x items IH]; intros sh.
  - rewrite app_nil_r. apply reaches_nil.
  - cbn. rewrite (cons_middle x sh items), (assoc_L (++) sh [x] items).
    eapply reaches_cons; [apply reaches_shared_push|]. apply IH.
Qed.

Lemma reaches_consumer_pops cq mu ru buf pcm held pu fw po de item sh :
  reaches [worker_thread]
    (cq, Some running, mu, true, ru, buf, pcm, at_predicate held, pu, fw, po, de, item :: sh)
    (cq, Some running, mu, true, ru, buf, pcm, at_check [item], pu, fw, po ++ [item], de, sh).
Proof.
  view_step s Hcq Hbq Hsq.
  pose proof (is_fifo_pops_ref moved_from (default inhabitant (head held))
                (m_sharedContainer s) Hsq) as Hpop.
  destruct (payloads (m_sharedContainer s)) as [|x' sh']; simplify_eq.
  destruct Hpop as (q' & Hq' & Hrest & -> & _). view_done.
Qed.

Lemma reaches_consumer_waits cq mu ru buf pcm held pu fw po de :
  reaches [worker_thread]
    (cq, Some running, mu, true, ru, buf, pcm, at_predicate held, pu, fw, po, de, [])
    (cq, Some running, false, true, ru, buf, pcm, in_wait held, pu, fw, po, de, []).
Proof.
  view_step s Hcq Hbq Hsq.
  pose proof (is_fifo_pops_ref moved_from (default inhabitant (head held))
                (m_sharedContainer s) Hsq) as Hpop.
  destruct (payloads (m_sharedContainer s)) as [|x' sh'] eqn:Hsh; simplify_eq.
  destruct Hpop as [-> _]. view_done.
Qed.

Lemma reaches_callback cq mu en ru buf pcm item pu fw po de sh :
  m_callable item = true →
  reaches [worker_thread]
    (cq, Some running, mu, en, ru, buf, pcm, at_body [item], pu, fw, po, de, sh)
    (cq, Some running, false, en, ru, buf, pcm, at_lock, pu, fw, po, de ++ [item], sh).
Proof. intros Hcall. view_step s Hcq Hbq Hsq. cbn. rewrite Hcall. view_done. Qed.

(** An enabled worker that starts an iteration pops every item of the
    shared container and calls the callback with it, one after the other,
    as long as the callback returns; then it waits. *)
Lemma reaches_consumed items cq ru buf pcm pu fw po de :
  Forall (λ item, m_callable item = true) items →
  reaches (replicate (4 * length items + 2) worker_thread)
    (cq, Some running, false, true, ru, buf, pcm, at_lock, pu, fw, po, de, items)
    (cq, Some running, false, true, true, buf, pcm, in_wait [], pu, fw, po ++ items,
     de ++ items, []).
Proof.
  intros Hcall. revert ru po de.
  induction Hcall as [|item items Hitem _ IH]; intros ru po de.
  - cbn. rewrite !app_nil_r.
    eapply reaches_cons; [apply reaches_lock|]. apply reaches_consumer_waits.
  - replace (4 * length (item :: items) + 2) with (4 + (4 * length items + 2))
      by (cbn [length]; lia).
    rewrite replicate_add. cbn [replicate app].
    rewrite (cons_middle item po items), (cons_middle item de items),
      (assoc_L (++) po [item] items), (assoc_L (++) de [item] items).
    eapply reaches_cons; [apply reaches_lock|].
    eapply reaches_cons; [apply reaches_consumer_pops|].
    eapply reaches_cons; [apply reaches_check_enabled|].
    eapply reaches_cons; [by apply reaches_callback|]. apply IH.
Qed.

End consumer_schedules.

(** *** Enable, push, Disable, Enable *)

Section sequences.
Context {Elem : Type} `{!Inhabited Elem}.
Context (moved_from : Elem → Elem) (moved_from_vector : list Elem → list Elem).
Context (m_callable : Elem → bool).

Lemma view_construct (sharedContainer : @ThreadsafeSTLAdapter Elem) :
  is_fifo sharedContainer →
  queues_fifo (construct sharedContainer true) ∧
  view (construct sharedContainer true) =
    ([], None, false, false, false, [], in_waitAndPop, worker_returned, [], [], [], [],
     payloads sharedContainer).
Proof.
  intros Hsq. destruct (is_fifo_create ([] : list Command) ∅) as [Hc Hcp].
  destruct (is_fifo_create ([] : list (list Elem)) ∅) as [Hb Hbp].
  split; [done|]. unfold view, construct, runMainThread, ProducerConsumerBase. fields.
  by rewrite Hcp, Hbp.
Qed.

(** Up to the Idle window: nothing was forwarded, the batches are in the
    buffer and the worker is joined. *)
Lemma reaches_producer_idle batches sh :
  reaches moved_from moved_from_vector Producer m_callable (producer_sequence_idle batches)
    ([], None, false, false, false, [], in_waitAndPop, worker_returned, [], [], [], [], sh)
    ([], Some joined, false, false, false, batches, in_waitAndPop, worker_returned,
     concat batches, [], [], [], sh).
Proof.
  unfold producer_sequence_idle. cbn [app].
  eapply reaches_cons; [apply reaches_call_enableWorkerThread|].
  eapply reaches_cons; [apply reaches_waitAndPop|].
  eapply reaches_cons; [apply reaches_spawn; by left|].
  eapply reaches_cons; [apply reaches_lock|].
  eapply reaches_cons; [apply reaches_producer_waits|].
  eapply reaches_app; [apply reaches_call_pushes|]. cbn [app].
  eapply reaches_cons; [apply reaches_call_disableWorkerThread|].
  eapply reaches_cons; [apply reaches_waitAndPop|].
  eapply reaches_cons; [apply reaches_disable; by left|].
  eapply reaches_cons; [apply reaches_wake|].
  eapply reaches_cons; [apply reaches_predicate_disabled|].
  eapply reaches_cons; [apply reaches_check_disabled|].
  apply reaches_join.
Qed.

(** From the Idle window on: the second Enable creates a worker, which
    forwards every batch in order. *)
Lemma reaches_producer_enabled_again batches pu fw sh :
  reaches moved_from moved_from_vector Producer m_callable
    ([call_enableWorkerThread; main_thread true; main_thread true] ++
     replicate (drain_steps batches) worker_thread)
    ([], Some joined, false, false, false, batches, in_waitAndPop, worker_returned,
     pu, fw, [], [], sh)
    ([], Some running, false, true, true, [], in_waitAndPop, in_wait [],
     pu, fw ++ concat batches, [], [], sh ++ concat batches).
Proof.
  cbn [app].
  eapply reaches_cons; [apply reaches_call_enableWorkerThread|].
  eapply reaches_cons; [apply reaches_waitAndPop|].
  eapply reaches_cons; [apply reaches_spawn; by right|].
  apply reaches_drained.
Qed.

Lemma reaches_consumer_idle items po de :
  reaches moved_from moved_from_vector Consumer m_callable (consumer_sequence_idle items)
    ([], None, false, false, false, [], in_waitAndPop, worker_returned, [], [], po, de, [])
    ([], Some joined, false, false, false, [], in_waitAndPop, worker_returned,
     [], [], po, de, items).
Proof.
  unfold consumer_sequence_idle. cbn [app].
  eapply reaches_cons; [apply reaches_call_enableWorkerThread|].
  eapply reaches_cons; [apply reaches_waitAndPop|].
  eapply reaches_cons; [apply reaches_spawn; by left|].
  eapply reaches_cons; [apply reaches_lock|].
  eapply reaches_cons; [apply reaches_consumer_waits|].
  eapply reaches_app; [apply reaches_shared_pushes|]. cbn [app].
  eapply reaches_cons; [apply reaches_call_disableWorkerThread|].
  eapply reaches_cons; [apply reaches_waitAndPop|].
  eapply reaches_cons; [apply reaches_disable; by left|].
  eapply reaches_cons; [apply reaches_wake|].
  eapply reaches_cons; [apply reaches_predicate_disabled|].
  eapply reaches_cons; [apply reaches_check_disabled|].
  apply reaches_join.
Qed.

Lemma reaches_consumer_enabled_again items po de :
  Forall (λ item, m_callable item = true) items →
  reaches moved_from moved_from_vector Consumer m_callable
    ([call_enableWorkerThread; main_thread true; main_thread true] ++
     replicate (4 * length items + 2) worker_thread)
    ([], Some joined, false, false, false, [], in_waitAndPop, worker_returned,
     [], [], po, de, items)
    ([], Some running, false, true, true, [], in_waitAndPop, in_wait [],
     [], [], po ++ items, de ++ items, []).
Proof.
  intros Hcall. cbn [app].
  eapply reaches_cons; [apply reaches_call_enableWorkerThread|].
  eapply reaches_cons; [apply reaches_waitAndPop|].
  eapply reaches_cons; [apply reaches_spawn; by right|].
  by apply reaches_consumed.
Qed.

End sequences.

(** C3.  In every state a role of namespace [concurrency] reaches, under
    every interleaving of the client, the control thread, the worker and the
    other users of the shared container: the items a producer has forwarded,
    followed by the batch its worker holds and by the batches in its buffer,
    are the items it was given, in their order; the items a consumer has
    popped are the items the callback was called with, followed by the item
    its worker holds.  A worker that finds itself disabled holds nothing, and
    so does a worker that is not running: a Disable leaves every batch that
    was not forwarded in the buffer, and no consumer leaves its loop with an
    item it popped and did not deliver.

    The sequence Enable, push, Disable, Enable, for any batches given to a
    producer: when the control thread has joined the worker the batches are
    in the buffer, and after the second Enable the new worker forwards them
    all, each item once and in the order given, behind what the shared queue
    held.  For any items pushed into an empty shared queue of a consumer
    whose callback returns on them: the joined worker has delivered nothing
    and the queue retains the items, and after the second Enable the new
    worker delivers them all, each once and in order.

    The schedules on 1, 2 and 3 interrupt the worker inside a batch (before
    the callback): the control thread cannot handle the Disable until the
    worker has finished the batch (the call); then the worker is joined, the
    remaining items are still stored, and the second Enable gets them
    forwarded (delivered) behind the earlier ones. *)
Theorem C3_items_survive_disable_and_enable :
  (∀ {Elem : Type} `{!Inhabited Elem} (moved_from : Elem → Elem)
     (moved_from_vector : list Elem → list Elem) (type : Type_) (m_callable : Elem → bool)
     (sharedContainer : ThreadsafeSTLAdapter) (thread_starts : bool) (s : System),
     reachable moved_from moved_from_vector type m_callable
       (construct sharedContainer thread_starts) s →
     match type with
     | Producer =>
         forwarded s ++ held_by (worker_at s) ++ concat (payloads (m_vectorItemsQueue s))
         = pushed s
     | Consumer => popped s = delivered s ++ held_by (worker_at s)
     end ∧
     (∀ held, worker_at s = at_check held → m_workerThreadEnabled s = false → held = []) ∧
     (m_workerThread s ≠ Some running → held_by (worker_at s) = [])) ∧
  (∀ {Elem : Type} `{!Inhabited Elem} (moved_from : Elem → Elem)
     (moved_from_vector : list Elem → list Elem) (m_callable : Elem → bool)
     (sharedContainer : ThreadsafeSTLAdapter) (batches : list (list Elem)),
     is_fifo sharedContainer →
     ∃ s_idle s_end,
       run moved_from moved_from_vector Producer m_callable
         (producer_sequence_idle batches) (construct sharedContainer true) = Steps s_idle ∧
       m_workerThread s_idle = Some joined ∧
       pushed s_idle = concat batches ∧
       forwarded s_idle = [] ∧
       payloads (m_vectorItemsQueue s_idle) = batches ∧
       run moved_from moved_from_vector Producer m_callable
         (producer_sequence batches) (construct sharedContainer true) = Steps s_end ∧
       m_workerThread s_end = Some running ∧
       forwarded s_end = concat batches ∧
       payloads (m_vectorItemsQueue s_end) = [] ∧
       payloads (m_sharedContainer s_end) = payloads sharedContainer ++ concat batches) ∧
  (∀ {Elem : Type} `{!Inhabited Elem} (moved_from : Elem → Elem)
     (moved_from_vector : list Elem → list Elem) (m_callable : Elem → bool)
     (sharedContainer : ThreadsafeSTLAdapter) (items : list Elem),
     is_fifo sharedContainer → payloads sharedContainer = [] →
     Forall (λ item, m_callable item = true) items →
     ∃ s_idle s_end,
       run moved_from moved_from_vector Consumer m_callable
         (consumer_sequence_idle items) (construct sharedContainer true) = Steps s_idle ∧
       m_workerThread s_idle = Some joined ∧
       popped s_idle = [] ∧
       delivered s_idle = [] ∧
       payloads (m_sharedContainer s_idle) = items ∧
       run moved_from moved_from_vector Consumer m_callable
         (consumer_sequence items) (construct sharedContainer true) = Steps s_end ∧
       m_workerThread s_end = Some running ∧
       popped s_end = items ∧
       delivered s_end = items ∧
       payloads (m_sharedContainer s_end) = []) ∧
  (let run := @run Z _ id (λ _, []) Producer (λ _, true) in
   let s0 := construct (createThreadsafeSTLAdapterFrom (stl.queue []) tt ∅) true in
   ((λ s, (forwarded s, worker_at s, payloads (m_vectorItemsQueue s)))
      <$> final (run producer_interrupted s0))
     = Some ([1], at_body [2], [[3]])%Z ∧
   run (producer_interrupted ++ [main_thread true]) s0 = Blocked ∧
   ((λ s, (m_workerThread s, forwarded s, worker_at s, payloads (m_vectorItemsQueue s)))
      <$> final (run (producer_interrupted ++ producer_disabled) s0))
     = Some (Some joined, [1; 2], worker_returned, [[3]])%Z ∧
   ((λ s, (forwarded s, payloads (m_vectorItemsQueue s), payloads (m_sharedContainer s)))
      <$> final (run (producer_interrupted ++ producer_disabled ++ producer_enabled_again) s0))
     = Some ([1; 2; 3], [], [1; 2; 3])%Z) ∧
  (let run := @run Z _ id (λ _, []) Consumer (λ _, true) in
   let s0 := construct (createThreadsafeSTLAdapterFrom (stl.queue [1; 2; 3]%Z) tt ∅) true in
   ((λ s, (delivered s, worker_at s, payloads (m_sharedContainer s)))
      <$> final (run consumer_interrupted s0))
     = Some ([], at_body [1], [2; 3])%Z ∧
   run (consumer_interrupted ++ [main_thread true]) s0 = Blocked ∧
   ((λ s, (m_workerThread s, delivered s, worker_at s, payloads (m_sharedContainer s)))
      <$> final (run (consumer_interrupted ++ consumer_disabled) s0))
     = Some (Some joined, [1], worker_returned, [2; 3])%Z ∧
   ((λ s, (delivered s, payloads (m_sharedContainer s)))
      <$> final (run (consumer_interrupted ++ consumer_disabled ++ consumer_enabled_again) s0))
     = Some ([1; 2; 3], [])%Z).
Proof.
  split; [|split; [|split; [|by split_and!; vm_compute]]].
  - intros Elem I moved_from moved_from_vector type m_callable sharedContainer thread_starts s
      Hreach.
    destruct (items_consistent_reachable moved_from moved_from_vector type m_callable
                (construct sharedContainer thread_starts) s) as [Hthreads Hitems]; [..|done|].
    { apply threads_consistent_init. }
    { apply items_consistent_init. }
    destruct Hitems as (_ & _ & _ & Hcheck & Hitems). split_and!.
    + destruct type; [done|]. by destruct Hitems.
    + intros held Hpc He. destruct (Hcheck held Hpc) as [?|?]; [congruence|done].
    + by apply not_running_holds_nothing.
  - intros Elem I moved_from moved_from_vector m_callable sharedContainer batches Hsq.
    destruct (view_construct sharedContainer Hsq) as [Hq0 Hv0].
    destruct (reaches_producer_idle moved_from moved_from_vector m_callable batches
                (payloads sharedContainer) _ Hq0 Hv0) as (s_idle & Hrun1 & Hq1 & Hv1).
    destruct (reaches_producer_enabled_again moved_from moved_from_vector m_callable batches
                (concat batches) [] (payloads sharedContainer) _ Hq1 Hv1)
      as (s_end & Hrun2 & Hq2 & Hv2).
    exists s_idle, s_end. unfold producer_sequence. rewrite run_app, Hrun1.
    unfold view in Hv1, Hv2. by simplify_eq.
  - intros Elem I moved_from moved_from_vector m_callable sharedContainer items Hsq Hempty
      Hcall.
    destruct (view_construct sharedContainer Hsq) as [Hq0 Hv0]. rewrite Hempty in Hv0.
    destruct (reaches_consumer_idle moved_from moved_from_vector m_callable items [] []
                _ Hq0 Hv0) as (s_idle & Hrun1 & Hq1 & Hv1).
    destruct (reaches_consumer_enabled_again moved_from moved_from_vector m_callable items
                [] [] Hcall _ Hq1 Hv1) as (s_end & Hrun2 & Hq2 & Hv2).
    exists s_idle, s_end. unfold consumer_sequence. rewrite run_app, Hrun1.
    unfold view in Hv1, Hv2. by simplify_eq.
Qed.

(** The general part of C3 at the producer that was interrupted and then
    disabled. *)
Lemma C3_items_survive_disable_and_enable_witness :
  let run := @run Z _ id (λ _, []) Producer (λ _, true) in
  let s0 := construct (createThreadsafeSTLAdapterFrom (stl.queue []) tt ∅) true in
  ∃ s, run (producer_interrupted ++ producer_disabled) s0 = Steps s ∧
       forwarded s ++ held_by (worker_at s) ++ concat (payloads (m_vectorItemsQueue s))
       = pushed s ∧
       (∀ held, worker_at s = at_check held → m_workerThreadEnabled s = false → held = []) ∧
       (m_workerThread s ≠ Some running → held_by (worker_at s) = []).
Proof.
  intros run s0.
  destruct (run (producer_interrupted ++ producer_disabled) s0) as [s| | |] eqn:Hrun;
    try (by vm_compute in Hrun).
  exists s. split; [done|].
  apply (proj1 C3_items_survive_disable_and_enable Z _ id (λ _, []) Producer (λ _, true)
           (createThreadsafeSTLAdapterFrom (stl.queue []) tt ∅) true s).
  apply (run_reachable id (λ _, []) Producer (λ _, true)
           (producer_interrupted ++ producer_disabled) s0 s0 s); [constructor|exact Hrun].
Defined.

(** ** The controller of namespace [mt] *)

Ltac mt_step_cases H :=
  unfold mt.step, mt.mainThreadWork, mt.workerThreadWork, mt.interruptWorkerThread,
    mt.enableWorkerThread, mt.disableWorkerThread, mt.shutdownMainThread_push,
    mt.Producer_push, mt.go_after_interrupt, mt.mainThreadWork_returns,
    mt.workerThread_returns in H;
  repeat case_match; simplify_eq.

Ltac mt_fields :=
  cbn [mt.m_commandQueue mt.m_mainThread mt.m_sharedContainer mt.m_workerThread
       mt.m_workerThreadEnabled mt.m_vectorItemsQueue mt.main_at mt.worker_at mt.delivered
       mt.set_m_commandQueue mt.set_m_mainThread mt.set_m_sharedContainer
       mt.set_m_workerThread mt.set_m_workerThreadEnabled mt.set_m_vectorItemsQueue
       mt.set_main_at mt.set_worker_at mt.set_delivered mt.held_by].

Ltac mt_use_invariant :=
  intros;
  repeat match goal with
  | H : ∀ c : mt.Command, mt.in_join ?c0 = mt.in_join c → _ |- _ => specialize (H c0 eq_refl)
  | H : ∀ c : mt.Command, mt.in_join ?c0 ≠ mt.in_join c |- _ => destruct (H c0 eq_refl)
  | t : thread |- _ => destruct t; simplify_eq/=
  | H : ?P → ?Q |- _ =>
      let HP := fresh in
      assert P as HP
        by (first [reflexivity | assumption | by intros; discriminate | congruence]);
      specialize (H HP); clear HP
  | H : _ ∨ _ |- _ => destruct H
  | H : _ ↔ _ |- _ => destruct H
  end;
  first [assumption | discriminate | congruence | by left | by right
        | by split; intros; congruence | by eauto].

Section mt_controller_threads.
Context {Elem : Type} `{!Inhabited Elem}.
Context (moved_from : Elem → Elem) (moved_from_vector : list Elem → list Elem).
Context (type : mt.Type_) (m_callable : Elem → bool).

Lemma mt_threads_consistent_init (sharedContainer : @ThreadsafeSTLAdapter Elem) thread_starts :
  mt.threads_consistent (mt.construct sharedContainer thread_starts).
Proof.
  unfold mt.threads_consistent, mt.construct, mt.runMainThread.
  destruct (is_fifo_create ([] : list mt.Command) ∅) as [Hc _].
  destruct thread_starts; unfold mt.ProducerConsumerBase; mt_fields;
    split_and!; try done; auto.
Qed.

Lemma mt_threads_consistent_step e s s' :
  mt.threads_consistent s →
  mt.step moved_from moved_from_vector type m_callable e s = mt.Steps s' →
  mt.threads_consistent s'.
Proof.
  intros (Hcq & Hrun & Hidle & Hjoin & Hen) Hstep.
  assert (∀ c, is_fifo (pushAndNotify c (mt.m_commandQueue s))) as Hpush.
  { intros c. by destruct (is_fifo_push c (mt.m_commandQueue s) Hcq). }
  assert (mt.main_at s = mt.in_waitAndPop → ∀ ts, e = mt.main_thread ts →
          mt.threads_consistent s') as Hwait.
  { intros Hpc ts ->. cbn in Hstep. unfold mt.mainThreadWork in Hstep. rewrite Hpc in Hstep.
    pose proof (is_fifo_pops_ref id inhabitant (mt.m_commandQueue s) Hcq) as Hpop.
    destruct (payloads (mt.m_commandQueue s)) as [|x rest].
    - destruct Hpop as [_ Hw]. by rewrite Hw in Hstep.
    - destruct Hpop as (q' & Hq' & _ & _ & Hw). rewrite Hw in Hstep. simplify_eq.
      unfold mt.threads_consistent; mt_fields. rewrite Hpc in *.
      split_and!; try done; mt_use_invariant. }
  destruct e as [| | |items|x| |ts|].
  7: destruct (mt.main_at s) eqn:Hpc; [by apply (Hwait eq_refl ts)|clear Hwait..];
       cbn in Hstep; unfold mt.mainThreadWork in Hstep; rewrite Hpc in Hstep.
  all: try clear Hwait; mt_step_cases Hstep; unfold mt.threads_consistent; mt_fields;
    try (by split_and!); split_and!; try assumption; try apply Hpush.
  all: try (mt_use_invariant; fail).
  all: destruct (mt.worker_at s) eqn:Hw; simplify_eq; mt_fields; mt_use_invariant.
Qed.

Lemma mt_threads_consistent_reachable s0 s :
  mt.threads_consistent s0 →
  mt.reachable moved_from moved_from_vector type m_callable s0 s →
  mt.threads_consistent s.
Proof. induction 2; eauto using mt_threads_consistent_step. Qed.

End mt_controller_threads.

(** ** One worker at a time *)

Section one_worker.
Context {Elem : Type} `{!Inhabited Elem}.
Context (moved_from : Elem → Elem) (moved_from_vector : list Elem → list Elem).

(** Only the control thread's handling of Enable starts a worker. *)
Lemma worker_started_by_spawn type m_callable e (s s' : @System Elem) :
  step moved_from moved_from_vector type m_callable e s = Steps s' →
  m_workerThread s ≠ Some running → m_workerThread s' = Some running →
  e = main_thread true ∧ spawns s = true.
Proof.
  intros Hstep Hnot Hrun. unfold spawns.
  destruct e; step_cases Hstep; revert Hrun; fields; intros Hrun; try done.
  all: try (by destruct Hnot).
  all: try (by match goal with H : ?b = false |- context [negb ?b] => rewrite H end).
  all: congruence.
Qed.

Lemma spawn_finds_no_worker (s : @System Elem) :
  threads_consistent s → spawns s = true →
  (m_workerThread s = None ∨ m_workerThread s = Some joined) ∧
  worker_at s = worker_returned.
Proof.
  intros (Hrun & _ & Hidle & _) Hspawn. unfold spawns in Hspawn.
  destruct (main_at s) as [|[| |]| |] eqn:Hpc; try done.
  destruct (m_workerThreadEnabled s) eqn:He; [by rewrite andb_false_r in Hspawn|].
  assert (m_workerThread s = None ∨ m_workerThread s = Some joined) as Hw.
  { by apply Hidle. }
  split; [done|]. destruct (worker_at s) eqn:Hat; try done.
  all: destruct Hrun as [_ Hrun]; rewrite Hrun in Hw; [by destruct Hw|done].
Qed.

Lemma never_terminates type m_callable e (s : @System Elem) :
  threads_consistent s →
  step moved_from moved_from_vector type m_callable e s ≠ Terminates.
Proof.
  intros Hthreads Hstep.
  assert (spawns s = true) as Hspawn.
  { unfold spawns. by destruct e; step_cases Hstep. }
  destruct (spawn_finds_no_worker s Hthreads Hspawn) as [Hw _].
  destruct e; step_cases Hstep; cbn in *; destruct Hw; congruence.
Qed.

Lemma mt_worker_started_by_spawn type m_callable e (s s' : @mt.System Elem) :
  mt.step moved_from moved_from_vector type m_callable e s = mt.Steps s' →
  mt.m_workerThread s ≠ Some running → mt.m_workerThread s' = Some running →
  e = mt.main_thread true ∧ mt.spawns s = true.
Proof.
  intros Hstep Hnot Hrun. unfold mt.spawns.
  destruct e; mt_step_cases Hstep; revert Hrun; mt_fields; intros Hrun; try done.
  all: try (by destruct Hnot).
  all: congruence.
Qed.

Lemma mt_spawn_finds_no_worker (s : @mt.System Elem) :
  mt.threads_consistent s → mt.spawns s = true →
  (mt.m_workerThread s = None ∨ mt.m_workerThread s = Some joined) ∧
  mt.worker_at s = mt.worker_returned.
Proof.
  intros (_ & Hrun & Hidle & _) Hspawn. unfold mt.spawns in Hspawn.
  destruct (mt.main_at s) as [|[| |]| |] eqn:Hpc; try done.
  destruct (mt.m_workerThreadEnabled s) eqn:He; [done|].
  assert (mt.m_workerThread s = None ∨ mt.m_workerThread s = Some joined) as Hw.
  { by apply Hidle. }
  split; [done|]. destruct (mt.worker_at s) eqn:Hat; try done.
  all: destruct Hrun as [_ Hrun]; rewrite Hrun in Hw; [by destruct Hw|done].
Qed.

Lemma mt_never_second_worker type m_callable e (s : @mt.System Elem) :
  mt.threads_consistent s →
  mt.step moved_from moved_from_vector type m_callable e s ≠ mt.SecondWorker.
Proof.
  intros Hthreads Hstep.
  assert (mt.spawns s = true) as Hspawn.
  { unfold mt.spawns. by destruct e; mt_step_cases Hstep. }
  destruct (mt_spawn_finds_no_worker s Hthreads Hspawn) as [Hw _].
  destruct e; mt_step_cases Hstep; cbn in *; destruct Hw; congruence.
Qed.

End one_worker.

(** C5.  In every state either controller reaches, under every
    interleaving and every sequence of commands: when the next statement of
    the control thread creates a worker thread, the previous worker thread
    object is null or joined and the worker's thread function has returned;
    a worker only starts running through that statement; and no step
    destroys a joinable [std::thread] ([concurrency]) or starts a worker
    beside a running one ([mt]).  With Enable, Disable and Enable queued at
    once, the control thread waits in [join] until the first worker has
    returned, and creates the second one after it. *)
Theorem C5_a_worker_is_created_only_after_the_previous_one_was_joined :
  (∀ {Elem : Type} `{!Inhabited Elem} (moved_from : Elem → Elem)
     (moved_from_vector : list Elem → list Elem) (type : Type_) (m_callable : Elem → bool)
     (sharedContainer : ThreadsafeSTLAdapter) (thread_starts : bool) (s : System),
     reachable moved_from moved_from_vector type m_callable
       (construct sharedContainer thread_starts) s →
     (spawns s = true →
        (m_workerThread s = None ∨ m_workerThread s = Some joined) ∧
        worker_at s = worker_returned) ∧
     (∀ e s', step moved_from moved_from_vector type m_callable e s = Steps s' →
        m_workerThread s ≠ Some running → m_workerThread s' = Some running →
        e = main_thread true ∧ spawns s = true) ∧
     (∀ e, step moved_from moved_from_vector type m_callable e s ≠ Terminates)) ∧
  (∀ {Elem : Type} `{!Inhabited Elem} (moved_from : Elem → Elem)
     (moved_from_vector : list Elem → list Elem) (type : mt.Type_) (m_callable : Elem → bool)
     (sharedContainer : ThreadsafeSTLAdapter) (thread_starts : bool) (s : mt.System),
     mt.reachable moved_from moved_from_vector type m_callable
       (mt.construct sharedContainer thread_starts) s →
     (mt.spawns s = true →
        (mt.m_workerThread s = None ∨ mt.m_workerThread s = Some joined) ∧
        mt.worker_at s = mt.worker_returned) ∧
     (∀ e s', mt.step moved_from moved_from_vector type m_callable e s = mt.Steps s' →
        mt.m_workerThread s ≠ Some running → mt.m_workerThread s' = Some running →
        e = mt.main_thread true ∧ mt.spawns s = true) ∧
     (∀ e, mt.step moved_from moved_from_vector type m_callable e s ≠ mt.SecondWorker)) ∧
  (let run := @run Z _ id (λ _, []) Producer (λ _, true) in
   let s0 := construct (createThreadsafeSTLAdapterFrom (stl.queue []) tt ∅) true in
   ((λ s, (m_workerThread s, main_at s)) <$> final (run rapid_commands_joining s0))
     = Some (Some running, in_join DisableWorkerThread) ∧
   run (rapid_commands_joining ++ [main_thread true]) s0 = Blocked ∧
   ((λ s, (m_workerThread s, main_at s, spawns s))
      <$> final (run (rapid_commands_joining ++ take 5 rapid_commands_served) s0))
     = Some (Some joined, at_command EnableWorkerThread, true) ∧
   ((λ s, (m_workerThread s, worker_at s))
      <$> final (run (rapid_commands_joining ++ rapid_commands_served) s0))
     = Some (Some running, at_lock)) ∧
  (let run := @mt.run Z _ id (λ _, []) mt.Producer (λ _, true) in
   let s0 := mt.construct (createThreadsafeSTLAdapterFrom (stl.queue []) tt ∅) true in
   ((λ s, (mt.m_workerThread s, mt.main_at s)) <$> mt.final (run mt.rapid_commands_joining s0))
     = Some (Some running, mt.in_join mt.DisableWorkerThread) ∧
   run (mt.rapid_commands_joining ++ [mt.main_thread true]) s0 = mt.Blocked ∧
   ((λ s, (mt.m_workerThread s, mt.main_at s, mt.spawns s))
      <$> mt.final (run (mt.rapid_commands_joining ++ take 3 mt.rapid_commands_served) s0))
     = Some (Some joined, mt.at_command mt.EnableWorkerThread, true) ∧
   ((λ s, (mt.m_workerThread s, mt.worker_at s))
      <$> mt.final (run (mt.rapid_commands_joining ++ mt.rapid_commands_served) s0))
     = Some (Some running, mt.at_while)).
Proof.
  split; [|split; [|by split_and!; vm_compute]].
  - intros Elem I moved_from moved_from_vector type m_callable sharedContainer thread_starts s
      Hreach.
    assert (threads_consistent s) as Hthreads.
    { apply (threads_consistent_reachable moved_from moved_from_vector type m_callable
               (construct sharedContainer thread_starts)); [|done].
      apply threads_consistent_init. }
    split_and!.
    + by apply spawn_finds_no_worker.
    + intros e s'. apply worker_started_by_spawn.
    + intros e. by apply never_terminates.
  - intros Elem I moved_from moved_from_vector type m_callable sharedContainer thread_starts s
      Hreach.
    assert (mt.threads_consistent s) as Hthreads.
    { apply (mt_threads_consistent_reachable moved_from moved_from_vector type m_callable
               (mt.construct sharedContainer thread_starts)); [|done].
      apply mt_threads_consistent_init. }
    split_and!.
    + by apply mt_spawn_finds_no_worker.
    + intros e s'. apply mt_worker_started_by_spawn.
    + intros e. by apply mt_never_second_worker.
Qed.

(** C5 at the state in which the control thread is about to handle the
    second Enable. *)
Lemma C5_a_worker_is_created_only_after_the_previous_one_was_joined_witness :
  let step := @step Z _ id (λ _, []) Producer (λ _, true) in
  let s0 := construct (createThreadsafeSTLAdapterFrom (stl.queue []) tt ∅) true in
  ∃ s, run id (λ _, []) Producer (λ _, true)
         (rapid_commands_joining ++ take 5 rapid_commands_served) s0 = Steps s ∧
       (spawns s = true →
          (m_workerThread s = None ∨ m_workerThread s = Some joined) ∧
          worker_at s = worker_returned) ∧
       (∀ e s', step e s = Steps s' →
          m_workerThread s ≠ Some running → m_workerThread s' = Some running →
          e = main_thread true ∧ spawns s = true) ∧
       (∀ e, step e s ≠ Terminates).
Proof.
  intros step s0.
  destruct (run id (λ _, []) Producer (λ _, true)
              (rapid_commands_joining ++ take 5 rapid_commands_served) s0)
    as [s| | |] eqn:Hrun; try (by vm_compute in Hrun).
  exists s. split; [done|].
  apply (proj1 C5_a_worker_is_created_only_after_the_previous_one_was_joined
           Z _ id (λ _, []) Producer (λ _, true)
           (createThreadsafeSTLAdapterFrom (stl.queue []) tt ∅) true s).
  apply (run_reachable id (λ _, []) Producer (λ _, true)
           (rapid_commands_joining ++ take 5 rapid_commands_served) s0 s0 s);
    [constructor|exact Hrun].
Defined.

(** ** The state machine of the control thread *)

Section command_handling.
Context {Elem : Type} `{!Inhabited Elem}.
Context (moved_from : Elem → Elem) (moved_from_vector : list Elem → list Elem).

(** While the worker is disabled and the control thread is not joining it,
    nobody holds [m_workerThreadMutex]. *)
Lemma idle_mutex_free (s : @System Elem) :
  threads_consistent s → m_workerThreadEnabled s = false →
  (∀ c, main_at s ≠ in_join c) → m_workerThreadMutex s = false.
Proof.
  intros (Hrun & Hmutex & Hidle & _) He Hpc. rewrite Hmutex.
  destruct (Hidle He Hpc) as [Hw|Hw]; destruct (worker_at s) eqn:Hat; try done.
  all: destruct Hrun as [_ Hrun]; by rewrite Hrun in Hw.
Qed.

Lemma enable_while_running (s : @System Elem) thread_starts :
  main_at s = at_command EnableWorkerThread → m_workerThreadEnabled s = true →
  mainThreadWork thread_starts s =
    if m_workerThreadMutex s then Blocked else Steps (set_main_at in_waitAndPop s).
Proof. intros Hpc He. unfold mainThreadWork. by rewrite Hpc, He. Qed.

Lemma disable_while_idle (s : @System Elem) thread_starts :
  threads_consistent s →
  main_at s = at_command DisableWorkerThread → m_workerThreadEnabled s = false →
  mainThreadWork thread_starts s = Steps (set_main_at in_waitAndPop s).
Proof.
  intros Hthreads Hpc He. unfold mainThreadWork, disableWorkerThreadIfEnabled.
  rewrite Hpc, He, (idle_mutex_free s); [done..|]. intros c. by rewrite Hpc.
Qed.

Lemma shutdown_while_idle (s : @System Elem) thread_starts :
  threads_consistent s →
  main_at s = at_command ShutdownMainThread → m_workerThreadEnabled s = false →
  mainThreadWork thread_starts s = Steps (mainThreadWork_returns s).
Proof.
  intros Hthreads Hpc He. unfold mainThreadWork, disableWorkerThreadIfEnabled.
  rewrite Hpc, He, (idle_mutex_free s); [done..|]. intros c. by rewrite Hpc.
Qed.

(** Disable and Shutdown while the worker is enabled: once the mutex is
    free the flag is cleared and the control thread joins the worker. *)
Lemma disable_while_running (s : @System Elem) thread_starts c :
  threads_consistent s → c ≠ EnableWorkerThread →
  main_at s = at_command c → m_workerThreadEnabled s = true →
  mainThreadWork thread_starts s =
    if m_workerThreadMutex s then Blocked
    else Steps (set_main_at (in_join c) (set_m_workerThreadEnabled false s)).
Proof.
  intros (_ & _ & _ & _ & Hen & _) Hc Hpc He. unfold mainThreadWork, disableWorkerThreadIfEnabled.
  rewrite Hpc, He. destruct (Hen He) as [Hw|Hw]; [by rewrite Hpc|..];
    destruct c; try done; fields; by rewrite Hw.
Qed.

Lemma joins_a_thread_init (sharedContainer : @ThreadsafeSTLAdapter Elem) thread_starts :
  joins_a_thread (construct sharedContainer thread_starts).
Proof. intros c. unfold construct, runMainThread. by destruct thread_starts. Qed.

Lemma joins_a_thread_step type m_callable e (s s' : @System Elem) :
  joins_a_thread s →
  step moved_from moved_from_vector type m_callable e s = Steps s' →
  joins_a_thread s'.
Proof.
  intros Hjoin Hstep c. specialize (Hjoin c). revert Hjoin.
  destruct e; step_cases Hstep; fields; try done; try (by auto).
  all: try (destruct t; try done; by auto).
  all: try congruence.
Qed.

Lemma joins_a_thread_reachable type m_callable s0 (s : @System Elem) :
  joins_a_thread s0 →
  reachable moved_from moved_from_vector type m_callable s0 s →
  joins_a_thread s.
Proof. induction 2; eauto using joins_a_thread_step. Qed.

(** The join returns when the worker's thread function has returned; the
    control thread then goes back to the command queue, or returns after
    Shutdown. *)
Lemma join_of_worker (s : @System Elem) thread_starts c :
  joins_a_thread s → main_at s = in_join c →
  mainThreadWork thread_starts s =
    match m_workerThread s with
    | Some finished => Steps (go_after_disable c (set_m_workerThread (Some joined) s))
    | _ => Blocked
    end.
Proof.
  intros Hjoin Hpc. unfold mainThreadWork. rewrite Hpc.
  by destruct (Hjoin c Hpc) as [-> | ->].
Qed.

(** Once [mainThreadWork] has returned no command is handled: the control
    thread never moves, the flag keeps its value and no worker is created. *)
Lemma returned_for_good type m_callable (s : @System Elem) :
  main_at s = returned →
  (∀ thread_starts, mainThreadWork thread_starts s = Blocked) ∧
  ∀ e s', step moved_from moved_from_vector type m_callable e s = Steps s' →
          main_at s' = returned ∧
          m_workerThreadEnabled s' = m_workerThreadEnabled s ∧
          (m_workerThread s' = Some running → m_workerThread s = Some running).
Proof.
  intros Hpc. split.
  - intros thread_starts. unfold mainThreadWork. by rewrite Hpc.
  - intros e s' Hstep. destruct e; step_cases Hstep; fields; split_and!; try done.
    all: congruence.
Qed.

(** The control thread of [concurrency] dereferences no null pointer. *)
Lemma main_thread_defined type (s : @System Elem) thread_starts :
  threads_consistent s → items_consistent type s → joins_a_thread s →
  mainThreadWork thread_starts s ≠ UndefinedBehaviour.
Proof.
  intros (_ & _ & _ & _ & Hen & _) (Hcq & _) Hjoin.
  unfold mainThreadWork, disableWorkerThreadIfEnabled.
  destruct (main_at s) as [|[| |]|c|] eqn:Hpc; try done.
  - pose proof (is_fifo_pops_ref id inhabitant (m_commandQueue s) Hcq) as Hpop.
    destruct (payloads (m_commandQueue s)) as [|x rest].
    + destruct Hpop as [_ Hw]. by rewrite Hw.
    + destruct Hpop as (q' & _ & _ & _ & Hw). by rewrite Hw.
  - by repeat case_match.
  - destruct (m_workerThreadMutex s); [done|].
    destruct (m_workerThreadEnabled s); [|done]. fields.
    destruct Hen as [-> | ->]; done.
  - destruct (m_workerThreadMutex s); [done|].
    destruct (m_workerThreadEnabled s); [|done]. fields.
    destruct Hen as [-> | ->]; done.
  - by destruct (Hjoin c Hpc) as [-> | ->].
Qed.

(** [mt]: Enable while the worker is enabled changes nothing; Disable and
    Shutdown evaluate [m_workerThread->joinable()] whatever the state, and
    [m_workerThread] is null until the first Enable. *)
Lemma mt_enable_while_running (s : @mt.System Elem) thread_starts :
  mt.main_at s = mt.at_command mt.EnableWorkerThread → mt.m_workerThreadEnabled s = true →
  mt.mainThreadWork thread_starts s = mt.Steps (mt.set_main_at mt.in_waitAndPop s).
Proof. intros Hpc He. unfold mt.mainThreadWork. by rewrite Hpc, He. Qed.

Lemma mt_interrupt_without_worker (s : @mt.System Elem) thread_starts c :
  c ≠ mt.EnableWorkerThread → mt.main_at s = mt.at_command c → mt.m_workerThread s = None →
  mt.mainThreadWork thread_starts s = mt.UndefinedBehaviour.
Proof.
  intros Hc Hpc Hw. unfold mt.mainThreadWork, mt.interruptWorkerThread. rewrite Hpc.
  destruct c; try done; mt_fields; by rewrite Hw.
Qed.

Lemma mt_interrupt_after_join (s : @mt.System Elem) thread_starts c :
  c ≠ mt.EnableWorkerThread → mt.main_at s = mt.at_command c →
  mt.m_workerThread s = Some joined →
  mt.mainThreadWork thread_starts s =
    mt.Steps (mt.go_after_interrupt c (mt.set_m_workerThreadEnabled false s)).
Proof.
  intros Hc Hpc Hw. unfold mt.mainThreadWork, mt.interruptWorkerThread. rewrite Hpc.
  destruct c; try done; mt_fields; by rewrite Hw.
Qed.

End command_handling.

(** C4.  The control thread of [concurrency] follows the state machine in
    every state it reaches: Enable while the worker is enabled only returns
    to the command queue; Disable while it is disabled does the same, and
    Shutdown then returns from [mainThreadWork]; Disable and Shutdown while
    it is enabled clear the flag and join the worker, after which the control
    thread returns to the queue or, for Shutdown, returns; once it has
    returned it never moves again and no later step changes the flag or
    creates a worker; and it never dereferences a null pointer.

    The control thread of [mt] treats Enable while enabled the same way, but
    its [interruptWorkerThread] has no guard: handling Disable or Shutdown
    while [m_workerThread] is null is undefined behaviour, and that is what
    happens when either is the first command of a controller, where
    [concurrency] does nothing ([disable_first], [shutdown_first]). *)
Theorem C4_mt_interrupts_a_worker_that_was_never_created :
  (∀ {Elem : Type} `{!Inhabited Elem} (moved_from : Elem → Elem)
     (moved_from_vector : list Elem → list Elem) (type : Type_) (m_callable : Elem → bool)
     (sharedContainer : ThreadsafeSTLAdapter) (thread_starts : bool) (s : System),
     reachable moved_from moved_from_vector type m_callable
       (construct sharedContainer thread_starts) s →
     ∀ starts : bool,
     (main_at s = at_command EnableWorkerThread → m_workerThreadEnabled s = true →
        mainThreadWork starts s =
          if m_workerThreadMutex s then Blocked else Steps (set_main_at in_waitAndPop s)) ∧
     (main_at s = at_command DisableWorkerThread → m_workerThreadEnabled s = false →
        mainThreadWork starts s = Steps (set_main_at in_waitAndPop s)) ∧
     (main_at s = at_command ShutdownMainThread → m_workerThreadEnabled s = false →
        mainThreadWork starts s = Steps (mainThreadWork_returns s)) ∧
     (∀ c, c ≠ EnableWorkerThread →
        main_at s = at_command c → m_workerThreadEnabled s = true →
        mainThreadWork starts s =
          if m_workerThreadMutex s then Blocked
          else Steps (set_main_at (in_join c) (set_m_workerThreadEnabled false s))) ∧
     (∀ c, main_at s = in_join c →
        mainThreadWork starts s =
          match m_workerThread s with
          | Some finished => Steps (go_after_disable c (set_m_workerThread (Some joined) s))
          | _ => Blocked
          end) ∧
     (main_at s = returned →
        mainThreadWork starts s = Blocked ∧
        ∀ e s', step moved_from moved_from_vector type m_callable e s = Steps s' →
                main_at s' = returned ∧
                m_workerThreadEnabled s' = m_workerThreadEnabled s ∧
                (m_workerThread s' = Some running → m_workerThread s = Some running)) ∧
     mainThreadWork starts s ≠ UndefinedBehaviour) ∧
  (∀ {Elem : Type} `{!Inhabited Elem} (s : @mt.System Elem) (starts : bool),
     (mt.main_at s = mt.at_command mt.EnableWorkerThread →
      mt.m_workerThreadEnabled s = true →
        mt.mainThreadWork starts s = mt.Steps (mt.set_main_at mt.in_waitAndPop s)) ∧
     (∀ c, c ≠ mt.EnableWorkerThread → mt.main_at s = mt.at_command c →
        mt.m_workerThread s = None →
        mt.mainThreadWork starts s = mt.UndefinedBehaviour)) ∧
  (∀ {Elem : Type} `{!Inhabited Elem} (moved_from : Elem → Elem)
     (moved_from_vector : list Elem → list Elem) (m_callable : Elem → bool)
     (sharedContainer : ThreadsafeSTLAdapter),
     (∀ type,
        mt.run moved_from moved_from_vector type m_callable mt.disable_first
          (mt.construct sharedContainer true) = mt.UndefinedBehaviour ∧
        mt.run moved_from moved_from_vector type m_callable mt.shutdown_first
          (mt.construct sharedContainer true) = mt.UndefinedBehaviour) ∧
     (∀ type,
        (λ s, (main_at s, m_workerThreadEnabled s, m_workerThread s))
          <$> final (run moved_from moved_from_vector type m_callable disable_first
                       (construct sharedContainer true))
        = Some (in_waitAndPop, false, None) ∧
        (λ s, (main_at s, m_workerThreadEnabled s, m_workerThread s))
          <$> final (run moved_from moved_from_vector type m_callable shutdown_first
                       (construct sharedContainer true))
        = Some (returned, false, None))).
Proof.
  split_and!.
  - intros Elem I moved_from moved_from_vector type m_callable sharedContainer thread_starts s
      Hreach starts.
    destruct (items_consistent_reachable moved_from moved_from_vector type m_callable
                (construct sharedContainer thread_starts) s) as [Hthreads Hitems]; [..|done|].
    { apply threads_consistent_init. }
    { apply items_consistent_init. }
    assert (joins_a_thread s) as Hjoin.
    { apply (joins_a_thread_reachable moved_from moved_from_vector type m_callable
               (construct sharedContainer thread_starts)); [|done].
      apply joins_a_thread_init. }
    split_and!.
    + apply enable_while_running.
    + by apply disable_while_idle.
    + by apply shutdown_while_idle.
    + intros c. by apply disable_while_running.
    + intros c. by apply join_of_worker.
    + intros Hpc. destruct (returned_for_good moved_from moved_from_vector type m_callable s Hpc).
      done.
    + by apply (main_thread_defined type).
  - intros Elem I s starts. split.
    + apply mt_enable_while_running.
    + intros c. apply mt_interrupt_without_worker.
  - intros Elem I moved_from moved_from_vector m_callable sharedContainer. split.
    + intros type. split; reflexivity.
    + intros type. split; reflexivity.
Qed.

(** The part of C4 on [concurrency] at the controller that has popped a
    Disable as its first command. *)
Lemma C4_mt_interrupts_a_worker_that_was_never_created_witness :
  let step := @step Z _ id (λ _, []) Producer (λ _, true) in
  let s0 := construct (createThreadsafeSTLAdapterFrom (stl.queue []) tt ∅) true in
  ∃ s, run id (λ _, []) Producer (λ _, true) (take 2 disable_first) s0 = Steps s ∧
     (main_at s = at_command EnableWorkerThread → m_workerThreadEnabled s = true →
        mainThreadWork true s =
          if m_workerThreadMutex s then Blocked else Steps (set_main_at in_waitAndPop s)) ∧
     (main_at s = at_command DisableWorkerThread → m_workerThreadEnabled s = false →
        mainThreadWork true s = Steps (set_main_at in_waitAndPop s)) ∧
     (main_at s = at_command ShutdownMainThread → m_workerThreadEnabled s = false →
        mainThreadWork true s = Steps (mainThreadWork_returns s)) ∧
     (∀ c, c ≠ EnableWorkerThread →
        main_at s = at_command c → m_workerThreadEnabled s = true →
        mainThreadWork true s =
          if m_workerThreadMutex s then Blocked
          else Steps (set_main_at (in_join c) (set_m_workerThreadEnabled false s))) ∧
     (∀ c, main_at s = in_join c →
        mainThreadWork true s =
          match m_workerThread s with
          | Some finished => Steps (go_after_disable c (set_m_workerThread (Some joined) s))
          | _ => Blocked
          end) ∧
     (main_at s = returned →
        mainThreadWork true s = Blocked ∧
        ∀ e s', step e s = Steps s' →
                main_at s' = returned ∧
                m_workerThreadEnabled s' = m_workerThreadEnabled s ∧
                (m_workerThread s' = Some running → m_workerThread s = Some running)) ∧
     mainThreadWork true s ≠ UndefinedBehaviour.
Proof.
  intros step s0.
  destruct (run id (λ _, []) Producer (λ _, true) (take 2 disable_first) s0)
    as [s| | |] eqn:Hrun; try (by vm_compute in Hrun).
  exists s. split; [done|].
  apply (proj1 C4_mt_interrupts_a_worker_that_was_never_created
           Z _ id (λ _, []) Producer (λ _, true)
           (createThreadsafeSTLAdapterFrom (stl.queue []) tt ∅) true s).
  apply (run_reachable id (λ _, []) Producer (λ _, true) (take 2 disable_first) s0 s0 s);
    [constructor|exact Hrun].
Defined.

(** ** A callback that throws *)

Section callback_failure.
Context {Elem : Type} `{!Inhabited Elem}.
Context (moved_from : Elem → Elem) (moved_from_vector : list Elem → list Elem).
Context (m_callable : Elem → bool).

(** The call of the callback in [concurrency::Consumer::workerThreadWork]. *)
Lemma callback_step (s : @System Elem) item :
  m_workerThread s = Some running → worker_at s = at_body [item] →
  workerThreadWork moved_from moved_from_vector Consumer m_callable s =
    let s' := set_delivered (delivered s ++ [item]) (set_m_workerThreadMutex false s) in
    if m_callable item then Steps (set_worker_at at_lock s')
    else Steps (workerThread_returns s').
Proof. intros Hw Hpc. unfold workerThreadWork. by rewrite Hw, Hpc. Qed.

(** A worker whose thread function has returned executes nothing. *)
Lemma returned_worker_blocked type (s : @System Elem) :
  worker_at s = worker_returned →
  workerThreadWork moved_from moved_from_vector type m_callable s = Blocked.
Proof. intros Hpc. unfold workerThreadWork. rewrite Hpc. by repeat case_match. Qed.

(** The call of the callback in [mt::Consumer::workerThreadWork]. *)
Lemma mt_callback_step (s : @mt.System Elem) item :
  mt.m_workerThread s = Some running → mt.worker_at s = mt.at_body [item] →
  mt.workerThreadWork moved_from moved_from_vector mt.Consumer m_callable s =
    let s' := mt.set_delivered (mt.delivered s ++ [item]) s in
    if m_callable item then mt.Steps (mt.set_worker_at mt.at_while s')
    else mt.Steps (mt.workerThread_returns s').
Proof. intros Hw Hpc. unfold mt.workerThreadWork. by rewrite Hw, Hpc. Qed.

Lemma mt_returned_worker_blocked type (s : @mt.System Elem) :
  mt.worker_at s = mt.worker_returned →
  mt.workerThreadWork moved_from moved_from_vector type m_callable s = mt.Blocked.
Proof. intros Hpc. unfold mt.workerThreadWork. rewrite Hpc. by repeat case_match. Qed.

End callback_failure.

(** C6, as the claim states it, fails.  The consumer of a queue holding 1, 2
    and 3 calls a callback that throws on 1: in both variants the worker's
    thread function has returned after the call, 2 and 3 are still in the
    shared container, and the worker executes nothing more. *)
Lemma C6_a_callback_failure_ends_the_worker_loop :
  (let run := @run Z _ id (λ _, []) Consumer fails_on_1 in
   let s0 := construct (createThreadsafeSTLAdapterFrom (stl.queue [1; 2; 3]%Z) tt ∅) true in
   ((λ s, (worker_at s, delivered s)) <$> final (run consumer_calls_back s0))
     = Some (at_body [1], [])%Z ∧
   ((λ s, (m_workerThread s, worker_at s, delivered s, payloads (m_sharedContainer s)))
      <$> final (run (consumer_calls_back ++ [worker_thread]) s0))
     = Some (Some finished, worker_returned, [1], [2; 3])%Z ∧
   run (consumer_calls_back ++ [worker_thread; worker_thread]) s0 = Blocked) ∧
  (let run := @mt.run Z _ id (λ _, []) mt.Consumer fails_on_1 in
   let s0 := mt.construct (createThreadsafeSTLAdapterFrom (stl.queue [1; 2; 3]%Z) tt ∅) true in
   ((λ s, (mt.worker_at s, mt.delivered s)) <$> mt.final (run mt.consumer_calls_back s0))
     = Some (mt.at_body [1], [])%Z ∧
   ((λ s, (mt.m_workerThread s, mt.worker_at s, mt.delivered s,
           payloads (mt.m_sharedContainer s)))
      <$> mt.final (run (mt.consumer_calls_back ++ [mt.worker_thread]) s0))
     = Some (Some finished, mt.worker_returned, [1], [2; 3])%Z ∧
   run (mt.consumer_calls_back ++ [mt.worker_thread; mt.worker_thread]) s0 = mt.Blocked).
Proof. by split_and!; vm_compute. Qed.

(** C6, amended.  [workerThreadWork] has no handler around the call of the
    callback, in either variant.  When the callback returns, the worker goes
    on to the next iteration.  When it throws, the exception leaves
    [workerThreadWork] and is caught by the handlers of the worker thread's
    entry function: the thread function returns ([concurrency] releases the
    mutex on the way and leaves both flags as they are), the item counts as
    handed to the callback, nothing else is popped from the shared container,
    and the worker executes no further statement. *)
Theorem C6_a_callback_failure_is_caught_at_the_thread_entry
    {Elem : Type} `{!Inhabited Elem} (moved_from : Elem → Elem)
    (moved_from_vector : list Elem → list Elem) (m_callable : Elem → bool) (item : Elem) :
  (∀ s : System,
     m_workerThread s = Some running → worker_at s = at_body [item] →
     ∃ s', step moved_from moved_from_vector Consumer m_callable worker_thread s = Steps s' ∧
           delivered s' = delivered s ++ [item] ∧
           popped s' = popped s ∧
           m_sharedContainer s' = m_sharedContainer s ∧
           m_workerThreadMutex s' = false ∧
           m_workerThreadEnabled s' = m_workerThreadEnabled s ∧
           m_isWorkerThreadRunning s' = m_isWorkerThreadRunning s ∧
           if m_callable item
           then worker_at s' = at_lock ∧ m_workerThread s' = Some running
           else worker_at s' = worker_returned ∧ m_workerThread s' = Some finished ∧
                step moved_from moved_from_vector Consumer m_callable worker_thread s'
                = Blocked) ∧
  (∀ s : mt.System,
     mt.m_workerThread s = Some running → mt.worker_at s = mt.at_body [item] →
     ∃ s', mt.step moved_from moved_from_vector mt.Consumer m_callable mt.worker_thread s
           = mt.Steps s' ∧
           mt.delivered s' = mt.delivered s ++ [item] ∧
           mt.m_sharedContainer s' = mt.m_sharedContainer s ∧
           mt.m_workerThreadEnabled s' = mt.m_workerThreadEnabled s ∧
           if m_callable item
           then mt.worker_at s' = mt.at_while ∧ mt.m_workerThread s' = Some running
           else mt.worker_at s' = mt.worker_returned ∧
                mt.m_workerThread s' = Some finished ∧
                mt.step moved_from moved_from_vector mt.Consumer m_callable mt.worker_thread s'
                = mt.Blocked).
Proof.
  split.
  - intros s Hw Hpc. cbn [step].
    rewrite (callback_step moved_from moved_from_vector m_callable s item Hw Hpc). cbn zeta.
    by destruct (m_callable item); eexists; (split; [reflexivity|]); fields; split_and!.
  - intros s Hw Hpc. cbn [mt.step].
    rewrite (mt_callback_step moved_from moved_from_vector m_callable s item Hw Hpc). cbn zeta.
    by destruct (m_callable item); eexists; (split; [reflexivity|]); mt_fields; split_and!.
Qed.

(** The amended C6 at the consumer that is about to call the failing
    callback on 1. *)
Lemma C6_a_callback_failure_is_caught_at_the_thread_entry_witness :
  let step := @step Z _ id (λ _, []) Consumer fails_on_1 worker_thread in
  let s0 := construct (createThreadsafeSTLAdapterFrom (stl.queue [1; 2; 3]%Z) tt ∅) true in
  ∃ s, run id (λ _, []) Consumer fails_on_1 consumer_calls_back s0 = Steps s ∧
  ∃ s', step s = Steps s' ∧
        delivered s' = delivered s ++ [1%Z] ∧
        popped s' = popped s ∧
        m_sharedContainer s' = m_sharedContainer s ∧
        m_workerThreadMutex s' = false ∧
        m_workerThreadEnabled s' = m_workerThreadEnabled s ∧
        m_isWorkerThreadRunning s' = m_isWorkerThreadRunning s ∧
        if fails_on_1 1%Z
        then worker_at s' = at_lock ∧ m_workerThread s' = Some running
        else worker_at s' = worker_returned ∧ m_workerThread s' = Some finished ∧
             step s' = Blocked.
Proof.
  intros step s0.
  destruct (run id (λ _, []) Consumer fails_on_1 consumer_calls_back s0)
    as [s| | |] eqn:Hrun; try (by vm_compute in Hrun).
  exists s. split; [done|].
  apply (proj1 (C6_a_callback_failure_is_caught_at_the_thread_entry
                  id (λ _, []) fails_on_1 1%Z) s).
  - vm_compute in Hrun. by simplify_eq.
  - vm_compute in Hrun. by simplify_eq.
Defined.

(** ** Threads that fail to start *)

Section thread_start_failure.
Context {Elem : Type} `{!Inhabited Elem}.
Context (moved_from : Elem → Elem) (moved_from_vector : list Elem → list Elem).
Context (type : Type_) (m_callable : Elem → bool).

(** Once the control thread was created [m_mainThread] is never reset. *)
Lemma main_thread_object_kept e (s s' : @System Elem) :
  is_Some (m_mainThread s) →
  step moved_from moved_from_vector type m_callable e s = Steps s' →
  is_Some (m_mainThread s').
Proof. intros Hm Hstep. destruct e; step_cases Hstep; fields; by eauto. Qed.

Lemma main_thread_object_reachable (sharedContainer : @ThreadsafeSTLAdapter Elem) s :
  reachable moved_from moved_from_vector type m_callable (construct sharedContainer true) s →
  is_Some (m_mainThread s).
Proof. induction 1; [by eexists|by eapply main_thread_object_kept]. Qed.

(** Without a control thread nothing handles the commands: no step of a
    thread is possible and [m_mainThread] stays null. *)
Lemma no_control_thread (sharedContainer : @ThreadsafeSTLAdapter Elem) s :
  reachable moved_from moved_from_vector type m_callable (construct sharedContainer false) s →
  m_mainThread s = None ∧ main_at s = returned ∧ m_workerThread s = None ∧
  worker_at s = worker_returned.
Proof.
  induction 1 as [|s e s' _ (Hm & Hpc & Hw & Hat) Hstep]; [done|].
  destruct e; step_cases Hstep; fields; try done; congruence.
Qed.

End thread_start_failure.

(** C9.  When the creation of the control thread fails, [runMainThread]
    catches the exception and leaves [m_mainThread] null.  The controller
    still accepts commands, which nothing handles; but its destructor calls
    [shutdownMainThread], which evaluates [m_mainThread->joinable()] on the
    null pointer: undefined behaviour, in whatever state the controller is.
    When the control thread exists, [shutdownMainThread] never dereferences a
    null pointer; and when the creation of the worker thread fails, the
    control thread returns and [shutdownMainThread] joins it. *)
Theorem C9_shutdown_dereferences_the_null_control_thread :
  (∀ {Elem : Type} `{!Inhabited Elem} (sharedContainer : @ThreadsafeSTLAdapter Elem),
     m_mainThread (construct sharedContainer false) = None ∧
     shutdownMainThread (construct sharedContainer false) = Undefined) ∧
  (∀ {Elem : Type} `{!Inhabited Elem} (moved_from : Elem → Elem)
     (moved_from_vector : list Elem → list Elem) (type : Type_) (m_callable : Elem → bool)
     (sharedContainer : ThreadsafeSTLAdapter) (s : System),
     reachable moved_from moved_from_vector type m_callable
       (construct sharedContainer false) s →
     (∀ starts, step moved_from moved_from_vector type m_callable (main_thread starts) s
                = Blocked) ∧
     step moved_from moved_from_vector type m_callable worker_thread s = Blocked ∧
     shutdownMainThread s = Undefined) ∧
  (∀ {Elem : Type} `{!Inhabited Elem} (moved_from : Elem → Elem)
     (moved_from_vector : list Elem → list Elem) (type : Type_) (m_callable : Elem → bool)
     (sharedContainer : ThreadsafeSTLAdapter) (s : System),
     reachable moved_from moved_from_vector type m_callable
       (construct sharedContainer true) s →
     shutdownMainThread s ≠ Undefined) ∧
  (∀ {Elem : Type} `{!Inhabited Elem} (moved_from : Elem → Elem)
     (moved_from_vector : list Elem → list Elem) (type : Type_) (m_callable : Elem → bool)
     (sharedContainer : ThreadsafeSTLAdapter),
     ∃ s, run moved_from moved_from_vector type m_callable worker_start_fails
            (construct sharedContainer true) = Steps s ∧
          main_at s = returned ∧ m_mainThread s = Some finished ∧
          m_workerThread s = None ∧
          shutdownMainThread s
          = Returns tt (set_m_mainThread (Some joined) (shutdownMainThread_push s))).
Proof.
  split_and!.
  - intros Elem I sharedContainer. by split.
  - intros Elem I moved_from moved_from_vector type m_callable sharedContainer s Hreach.
    destruct (no_control_thread moved_from moved_from_vector type m_callable sharedContainer s
                Hreach) as (Hm & Hpc & Hw & Hat).
    split_and!.
    + intros starts. cbn. unfold mainThreadWork. by rewrite Hpc.
    + cbn. unfold workerThreadWork. by rewrite Hw.
    + unfold shutdownMainThread, shutdownMainThread_join, shutdownMainThread_push. fields.
      by rewrite Hm.
  - intros Elem I moved_from moved_from_vector type m_callable sharedContainer s Hreach.
    destruct (main_thread_object_reachable moved_from moved_from_vector type m_callable
                sharedContainer s Hreach) as [t Ht].
    unfold shutdownMainThread, shutdownMainThread_join, shutdownMainThread_push. fields.
    rewrite Ht. by destruct t.
  - intros Elem I moved_from moved_from_vector type m_callable sharedContainer.
    eexists. split_and!; reflexivity.
Qed.

(** C9 at the queue of integers: the controller whose control thread could
    not be created, after the client asked for Enable. *)
Lemma C9_shutdown_dereferences_the_null_control_thread_witness :
  let step := @step Z _ id (λ _, []) Producer (λ _, true) in
  let s := enableWorkerThread
             (construct (createThreadsafeSTLAdapterFrom (stl.queue [1; 2; 3]%Z) tt ∅) false) in
  (∀ starts, step (main_thread starts) s = Blocked) ∧
  step worker_thread s = Blocked ∧
  shutdownMainThread s = Undefined.
Proof.
  intros step s.
  apply (proj1 (proj2 C9_shutdown_dereferences_the_null_control_thread)
           Z _ id (λ _, []) Producer (λ _, true)
           (createThreadsafeSTLAdapterFrom (stl.queue [1; 2; 3]%Z) tt ∅) s).
  eapply (reachable_step id (λ _, []) Producer (λ _, true) _ _ call_enableWorkerThread);
    [constructor|reflexivity].
Defined.

(** ** More on the adapter: stacks, round trips, handles, copies *)

Section lifo_facts.
Context {Elem : Type} `{!Inhabited Elem} (moved_from : Elem → Elem).
Implicit Types (this : @ThreadsafeSTLAdapter Elem).

Lemma is_lifo_create (c : list Elem) σ :
  is_lifo (createThreadsafeSTLAdapterFrom (stl.stack c) tt σ) ∧
  payloads (createThreadsafeSTLAdapterFrom (stl.stack c) tt σ) = c.
Proof.
  split; [split|].
  - apply create_valid.
  - by destruct (create_members (stl.stack c) tt σ) as (_ & _ & ->).
  - apply create_payloads.
Qed.

Lemma is_lifo_push v this :
  is_lifo this → is_lifo (push v this) ∧ payloads (push v this) = payloads this ++ [v].
Proof.
  intros [Hvalid Hd]. split; [split|].
  - by apply push_valid.
  - by rewrite push_discipline_of.
  - apply push_payloads_sequential; [done|]. by rewrite Hd.
Qed.

(** A pop of a stack that is not empty takes the newest element. *)
Lemma perform_pop_lifo c value this l x :
  is_pop c = true → is_lifo this → payloads this = l ++ [x] →
  ∃ value' this',
    perform moved_from c value this =
      Some ([{| before := l ++ [x]; obtained := Some x |}], value', this') ∧
    is_lifo this' ∧ payloads this' = l.
Proof.
  intros Hc [Hvalid Hd] Hpay.
  assert (pushed_by [c] = []) as Hpop by (by destruct c).
  assert (stl.empty (m_adapter this) = false) as He.
  { destruct (stl.empty (m_adapter this)) eqn:He; [|done].
    apply payloads_of_empty in He. rewrite He in Hpay. by destruct l. }
  destruct (perform_pop_nonempty moved_from c value this Hpop Hvalid He)
    as (res & v & σ' & value' & Hres & Hv & Hσ & Hperform).
  destruct (popped_valid this res σ' Hvalid Hres Hσ) as (Hvalid' & _ & _).
  pose proof (popped_payloads_stack this res σ' Hvalid Hres Hσ Hd) as Hstack.
  cbn zeta in Hstack, Hvalid'. rewrite lookup_total_alt, Hv, Hpay in Hstack. cbn in Hstack.
  apply app_inj_tail in Hstack as [Hl Hx]. subst.
  eexists _, _. rewrite Hperform, Hpay. split_and!; [done|split; [done|]|done].
  cbn. by rewrite pop_discipline.
Qed.

Lemma client_pushes vs calls value this :
  is_lifo this →
  ∃ this', is_lifo this' ∧ payloads this' = payloads this ++ vs ∧
           client moved_from ((do_push <$> vs) ++ calls) value this =
           client moved_from calls value this'.
Proof.
  revert this. induction vs as [|v vs IH]; intros this Hlifo.
  - exists this. by rewrite app_nil_r.
  - destruct (is_lifo_push v this Hlifo) as [Hlifo' Hpay].
    destruct (IH (push v this) Hlifo') as (this' & ? & Hpay' & Hclient).
    exists this'. split_and!; [done| |].
    + by rewrite Hpay', Hpay, <-(assoc_L (++)).
    + cbn [fmap list_fmap app client perform mbind option_bind]. rewrite Hclient.
      by destruct (client moved_from calls value this') as [[? ?]|].
Qed.

Lemma client_pops_lifo pops value this :
  forallb is_pop pops = true → is_lifo this →
  obtained_by (client moved_from pops value this) =
  Some (take (length pops)
          ((Some <$> reverse (payloads this)) ++ replicate (length pops) None)).
Proof.
  revert value this. induction pops as [|c pops IH]; intros value this Hpops Hlifo; [done|].
  cbn in Hpops. apply andb_prop in Hpops as [Hc Hpops].
  destruct (payloads this) as [|x l _] eqn:Hpay using rev_ind.
  - assert (pushed_by [c] = []) as Hpop by (by destruct c).
    cbn [client]. rewrite (perform_pop_empty moved_from c value this Hpop)
      by (by apply payloads_of_empty). cbn.
    specialize (IH value this Hpops Hlifo). rewrite Hpay in IH. cbn in IH.
    destruct (client moved_from pops value this) as [[obs this']|]; [|done].
    cbn in IH |- *. simplify_eq. f_equal. f_equal.
    by rewrite !take_replicate, Nat.min_id in *.
  - destruct (perform_pop_lifo c value this l x Hc Hlifo Hpay)
      as (value' & this' & Hperform & Hlifo' & Hpay').
    cbn [client]. rewrite Hperform. cbn.
    specialize (IH value' this' Hpops Hlifo'). rewrite Hpay' in IH.
    destruct (client moved_from pops value' this') as [[obs this'']|]; [|done].
    cbn in IH |- *. simplify_eq. rewrite reverse_snoc. cbn. f_equal. f_equal.
    rewrite IH. rewrite !take_app. f_equal.
    change (None :: replicate (length pops) None)
      with (replicate (S (length pops)) (@None Elem)).
    rewrite !take_replicate. f_equal. lia.
Qed.

End lifo_facts.

(** X1.  An adapter built from the stack [seed] hands out the newest
    element first.  Whatever calls a client thread makes, each pop obtains
    the last of the elements held when it is called, or nothing from an
    empty adapter.  After pushing [vs], pops obtain the elements of
    [seed ++ vs] from the last to the first, and then nothing. *)
Theorem stack_adapter_pops_newest_first
    {Elem : Type} `{!Inhabited Elem} (moved_from : Elem → Elem)
    (seed vs : list Elem) (calls pops : list call) (value : Elem) (σ : gmap loc Elem) :
  forallb is_pop pops = true →
  let this := createThreadsafeSTLAdapterFrom (stl.stack seed) tt σ in
  (∃ obs this',
     client moved_from calls value this = Some (obs, this') ∧
     Forall (as_selected stl.LIFO (λ _ _, false)) obs ∧
     popped_in obs ++ payloads this' ≡ₚ seed ++ pushed_by calls) ∧
  obtained_by (client moved_from ((do_push <$> vs) ++ pops) value this) =
  Some (take (length pops)
          ((Some <$> reverse (seed ++ vs)) ++ replicate (length pops) None)).
Proof.
  intros Hpops this. destruct (is_lifo_create seed σ) as [Hlifo Hpay]. split.
  - destruct (client_spec moved_from (λ _ _, false) calls value this)
      as (obs & this' & Hclient & _ & _ & Hperm & _ & Hsel & _).
    { by apply create_sequential_well_formed. }
    exists obs, this'. destruct Hlifo as [_ Hd]. fold this in Hd.
    rewrite Hd in Hsel. fold this in Hpay. by rewrite Hpay in Hperm.
  - destruct (client_pushes moved_from vs pops value this Hlifo)
      as (this' & Hlifo' & Hpay' & ->).
    rewrite (client_pops_lifo moved_from pops value this' Hpops Hlifo').
    fold this in Hpay. by rewrite Hpay', Hpay.
Qed.

(** X1 on the stack 1, 2 with 3 pushed: four pops obtain 3, 2, 1 and
    nothing. *)
Lemma stack_adapter_pops_newest_first_witness :
  let this := createThreadsafeSTLAdapterFrom (stl.stack [1; 2]%Z) tt ∅ in
  let pops := [do_tryPop; do_pop_ref; do_tryPop_ref; do_pop] in
  (∃ obs this',
     client id [do_tryPop; do_push 7%Z] 0%Z this = Some (obs, this') ∧
     Forall (as_selected stl.LIFO (λ _ _, false)) obs ∧
     popped_in obs ++ payloads this' ≡ₚ [1; 2]%Z ++ pushed_by [do_tryPop; do_push 7%Z]) ∧
  obtained_by (client id ((do_push <$> [3%Z]) ++ pops) 0%Z this) =
  Some (take (length pops)
          ((Some <$> reverse ([1; 2]%Z ++ [3%Z])) ++ replicate (length pops) None)).
Proof.
  apply (stack_adapter_pops_newest_first id [1; 2]%Z [3%Z] [do_tryPop; do_push 7%Z]
           [do_tryPop; do_pop_ref; do_tryPop_ref; do_pop] 0%Z ∅).
  reflexivity.
Defined.

Section round_trips.
Context {Elem : Type} `{!Inhabited Elem} (moved_from : Elem → Elem).
Implicit Types (this : @ThreadsafeSTLAdapter Elem).

(** What [peek] reads, in terms of the payloads. *)
Lemma peek_payloads this :
  valid this →
  peek this = match stl.discipline_of (m_adapter this) with
              | stl.LIFO => last (payloads this)
              | stl.FIFO | stl.prioritized => head (payloads this)
              end.
Proof.
  intros [_ Hdom]. rewrite Forall_forall in Hdom.
  unfold peek, payloads. rewrite getCurrent_discipline.
  assert (∀ p, p ∈ stl.c (m_adapter this) → heap this !! p = Some (heap this !!! p)) as Hp.
  { intros p [v Hv]%Hdom. by rewrite lookup_total_alt, Hv. }
  destruct (stl.discipline_of (m_adapter this)).
  - destruct (stl.c (m_adapter this)) as [|p c]; [done|]. cbn. apply Hp. by left.
  - destruct (stl.c (m_adapter this)) as [|p c _] using rev_ind; [done|].
    rewrite fmap_app. cbn. rewrite !last_snoc. cbn. apply Hp. apply elem_of_app. right. by left.
  - destruct (stl.c (m_adapter this)) as [|p c]; [done|]. cbn. apply Hp. by left.
Qed.

(** After [push v] on a stack, or on an empty adapter of any kind, the
    current element is [v] and removing it leaves the payloads there were. *)
Lemma pushed_is_current v this :
  valid this →
  stl.discipline_of (m_adapter this) = stl.LIFO ∨ payloads this = [] →
  ∃ res, getCurrent (m_adapter (push v this)) = Some res ∧
         heap (push v this) !! res = Some v ∧
         stl.empty (m_adapter (push v this)) = false ∧
         ∀ σ', (∀ q, q ≠ res → σ' !! q = heap (push v this) !! q) →
               let this' := {| m_adapter := stl.pop (CustomComparator_call σ')
                                              (m_adapter (push v this));
                               heap := σ' |} in
               valid this' ∧ payloads this' = payloads this.
Proof.
  intros Hvalid Hcase. pose proof (push_valid v this Hvalid) as Hvalid'.
  pose proof (push_payloads v this Hvalid) as Hperm.
  assert (stl.empty (m_adapter (push v this)) = false) as He.
  { destruct (stl.empty (m_adapter (push v this))) eqn:He; [|done].
    apply payloads_of_empty in He. rewrite He in Hperm.
    apply Permutation_nil_l in Hperm. by destruct (payloads this). }
  destruct (peek_is_Some (push v this) Hvalid' He) as (res & v0 & Hres & Hv0 & _).
  assert (v0 = v ∧ ∀ σ', (∀ q, q ≠ res → σ' !! q = heap (push v this) !! q) →
            payloads {| m_adapter := stl.pop (CustomComparator_call σ')
                                       (m_adapter (push v this));
                        heap := σ' |} = payloads this) as [-> Hpay].
  { destruct Hcase as [Hd|Hempty].
    - destruct (is_lifo_push v this (conj Hvalid Hd)) as [[_ Hd'] Hpay].
      assert (∀ σ', (∀ q, q ≠ res → σ' !! q = heap (push v this) !! q) →
                v0 = v ∧
                payloads {| m_adapter := stl.pop (CustomComparator_call σ')
                                           (m_adapter (push v this));
                            heap := σ' |} = payloads this) as Hboth.
      { intros σ' Hσ.
        pose proof (popped_payloads_stack (push v this) res σ' Hvalid' Hres Hσ Hd') as Hstack.
        cbn zeta in Hstack. rewrite lookup_total_alt, Hv0, Hpay in Hstack. cbn in Hstack.
        by apply app_inj_tail in Hstack as [-> ->]. }
      split; [|intros σ' Hσ; by apply Hboth].
      by apply (Hboth (heap (push v this))).
    - rewrite Hempty in Hperm |- *. cbn in Hperm.
      assert (∀ σ', (∀ q, q ≠ res → σ' !! q = heap (push v this) !! q) →
                v0 = v ∧
                payloads {| m_adapter := stl.pop (CustomComparator_call σ')
                                           (m_adapter (push v this));
                            heap := σ' |} = []) as Hboth.
      { intros σ' Hσ.
        destruct (popped_valid (push v this) res σ' Hvalid' Hres Hσ) as (_ & _ & Hp).
        cbn zeta in Hp. rewrite lookup_total_alt, Hv0, Hperm in Hp. cbn in Hp.
        apply Permutation_singleton_l in Hp. by simplify_eq. }
      split; [|intros σ' Hσ; by apply Hboth].
      by apply (Hboth (heap (push v this))). }
  exists res. split_and!; [done..|]. intros σ' Hσ. split; [|by apply Hpay].
  by destruct (popped_valid (push v this) res σ' Hvalid' Hres Hσ) as (? & _).
Qed.

End round_trips.

(** X2.  On a stack adapter, and on an empty adapter of any kind, a push
    followed by a pop is a round trip: each of the six pops returns the
    value just pushed (the handle-returning ones a handle to it) and leaves
    the adapter valid with the payloads it held before the push.
    [pushAndNotify] pushes the same way, so [waitAndPop] does not suspend. *)
Theorem push_then_pop_is_a_round_trip
    {Elem : Type} `{!Inhabited Elem} (moved_from : Elem → Elem)
    (v value : Elem) (this : ThreadsafeSTLAdapter) :
  valid this →
  stl.discipline_of (m_adapter this) = stl.LIFO ∨ payloads this = [] →
  ∃ res this_r this_h,
    pop_ref moved_from value (push v this) = Returns tt (v, this_r) ∧
    tryPop_ref moved_from value (push v this) = Returns true (v, this_r) ∧
    waitAndPop_ref moved_from value (pushAndNotify v this) = Returns tt (v, this_r) ∧
    pop (push v this) = Returns res this_h ∧
    tryPop (push v this) = Returns (Some res) this_h ∧
    waitAndPop (pushAndNotify v this) = Returns res this_h ∧
    heap this_h !! res = Some v ∧
    valid this_r ∧ payloads this_r = payloads this ∧
    valid this_h ∧ payloads this_h = payloads this.
Proof.
  intros Hvalid Hcase.
  destruct (pushed_is_current v this Hvalid Hcase) as (res & Hres & Hv & He & Hafter).
  destruct (pops_of_nonempty (push v this) res He Hres) as (Hp & Ht & Hw).
  destruct (pops_ref_of_nonempty moved_from value (push v this) res v He Hres Hv)
    as (Hpr & Htr & Hwr).
  cbn zeta in *. unfold pushAndNotify.
  destruct (Hafter (heap (push v this))) as [? ?]; [done|].
  destruct (Hafter (<[res := moved_from v]> (heap (push v this)))) as [? ?].
  { intros q Hq. by rewrite lookup_insert_ne. }
  eexists res, _, _. split_and!; [exact Hpr|exact Htr|exact Hwr|exact Hp|exact Ht|exact Hw|..];
    done.
Qed.

(** X2 on the stack 1, 2 and the value 3. *)
Lemma push_then_pop_is_a_round_trip_witness :
  let this := createThreadsafeSTLAdapterFrom (stl.stack [1; 2]%Z) tt ∅ in
  ∃ res this_r this_h,
    pop_ref id 0%Z (push 3%Z this) = Returns tt (3%Z, this_r) ∧
    tryPop_ref id 0%Z (push 3%Z this) = Returns true (3%Z, this_r) ∧
    waitAndPop_ref id 0%Z (pushAndNotify 3%Z this) = Returns tt (3%Z, this_r) ∧
    pop (push 3%Z this) = Returns res this_h ∧
    tryPop (push 3%Z this) = Returns (Some res) this_h ∧
    waitAndPop (pushAndNotify 3%Z this) = Returns res this_h ∧
    heap this_h !! res = Some 3%Z ∧
    valid this_r ∧ payloads this_r = payloads this ∧
    valid this_h ∧ payloads this_h = payloads this.
Proof.
  apply (push_then_pop_is_a_round_trip id 3%Z 0%Z).
  - apply (bool_decide_unpack _). vm_compute. exact I.
  - left. reflexivity.
Defined.

(** X3.  The factory keeps the order of the source container and does not
    rebuild a heap: the element a new adapter yields first is the back of
    the source container for a stack and its front for a queue and for a
    priority queue, whatever comparator is supplied.  From the priority
    container 1, 5, 3 with the comparator [<] the pops obtain 1, 5, 3. *)
Theorem a_new_adapter_yields_the_source_front_first :
  (∀ {Elem : Type} `{!Inhabited Elem} (moved_from : Elem → Elem)
     (adapter : stl.adapter Elem (Elem → Elem → bool)) (comparator : Ts adapter)
     (σ : gmap loc Elem) (value : Elem),
     let this := createThreadsafeSTLAdapterFrom adapter comparator σ in
     let first := match stl.discipline_of adapter with
                  | stl.LIFO => last (stl.c adapter)
                  | stl.FIFO | stl.prioritized => head (stl.c adapter)
                  end in
     peek this = first ∧
     (∀ v this', tryPop_ref moved_from value this = Returns true (v, this') →
                 first = Some v) ∧
     (∀ res this', tryPop this = Returns (Some res) this' →
                   heap this' !! res = first)) ∧
  obtained_by (client id [do_tryPop_ref; do_tryPop_ref; do_tryPop_ref] 0%Z
                 (createThreadsafeSTLAdapterFrom
                    (stl.priority_queue [1; 5; 3]%Z Z.ltb) Z.ltb ∅))
    = Some [Some 1; Some 5; Some 3]%Z.
Proof.
  split; [|by vm_compute].
  intros Elem I moved_from adapter comparator σ value this first.
  pose proof (create_valid adapter comparator σ) as Hvalid. fold this in Hvalid.
  assert (peek this = first) as Hpeek.
  { rewrite (peek_payloads this Hvalid). unfold this, first.
    rewrite create_payloads.
    by destruct (create_members adapter comparator σ) as (_ & _ & ->). }
  split_and!; [done|..].
  - intros v this' Hpop. rewrite <-Hpeek.
    destruct (stl.empty (m_adapter this)) eqn:He.
    { destruct (pops_of_empty moved_from value this He) as (_ & Ht & _). congruence. }
    destruct (peek_is_Some this Hvalid He) as (res & v0 & Hres & Hv0 & ->).
    destruct (pops_ref_of_nonempty moved_from value this res v0 He Hres Hv0) as (_ & Ht & _).
    cbn zeta in Ht. congruence.
  - intros res this' Hpop. rewrite <-Hpeek.
    destruct (stl.empty (m_adapter this)) eqn:He.
    { destruct (pops_of_empty moved_from value this He) as (_ & _ & _ & _ & Ht & _).
      congruence. }
    destruct (peek_is_Some this Hvalid He) as (res0 & v0 & Hres & Hv0 & ->).
    destruct (pops_of_nonempty this res0 He Hres) as (_ & Ht & _).
    cbn zeta in Ht. rewrite Ht in Hpop. by simplify_eq.
Qed.

Section handles.
Context {Elem : Type} `{!Inhabited Elem} (moved_from : Elem → Elem).
Implicit Types (this : @ThreadsafeSTLAdapter Elem).

(** A call on the adapter leaves alone every cell whose handle is not in
    the container, and puts no such handle into the container. *)
Lemma perform_frame c value this p obs value' this' :
  valid this → is_Some (heap this !! p) → p ∉ stl.c (m_adapter this) →
  perform moved_from c value this = Some (obs, value', this') →
  valid this' ∧ heap this' !! p = heap this !! p ∧ (p ∉ stl.c (m_adapter this')).
Proof.
  intros Hvalid Hp Hnotin Hperform.
  destruct (pushed_by [c]) as [|v pushed] eqn:Hc.
  - destruct (stl.empty (m_adapter this)) eqn:He.
    + rewrite (perform_pop_empty moved_from c value this Hc He) in Hperform. by simplify_eq.
    + destruct (perform_pop_nonempty moved_from c value this Hc Hvalid He)
        as (res & v & σ' & value0 & Hres & Hv & Hσ & Heq).
      rewrite Heq in Hperform. simplify_eq.
      destruct (popped_valid this res σ' Hvalid Hres Hσ) as (Hvalid' & _ & _).
      pose proof (pop_perm (CustomComparator_call σ') _ _ Hres) as Hperm.
      assert (p ≠ res) as Hne.
      { intros ->. apply Hnotin. rewrite Hperm. by left. }
      split_and!; [done|by apply Hσ|]. cbn. intros Hin. apply Hnotin.
      rewrite Hperm. by right.
  - assert (perform moved_from c value this = Some ([], value, push v this)) as Heq.
    { destruct c; simplify_eq/=; done. }
    rewrite Heq in Hperform. simplify_eq.
    pose proof (make_shared_fresh v (heap this)) as Hfresh. cbn in Hfresh.
    assert (p ≠ fresh (dom (heap this))) as Hne.
    { intros ->. rewrite Hfresh in Hp. by destruct Hp. }
    split_and!; [by apply push_valid|..].
    + unfold push. cbn. by rewrite lookup_insert_ne.
    + unfold push. cbn. rewrite push_perm. intros [?|?%list_elem_of_singleton]%elem_of_app;
        done.
Qed.

Lemma client_frame calls value this p obs this' :
  valid this → is_Some (heap this !! p) → p ∉ stl.c (m_adapter this) →
  client moved_from calls value this = Some (obs, this') →
  valid this' ∧ heap this' !! p = heap this !! p ∧ (p ∉ stl.c (m_adapter this')).
Proof.
  revert value this obs. induction calls as [|c calls IH]; intros value this obs Hv Hp Hn Hc.
  - cbn in Hc. by simplify_eq.
  - cbn in Hc. destruct (perform moved_from c value this) as [[[obs1 value1] this1]|] eqn:Hone;
      [|done].
    cbn in Hc. destruct (client moved_from calls value1 this1) as [[obs2 this2]|] eqn:Hrest;
      [|done].
    cbn in Hc. simplify_eq.
    destruct (perform_frame c value this p obs1 value1 this1 Hv Hp Hn Hone) as (Hv1 & Hp1 & Hn1).
    destruct (IH value1 this1 obs2 Hv1) as (? & Hp2 & ?); [by rewrite Hp1|done|done|].
    split_and!; [done|congruence|done].
Qed.

(** What a handle-returning pop returns is allocated and no longer in the
    container. *)
Lemma popped_handle this res this1 :
  valid this →
  pop this = Returns res this1 ∨ tryPop this = Returns (Some res) this1 ∨
  waitAndPop this = Returns res this1 →
  valid this1 ∧ heap this1 = heap this ∧ heap this !! res = peek this ∧
  is_Some (heap this !! res) ∧ (res ∉ stl.c (m_adapter this1)).
Proof.
  intros Hvalid Hpop.
  destruct (stl.empty (m_adapter this)) eqn:He.
  { destruct (pops_of_empty moved_from inhabitant this He) as (_ & _ & _ & ? & ? & ?).
    destruct Hpop as [?|[?|?]]; congruence. }
  destruct (peek_is_Some this Hvalid He) as (res0 & v & Hres & Hv & Hpeek).
  destruct (pops_of_nonempty this res0 He Hres) as (Hp & Ht & Hw). cbn zeta in *.
  assert (res = res0 ∧
          this1 = {| m_adapter := stl.pop (CustomComparator_call (heap this)) (m_adapter this);
                     heap := heap this |}) as [-> ->].
  { destruct Hpop as [?|[?|?]]; split; congruence. }
  destruct (popped_valid this res0 (heap this) Hvalid Hres) as (? & ? & _); [done|].
  split_and!; [done|done|congruence|by eexists|done].
Qed.

End handles.

(** X4.  A handle that [pop], [tryPop] or [waitAndPop] returned keeps
    pointing to the element it was returned with: whatever calls are made
    on the adapter afterwards, none of them writes to its cell, none puts
    it back into the container, and no later pop returns it again. *)
Theorem a_popped_handle_keeps_its_element
    {Elem : Type} `{!Inhabited Elem} (moved_from : Elem → Elem)
    (this this1 : ThreadsafeSTLAdapter) (res : loc)
    (calls : list call) (value : Elem) :
  valid this →
  pop this = Returns res this1 ∨ tryPop this = Returns (Some res) this1 ∨
  waitAndPop this = Returns res this1 →
  ∃ v obs this',
    peek this = Some v ∧ heap this1 !! res = Some v ∧
    client moved_from calls value this1 = Some (obs, this') ∧
    heap this' !! res = Some v ∧
    (res ∉ stl.c (m_adapter this')) ∧
    ∀ res' this'',
      pop this' = Returns res' this'' ∨ tryPop this' = Returns (Some res') this'' ∨
      waitAndPop this' = Returns res' this'' → res' ≠ res.
Proof.
  intros Hvalid Hpop.
  destruct (popped_handle moved_from this res this1 Hvalid Hpop)
    as (Hvalid1 & Hheap & Hpeek & [v Hv] & Hn).
  assert (∃ obs this', client moved_from calls value this1 = Some (obs, this'))
    as (obs & this' & Hclient).
  { clear Hpop Hn Hheap. revert value this1 Hvalid1.
    induction calls as [|c calls IH]; intros value this1 Hvalid1; [by eexists _, _|].
    assert (∃ obs1 value1 this2, perform moved_from c value this1 = Some (obs1, value1, this2)
                                 ∧ valid this2) as (obs1 & value1 & this2 & Hone & Hvalid2).
    { destruct (pushed_by [c]) as [|v0 pushed] eqn:Hc.
      - destruct (stl.empty (m_adapter this1)) eqn:He.
        + rewrite (perform_pop_empty moved_from c value this1 Hc He). by eexists _, _, _.
        + destruct (perform_pop_nonempty moved_from c value this1 Hc Hvalid1 He)
            as (r & v0 & σ' & value0 & Hr & Hv0 & Hσ & ->).
          eexists _, _, _. split; [done|].
          by destruct (popped_valid this1 r σ' Hvalid1 Hr Hσ) as (? & _).
      - assert (perform moved_from c value this1 = Some ([], value, push v0 this1)) as ->.
        { destruct c; simplify_eq/=; done. }
        eexists _, _, _. split; [done|]. by apply push_valid. }
    destruct (IH value1 this2 Hvalid2) as (obs2 & this' & Hrest).
    exists (obs1 ++ obs2), this'. cbn. by rewrite Hone; cbn; rewrite Hrest. }
  destruct (client_frame moved_from calls value this1 res obs this' Hvalid1)
    as (Hvalid' & Hkeep & Hn'); [by rewrite Hheap, Hv|done|done|].
  exists v, obs, this'. rewrite Hkeep, Hheap, <-Hpeek, Hv. split_and!; [done..|].
  intros res' this'' Hpop' ->.
  destruct (popped_handle moved_from this' res this'' Hvalid' Hpop') as (_ & _ & _ & _ & Hgone).
  assert (getCurrent (m_adapter this') = Some res) as Hcur.
  { destruct (stl.empty (m_adapter this')) eqn:He.
    { destruct (pops_of_empty moved_from inhabitant this' He) as (_ & _ & _ & ? & ? & ?).
      destruct Hpop' as [?|[?|?]]; congruence. }
    destruct (getCurrent_is_Some _ He) as [r Hr].
    destruct (pops_of_nonempty this' r He Hr) as (? & ? & ?). cbn zeta in *.
    destruct Hpop' as [?|[?|?]]; congruence. }
  apply Hn'. rewrite (pop_perm (λ _ _ _, true) _ _ Hcur). by left.
Qed.

(** X4 on the queue 1, 2, 3: the handle of 1, after two more pops and a
    push. *)
Lemma a_popped_handle_keeps_its_element_witness :
  let this := createThreadsafeSTLAdapterFrom (stl.queue [1; 2; 3]%Z) tt ∅ in
  let calls := [do_pop_ref; do_push 4%Z; do_tryPop] in
  ∃ res this1, tryPop this = Returns (Some res) this1 ∧
  ∃ v obs this',
    peek this = Some v ∧ heap this1 !! res = Some v ∧
    client id calls 0%Z this1 = Some (obs, this') ∧
    heap this' !! res = Some v ∧
    (res ∉ stl.c (m_adapter this')) ∧
    ∀ res' this'',
      pop this' = Returns res' this'' ∨ tryPop this' = Returns (Some res') this'' ∨
      waitAndPop this' = Returns res' this'' → res' ≠ res.
Proof.
  intros this calls.
  destruct (tryPop this) as [[res|] this1| | |] eqn:Hpop; try (by vm_compute in Hpop).
  exists res, this1. split; [done|].
  apply (a_popped_handle_keeps_its_element id this this1 res calls 0%Z).
  - apply (bool_decide_unpack _). vm_compute. exact I.
  - right. left. exact Hpop.
Defined.

(** ** More on the controller of namespace [concurrency] *)

Section valid_pops.
Context {Elem : Type} `{!Inhabited Elem} (moved_from : Elem → Elem).
Implicit Types (this : @ThreadsafeSTLAdapter Elem).

(** [tryPop] on a valid adapter, whatever its discipline. *)
Lemma valid_tryPop_ref value this :
  valid this →
  (payloads this = [] ∧ tryPop_ref moved_from value this = Returns false (value, this)) ∨
  (∃ v this', tryPop_ref moved_from value this = Returns true (v, this') ∧
              valid this' ∧ peek this = Some v ∧ v :: payloads this' ≡ₚ payloads this).
Proof.
  intros Hvalid. destruct (stl.empty (m_adapter this)) eqn:He.
  - left. split; [by apply payloads_of_empty|].
    by destruct (pops_of_empty moved_from value this He) as (_ & ? & _).
  - right. destruct (peek_is_Some this Hvalid He) as (res & v & Hres & Hv & Hpeek).
    destruct (pops_ref_of_nonempty moved_from value this res v He Hres Hv) as (_ & Ht & _).
    destruct (popped_valid this res (<[res := moved_from v]> (heap this)) Hvalid Hres)
      as (Hvalid' & _ & Hperm).
    { intros q Hq. by rewrite lookup_insert_ne. }
    cbn zeta in *. rewrite lookup_total_alt, Hv in Hperm. cbn in Hperm.
    eexists v, _. by split_and!.
Qed.

Lemma valid_tryPop this :
  valid this →
  tryPop this = Returns None this ∨
  ∃ res this', tryPop this = Returns (Some res) this' ∧ valid this'.
Proof.
  intros Hvalid. destruct (stl.empty (m_adapter this)) eqn:He.
  - left. by destruct (pops_of_empty moved_from inhabitant this He) as (_ & _ & _ & _ & ? & _).
  - right. destruct (peek_is_Some this Hvalid He) as (res & v & Hres & Hv & Hpeek).
    destruct (pops_of_nonempty this res He Hres) as (_ & Ht & _).
    destruct (popped_valid this res (heap this) Hvalid Hres) as (Hvalid' & _); [done|].
    by eexists res, _.
Qed.

End valid_pops.

Section controller_safety.
Context {Elem : Type} `{!Inhabited Elem}.
Context (moved_from : Elem → Elem) (moved_from_vector : list Elem → list Elem).
Context (type : Type_) (m_callable : Elem → bool).

Local Abbreviation step := (step moved_from moved_from_vector type m_callable).
Local Abbreviation reachable := (reachable moved_from moved_from_vector type m_callable).

(** The shared container stays valid, whoever uses it. *)
Lemma shared_valid_step e (s s' : @System Elem) :
  valid (m_sharedContainer s) → step e s = Steps s' → valid (m_sharedContainer s').
Proof.
  intros Hvalid Hstep.
  pose proof (valid_tryPop moved_from (m_sharedContainer s) Hvalid) as Hpop.
  pose proof (λ value, valid_tryPop_ref moved_from value (m_sharedContainer s) Hvalid) as Hpopr.
  destruct e; step_cases Hstep; fields; try done; try (by apply push_valid).
  - destruct Hpop as [?|(? & ? & ? & ?)]; by simplify_eq.
  - match goal with H : tryPop_ref _ ?v _ = _ |- _ =>
      destruct (Hpopr v) as [[_ Hr]|(? & ? & Hr & ? & _)]; rewrite Hr in H; by simplify_eq end.
Qed.

Lemma shared_valid_reachable s0 s :
  valid (m_sharedContainer s0) → reachable s0 s → valid (m_sharedContainer s).
Proof. induction 2; eauto using shared_valid_step. Qed.

(** The worker of [concurrency] has no undefined behaviour. *)
Lemma worker_thread_defined (s : @System Elem) :
  items_consistent type s → valid (m_sharedContainer s) →
  workerThreadWork moved_from moved_from_vector type m_callable s ≠ UndefinedBehaviour.
Proof.
  intros (_ & Hbq & _) Hvalid. unfold workerThreadWork, Producer_predicate, Consumer_predicate.
  destruct (m_workerThread s) as [[| |]|]; try done.
  destruct (worker_at s) as [|held|held|held|held|]; try done.
  - by destruct (m_workerThreadMutex s).
  - destruct (negb (m_workerThreadEnabled s)); [done|]. destruct type.
    + pose proof (is_fifo_pops_ref moved_from_vector held (m_vectorItemsQueue s) Hbq) as Hpop.
      destruct (payloads (m_vectorItemsQueue s)).
      * by destruct Hpop as [-> _].
      * by destruct Hpop as (? & _ & _ & -> & _).
    + destruct (valid_tryPop_ref moved_from (default inhabitant (head held))
                  (m_sharedContainer s) Hvalid) as [[_ ->]|(? & ? & -> & _)]; done.
  - by destruct (m_workerThreadMutex s).
  - by destruct (negb (m_workerThreadEnabled s)).
  - destruct type; [by destruct held|]. cbn. by destruct (m_callable _).
Qed.

End controller_safety.

(** X6.  A controller of [concurrency] whose control thread was created
    and whose shared container holds valid handles never crashes, under any
    interleaving: every statement of the control thread, of the worker, of
    the client and of the other users of the container either executes or
    waits; none dereferences a null pointer, reads an empty container or
    destroys a joinable thread; and the shared container stays valid. *)
Theorem every_step_of_concurrency_executes_or_waits
    {Elem : Type} `{!Inhabited Elem} (moved_from : Elem → Elem)
    (moved_from_vector : list Elem → list Elem) (type : Type_) (m_callable : Elem → bool)
    (sharedContainer : ThreadsafeSTLAdapter) (s : System) :
  valid sharedContainer →
  reachable moved_from moved_from_vector type m_callable (construct sharedContainer true) s →
  valid (m_sharedContainer s) ∧
  ∀ e, step moved_from moved_from_vector type m_callable e s = Blocked ∨
       ∃ s', step moved_from moved_from_vector type m_callable e s = Steps s'.
Proof.
  intros Hvalid Hreach.
  destruct (items_consistent_reachable moved_from moved_from_vector type m_callable
              (construct sharedContainer true) s) as [Hthreads Hitems]; [..|done|].
  { apply threads_consistent_init. }
  { apply items_consistent_init. }
  assert (joins_a_thread s) as Hjoin.
  { apply (joins_a_thread_reachable moved_from moved_from_vector type m_callable
             (construct sharedContainer true)); [|done].
    apply joins_a_thread_init. }
  assert (valid (m_sharedContainer s)) as Hshared.
  { by apply (shared_valid_reachable moved_from moved_from_vector type m_callable
                (construct sharedContainer true)). }
  split; [done|]. intros e.
  pose proof (never_terminates moved_from moved_from_vector type m_callable e s Hthreads)
    as Hterm.
  destruct (step moved_from moved_from_vector type m_callable e s) as [s'| | |] eqn:Hstep;
    [by right; eexists|by left|done|exfalso].
  destruct e; cbn in Hstep; try done.
  - by destruct type.
  - by destruct (tryPop (m_sharedContainer s)).
  - by apply (main_thread_defined type s thread_starts).
  - by apply (worker_thread_defined moved_from moved_from_vector type m_callable s).
Qed.

(** X6 at the consumer of the queue 1, 2, 3 that is about to call its
    callback. *)
Lemma every_step_of_concurrency_executes_or_waits_witness :
  let step := @step Z _ id (λ _, []) Consumer fails_on_1 in
  let s0 := construct (createThreadsafeSTLAdapterFrom (stl.queue [1; 2; 3]%Z) tt ∅) true in
  ∃ s, run id (λ _, []) Consumer fails_on_1 consumer_calls_back s0 = Steps s ∧
       valid (m_sharedContainer s) ∧
       ∀ e, step e s = Blocked ∨ ∃ s', step e s = Steps s'.
Proof.
  intros step s0.
  destruct (run id (λ _, []) Consumer fails_on_1 consumer_calls_back s0)
    as [s| | |] eqn:Hrun; try (by vm_compute in Hrun).
  exists s. split; [done|].
  apply (every_step_of_concurrency_executes_or_waits id (λ _, []) Consumer fails_on_1
           (createThreadsafeSTLAdapterFrom (stl.queue [1; 2; 3]%Z) tt ∅) s).
  - apply create_valid.
  - apply (run_reachable id (λ _, []) Consumer fails_on_1 consumer_calls_back s0 s0 s);
      [constructor|exact Hrun].
Defined.

Section prompt_stop.
Context {Elem : Type} `{!Inhabited Elem}.
Context (moved_from : Elem → Elem) (moved_from_vector : list Elem → list Elem).
Context (type : Type_) (m_callable : Elem → bool).

Local Abbreviation step := (step moved_from moved_from_vector type m_callable).
Local Abbreviation run := (run moved_from moved_from_vector type m_callable).
Local Abbreviation reachable := (reachable moved_from moved_from_vector type m_callable).

Lemma body_enabled_init (sharedContainer : @ThreadsafeSTLAdapter Elem) thread_starts :
  body_enabled (construct sharedContainer thread_starts).
Proof. intros held. unfold construct, runMainThread. by destruct thread_starts. Qed.

(** The control thread clears the flag under the mutex, which the worker
    holds while it is in the body. *)
Lemma body_enabled_step e (s s' : @System Elem) :
  threads_consistent s → body_enabled s → step e s = Steps s' → body_enabled s'.
Proof.
  intros (_ & Hmutex & _) Hbody Hstep held Hpc.
  destruct e; step_cases Hstep; revert Hpc; fields; intros Hpc; simplify_eq;
    try done; try (by eapply Hbody).
  all: try (by destruct (m_workerThreadEnabled s)).
  all: rewrite Hpc in Hmutex; cbn in Hmutex; congruence.
Qed.

Lemma body_enabled_reachable (sharedContainer : @ThreadsafeSTLAdapter Elem) thread_starts s :
  reachable (construct sharedContainer thread_starts) s →
  threads_consistent s ∧ body_enabled s.
Proof.
  induction 1 as [|s e s' _ [IHt IHb] Hstep].
  - split; [apply threads_consistent_init|apply body_enabled_init].
  - split.
    + by apply (threads_consistent_step moved_from moved_from_vector type m_callable e s).
    + by apply (body_enabled_step e s).
Qed.

(** The statements a worker executes once the flag is cleared. *)
Lemma disabled_worker_returns (s : @System Elem) :
  threads_consistent s → body_enabled s →
  m_workerThreadEnabled s = false → m_workerThread s = Some running →
  ∃ n, n ≤ 3 ∧
       run (replicate n worker_thread) s =
       Steps (workerThread_returns
                (set_m_workerThreadMutex false (set_m_isWorkerThreadRunning false s))).
Proof.
  intros (Hrun & Hmutex & _) Hbody He Hw.
  destruct (worker_at s) as [|held|held|held|held|] eqn:Hpc.
  - exists 3. split; [lia|]. cbn in Hmutex. cbn [replicate run concurrency.step].
    unfold workerThreadWork at 1. rewrite Hw, Hpc, Hmutex.
    unfold workerThreadWork at 1. fields. rewrite Hw, He. cbn [negb].
    unfold workerThreadWork at 1. fields. rewrite Hw, He. cbn [negb].
    unfold workerThread_returns. by destruct s.
  - exists 2. split; [lia|]. cbn [replicate run concurrency.step].
    unfold workerThreadWork at 1. rewrite Hw, Hpc, He. cbn [negb].
    unfold workerThreadWork at 1. fields. rewrite Hw, He. cbn [negb].
    unfold workerThread_returns. by destruct s.
  - exists 3. split; [lia|]. cbn in Hmutex. cbn [replicate run concurrency.step].
    unfold workerThreadWork at 1. rewrite Hw, Hpc, Hmutex.
    unfold workerThreadWork at 1. fields. rewrite Hw, He. cbn [negb].
    unfold workerThreadWork at 1. fields. rewrite Hw, He. cbn [negb].
    unfold workerThread_returns. by destruct s.
  - exists 1. split; [lia|]. cbn [replicate run concurrency.step].
    unfold workerThreadWork at 1. rewrite Hw, Hpc, He. cbn [negb].
    unfold workerThread_returns. by destruct s.
  - specialize (Hbody held Hpc). congruence.
  - destruct Hrun as [Hrun _]. by destruct (Hrun Hw).
Qed.

End prompt_stop.

(** X7.  Disable is prompt.  Once the control thread has cleared
    [m_workerThreadEnabled], a running worker needs at most three statements
    of its own to leave its loop, wherever it stands, and it takes nothing
    more on the way: the state it returns in differs from the one the flag
    was cleared in only by the thread having finished, the mutex being free
    and [m_isWorkerThreadRunning] being reset.  The [join] of the control
    thread then returns. *)
Theorem a_disabled_worker_returns_within_three_statements
    {Elem : Type} `{!Inhabited Elem} (moved_from : Elem → Elem)
    (moved_from_vector : list Elem → list Elem) (type : Type_) (m_callable : Elem → bool)
    (sharedContainer : ThreadsafeSTLAdapter) (thread_starts : bool) (s : System) :
  reachable moved_from moved_from_vector type m_callable
    (construct sharedContainer thread_starts) s →
  m_workerThreadEnabled s = false → m_workerThread s = Some running →
  ∃ n s',
    n ≤ 3 ∧
    run moved_from moved_from_vector type m_callable (replicate n worker_thread) s = Steps s' ∧
    s' = workerThread_returns
           (set_m_workerThreadMutex false (set_m_isWorkerThreadRunning false s)) ∧
    m_vectorItemsQueue s' = m_vectorItemsQueue s ∧
    m_sharedContainer s' = m_sharedContainer s ∧
    forwarded s' = forwarded s ∧ popped s' = popped s ∧ delivered s' = delivered s ∧
    ∀ c starts, main_at s = in_join c →
      mainThreadWork starts s' =
      Steps (go_after_disable c (set_m_workerThread (Some joined) s')).
Proof.
  intros Hreach He Hw.
  destruct (body_enabled_reachable moved_from moved_from_vector type m_callable
              sharedContainer thread_starts s Hreach) as [Hthreads Hbody].
  destruct (disabled_worker_returns moved_from moved_from_vector type m_callable s
              Hthreads Hbody He Hw) as (n & Hn & Hrun).
  eexists n, _. split; [done|]. split; [exact Hrun|]. split_and!; try done.
  intros c starts Hpc. unfold mainThreadWork, workerThread_returns. fields. by rewrite Hpc.
Qed.

(** X7 at the producer of [rapid_commands_joining]: the control thread is
    in [join], the worker about to lock the mutex. *)
Lemma a_disabled_worker_returns_within_three_statements_witness :
  let run := @run Z _ id (λ _, []) Producer (λ _, true) in
  let s0 := construct (createThreadsafeSTLAdapterFrom (stl.queue []) tt ∅) true in
  ∃ s, run rapid_commands_joining s0 = Steps s ∧
  ∃ n s',
    n ≤ 3 ∧
    run (replicate n worker_thread) s = Steps s' ∧
    s' = workerThread_returns
           (set_m_workerThreadMutex false (set_m_isWorkerThreadRunning false s)) ∧
    m_vectorItemsQueue s' = m_vectorItemsQueue s ∧
    m_sharedContainer s' = m_sharedContainer s ∧
    forwarded s' = forwarded s ∧ popped s' = popped s ∧ delivered s' = delivered s ∧
    ∀ c starts, main_at s = in_join c →
      mainThreadWork starts s' =
      Steps (go_after_disable c (set_m_workerThread (Some joined) s')).
Proof.
  intros run s0.
  destruct (run rapid_commands_joining s0) as [s| | |] eqn:Hrun; try (by vm_compute in Hrun).
  exists s. split; [done|].
  apply (a_disabled_worker_returns_within_three_statements id (λ _, []) Producer (λ _, true)
           (createThreadsafeSTLAdapterFrom (stl.queue []) tt ∅) true s).
  - apply (run_reachable id (λ _, []) Producer (λ _, true) rapid_commands_joining s0 s0 s);
      [constructor|exact Hrun].
  - vm_compute in Hrun. by simplify_eq.
  - vm_compute in Hrun. by simplify_eq.
Defined.

Section latch.
Context {Elem : Type} `{!Inhabited Elem}.
Context (moved_from : Elem → Elem) (moved_from_vector : list Elem → list Elem).
Context (type : Type_) (m_callable : Elem → bool).

Local Abbreviation step := (step moved_from moved_from_vector type m_callable).
Local Abbreviation reachable := (reachable moved_from moved_from_vector type m_callable).

Lemma running_flag_init (sharedContainer : @ThreadsafeSTLAdapter Elem) thread_starts :
  running_flag (construct sharedContainer thread_starts).
Proof. unfold running_flag, construct, runMainThread. by destruct thread_starts. Qed.

Lemma running_flag_step e (s s' : @System Elem) :
  running_flag s → step e s = Steps s' → running_flag s'.
Proof.
  intros Hflag Hstep.
  destruct e; step_cases Hstep; unfold running_flag in *; revert Hflag; fields; try done.
  all: by repeat match goal with H : worker_at _ = _ |- _ => rewrite H end.
Qed.

Lemma running_flag_reachable s0 s : running_flag s0 → reachable s0 s → running_flag s.
Proof. induction 2; eauto using running_flag_step. Qed.

(** A worker that has left its loop without resetting
    [m_isWorkerThreadRunning] is the last one. *)
Lemma latched_step e (s s' : @System Elem) :
  m_isWorkerThreadRunning s = true → worker_at s = worker_returned →
  m_workerThread s ≠ Some running →
  step e s = Steps s' →
  m_isWorkerThreadRunning s' = true ∧ worker_at s' = worker_returned ∧
  m_workerThread s' ≠ Some running ∧
  forwarded s' = forwarded s ∧ popped s' = popped s ∧ delivered s' = delivered s.
Proof.
  intros Hflag Hpc Hw Hstep.
  destruct e; step_cases Hstep; fields; split_and!; try done; try congruence.
  all: exfalso; rewrite Hflag, andb_false_r in *; done.
Qed.

Lemma latched_reachable (s s' : @System Elem) :
  m_isWorkerThreadRunning s = true → worker_at s = worker_returned →
  m_workerThread s ≠ Some running →
  reachable s s' →
  m_isWorkerThreadRunning s' = true ∧ worker_at s' = worker_returned ∧
  m_workerThread s' ≠ Some running ∧
  forwarded s' = forwarded s ∧ popped s' = popped s ∧ delivered s' = delivered s.
Proof.
  intros Hflag Hpc Hw. induction 1 as [|s1 e s2 _ (? & ? & ? & Hf & Hp & Hd) Hstep]; [done|].
  destruct (latched_step e s1 s2) as (? & ? & ? & Hf' & Hp' & Hd'); [done..|].
  split_and!; [done..|congruence|congruence|congruence].
Qed.

End latch.

(** X8.  In namespace [concurrency] a consumer whose callback has thrown
    never consumes again.  The exception leaves the loop without resetting
    [m_isWorkerThreadRunning], and the control thread creates a worker only
    when that flag is clear: in every state reached afterwards the control
    thread is not about to create a worker, no worker runs, and nothing more
    is popped or delivered by this consumer. *)
Theorem a_consumer_whose_callback_threw_never_consumes_again
    {Elem : Type} `{!Inhabited Elem} (moved_from : Elem → Elem)
    (moved_from_vector : list Elem → list Elem) (m_callable : Elem → bool)
    (sharedContainer : ThreadsafeSTLAdapter) (thread_starts : bool) (s : System)
    (item : Elem) :
  reachable moved_from moved_from_vector Consumer m_callable
    (construct sharedContainer thread_starts) s →
  m_workerThread s = Some running → worker_at s = at_body [item] →
  m_callable item = false →
  ∃ s1,
    step moved_from moved_from_vector Consumer m_callable worker_thread s = Steps s1 ∧
    delivered s1 = delivered s ++ [item] ∧
    ∀ s', reachable moved_from moved_from_vector Consumer m_callable s1 s' →
          spawns s' = false ∧
          m_workerThread s' ≠ Some running ∧
          worker_at s' = worker_returned ∧
          popped s' = popped s1 ∧ delivered s' = delivered s1.
Proof.
  intros Hreach Hw Hpc Hcall.
  pose proof (running_flag_reachable moved_from moved_from_vector Consumer m_callable
                (construct sharedContainer thread_starts) s
                (running_flag_init sharedContainer thread_starts) Hreach) as Hflag.
  unfold running_flag in Hflag. rewrite Hpc in Hflag.
  cbn [step]. rewrite (callback_step moved_from moved_from_vector m_callable s item Hw Hpc).
  cbn zeta. rewrite Hcall. eexists. split; [reflexivity|]. split; [done|].
  intros s' Hreach'.
  pose proof (λ a b c, latched_reachable moved_from moved_from_vector Consumer m_callable
                         _ s' a b c Hreach') as Hlatch.
  destruct Hlatch as (Hflag' & Hpc' & Hw' & _ & Hp & Hd);
    [done|done|cbn; congruence|].
  split_and!; [|done..]. unfold spawns. rewrite Hflag'.
  destruct (main_at s') as [|[| |]| |]; try done. by rewrite !andb_false_r.
Qed.

(** X8 at the consumer of the queue 1, 2, 3 whose callback throws on 1. *)
Lemma a_consumer_whose_callback_threw_never_consumes_again_witness :
  let s0 := construct (createThreadsafeSTLAdapterFrom (stl.queue [1; 2; 3]%Z) tt ∅) true in
  ∃ s, run id (λ _, []) Consumer fails_on_1 consumer_calls_back s0 = Steps s ∧
  ∃ s1,
    step id (λ _, []) Consumer fails_on_1 worker_thread s = Steps s1 ∧
    delivered s1 = delivered s ++ [1%Z] ∧
    ∀ s', reachable id (λ _, []) Consumer fails_on_1 s1 s' →
          spawns s' = false ∧
          m_workerThread s' ≠ Some running ∧
          worker_at s' = worker_returned ∧
          popped s' = popped s1 ∧ delivered s' = delivered s1.
Proof.
  intros s0.
  destruct (run id (λ _, []) Consumer fails_on_1 consumer_calls_back s0)
    as [s| | |] eqn:Hrun; try (by vm_compute in Hrun).
  exists s. split; [done|].
  apply (a_consumer_whose_callback_threw_never_consumes_again id (λ _, []) fails_on_1
           (createThreadsafeSTLAdapterFrom (stl.queue [1; 2; 3]%Z) tt ∅) true s 1%Z).
  - apply (run_reachable id (λ _, []) Consumer fails_on_1 consumer_calls_back s0 s0 s);
      [constructor|exact Hrun].
  - vm_compute in Hrun. by simplify_eq.
  - vm_compute in Hrun. by simplify_eq.
  - reflexivity.
Defined.

Section command_order.
Context {Elem : Type} `{!Inhabited Elem}.
Context (moved_from : Elem → Elem) (moved_from_vector : list Elem → list Elem).
Context (type : Type_) (m_callable : Elem → bool).

Local Abbreviation step := (step moved_from moved_from_vector type m_callable).
Local Abbreviation run := (run moved_from moved_from_vector type m_callable).
Local Abbreviation taken := (taken moved_from moved_from_vector type m_callable).

(** One step: what the client issued is appended to the queue, what the
    control thread took was at its front. *)
Lemma taken_step e (s s' : @System Elem) :
  is_fifo (m_commandQueue s) → step e s = Steps s' →
  is_fifo (m_commandQueue s') ∧
  taken [e] s ++ payloads (m_commandQueue s') = payloads (m_commandQueue s) ++ issued [e].
Proof.
  intros Hcq Hstep. cbn [concurrency.taken]. rewrite Hstep, app_nil_r.
  assert (∀ c, is_fifo (pushAndNotify c (m_commandQueue s)) ∧
               payloads (pushAndNotify c (m_commandQueue s)) = payloads (m_commandQueue s) ++ [c])
    as Hpush by (intros c; by apply is_fifo_push).
  destruct e as [| | |items|x| |starts|]; cbn in Hstep.
  1-3: simplify_eq; cbn; by destruct (Hpush EnableWorkerThread),
         (Hpush DisableWorkerThread), (Hpush ShutdownMainThread).
  - destruct type; simplify_eq. cbn. by rewrite app_nil_r.
  - simplify_eq. cbn. by rewrite app_nil_r.
  - destruct (tryPop (m_sharedContainer s)); simplify_eq. cbn. by rewrite app_nil_r.
  - unfold mainThreadWork in Hstep. destruct (main_at s) as [|c|c|] eqn:Hpc.
    + pose proof (is_fifo_pops_ref id inhabitant (m_commandQueue s) Hcq) as Hpop.
      destruct (payloads (m_commandQueue s)) as [|c rest].
      * destruct Hpop as [_ Hw]. by rewrite Hw in Hstep.
      * destruct Hpop as (q' & Hq' & Hrest & _ & Hw). rewrite Hw in Hstep. simplify_eq.
        cbn. by rewrite app_nil_r.
    + assert (m_commandQueue s' = m_commandQueue s) as ->.
      { destruct c; step_cases Hstep; by fields. }
      cbn. by rewrite app_nil_r.
    + assert (m_commandQueue s' = m_commandQueue s) as ->.
      { destruct c; step_cases Hstep; by fields. }
      cbn. by rewrite app_nil_r.
    + done.
  - assert (m_commandQueue s' = m_commandQueue s) as ->.
    { step_cases Hstep; by fields. }
    cbn. by rewrite app_nil_r.
Qed.

Lemma taken_run schedule (s s' : @System Elem) :
  is_fifo (m_commandQueue s) → run schedule s = Steps s' →
  taken schedule s ++ payloads (m_commandQueue s') =
  payloads (m_commandQueue s) ++ issued schedule.
Proof.
  revert s. induction schedule as [|e schedule IH]; intros s Hcq Hrun.
  - cbn in *. simplify_eq. by rewrite app_nil_r.
  - cbn [concurrency.run] in Hrun.
    destruct (step e s) as [s1| | |] eqn:Hstep; try done.
    destruct (taken_step e s s1 Hcq Hstep) as [Hcq1 Hone].
    specialize (IH s1 Hcq1 Hrun).
    change (e :: schedule) with ([e] ++ schedule).
    unfold issued in *. rewrite omap_app, (assoc_L (++)), <-Hone, <-(assoc_L (++)), <-IH.
    rewrite (assoc_L (++)). f_equal.
    cbn [concurrency.taken app] in *. rewrite Hstep in *. by rewrite !app_nil_r.
Qed.

End command_order.

(** X9.  Commands are taken in the order they were issued, and none is lost
    or taken twice: along any interleaving of client calls, control-thread
    statements and worker statements that the controller can execute, the
    commands the control thread has taken from [m_commandQueue], followed by
    the commands still queued, are exactly the calls of [enableWorkerThread],
    [disableWorkerThread] and [shutdownMainThread] in call order. *)
Theorem commands_are_taken_in_the_order_issued
    {Elem : Type} `{!Inhabited Elem} (moved_from : Elem → Elem)
    (moved_from_vector : list Elem → list Elem) (type : Type_) (m_callable : Elem → bool)
    (sharedContainer : ThreadsafeSTLAdapter) (thread_starts : bool)
    (schedule : list event) (s : System) :
  run moved_from moved_from_vector type m_callable schedule
    (construct sharedContainer thread_starts) = Steps s →
  taken moved_from moved_from_vector type m_callable schedule
    (construct sharedContainer thread_starts) ++ payloads (m_commandQueue s) =
  issued schedule.
Proof.
  intros Hrun.
  rewrite (taken_run moved_from moved_from_vector type m_callable schedule _ s); [| |done].
  - assert (payloads (m_commandQueue (construct sharedContainer thread_starts)) = []) as ->;
      [|done].
    unfold construct, runMainThread. destruct thread_starts; fields;
      apply (is_fifo_create (Elem := Command)).
  - unfold construct, runMainThread. destruct thread_starts; fields;
      apply (is_fifo_create (Elem := Command)).
Qed.

(** X9 at Enable, Disable, Enable issued at once: the control thread has
    taken the first two, the third is queued. *)
Lemma commands_are_taken_in_the_order_issued_witness :
  let s0 := construct (createThreadsafeSTLAdapterFrom (stl.queue [1; 2; 3]%Z) tt ∅) true in
  ∃ s, run id (λ _, []) Producer (λ _, true) rapid_commands_joining s0 = Steps s ∧
       taken id (λ _, []) Producer (λ _, true) rapid_commands_joining s0 ++
         payloads (m_commandQueue s) =
       issued (rapid_commands_joining (Elem := Z)) ∧
       taken id (λ _, []) Producer (λ _, true) rapid_commands_joining s0 =
         [EnableWorkerThread; DisableWorkerThread] ∧
       payloads (m_commandQueue s) = [EnableWorkerThread].
Proof.
  intros s0.
  destruct (run id (λ _, []) Producer (λ _, true) rapid_commands_joining s0)
    as [s| | |] eqn:Hrun; try (by vm_compute in Hrun).
  exists s. split; [done|]. split.
  - exact (commands_are_taken_in_the_order_issued id (λ _, []) Producer (λ _, true)
             (createThreadsafeSTLAdapterFrom (stl.queue [1; 2; 3]%Z) tt ∅) true
             rapid_commands_joining s Hrun).
  - vm_compute in Hrun. simplify_eq. by vm_compute.
Defined.

(** ** More on the controller of namespace [mt] *)

Section mt_safety.
Context {Elem : Type} `{!Inhabited Elem}.
Context (moved_from : Elem → Elem) (moved_from_vector : list Elem → list Elem).
Context (type : mt.Type_) (m_callable : Elem → bool).

Local Abbreviation step := (mt.step moved_from moved_from_vector type m_callable).
Local Abbreviation run := (mt.run moved_from moved_from_vector type m_callable).
Local Abbreviation reachable := (mt.reachable moved_from moved_from_vector type m_callable).

Lemma mt_run_reachable schedule s0 (s s' : @mt.System Elem) :
  reachable s0 s → run schedule s = mt.Steps s' → reachable s0 s'.
Proof.
  revert s. induction schedule as [|e schedule IH]; intros s Hs Hrun; cbn in Hrun.
  - by simplify_eq.
  - destruct (mt.step _ _ _ _ e s) as [s1| | |] eqn:Hstep; try done.
    apply (IH s1); [|done]. by eapply mt.reachable_step.
Qed.

(** The batch queue stays a queue and the shared container stays valid. *)
Lemma mt_containers_step e (s s' : @mt.System Elem) :
  is_fifo (mt.m_vectorItemsQueue s) → valid (mt.m_sharedContainer s) →
  step e s = mt.Steps s' →
  is_fifo (mt.m_vectorItemsQueue s') ∧ valid (mt.m_sharedContainer s').
Proof.
  intros Hbq Hvalid Hstep.
  pose proof (valid_tryPop moved_from (mt.m_sharedContainer s) Hvalid) as Hpop.
  pose proof (λ value, valid_tryPop_ref moved_from value (mt.m_sharedContainer s) Hvalid)
    as Hpopr.
  destruct e; mt_step_cases Hstep; mt_fields; split; try done;
    try (by apply push_valid); try (by apply is_fifo_push).
  all: pose proof (λ value,
         is_fifo_pops_ref moved_from_vector value (mt.m_vectorItemsQueue _) Hbq) as Hpopb.
  all: try (destruct Hpop as [?|(? & ? & ? & ?)]; by simplify_eq).
  all: try (match goal with H : tryPop_ref _ ?v (mt.m_sharedContainer _) = _ |- _ =>
      destruct (Hpopr v) as [[_ Hr]|(? & ? & Hr & ? & _)]; rewrite Hr in H; by simplify_eq end).
  all: match goal with H : tryPop_ref _ ?v (mt.m_vectorItemsQueue ?s1) = _ |- _ =>
      specialize (Hpopb v); destruct (payloads (mt.m_vectorItemsQueue s1));
      [destruct Hpopb as [Hr _]|destruct Hpopb as (? & ? & _ & Hr & _)];
      rewrite Hr in H; by simplify_eq end.
Qed.

(** Once the command to be handled next is [EnableWorkerThread], the
    control thread never finds [m_workerThread] null when it interrupts. *)
Lemma enable_pending_step e (s s' : @mt.System Elem) :
  mt.threads_consistent s → mt.enable_pending s → step e s = mt.Steps s' →
  mt.enable_pending s'.
Proof.
  intros (Hcq & Hrun & Hidle & Hjoin & Hen) Hpending Hstep Hnone.
  assert (mt.m_workerThread s = None) as Hw.
  { destruct e; mt_step_cases Hstep; revert Hnone; mt_fields; congruence. }
  assert (mt.main_at s ≠ mt.returned → mt.m_workerThreadEnabled s = false) as Hflag.
  { intros Hpc. destruct (mt.m_workerThreadEnabled s) eqn:He; [|done].
    destruct Hen as [?|?]; congruence. }
  specialize (Hpending Hw).
  assert (∀ c, head (payloads (mt.m_commandQueue s)) = Some mt.EnableWorkerThread →
               head (payloads (pushAndNotify c (mt.m_commandQueue s))) =
                 Some mt.EnableWorkerThread) as Hpush.
  { intros c Hhead. destruct (is_fifo_push c (mt.m_commandQueue s) Hcq) as [_ Hp].
    unfold pushAndNotify. rewrite Hp. by destruct (payloads (mt.m_commandQueue s)). }
  destruct e as [| | |items|x| |ts|].
  7: { cbn in Hstep. unfold mt.mainThreadWork in Hstep.
       destruct Hpending as [Hpc|[[Hpc Hhead]|[Hpc _]]]; rewrite Hpc in Hstep.
       - done.
       - pose proof (is_fifo_pops_ref id inhabitant (mt.m_commandQueue s) Hcq) as Hpop.
         destruct (payloads (mt.m_commandQueue s)) as [|c rest]; [done|].
         destruct Hpop as (q' & _ & _ & _ & Hpop). rewrite Hpop in Hstep.
         cbn in Hhead. simplify_eq. right. right. mt_fields. split; [done|].
         apply Hflag. congruence.
       - rewrite Hflag in Hstep by congruence. cbn in Hstep. rewrite ?Hw in Hstep.
         destruct ts; cbn in Hstep; simplify_eq.
         left. unfold mt.mainThreadWork_returns. by mt_fields. }
  all: mt_step_cases Hstep; unfold mt.enable_pending; mt_fields.
  all: destruct Hpending as [Hpc|[[Hpc Hhead]|[Hpc _]]];
    [by left|right; left; split; [done|by auto]
    |right; right; split; [done|apply Hflag; congruence]].
Qed.


(** Before the first command: the control thread waits, no step creates a
    worker or issues a command. *)
Lemma nothing_issued_step e (s s' : @mt.System Elem) :
  mt.threads_consistent s → mt.nothing_issued s → mt.issued [e] = [] →
  step e s = mt.Steps s' → mt.nothing_issued s'.
Proof.
  intros (Hcq & _) (Hw & Hempty & Hpc & Hflag) Hidle Hstep.
  pose proof (is_fifo_pops_ref id inhabitant (mt.m_commandQueue s) Hcq) as Hpop.
  rewrite Hempty in Hpop. destruct Hpop as [_ Hpop].
  destruct e as [| | |items|x| |ts|]; try done; cbn in Hstep.
  - destruct type; simplify_eq. by unfold mt.nothing_issued.
  - simplify_eq. by unfold mt.nothing_issued.
  - destruct (tryPop (mt.m_sharedContainer s)); simplify_eq. by unfold mt.nothing_issued.
  - unfold mt.mainThreadWork in Hstep. destruct Hpc as [Hpc|Hpc]; rewrite Hpc in Hstep.
    + by rewrite Hpop in Hstep.
    + done.
  - unfold mt.workerThreadWork in Hstep. by rewrite Hw in Hstep.
Qed.




End mt_safety.

Section mt_control_thread.
Context {Elem : Type} `{!Inhabited Elem}.
Context (moved_from : Elem → Elem) (moved_from_vector : list Elem → list Elem).
Context (type : mt.Type_) (m_callable : Elem → bool).

(** [m_mainThread] is set by [runMainThread] and never reset; without a
    control thread no thread of the controller moves. *)
Lemma mt_main_thread_object (sharedContainer : @ThreadsafeSTLAdapter Elem) thread_starts s :
  mt.reachable moved_from moved_from_vector type m_callable
    (mt.construct sharedContainer thread_starts) s →
  if thread_starts then is_Some (mt.m_mainThread s)
  else mt.m_mainThread s = None ∧ mt.main_at s = mt.returned ∧
       mt.m_workerThread s = None.
Proof.
  induction 1 as [|s e s' _ IH Hstep].
  - destruct thread_starts; [by eexists|done].
  - destruct thread_starts.
    + destruct e; mt_step_cases Hstep; mt_fields; by eauto.
    + destruct IH as (Hm & Hpc & Hw).
      destruct e; mt_step_cases Hstep; mt_fields; try done; congruence.
Qed.

End mt_control_thread.




Section mt_restart.
Context {Elem : Type} `{!Inhabited Elem}.
Context (moved_from : Elem → Elem) (moved_from_vector : list Elem → list Elem).
Context (type : mt.Type_) (m_callable : Elem → bool).

Local Abbreviation step := (mt.step moved_from moved_from_vector type m_callable).
Local Abbreviation run := (mt.run moved_from moved_from_vector type m_callable).

(** The control thread takes the command at the front of its queue. *)
Lemma mt_takes_command thread_starts (s : @mt.System Elem) c rest :
  is_fifo (mt.m_commandQueue s) → payloads (mt.m_commandQueue s) = c :: rest →
  mt.main_at s = mt.in_waitAndPop →
  ∃ q, is_fifo q ∧ payloads q = rest ∧
       step (mt.main_thread thread_starts) s =
         mt.Steps (mt.set_main_at (mt.at_command c) (mt.set_m_commandQueue q s)).
Proof.
  intros Hcq Hp Hpc. cbn. unfold mt.mainThreadWork. rewrite Hpc.
  pose proof (is_fifo_pops_ref id inhabitant (mt.m_commandQueue s) Hcq) as Hpop.
  rewrite Hp in Hpop. destruct Hpop as (q & Hq & Hrest & _ & ->). by exists q.
Qed.

(** A client call followed by the control thread taking the command, from
    a control thread that waits at an empty queue. *)
Lemma mt_issue_and_take thread_starts (s : @mt.System Elem) c :
  is_fifo (mt.m_commandQueue s) → payloads (mt.m_commandQueue s) = [] →
  mt.main_at s = mt.in_waitAndPop →
  ∃ q, is_fifo q ∧ payloads q = [] ∧
       step (mt.main_thread thread_starts)
         (mt.set_m_commandQueue (pushAndNotify c (mt.m_commandQueue s)) s) =
         mt.Steps (mt.set_main_at (mt.at_command c) (mt.set_m_commandQueue q s)).
Proof.
  intros Hcq Hp Hpc.
  destruct (is_fifo_push c (mt.m_commandQueue s) Hcq) as [Hcq' Hp'].
  rewrite Hp in Hp'. cbn [app] in Hp'.
  destruct (mt_takes_command thread_starts
              (mt.set_m_commandQueue (pushAndNotify c (mt.m_commandQueue s)) s) c [])
    as (q & Hq & Hrest & Hstep); try done.
  exists q. by split_and!.
Qed.

Lemma mt_run_app schedule1 schedule2 (s : @mt.System Elem) :
  run (schedule1 ++ schedule2) s =
  match run schedule1 s with
  | mt.Steps s' => run schedule2 s'
  | r => r
  end.
Proof.
  revert s. induction schedule1 as [|e schedule1 IH]; intros s; [done|].
  cbn. by destruct (mt.step _ _ _ _ e s).
Qed.

(** Disable after the worker's thread function has returned: the control
    thread clears the flag and joins the thread. *)
Lemma mt_disable_joins ts1 ts2 ts3 (s : @mt.System Elem) :
  is_fifo (mt.m_commandQueue s) → payloads (mt.m_commandQueue s) = [] →
  mt.main_at s = mt.in_waitAndPop → mt.m_workerThread s = Some finished →
  ∃ q, is_fifo q ∧ payloads q = [] ∧
       run [mt.call_disableWorkerThread; mt.main_thread ts1; mt.main_thread ts2;
            mt.main_thread ts3] s =
         mt.Steps (mt.set_main_at mt.in_waitAndPop
                     (mt.set_m_workerThread (Some joined)
                        (mt.set_m_workerThreadEnabled false (mt.set_m_commandQueue q s)))).
Proof.
  intros Hcq Hp Hpc Hw.
  destruct (mt_issue_and_take ts1 s mt.DisableWorkerThread Hcq Hp Hpc)
    as (q & Hq & Hrest & Hstep).
  exists q. split_and!; try done.
  cbn [mt.run]. change (step mt.call_disableWorkerThread s) with
    (mt.Steps (mt.set_m_commandQueue
                 (pushAndNotify mt.DisableWorkerThread (mt.m_commandQueue s)) s)).
  cbn match. rewrite Hstep.
  cbn [mt.step]. unfold mt.mainThreadWork, mt.interruptWorkerThread, mt.go_after_interrupt.
  mt_fields. rewrite Hw. cbn [joinable]. mt_fields. by rewrite Hw.
Qed.

(** Enable with the flag clear and the previous worker joined: a worker is
    created. *)
Lemma mt_enable_spawns ts (s : @mt.System Elem) :
  is_fifo (mt.m_commandQueue s) → payloads (mt.m_commandQueue s) = [] →
  mt.main_at s = mt.in_waitAndPop → mt.m_workerThread s = Some joined →
  mt.m_workerThreadEnabled s = false →
  ∃ q, is_fifo q ∧ payloads q = [] ∧
       run [mt.call_enableWorkerThread; mt.main_thread ts; mt.main_thread true] s =
         mt.Steps (mt.set_main_at mt.in_waitAndPop
                     (mt.set_worker_at mt.at_while
                        (mt.set_m_workerThread (Some running)
                           (mt.set_m_workerThreadEnabled true
                              (mt.set_main_at (mt.at_command mt.EnableWorkerThread)
                                 (mt.set_m_commandQueue q s)))))).
Proof.
  intros Hcq Hp Hpc Hw Hflag.
  destruct (mt_issue_and_take ts s mt.EnableWorkerThread Hcq Hp Hpc)
    as (q & Hq & Hrest & Hstep).
  exists q. split_and!; try done.
  cbn [mt.run]. change (step mt.call_enableWorkerThread s) with
    (mt.Steps (mt.set_m_commandQueue
                 (pushAndNotify mt.EnableWorkerThread (mt.m_commandQueue s)) s)).
  cbn match. rewrite Hstep.
  cbn [mt.step]. unfold mt.mainThreadWork. mt_fields. rewrite Hflag. cbn [negb]. mt_fields.
  by rewrite Hw.
Qed.

(** Enable with the flag still set: nothing happens. *)
Lemma mt_enable_ignored ts1 ts2 (s : @mt.System Elem) :
  is_fifo (mt.m_commandQueue s) → payloads (mt.m_commandQueue s) = [] →
  mt.main_at s = mt.in_waitAndPop → mt.m_workerThreadEnabled s = true →
  ∃ q, is_fifo q ∧ payloads q = [] ∧
       run [mt.call_enableWorkerThread; mt.main_thread ts1; mt.main_thread ts2] s =
         mt.Steps (mt.set_main_at mt.in_waitAndPop
                     (mt.set_main_at (mt.at_command mt.EnableWorkerThread)
                        (mt.set_m_commandQueue q s))).
Proof.
  intros Hcq Hp Hpc Hflag.
  destruct (mt_issue_and_take ts1 s mt.EnableWorkerThread Hcq Hp Hpc)
    as (q & Hq & Hrest & Hstep).
  exists q. split_and!; try done.
  cbn [mt.run]. change (step mt.call_enableWorkerThread s) with
    (mt.Steps (mt.set_m_commandQueue
                 (pushAndNotify mt.EnableWorkerThread (mt.m_commandQueue s)) s)).
  cbn match. rewrite Hstep.
  cbn [mt.step]. unfold mt.mainThreadWork. mt_fields. by rewrite Hflag.
Qed.

End mt_restart.

(** X11.  In namespace [mt] a consumer whose callback has thrown can be
    restarted, but only by Disable followed by Enable.  The exception ends
    the worker's thread function and leaves [m_workerThreadEnabled] set: an
    Enable alone is ignored and the worker stays finished; a Disable makes
    the control thread clear the flag and join the finished thread, and the
    next Enable creates a new worker.  The failing element has been handed
    to the callback once and the shared container is not touched. *)
Theorem an_mt_consumer_is_restarted_by_disable_then_enable
    {Elem : Type} `{!Inhabited Elem} (moved_from : Elem → Elem)
    (moved_from_vector : list Elem → list Elem) (m_callable : Elem → bool)
    (sharedContainer : ThreadsafeSTLAdapter) (thread_starts : bool)
    (s : mt.System) (item : Elem) :
  mt.reachable moved_from moved_from_vector mt.Consumer m_callable
    (mt.construct sharedContainer thread_starts) s →
  mt.m_workerThread s = Some running → mt.worker_at s = mt.at_body [item] →
  m_callable item = false →
  mt.main_at s = mt.in_waitAndPop → payloads (mt.m_commandQueue s) = [] →
  let run := mt.run moved_from moved_from_vector mt.Consumer m_callable in
  ∃ s1,
    run [mt.worker_thread] s = mt.Steps s1 ∧
    mt.m_workerThread s1 = Some finished ∧ mt.m_workerThreadEnabled s1 = true ∧
    mt.delivered s1 = mt.delivered s ++ [item] ∧
    (∃ s2, run [mt.call_enableWorkerThread; mt.main_thread true; mt.main_thread true] s1
             = mt.Steps s2 ∧
           mt.m_workerThread s2 = Some finished ∧ mt.worker_at s2 = mt.worker_returned) ∧
    (∃ s3, run [mt.call_disableWorkerThread; mt.main_thread true; mt.main_thread true;
                mt.main_thread true; mt.call_enableWorkerThread; mt.main_thread true;
                mt.main_thread true] s1 = mt.Steps s3 ∧
           mt.m_workerThread s3 = Some running ∧ mt.worker_at s3 = mt.at_while ∧
           mt.m_workerThreadEnabled s3 = true ∧
           mt.m_sharedContainer s3 = mt.m_sharedContainer s ∧
           mt.delivered s3 = mt.delivered s ++ [item]).
Proof.
  intros Hreach Hw Hpc Hcall Hmain Hempty run.
  destruct (mt_threads_consistent_reachable moved_from moved_from_vector mt.Consumer
              m_callable _ s (mt_threads_consistent_init sharedContainer thread_starts)
              Hreach) as (Hcq & _ & Hidle & _).
  assert (mt.m_workerThreadEnabled s = true) as Hflag.
  { destruct (mt.m_workerThreadEnabled s); [done|].
    destruct Hidle as [?|?]; try done; congruence. }
  unfold run.
  set (s1 := mt.workerThread_returns (mt.set_delivered (mt.delivered s ++ [item]) s)).
  exists s1. split_and!; try done.
  - cbn [mt.run mt.step].
    rewrite (mt_callback_step moved_from moved_from_vector m_callable s item Hw Hpc).
    cbn zeta. by rewrite Hcall.
  - destruct (mt_enable_ignored moved_from moved_from_vector mt.Consumer m_callable
                true true s1) as (q & _ & _ & Hrun); try done.
    eexists. split; [exact Hrun|]. by mt_fields.
  - destruct (mt_disable_joins moved_from moved_from_vector mt.Consumer m_callable
                true true true s1) as (q & Hq & Hqe & Hrun); try done.
    change [mt.call_disableWorkerThread; mt.main_thread true; mt.main_thread true;
            mt.main_thread true; mt.call_enableWorkerThread; mt.main_thread true;
            mt.main_thread true]
      with ([mt.call_disableWorkerThread; mt.main_thread true; mt.main_thread true;
             mt.main_thread true] ++
            [mt.call_enableWorkerThread; mt.main_thread true; @mt.main_thread Elem true]).
    rewrite mt_run_app, Hrun.
    match goal with |- context [mt.run _ _ _ _ _ ?s2] =>
      destruct (mt_enable_spawns moved_from moved_from_vector mt.Consumer m_callable true s2)
        as (q' & _ & _ & Hrun'); try done end.
    eexists. split; [exact Hrun'|]. by mt_fields.
Qed.

(** X11 at the consumer of the queue 1, 2, 3 whose callback throws on 1. *)
Lemma an_mt_consumer_is_restarted_by_disable_then_enable_witness :
  let run := mt.run id (λ _, []) mt.Consumer fails_on_1 in
  let s0 := mt.construct (createThreadsafeSTLAdapterFrom (stl.queue [1; 2; 3]%Z) tt ∅) true in
  ∃ s, run mt.consumer_calls_back s0 = mt.Steps s ∧
  ∃ s1,
    run [mt.worker_thread] s = mt.Steps s1 ∧
    mt.m_workerThread s1 = Some finished ∧ mt.m_workerThreadEnabled s1 = true ∧
    mt.delivered s1 = mt.delivered s ++ [1%Z] ∧
    (∃ s2, run [mt.call_enableWorkerThread; mt.main_thread true; mt.main_thread true] s1
             = mt.Steps s2 ∧
           mt.m_workerThread s2 = Some finished ∧ mt.worker_at s2 = mt.worker_returned) ∧
    (∃ s3, run [mt.call_disableWorkerThread; mt.main_thread true; mt.main_thread true;
                mt.main_thread true; mt.call_enableWorkerThread; mt.main_thread true;
                mt.main_thread true] s1 = mt.Steps s3 ∧
           mt.m_workerThread s3 = Some running ∧ mt.worker_at s3 = mt.at_while ∧
           mt.m_workerThreadEnabled s3 = true ∧
           mt.m_sharedContainer s3 = mt.m_sharedContainer s ∧
           mt.delivered s3 = mt.delivered s ++ [1%Z]).
Proof.
  intros run s0.
  destruct (run mt.consumer_calls_back s0) as [s| | |] eqn:Hrun;
    try (by vm_compute in Hrun).
  exists s. split; [done|].
  apply (an_mt_consumer_is_restarted_by_disable_then_enable id (λ _, []) fails_on_1
           (createThreadsafeSTLAdapterFrom (stl.queue [1; 2; 3]%Z) tt ∅) true s 1%Z).
  - apply (mt_run_reachable id (λ _, []) mt.Consumer fails_on_1 mt.consumer_calls_back
             s0 s0 s); [constructor|exact Hrun].
  - vm_compute in Hrun. by simplify_eq.
  - vm_compute in Hrun. by simplify_eq.
  - reflexivity.
  - vm_compute in Hrun. by simplify_eq.
  - vm_compute in Hrun. simplify_eq. by vm_compute.
Defined.

(** Closes an equation between lists of items after a step. *)
Ltac items_equal :=
  unfold mt.workerThread_returns; mt_fields; try (split; [done|]);
  cbn [mt.batches mt.shared_pushes omap list_omap concat app];
  rewrite ?app_nil_r; done.

Section mt_items.
Context {Elem : Type} `{!Inhabited Elem}.
Context (moved_from : Elem → Elem) (moved_from_vector : list Elem → list Elem).
Context (m_callable : Elem → bool).

Local Abbreviation step := (mt.step moved_from moved_from_vector).
Local Abbreviation run := (mt.run moved_from moved_from_vector).

(** The control thread and the commands touch no item. *)
Lemma mt_control_keeps_items type e (s s' : @mt.System Elem) :
  mt.threads_consistent s →
  match e with
  | mt.call_enableWorkerThread | mt.call_disableWorkerThread
  | mt.call_shutdownMainThread | mt.main_thread _ => True
  | _ => False
  end →
  step type m_callable e s = mt.Steps s' →
  mt.m_sharedContainer s' = mt.m_sharedContainer s ∧
  mt.m_vectorItemsQueue s' = mt.m_vectorItemsQueue s ∧
  mt.delivered s' = mt.delivered s ∧
  mt.held_by (mt.worker_at s') = mt.held_by (mt.worker_at s) ∧
  (∀ held, mt.worker_at s' = mt.at_body held → mt.worker_at s = mt.at_body held).
Proof.
  intros Hthreads He Hstep.
  assert (mt.spawns s = true → mt.worker_at s = mt.worker_returned) as Hspawn.
  { intros Hs. by destruct (mt_spawn_finds_no_worker s Hthreads Hs). }
  unfold mt.spawns in Hspawn.
  destruct e; try done; mt_step_cases Hstep; mt_fields; split_and!; try done.
  all: rewrite Hspawn by (by repeat case_match); done.
Qed.

(** One step of a producer: the shared container gains the element the
    worker forwards, or the step leaves it alone. *)
Lemma mt_producer_accounts e (s s' : @mt.System Elem) :
  mt.threads_consistent s → is_fifo (mt.m_vectorItemsQueue s) → mt.own e = true →
  step mt.Producer m_callable e s = mt.Steps s' →
  is_fifo (mt.m_vectorItemsQueue s') ∧
  ((mt.m_sharedContainer s' = mt.m_sharedContainer s ∧
    mt.held_by (mt.worker_at s') ++ concat (payloads (mt.m_vectorItemsQueue s')) =
    (mt.held_by (mt.worker_at s) ++ concat (payloads (mt.m_vectorItemsQueue s))) ++
      concat (mt.batches [e])) ∨
   (∃ item, mt.m_sharedContainer s' = push item (mt.m_sharedContainer s) ∧
            item :: mt.held_by (mt.worker_at s') ++
              concat (payloads (mt.m_vectorItemsQueue s')) =
            mt.held_by (mt.worker_at s) ++ concat (payloads (mt.m_vectorItemsQueue s)) ∧
            mt.batches [e] = [])).
Proof.
  intros Hthreads Hbq Hown Hstep.
  destruct e as [| | |items|x| |ts|]; try done.
  1-3,5: match type of Hstep with mt.step _ _ _ _ ?e _ = _ =>
           destruct (mt_control_keeps_items mt.Producer e s s' Hthreads I Hstep)
             as (-> & -> & _ & -> & _) end; (split; [done|left]); items_equal.
  - cbn in Hstep. simplify_eq. unfold mt.Producer_push. mt_fields.
    destruct (is_fifo_push items (mt.m_vectorItemsQueue s) Hbq) as [Hbq' ->].
    split; [done|left]. split; [done|].
    change (mt.batches [mt.call_push items]) with [items].
    rewrite concat_app. cbn [concat]. by rewrite !app_nil_r, (assoc_L (++)).
  - cbn in Hstep. unfold mt.workerThreadWork in Hstep.
    destruct (mt.m_workerThread s) as [[| |]|]; try done.
    destruct (mt.worker_at s) as [| |held|] eqn:Hpc; try done.
    + destruct (mt.m_workerThreadEnabled s); simplify_eq; split; try done; left;
        items_equal.
    + pose proof (is_fifo_pops_ref moved_from_vector [] (mt.m_vectorItemsQueue s) Hbq) as Hpop.
      destruct (payloads (mt.m_vectorItemsQueue s)) as [|batch rest] eqn:Hp.
      * destruct Hpop as [Hr _]. rewrite Hr in Hstep. simplify_eq. split; [done|left].
        mt_fields. rewrite ?Hp. items_equal.
      * destruct Hpop as (q & Hq & Hrest & Hr & _). rewrite Hr in Hstep. simplify_eq.
        split; [done|left]. mt_fields. rewrite ?Hp, ?Hrest. items_equal.
    + destruct held as [|item rest]; simplify_eq; (split; [done|]); mt_fields.
      * left. items_equal.
      * right. by exists item.
Qed.

(** One step of a consumer: the worker takes the current element of the
    shared container, or hands the element it holds to the callback, or
    another user pushes an element. *)
Lemma mt_consumer_accounts e (s s' : @mt.System Elem) :
  mt.threads_consistent s →
  (∀ held, mt.worker_at s = mt.at_body held → ∃ item, held = [item]) →
  mt.no_shared_pop e = true →
  step mt.Consumer m_callable e s = mt.Steps s' →
  (∀ held, mt.worker_at s' = mt.at_body held → ∃ item, held = [item]) ∧
  ((mt.m_sharedContainer s' = mt.m_sharedContainer s ∧
    mt.delivered s' ++ mt.held_by (mt.worker_at s') =
      mt.delivered s ++ mt.held_by (mt.worker_at s) ∧
    mt.shared_pushes [e] = []) ∨
   (∃ x, mt.m_sharedContainer s' = push x (mt.m_sharedContainer s) ∧
         mt.delivered s' ++ mt.held_by (mt.worker_at s') =
           mt.delivered s ++ mt.held_by (mt.worker_at s) ∧
         mt.shared_pushes [e] = [x]) ∨
   (∃ v value, tryPop_ref moved_from value (mt.m_sharedContainer s) =
                 Returns true (v, mt.m_sharedContainer s') ∧
               mt.held_by (mt.worker_at s) = [] ∧ mt.held_by (mt.worker_at s') = [v] ∧
               mt.delivered s' = mt.delivered s ∧ mt.shared_pushes [e] = [])).
Proof.
  intros Hthreads Hone Hown Hstep.
  destruct e as [| | |items|x| |ts|]; try done.
  1-3,5: match type of Hstep with mt.step _ _ _ _ ?e _ = _ =>
           destruct (mt_control_keeps_items mt.Consumer e s s' Hthreads I Hstep)
             as (-> & _ & -> & -> & Hbody) end; (split; [by auto|by left]).
  - cbn in Hstep. simplify_eq. mt_fields. split; [done|]. right. left. by exists x.
  - cbn in Hstep. unfold mt.workerThreadWork in Hstep.
    destruct (mt.m_workerThread s) as [[| |]|]; try done.
    destruct (mt.worker_at s) as [| |held|] eqn:Hpc; try done.
    + destruct (mt.m_workerThreadEnabled s); simplify_eq; by split; [|left].
    + destruct (tryPop_ref moved_from inhabitant (mt.m_sharedContainer s))
        as [[] [item q]| | |] eqn:Hr; simplify_eq; mt_fields.
      * split; [intros ? ?; simplify_eq; by eauto|]. right. right. by exists item, inhabitant.
      * by split; [|left].
      * by split; [|left].
      * by split; [|left].
    + destruct (Hone held eq_refl) as [item ->]. cbn in Hstep.
      destruct (m_callable item); simplify_eq; (split; [done|left]);
        items_equal.
Qed.

(** One step of a producer, counted: the elements on their way gain the
    batch the client hands over, in any container up to their order, in a
    queue in order. *)
Lemma mt_producer_step e (s s' : @mt.System Elem) :
  mt.threads_consistent s → is_fifo (mt.m_vectorItemsQueue s) →
  valid (mt.m_sharedContainer s) → mt.own e = true →
  step mt.Producer m_callable e s = mt.Steps s' →
  mt.items_of_producer s' ≡ₚ mt.items_of_producer s ++ concat (mt.batches [e]) ∧
  (is_fifo (mt.m_sharedContainer s) →
   is_fifo (mt.m_sharedContainer s') ∧
   mt.items_of_producer s' = mt.items_of_producer s ++ concat (mt.batches [e])).
Proof.
  intros Hthreads Hbq Hvalid Hown Hstep. unfold mt.items_of_producer.
  destruct (mt_producer_accounts e s s' Hthreads Hbq Hown Hstep)
    as [_ [[-> Heq]|(item & -> & Heq & ->)]].
  - rewrite Heq. rewrite !(assoc_L (++)). by split.
  - cbn [concat]. rewrite app_nil_r, <-Heq. split.
    + rewrite (push_payloads item _ Hvalid). by rewrite <-!(assoc_L (++)).
    + intros Hfifo. destruct (is_fifo_push item _ Hfifo) as [Hfifo' ->].
      split; [done|]. by rewrite <-!(assoc_L (++)).
Qed.

Lemma mt_producer_run schedule (s s' : @mt.System Elem) :
  mt.threads_consistent s → is_fifo (mt.m_vectorItemsQueue s) →
  valid (mt.m_sharedContainer s) → forallb mt.own schedule = true →
  run mt.Producer m_callable schedule s = mt.Steps s' →
  mt.items_of_producer s' ≡ₚ mt.items_of_producer s ++ concat (mt.batches schedule) ∧
  (is_fifo (mt.m_sharedContainer s) →
   mt.items_of_producer s' = mt.items_of_producer s ++ concat (mt.batches schedule)).
Proof.
  revert s. induction schedule as [|e schedule IH];
    intros s Hthreads Hbq Hvalid Hown Hrun.
  - cbn in *. simplify_eq. by rewrite app_nil_r.
  - cbn [mt.run] in Hrun. cbn [forallb] in Hown. apply andb_prop in Hown as [He Hown].
    destruct (mt.step _ _ _ _ e s) as [s1| | |] eqn:Hstep; try done.
    destruct (mt_containers_step moved_from moved_from_vector mt.Producer m_callable
                e s s1 Hbq Hvalid Hstep) as [Hbq1 Hvalid1].
    pose proof (mt_threads_consistent_step moved_from moved_from_vector mt.Producer
                  m_callable e s s1 Hthreads Hstep) as Hthreads1.
    destruct (mt_producer_step e s s1 Hthreads Hbq Hvalid He Hstep) as [Hperm Hfifo].
    destruct (IH s1 Hthreads1 Hbq1 Hvalid1 Hown Hrun) as [IHperm IHfifo].
    change (e :: schedule) with ([e] ++ schedule).
    unfold mt.batches in *. rewrite omap_app, concat_app. split.
    + by rewrite IHperm, Hperm, <-!(assoc_L (++)).
    + intros Hq. destruct (Hfifo Hq) as [Hq1 ->] in IHfifo.
      rewrite (IHfifo Hq1). by rewrite <-!(assoc_L (++)).
Qed.

(** One step of a consumer, counted. *)
Lemma mt_consumer_step e (s s' : @mt.System Elem) :
  mt.threads_consistent s → valid (mt.m_sharedContainer s) →
  (∀ held, mt.worker_at s = mt.at_body held → ∃ item, held = [item]) →
  mt.no_shared_pop e = true →
  step mt.Consumer m_callable e s = mt.Steps s' →
  (∀ held, mt.worker_at s' = mt.at_body held → ∃ item, held = [item]) ∧
  mt.items_of_consumer s' ≡ₚ mt.items_of_consumer s ++ mt.shared_pushes [e] ∧
  (is_fifo (mt.m_sharedContainer s) →
   is_fifo (mt.m_sharedContainer s') ∧
   mt.items_of_consumer s' = mt.items_of_consumer s ++ mt.shared_pushes [e]).
Proof.
  intros Hthreads Hvalid Hone Hown Hstep. unfold mt.items_of_consumer.
  destruct (mt_consumer_accounts e s s' Hthreads Hone Hown Hstep)
    as [Hone' [(-> & Heq & ->)|[(x & -> & Heq & ->)|(v & value & Hpop & Hh & Hh' & -> & ->)]]].
  - split; [done|]. rewrite !(assoc_L (++)), Heq, app_nil_r. by split.
  - split; [done|]. rewrite !(assoc_L (++)), Heq. split.
    + by rewrite (push_payloads x _ Hvalid), !(assoc_L (++)).
    + intros Hfifo. destruct (is_fifo_push x _ Hfifo) as [Hfifo' ->].
      split; [done|]. by rewrite ?(assoc_L (++)).
  - split; [done|]. rewrite Hh, Hh', app_nil_r. cbn [app]. split.
    + destruct (valid_tryPop_ref moved_from value (mt.m_sharedContainer s) Hvalid)
        as [[_ Hr]|(v' & q & Hr & _ & _ & Hperm)]; rewrite Hr in Hpop; simplify_eq.
      by rewrite <-Hperm.
    + intros Hfifo.
      pose proof (is_fifo_pops_ref moved_from value (mt.m_sharedContainer s) Hfifo) as Hr.
      destruct (payloads (mt.m_sharedContainer s)) as [|v' rest].
      * destruct Hr as [Hr _]. rewrite Hr in Hpop. by simplify_eq.
      * destruct Hr as (q & Hq & Hrest & Hr & _). rewrite Hr in Hpop. by simplify_eq.
Qed.

Lemma mt_consumer_run schedule (s s' : @mt.System Elem) :
  mt.threads_consistent s → valid (mt.m_sharedContainer s) →
  (∀ held, mt.worker_at s = mt.at_body held → ∃ item, held = [item]) →
  forallb mt.no_shared_pop schedule = true →
  run mt.Consumer m_callable schedule s = mt.Steps s' →
  mt.items_of_consumer s' ≡ₚ mt.items_of_consumer s ++ mt.shared_pushes schedule ∧
  (is_fifo (mt.m_sharedContainer s) →
   mt.items_of_consumer s' = mt.items_of_consumer s ++ mt.shared_pushes schedule).
Proof.
  revert s. induction schedule as [|e schedule IH];
    intros s Hthreads Hvalid Hone Hown Hrun.
  - cbn in *. simplify_eq. by rewrite app_nil_r.
  - cbn [mt.run] in Hrun. cbn [forallb] in Hown. apply andb_prop in Hown as [He Hown].
    destruct (mt.step _ _ _ _ e s) as [s1| | |] eqn:Hstep; try done.
    assert (valid (mt.m_sharedContainer s1)) as Hvalid1.
    { destruct (mt_consumer_accounts e s s1 Hthreads Hone He Hstep)
        as [_ [(-> & _)|[(x & -> & _)|(v & value & Hpop & _)]]];
        [done|by apply push_valid|].
      destruct (valid_tryPop_ref moved_from value (mt.m_sharedContainer s) Hvalid)
        as [[_ Hr]|(v' & q & Hr & ? & _)]; rewrite Hr in Hpop; by simplify_eq. }
    pose proof (mt_threads_consistent_step moved_from moved_from_vector mt.Consumer
                  m_callable e s s1 Hthreads Hstep) as Hthreads1.
    destruct (mt_consumer_step e s s1 Hthreads Hvalid Hone He Hstep)
      as (Hone1 & Hperm & Hfifo).
    destruct (IH s1 Hthreads1 Hvalid1 Hone1 Hown Hrun) as [IHperm IHfifo].
    change (e :: schedule) with ([e] ++ schedule).
    unfold mt.shared_pushes in *. rewrite omap_app. split.
    + by rewrite IHperm, Hperm, <-!(assoc_L (++)).
    + intros Hq. destruct (Hfifo Hq) as [Hq1 Heq].
      rewrite (IHfifo Hq1), Heq. by rewrite <-!(assoc_L (++)).
Qed.

End mt_items.

(** X12.  A producer of [mt] neither loses nor duplicates an element.
    Along any interleaving of client calls, control-thread statements and
    worker statements, through Enable, Disable and Shutdown, the elements in
    the shared container, the rest of the batch the worker is forwarding and
    the batches still queued are the initial contents of the container and
    the elements handed to [push], each once; when the shared container is a
    queue they are also in the order they were handed over. *)
Theorem an_mt_producer_forwards_every_element_once
    {Elem : Type} `{!Inhabited Elem} (moved_from : Elem → Elem)
    (moved_from_vector : list Elem → list Elem) (m_callable : Elem → bool)
    (sharedContainer : ThreadsafeSTLAdapter) (thread_starts : bool)
    (schedule : list mt.event) (s : mt.System) :
  valid sharedContainer → forallb mt.own schedule = true →
  mt.run moved_from moved_from_vector mt.Producer m_callable schedule
    (mt.construct sharedContainer thread_starts) = mt.Steps s →
  mt.items_of_producer s ≡ₚ payloads sharedContainer ++ concat (mt.batches schedule) ∧
  (stl.discipline_of (m_adapter sharedContainer) = stl.FIFO →
   mt.items_of_producer s = payloads sharedContainer ++ concat (mt.batches schedule)).
Proof.
  intros Hvalid Hown Hrun.
  destruct (is_fifo_create ([] : list (list Elem)) ∅) as [Hbq Hempty].
  assert (mt.items_of_producer (mt.construct sharedContainer thread_starts) =
          payloads sharedContainer) as Hinit.
  { unfold mt.items_of_producer, mt.construct, mt.runMainThread.
    destruct thread_starts; mt_fields; unfold mt.ProducerConsumerBase; mt_fields;
      by rewrite Hempty, app_nil_r. }
  destruct (mt_producer_run moved_from moved_from_vector m_callable schedule
              (mt.construct sharedContainer thread_starts) s) as [Hperm Hfifo]; try done.
  - apply mt_threads_consistent_init.
  - unfold mt.construct, mt.runMainThread. by destruct thread_starts.
  - unfold mt.construct, mt.runMainThread. by destruct thread_starts.
  - rewrite Hinit in *. split; [done|]. intros Hd. apply Hfifo.
    unfold mt.construct, mt.runMainThread. by destruct thread_starts.
Qed.

(** X12 at a producer into the queue holding 7 that is enabled, given the
    batch 1, 2 and disabled while the worker forwards it. *)
Lemma an_mt_producer_forwards_every_element_once_witness :
  let schedule :=
    [mt.call_enableWorkerThread; mt.call_push [1; 2]%Z; mt.main_thread true;
     mt.main_thread true; mt.worker_thread; mt.worker_thread; mt.worker_thread;
     mt.call_disableWorkerThread; mt.main_thread true; mt.main_thread true] in
  let sharedContainer := createThreadsafeSTLAdapterFrom (stl.queue [7%Z]) tt ∅ in
  ∃ s, mt.run id (λ _, []) mt.Producer (λ _, true) schedule
         (mt.construct sharedContainer true) = mt.Steps s ∧
       mt.items_of_producer s ≡ₚ payloads sharedContainer ++ concat (mt.batches schedule) ∧
       (stl.discipline_of (m_adapter sharedContainer) = stl.FIFO →
        mt.items_of_producer s = payloads sharedContainer ++ concat (mt.batches schedule)).
Proof.
  intros schedule sharedContainer.
  destruct (mt.run id (λ _, []) mt.Producer (λ _, true) schedule
              (mt.construct sharedContainer true)) as [s| | |] eqn:Hrun;
    try (by vm_compute in Hrun).
  exists s. split; [done|].
  apply (an_mt_producer_forwards_every_element_once id (λ _, []) (λ _, true)
           sharedContainer true schedule s).
  - apply create_valid.
  - reflexivity.
  - exact Hrun.
Defined.

(** X13.  A consumer of [mt] neither loses nor duplicates an element.
    Along any interleaving of client calls, control-thread statements,
    worker statements and pushes by other users of the shared container,
    through Enable, Disable, Shutdown and a callback that throws, the
    elements handed to the callback, the element the worker holds and the
    elements still in the shared container are the initial contents and the
    elements pushed, each once; when the shared container is a queue the
    callback receives them in the order they were stored. *)
Theorem an_mt_consumer_delivers_every_element_once
    {Elem : Type} `{!Inhabited Elem} (moved_from : Elem → Elem)
    (moved_from_vector : list Elem → list Elem) (m_callable : Elem → bool)
    (sharedContainer : ThreadsafeSTLAdapter) (thread_starts : bool)
    (schedule : list mt.event) (s : mt.System) :
  valid sharedContainer → forallb mt.no_shared_pop schedule = true →
  mt.run moved_from moved_from_vector mt.Consumer m_callable schedule
    (mt.construct sharedContainer thread_starts) = mt.Steps s →
  mt.items_of_consumer s ≡ₚ payloads sharedContainer ++ mt.shared_pushes schedule ∧
  (stl.discipline_of (m_adapter sharedContainer) = stl.FIFO →
   mt.items_of_consumer s = payloads sharedContainer ++ mt.shared_pushes schedule).
Proof.
  intros Hvalid Hown Hrun.
  assert (mt.items_of_consumer (mt.construct sharedContainer thread_starts) =
          payloads sharedContainer) as Hinit.
  { unfold mt.items_of_consumer, mt.construct, mt.runMainThread.
    by destruct thread_starts. }
  destruct (mt_consumer_run moved_from moved_from_vector m_callable schedule
              (mt.construct sharedContainer thread_starts) s) as [Hperm Hfifo]; try done.
  - apply mt_threads_consistent_init.
  - unfold mt.construct, mt.runMainThread. by destruct thread_starts.
  - unfold mt.construct, mt.runMainThread. by destruct thread_starts.
  - rewrite Hinit in *. split; [done|]. intros Hd. apply Hfifo.
    unfold mt.construct, mt.runMainThread. by destruct thread_starts.
Qed.

(** X13 at the consumer of the queue 1, 2, 3 whose callback throws on 1,
    while another user pushes 4. *)
Lemma an_mt_consumer_delivers_every_element_once_witness :
  let schedule := mt.consumer_calls_back ++ [mt.shared_push 4%Z; mt.worker_thread] in
  let sharedContainer := createThreadsafeSTLAdapterFrom (stl.queue [1; 2; 3]%Z) tt ∅ in
  ∃ s, mt.run id (λ _, []) mt.Consumer fails_on_1 schedule
         (mt.construct sharedContainer true) = mt.Steps s ∧
       mt.items_of_consumer s ≡ₚ payloads sharedContainer ++ mt.shared_pushes schedule ∧
       (stl.discipline_of (m_adapter sharedContainer) = stl.FIFO →
        mt.items_of_consumer s = payloads sharedContainer ++ mt.shared_pushes schedule).
Proof.
  intros schedule sharedContainer.
  destruct (mt.run id (λ _, []) mt.Consumer fails_on_1 schedule
              (mt.construct sharedContainer true)) as [s| | |] eqn:Hrun;
    try (by vm_compute in Hrun).
  exists s. split; [done|].
  apply (an_mt_consumer_delivers_every_element_once id (λ _, []) fails_on_1
           sharedContainer true schedule s).
  - apply create_valid.
  - reflexivity.
  - exact Hrun.
Defined.

Section mt_stop.
Context {Elem : Type} `{!Inhabited Elem}.
Context (moved_from : Elem → Elem) (moved_from_vector : list Elem → list Elem).
Context (m_callable : Elem → bool).

Local Abbreviation run := (mt.run moved_from moved_from_vector).
Local Abbreviation workerThreadWork := (mt.workerThreadWork moved_from moved_from_vector).

(** The loop condition with the flag cleared: the thread function returns. *)
Lemma mt_leaves_loop type (s : @mt.System Elem) :
  mt.m_workerThread s = Some running → mt.worker_at s = mt.at_while →
  mt.m_workerThreadEnabled s = false →
  workerThreadWork type m_callable s = mt.Steps (mt.workerThread_returns s).
Proof. intros Hw Hpc Hflag. unfold mt.workerThreadWork. by rewrite Hw, Hpc, Hflag. Qed.

(** A producer forwards the rest of its batch, then sees the flag. *)
Lemma mt_producer_finishes_batch held (s : @mt.System Elem) :
  mt.m_workerThread s = Some running → mt.worker_at s = mt.at_body held →
  mt.m_workerThreadEnabled s = false →
  ∃ s', run mt.Producer m_callable (replicate (length held + 2) mt.worker_thread) s =
          mt.Steps s' ∧
        mt.m_workerThread s' = Some finished ∧ mt.worker_at s' = mt.worker_returned ∧
        mt.main_at s' = mt.main_at s ∧
        mt.m_vectorItemsQueue s' = mt.m_vectorItemsQueue s.
Proof.
  revert s. induction held as [|item rest IH]; intros s Hw Hpc Hflag.
  - cbn [length Nat.add replicate mt.run mt.step]. unfold mt.workerThreadWork at 1.
    rewrite Hw, Hpc. rewrite mt_leaves_loop by done. by eexists.
  - cbn [length Nat.add replicate mt.run mt.step]. unfold mt.workerThreadWork at 1.
    rewrite Hw, Hpc.
    destruct (IH (mt.set_worker_at (mt.at_body rest)
                    (mt.set_m_sharedContainer (push item (mt.m_sharedContainer s)) s)))
      as (s' & Hrun & ?); try done.
    exists s'. split; [exact Hrun|done].
Qed.

(** A producer whose flag was cleared returns once the batch at hand is
    forwarded. *)
Lemma mt_producer_returns (s : @mt.System Elem) :
  mt.threads_consistent s → is_fifo (mt.m_vectorItemsQueue s) →
  mt.m_workerThread s = Some running → mt.m_workerThreadEnabled s = false →
  ∃ n s', run mt.Producer m_callable (replicate n mt.worker_thread) s = mt.Steps s' ∧
          n ≤ 3 + length (mt.held_by (mt.worker_at s)) +
                length (default [] (head (payloads (mt.m_vectorItemsQueue s)))) ∧
          mt.m_workerThread s' = Some finished ∧ mt.worker_at s' = mt.worker_returned ∧
          mt.main_at s' = mt.main_at s.
Proof.
  intros (_ & Hrun & _) Hbq Hw Hflag.
  destruct (mt.worker_at s) as [| |held|] eqn:Hpc.
  - exists 1, (mt.workerThread_returns s). cbn [replicate mt.run mt.step].
    rewrite mt_leaves_loop by done. split_and!; try done. lia.
  - pose proof (is_fifo_pops_ref moved_from_vector [] (mt.m_vectorItemsQueue s) Hbq) as Hpop.
    destruct (payloads (mt.m_vectorItemsQueue s)) as [|batch rest].
    + destruct Hpop as [Hr _]. exists 2, (mt.workerThread_returns (mt.set_worker_at mt.at_while s)).
      cbn [replicate mt.run mt.step]. unfold mt.workerThreadWork at 1.
      rewrite Hw, Hpc, Hr. rewrite mt_leaves_loop by done. split_and!; try done. lia.
    + destruct Hpop as (q & _ & _ & Hr & _).
      destruct (mt_producer_finishes_batch batch
                  (mt.set_worker_at (mt.at_body batch) (mt.set_m_vectorItemsQueue q s)))
        as (s' & Hrun' & ? & ? & ? & _); try done.
      exists (S (length batch + 2)), s'. cbn [replicate mt.run mt.step].
      unfold mt.workerThreadWork at 1. rewrite Hw, Hpc, Hr.
      split_and!; try done. cbn. lia.
  - destruct (mt_producer_finishes_batch held s) as (s' & Hrun' & ? & ? & ? & _); try done.
    exists (length held + 2), s'. split_and!; try done. cbn. lia.
  - destruct Hrun as [Hrun _]. by destruct (Hrun Hw).
Qed.

(** A consumer whose flag was cleared returns after at most one more
    call of the callback. *)
Lemma mt_consumer_returns (s : @mt.System Elem) :
  mt.threads_consistent s → valid (mt.m_sharedContainer s) →
  mt.m_workerThread s = Some running → mt.m_workerThreadEnabled s = false →
  ∃ n s', run mt.Consumer m_callable (replicate n mt.worker_thread) s = mt.Steps s' ∧
          n ≤ 3 ∧
          mt.m_workerThread s' = Some finished ∧ mt.worker_at s' = mt.worker_returned ∧
          mt.main_at s' = mt.main_at s ∧
          (mt.delivered s' = mt.delivered s ∨
           ∃ item, mt.delivered s' = mt.delivered s ++ [item]).
Proof.
  intros (_ & Hrun & _) Hvalid Hw Hflag.
  assert (∀ held s1, mt.m_workerThread s1 = Some running →
            mt.worker_at s1 = mt.at_body held → mt.m_workerThreadEnabled s1 = false →
            ∃ n s', run mt.Consumer m_callable (replicate n mt.worker_thread) s1 =
                      mt.Steps s' ∧ n ≤ 2 ∧
                    mt.m_workerThread s' = Some finished ∧
                    mt.worker_at s' = mt.worker_returned ∧
                    mt.main_at s' = mt.main_at s1 ∧
                    mt.delivered s' =
                      mt.delivered s1 ++ [default inhabitant (head held)]) as Hbody.
  { intros held s1 Hw1 Hpc1 Hflag1.
    destruct (m_callable (default inhabitant (head held))) eqn:Hcall.
    - exists 2. eexists. cbn [replicate mt.run mt.step]. unfold mt.workerThreadWork at 1.
      rewrite Hw1, Hpc1. cbn zeta. rewrite Hcall. rewrite mt_leaves_loop by done.
      split_and!; try done.
    - exists 1. eexists. cbn [replicate mt.run mt.step]. unfold mt.workerThreadWork at 1.
      rewrite Hw1, Hpc1. cbn zeta. rewrite Hcall. split_and!; try done. lia. }
  destruct (mt.worker_at s) as [| |held|] eqn:Hpc.
  - exists 1, (mt.workerThread_returns s). cbn [replicate mt.run mt.step].
    rewrite mt_leaves_loop by done. split_and!; try done; [lia|by left].
  - destruct (valid_tryPop_ref moved_from inhabitant (mt.m_sharedContainer s) Hvalid)
      as [[_ Hr]|(v & q & Hr & _)].
    + exists 2, (mt.workerThread_returns (mt.set_worker_at mt.at_while s)).
      cbn [replicate mt.run mt.step]. unfold mt.workerThreadWork at 1.
      rewrite Hw, Hpc, Hr. rewrite mt_leaves_loop by done.
      split_and!; try done; [lia|by left].
    + destruct (Hbody [v] (mt.set_worker_at (mt.at_body [v]) (mt.set_m_sharedContainer q s)))
        as (n & s' & Hrun' & ? & ? & ? & ? & Hd); try done.
      exists (S n), s'. cbn [replicate mt.run mt.step]. unfold mt.workerThreadWork at 1.
      rewrite Hw, Hpc, Hr. split_and!; try done; [lia|]. right. by exists v.
  - destruct (Hbody held s) as (n & s' & Hrun' & ? & ? & ? & ? & Hd); try done.
    exists n, s'. split_and!; try done; [lia|]. right. by eexists.
  - destruct Hrun as [Hrun _]. by destruct (Hrun Hw).
Qed.

End mt_stop.

Section mt_containers.
Context {Elem : Type} `{!Inhabited Elem}.
Context (moved_from : Elem → Elem) (moved_from_vector : list Elem → list Elem).
Context (type : mt.Type_) (m_callable : Elem → bool).

Lemma mt_containers_reachable (sharedContainer : @ThreadsafeSTLAdapter Elem) thread_starts s :
  valid sharedContainer →
  mt.reachable moved_from moved_from_vector type m_callable
    (mt.construct sharedContainer thread_starts) s →
  is_fifo (mt.m_vectorItemsQueue s) ∧ valid (mt.m_sharedContainer s).
Proof.
  intros Hvalid. induction 1 as [|s e s' _ [IH1 IH2] Hstep].
  - unfold mt.construct, mt.runMainThread. destruct thread_starts; mt_fields;
      (split; [apply (is_fifo_create (Elem := list Elem))|done]).
  - by apply (mt_containers_step moved_from moved_from_vector type m_callable e s).
Qed.

End mt_containers.

(** X14.  Once the control thread of [mt] has cleared
    [m_workerThreadEnabled], the worker returns after the work at hand, so
    the [join] of the control thread returns.  A producer first forwards the
    whole batch it holds or is about to take: the flag is read between
    batches only.  A consumer returns within three of its statements and
    calls the callback at most once more. *)
Theorem a_disabled_mt_worker_returns_after_the_work_at_hand
    {Elem : Type} `{!Inhabited Elem} (moved_from : Elem → Elem)
    (moved_from_vector : list Elem → list Elem) (type : mt.Type_) (m_callable : Elem → bool)
    (sharedContainer : ThreadsafeSTLAdapter) (thread_starts : bool) (s : mt.System) :
  valid sharedContainer →
  mt.reachable moved_from moved_from_vector type m_callable
    (mt.construct sharedContainer thread_starts) s →
  mt.m_workerThread s = Some running → mt.m_workerThreadEnabled s = false →
  ∃ n s',
    mt.run moved_from moved_from_vector type m_callable (replicate n mt.worker_thread) s =
      mt.Steps s' ∧
    mt.m_workerThread s' = Some finished ∧ mt.worker_at s' = mt.worker_returned ∧
    (∀ c ts, mt.main_at s = mt.in_join c →
       ∃ s'', mt.step moved_from moved_from_vector type m_callable (mt.main_thread ts) s' =
                mt.Steps s'' ∧
              mt.m_workerThread s'' = Some joined) ∧
    match type with
    | mt.Producer =>
        n ≤ 3 + length (mt.held_by (mt.worker_at s)) +
              length (default [] (head (payloads (mt.m_vectorItemsQueue s))))
    | mt.Consumer =>
        n ≤ 3 ∧
        (mt.delivered s' = mt.delivered s ∨ ∃ item, mt.delivered s' = mt.delivered s ++ [item])
    end.
Proof.
  intros Hvalid Hreach Hw Hflag.
  pose proof (mt_threads_consistent_reachable moved_from moved_from_vector type
                m_callable _ s (mt_threads_consistent_init sharedContainer thread_starts)
                Hreach) as Hthreads.
  destruct (mt_containers_reachable moved_from moved_from_vector type m_callable
              sharedContainer thread_starts s Hvalid Hreach) as [Hbq Hshared].
  assert (∀ s' : mt.System, mt.m_workerThread s' = Some finished →
            mt.main_at s' = mt.main_at s →
            ∀ c ts, mt.main_at s = mt.in_join c →
              ∃ s'', mt.step moved_from moved_from_vector type m_callable
                       (mt.main_thread ts) s' = mt.Steps s'' ∧
                     mt.m_workerThread s'' = Some joined) as Hjoin.
  { intros s' Hw' Hpc' c ts Hpc. cbn. unfold mt.mainThreadWork.
    rewrite Hpc', Hpc, Hw'. eexists. split; [done|]. by destruct c. }
  destruct type.
  - destruct (mt_producer_returns moved_from moved_from_vector m_callable s)
      as (n & s' & Hrun & Hn & Hw' & Hpc' & Hmain); try done.
    exists n, s'. split_and!; try done. by apply Hjoin.
  - destruct (mt_consumer_returns moved_from moved_from_vector m_callable s)
      as (n & s' & Hrun & Hn & Hw' & Hpc' & Hmain & Hd); try done.
    exists n, s'. split_and!; try done. by apply Hjoin.
Qed.

(** X14 at a consumer of the queue 1, 2, 3 whose flag is cleared while the
    worker holds 1 and the control thread waits in [join]. *)
Lemma a_disabled_mt_worker_returns_after_the_work_at_hand_witness :
  let run := mt.run id (λ _, []) mt.Consumer (λ _, true) in
  let schedule :=
    [mt.call_enableWorkerThread; mt.call_disableWorkerThread; mt.main_thread true;
     mt.main_thread true; mt.worker_thread; mt.worker_thread; mt.main_thread true;
     mt.main_thread true] in
  let s0 := mt.construct (createThreadsafeSTLAdapterFrom (stl.queue [1; 2; 3]%Z) tt ∅) true in
  ∃ s, run schedule s0 = mt.Steps s ∧
  ∃ n s',
    run (replicate n mt.worker_thread) s = mt.Steps s' ∧
    mt.m_workerThread s' = Some finished ∧ mt.worker_at s' = mt.worker_returned ∧
    (∀ c ts, mt.main_at s = mt.in_join c →
       ∃ s'', mt.step id (λ _, []) mt.Consumer (λ _, true) (mt.main_thread ts) s' =
                mt.Steps s'' ∧
              mt.m_workerThread s'' = Some joined) ∧
    n ≤ 3 ∧
    (mt.delivered s' = mt.delivered s ∨ ∃ item, mt.delivered s' = mt.delivered s ++ [item]).
Proof.
  intros run schedule s0.
  destruct (run schedule s0) as [s| | |] eqn:Hrun;
    try (by vm_compute in Hrun).
  exists s. split; [done|].
  apply (a_disabled_mt_worker_returns_after_the_work_at_hand id (λ _, []) mt.Consumer
           (λ _, true) (createThreadsafeSTLAdapterFrom (stl.queue [1; 2; 3]%Z) tt ∅) true s).
  - apply create_valid.
  - apply (mt_run_reachable id (λ _, []) mt.Consumer (λ _, true)
             schedule s0 s0 s);
      [constructor|exact Hrun].
  - vm_compute in Hrun. by simplify_eq.
  - vm_compute in Hrun. by simplify_eq.
Defined.

(** ** The control thread of [concurrency] is never stuck for good *)

Section releases.
Context {Elem : Type} `{!Inhabited Elem}.
Context (moved_from : Elem → Elem) (moved_from_vector : list Elem → list Elem).
Context (type : Type_) (m_callable : Elem → bool).

Local Abbreviation step := (step moved_from moved_from_vector type m_callable).
Local Abbreviation run := (run moved_from moved_from_vector type m_callable).
Local Abbreviation workerThreadWork :=
  (workerThreadWork moved_from moved_from_vector type m_callable).

(** The worker has released [m_workerThreadMutex] after some statements
    of its own that leave the control thread and its queue alone. *)
Local Abbreviation released s s' :=
  (m_workerThreadMutex s' = false ∧ main_at s' = main_at s ∧
   m_commandQueue s' = m_commandQueue s).

Lemma releases_more n (s s1 s' : @System Elem) :
  workerThreadWork s = Steps s1 →
  main_at s1 = main_at s → m_commandQueue s1 = m_commandQueue s →
  run (replicate n worker_thread) s1 = Steps s' ∧ released s1 s' →
  run (replicate (S n) worker_thread) s = Steps s' ∧ released s s'.
Proof.
  intros Hstep Hpc Hcq (Hrun & ? & ? & ?). cbn [replicate concurrency.run concurrency.step].
  rewrite Hstep. split_and!; congruence.
Qed.

Lemma releases_body held (s : @System Elem) :
  m_workerThread s = Some running → worker_at s = at_body held →
  ∃ n s', run (replicate n worker_thread) s = Steps s' ∧ released s s'.
Proof.
  intros Hw Hpc.
  assert (type = Producer ∨ type = Consumer) as [Htype|Htype] by (destruct type; auto).
  - revert s Hw Hpc. induction held as [|item rest IH]; intros s Hw Hpc.
    + exists 1. eexists. eapply (releases_more 0 s);
        [unfold concurrency.workerThreadWork; by rewrite Hw, Hpc, Htype|done..].
    + edestruct (IH (set_worker_at (at_body rest)
                       (set_forwarded (forwarded s ++ [item])
                          (set_m_sharedContainer (push item (m_sharedContainer s)) s))))
        as (n & s' & Hrun); [done..|].
      exists (S n), s'. eapply (releases_more n s _ s');
        [unfold concurrency.workerThreadWork; by rewrite Hw, Hpc, Htype|done..].
  - exists 1. destruct (m_callable (default inhabitant (head held))) eqn:Hcall;
      eexists; (eapply (releases_more 0 s);
        [unfold concurrency.workerThreadWork; rewrite Hw, Hpc, Htype; cbn zeta;
         by rewrite Hcall|done..]).
Qed.

Lemma releases_check held (s : @System Elem) :
  m_workerThread s = Some running → worker_at s = at_check held →
  ∃ n s', run (replicate n worker_thread) s = Steps s' ∧ released s s'.
Proof.
  intros Hw Hpc. destruct (m_workerThreadEnabled s) eqn:Hflag.
  - destruct (releases_body held (set_worker_at (at_body held) s)) as (n & s' & Hrun);
      [done..|].
    exists (S n), s'. eapply (releases_more n s _ s');
      [unfold concurrency.workerThreadWork; by rewrite Hw, Hpc, Hflag|done..].
  - exists 1. eexists. eapply (releases_more 0 s);
      [unfold concurrency.workerThreadWork; by rewrite Hw, Hpc, Hflag|done..].
Qed.

Lemma releases_predicate held (s : @System Elem) :
  is_fifo (m_vectorItemsQueue s) → valid (m_sharedContainer s) →
  m_workerThread s = Some running → worker_at s = at_predicate held →
  ∃ n s', run (replicate n worker_thread) s = Steps s' ∧ released s s'.
Proof.
  intros Hbq Hvalid Hw Hpc.
  assert (∀ s1, workerThreadWork s = Steps s1 → main_at s1 = main_at s →
                m_commandQueue s1 = m_commandQueue s →
                m_workerThreadMutex s1 = false →
                ∃ n s', run (replicate n worker_thread) s = Steps s' ∧ released s s')
    as Hdone.
  { intros s1 Hstep ? ? ?. exists 1, s1. by apply (releases_more 0 s s1 s1). }
  assert (∀ s1 held1, workerThreadWork s = Steps s1 → main_at s1 = main_at s →
                m_commandQueue s1 = m_commandQueue s →
                m_workerThread s1 = Some running → worker_at s1 = at_check held1 →
                ∃ n s', run (replicate n worker_thread) s = Steps s' ∧ released s s')
    as Hcheck.
  { intros s1 held1 Hstep ? ? Hw1 Hpc1.
    destruct (releases_check held1 s1 Hw1 Hpc1) as (n & s' & Hrun).
    exists (S n), s'. by apply (releases_more n s s1 s'). }
  destruct (m_workerThreadEnabled s) eqn:Hflag.
  - assert (type = Producer ∨ type = Consumer) as [Htype|Htype] by (destruct type; auto).
    + pose proof (is_fifo_pops_ref moved_from_vector held (m_vectorItemsQueue s) Hbq) as Hpop.
      destruct (payloads (m_vectorItemsQueue s)) as [|batch rest].
      * destruct Hpop as [Hr _]. eapply Hdone;
          [unfold concurrency.workerThreadWork, Producer_predicate; by rewrite Hw, Hpc, Hflag, Htype, Hr|done..].
      * destruct Hpop as (q & _ & _ & Hr & _). eapply (Hcheck _ batch);
          [unfold concurrency.workerThreadWork, Producer_predicate; by rewrite Hw, Hpc, Hflag, Htype, Hr|done..].
    + destruct (valid_tryPop_ref moved_from (default inhabitant (head held))
                  (m_sharedContainer s) Hvalid) as [[_ Hr]|(v & q & Hr & _)].
      * eapply Hdone;
          [unfold concurrency.workerThreadWork, Consumer_predicate; by rewrite Hw, Hpc, Hflag, Htype, Hr|done..].
      * eapply (Hcheck _ [v]);
          [unfold concurrency.workerThreadWork, Consumer_predicate; by rewrite Hw, Hpc, Hflag, Htype, Hr|done..].
  - eapply (Hcheck _ held);
      [unfold concurrency.workerThreadWork; by rewrite Hw, Hpc, Hflag|done..].
Qed.

Lemma releases (s : @System Elem) :
  threads_consistent s → is_fifo (m_vectorItemsQueue s) → valid (m_sharedContainer s) →
  ∃ n s', run (replicate n worker_thread) s = Steps s' ∧ released s s'.
Proof.
  intros (Hrun & Hmutex & _) Hbq Hvalid.
  destruct (worker_at s) as [|held|held|held|held|] eqn:Hpc.
  1,3,6: by exists 0, s.
  all: assert (m_workerThread s = Some running) as Hw by (apply Hrun; congruence).
  - by apply (releases_predicate held).
  - by apply (releases_check held).
  - by apply (releases_body held).
Qed.

End releases.

Section completes.
Context {Elem : Type} `{!Inhabited Elem}.
Context (moved_from : Elem → Elem) (moved_from_vector : list Elem → list Elem).
Context (type : Type_) (m_callable : Elem → bool).
Context (sharedContainer : @ThreadsafeSTLAdapter Elem) (Hvalid : valid sharedContainer).

Local Abbreviation step := (step moved_from moved_from_vector type m_callable).
Local Abbreviation run := (run moved_from moved_from_vector type m_callable).
Local Abbreviation reachable :=
  (reachable moved_from moved_from_vector type m_callable (construct sharedContainer true)).

(** The two threads can take the controller from [s] to [s']. *)
Local Abbreviation leads s s' :=
  (∃ schedule, threads_only schedule = true ∧ run schedule s = Steps s').

Lemma leads_refl (s : @System Elem) : leads s s.
Proof. by exists []. Qed.

Lemma leads_trans (s1 s2 s3 : @System Elem) : leads s1 s2 → leads s2 s3 → leads s1 s3.
Proof.
  intros (schedule1 & Ht1 & Hrun1) (schedule2 & Ht2 & Hrun2).
  exists (schedule1 ++ schedule2). split.
  - unfold threads_only in *. by rewrite forallb_app, Ht1, Ht2.
  - by rewrite run_app, Hrun1.
Qed.

Lemma leads_worker n (s s' : @System Elem) :
  run (replicate n worker_thread) s = Steps s' → leads s s'.
Proof.
  intros Hrun. exists (replicate n worker_thread). split; [|done].
  clear Hrun. unfold threads_only. induction n as [|n IH]; [done|]. simpl. exact IH.
Qed.

Lemma leads_main (s s' : @System Elem) : step (main_thread true) s = Steps s' → leads s s'.
Proof. intros Hstep. exists [main_thread true]. split; [done|]. cbn [concurrency.run]. by rewrite Hstep. Qed.

Lemma leads_reachable (s s' : @System Elem) : reachable s → leads s s' → reachable s'.
Proof. intros Hs (schedule & _ & Hrun). by eapply run_reachable. Qed.

Lemma reachable_invariants (s : @System Elem) :
  reachable s →
  threads_consistent s ∧ items_consistent type s ∧ joins_a_thread s ∧ body_enabled s ∧
  valid (m_sharedContainer s).
Proof.
  intros Hreach.
  destruct (items_consistent_reachable moved_from moved_from_vector type m_callable
              (construct sharedContainer true) s) as [Hthreads Hitems]; [..|done|].
  { apply threads_consistent_init. }
  { apply items_consistent_init. }
  split_and!; try done.
  - apply (joins_a_thread_reachable moved_from moved_from_vector type m_callable
             (construct sharedContainer true)); [|done].
    apply joins_a_thread_init.
  - by destruct (body_enabled_reachable moved_from moved_from_vector type m_callable
                   sharedContainer true s Hreach).
  - by apply (shared_valid_reachable moved_from moved_from_vector type m_callable
                (construct sharedContainer true)).
Qed.

(** The join of the control thread returns once the worker has run. *)
Lemma join_completes (s : @System Elem) c :
  reachable s → main_at s = in_join c →
  ∃ s', leads s s' ∧ m_commandQueue s' = m_commandQueue s ∧
        main_at s' = main_at (go_after_disable c s).
Proof.
  intros Hreach Hpc.
  destruct (reachable_invariants s Hreach) as (Hthreads & _ & Hjoin & Hbody & _).
  assert (∀ s1 : @System Elem, reachable s1 → main_at s1 = in_join c →
            m_workerThread s1 = Some finished →
            m_commandQueue s1 = m_commandQueue s →
            leads s s1 →
            ∃ s', leads s s' ∧ m_commandQueue s' = m_commandQueue s ∧
                  main_at s' = main_at (go_after_disable c s)) as Hfinished.
  { intros s1 Hreach1 Hpc1 Hw1 Hcq1 Hleads.
    destruct (reachable_invariants s1 Hreach1) as (_ & _ & Hjoin1 & _).
    pose proof (join_of_worker s1 true c Hjoin1 Hpc1) as Hstep. rewrite Hw1 in Hstep.
    eexists. split; [|split].
    - apply (leads_trans s s1); [done|]. apply leads_main. exact Hstep.
    - by destruct c.
    - by destruct c. }
  destruct (Hjoin c Hpc) as [Hw|Hw].
  - destruct Hthreads as (Hrun & Hmutex & Hidle & Hflag & Hrest).
    destruct (disabled_worker_returns moved_from moved_from_vector type m_callable s)
      as (n & _ & Hrunw); try done; [by eapply Hflag|].
    apply leads_worker in Hrunw as Hleads.
    eapply Hfinished; [exact (leads_reachable s _ Hreach Hleads)|done..].
  - apply (Hfinished s); try done. apply leads_refl.
Qed.

(** The control thread finishes the command it has taken. *)
Lemma command_completes (s : @System Elem) c :
  reachable s → main_at s = at_command c ∨ main_at s = in_join c →
  ∃ s', leads s s' ∧ m_commandQueue s' = m_commandQueue s ∧
        main_at s' = main_at (go_after_disable c s).
Proof.
  intros Hreach [Hpc|Hpc]; [|by apply join_completes].
  destruct (reachable_invariants s Hreach) as (Hthreads & (_ & Hbq & _) & _ & _ & Hshared).
  destruct (releases moved_from moved_from_vector type m_callable s Hthreads Hbq Hshared)
    as (n & s1 & Hrunw & Hfree & Hpc1 & Hcq1).
  apply leads_worker in Hrunw as Hleads1.
  pose proof (leads_reachable s s1 Hreach Hleads1) as Hreach1.
  destruct (reachable_invariants s1 Hreach1) as (Hthreads1 & Hitems1 & Hjoin1 & _).
  rewrite Hpc in Hpc1.
  assert (∀ s2, step (main_thread true) s1 = Steps s2 →
            m_commandQueue s2 = m_commandQueue s1 →
            main_at s2 = main_at (go_after_disable c s) ∨ main_at s2 = in_join c →
            ∃ s', leads s s' ∧ m_commandQueue s' = m_commandQueue s ∧
                  main_at s' = main_at (go_after_disable c s)) as Hnext.
  { intros s2 Hstep Hcq2 [Hpc2|Hpc2].
    - exists s2. split_and!; [|congruence|done].
      apply (leads_trans s s1); [done|]. by apply leads_main.
    - assert (leads s s2) as Hleads2.
      { apply (leads_trans s s1); [done|]. by apply leads_main. }
      destruct (join_completes s2 c) as (s' & Hleads' & Hcq' & Hpc');
        [exact (leads_reachable s s2 Hreach Hleads2)|done|].
      exists s'. split_and!; [exact (leads_trans s s2 s' Hleads2 Hleads')|congruence|].
      rewrite Hpc'. by destruct c. }
  pose proof (never_terminates moved_from moved_from_vector type m_callable
                (main_thread true) s1 Hthreads1) as Hterm.
  pose proof (main_thread_defined type s1 true Hthreads1 Hitems1 Hjoin1) as Hdef.
  cbn [concurrency.step] in *.
  destruct (mainThreadWork true s1) as [s2| | |] eqn:Hstep; try done.
  - apply (Hnext s2); [done|..];
      unfold mainThreadWork, disableWorkerThreadIfEnabled in Hstep;
      rewrite Hpc1, Hfree in Hstep; destruct c; repeat case_match; simplify_eq; fields;
      auto.
  - unfold mainThreadWork, disableWorkerThreadIfEnabled in Hstep.
    rewrite Hpc1, Hfree in Hstep. destruct c; repeat case_match; simplify_eq.
Qed.

(** The control thread takes the command at the front of its queue. *)
Lemma command_taken (s : @System Elem) c rest :
  reachable s → main_at s = in_waitAndPop → payloads (m_commandQueue s) = c :: rest →
  ∃ s', leads s s' ∧ main_at s' = at_command c ∧ payloads (m_commandQueue s') = rest.
Proof.
  intros Hreach Hpc Hp.
  destruct (reachable_invariants s Hreach) as (_ & (Hcq & _) & _).
  pose proof (is_fifo_pops_ref id inhabitant (m_commandQueue s) Hcq) as Hpop.
  rewrite Hp in Hpop. destruct Hpop as (q & _ & Hrest & _ & Hr).
  eexists. split; [apply leads_main|].
  - cbn. unfold mainThreadWork. by rewrite Hpc, Hr.
  - by fields.
Qed.

(** With a Shutdown in its queue, the control thread returns. *)
Lemma queue_drains l (s : @System Elem) :
  reachable s → main_at s = in_waitAndPop → payloads (m_commandQueue s) = l →
  ShutdownMainThread ∈ l →
  ∃ s', leads s s' ∧ main_at s' = returned.
Proof.
  revert s. induction l as [|c rest IH]; intros s Hreach Hpc Hp Hin.
  - by apply elem_of_nil in Hin.
  - destruct (command_taken s c rest Hreach Hpc Hp) as (s1 & Hleads1 & Hpc1 & Hp1).
    pose proof (leads_reachable s s1 Hreach Hleads1) as Hreach1.
    destruct (command_completes s1 c Hreach1 (or_introl Hpc1))
      as (s2 & Hleads2 & Hcq2 & Hpc2).
    pose proof (leads_reachable s1 s2 Hreach1 Hleads2) as Hreach2.
    pose proof (leads_trans s s1 s2 Hleads1 Hleads2) as Hleads.
    assert (c = ShutdownMainThread ∨ c ≠ ShutdownMainThread) as [->|Hc]
      by (destruct c; auto).
    + by exists s2.
    + destruct (IH s2) as (s' & Hleads' & Hpc'); try done.
      * rewrite Hpc2. by destruct c.
      * by rewrite Hcq2.
      * apply elem_of_cons in Hin as [?|?]; [congruence|done].
      * exists s'. split; [exact (leads_trans s s2 s' Hleads Hleads')|done].
Qed.

(** A control thread that has returned is waiting to be joined. *)
Lemma returned_main_thread (s : @System Elem) :
  reachable s → main_at s = returned → m_mainThread s = Some finished.
Proof.
  induction 1 as [|s e s' _ IH Hstep]; [done|].
  destruct e; step_cases Hstep; fields; try done; auto.
Qed.

(** A control thread that has returned leaves no worker to join. *)
Lemma returned_no_worker (s : @System Elem) :
  reachable s → main_at s = returned →
  m_workerThread s = None ∨ m_workerThread s = Some joined.
Proof.
  induction 1 as [|s e s' Hreach IH Hstep]; [done|]. intros Hpc'.
  destruct (reachable_invariants s Hreach)
    as ((Hrun & Hmutex & Hidle & Hflag & Hen & _) & (Hcq & _) & Hjoin & _).
  destruct e as [| | |items|x| |ts|].
  7: { cbn in Hstep. unfold mainThreadWork, disableWorkerThreadIfEnabled in Hstep.
       destruct (main_at s) as [|c|c|] eqn:Hpc.
       - pose proof (is_fifo_pops_ref id inhabitant (m_commandQueue s) Hcq) as Hpop.
         destruct (payloads (m_commandQueue s)) as [|c rest].
         + destruct Hpop as [_ Hr]. by rewrite Hr in Hstep.
         + destruct Hpop as (q & _ & _ & _ & Hr). rewrite Hr in Hstep. by simplify_eq.
       - destruct c; repeat case_match; simplify_eq; revert Hpc';
           unfold mainThreadWork_returns; fields; try done; intros _; try (by auto).
         all: try (apply Hidle; [by destruct (m_workerThreadEnabled s)|done]).
         all: match goal with
              | Hw : m_workerThread _ = Some ?t, Hj : joinable ?t = false |- _ =>
                  destruct t; try done; revert Hw; fields; by auto
              end.
       - destruct c; repeat case_match; simplify_eq; revert Hpc';
           unfold mainThreadWork_returns; fields; try done; by auto.
       - done. }
  all: step_cases Hstep; revert Hpc'; fields; try done; try (by auto).
  all: intros; destruct IH as [?|?]; try done; congruence.
Qed.

End completes.

(** X15.  Destroying a controller of [concurrency] never deadlocks.  From
    every state the controller can reach, once [shutdownMainThread] has
    queued its command the control thread and the worker can run until the
    control thread has returned: the worker releases the mutex after the
    batch at hand, every queued command is handled, a worker that is
    disabled returns and is joined.  The [join] in [shutdownMainThread] then
    returns, and no worker thread is left to be joined. *)
Theorem the_destructor_of_concurrency_can_always_complete
    {Elem : Type} `{!Inhabited Elem} (moved_from : Elem → Elem)
    (moved_from_vector : list Elem → list Elem) (type : Type_) (m_callable : Elem → bool)
    (sharedContainer : ThreadsafeSTLAdapter) (s : System) :
  valid sharedContainer →
  reachable moved_from moved_from_vector type m_callable (construct sharedContainer true) s →
  ∃ schedule s',
    threads_only schedule = true ∧
    run moved_from moved_from_vector type m_callable
      (call_shutdownMainThread :: schedule) s = Steps s' ∧
    main_at s' = returned ∧
    shutdownMainThread_join s' = Returns tt (set_m_mainThread (Some joined) s') ∧
    (m_workerThread s' = None ∨ m_workerThread s' = Some joined).
Proof.
  intros Hvalid Hreach.
  set (s1 := shutdownMainThread_push s).
  assert (reachable moved_from moved_from_vector type m_callable
            (construct sharedContainer true) s1) as Hreach1.
  { by apply (reachable_step _ _ _ _ _ s call_shutdownMainThread). }
  assert (∃ schedule s', threads_only schedule = true ∧
            run moved_from moved_from_vector type m_callable schedule s1 = Steps s' ∧
            main_at s' = returned) as (schedule & s' & Honly & Hrun & Hpc').
  { destruct (reachable_invariants moved_from moved_from_vector type m_callable
                sharedContainer Hvalid s Hreach) as (_ & (Hcq & _) & _).
    destruct (is_fifo_push ShutdownMainThread (m_commandQueue s) Hcq) as [_ Hp].
    assert (∀ s2 : System,
              reachable moved_from moved_from_vector type m_callable
                (construct sharedContainer true) s2 →
              main_at s2 = in_waitAndPop → m_commandQueue s2 = m_commandQueue s1 →
              ∃ schedule s', threads_only schedule = true ∧
                run moved_from moved_from_vector type m_callable schedule s2 = Steps s' ∧
                main_at s' = returned) as Hdrain.
    { intros s2 Hreach2 Hpc2 Hcq2.
      destruct (queue_drains moved_from moved_from_vector type m_callable sharedContainer
                  Hvalid (payloads (m_commandQueue s) ++ [ShutdownMainThread]) s2)
        as (s' & (schedule & ? & ?) & ?); try done.
      - by rewrite Hcq2.
      - apply elem_of_app. right. by apply list_elem_of_singleton.
      - by exists schedule, s'. }
    destruct (main_at s1) as [|c|c|] eqn:Hpc1.
    - destruct (Hdrain s1) as (schedule & s' & ?); try done. by exists schedule, s'.
    - destruct (command_completes moved_from moved_from_vector type m_callable
                  sharedContainer Hvalid s1 c Hreach1 (or_introl Hpc1))
        as (s2 & (schedule2 & Honly2 & Hrun2) & Hcq2 & Hpc2).
      destruct c; cbn in Hpc2.
      1,2: destruct (Hdrain s2) as (schedule & s' & Honly & Hrun & Hpc');
             [by eapply run_reachable|done..|];
           exists (schedule2 ++ schedule), s'; unfold threads_only in *;
           rewrite forallb_app, run_app, Honly2, Honly, Hrun2; by split_and!.
      by exists schedule2, s2.
    - destruct (command_completes moved_from moved_from_vector type m_callable
                  sharedContainer Hvalid s1 c Hreach1 (or_intror Hpc1))
        as (s2 & (schedule2 & Honly2 & Hrun2) & Hcq2 & Hpc2).
      destruct c; cbn in Hpc2.
      1,2: destruct (Hdrain s2) as (schedule & s' & Honly & Hrun & Hpc');
             [by eapply run_reachable|done..|];
           exists (schedule2 ++ schedule), s'; unfold threads_only in *;
           rewrite forallb_app, run_app, Honly2, Honly, Hrun2; by split_and!.
      by exists schedule2, s2.
    - by exists [], s1. }
  exists schedule, s'.
  assert (reachable moved_from moved_from_vector type m_callable
            (construct sharedContainer true) s') as Hreach' by (by eapply run_reachable).
  split_and!; try done.
  - unfold shutdownMainThread_join.
    by rewrite (returned_main_thread moved_from moved_from_vector type m_callable
                  sharedContainer s' Hreach' Hpc').
  - by apply (returned_no_worker moved_from moved_from_vector type m_callable
                sharedContainer Hvalid).
Qed.

(** X15 at a producer that is destroyed while its worker forwards the
    batch 1, 2 and a Disable and an Enable are still queued. *)
Lemma the_destructor_of_concurrency_can_always_complete_witness :
  let sharedContainer := createThreadsafeSTLAdapterFrom (stl.queue [7%Z]) tt ∅ in
  let before :=
    [call_enableWorkerThread; call_push [1; 2]%Z; main_thread true; main_thread true;
     worker_thread; worker_thread; worker_thread; worker_thread;
     call_disableWorkerThread; call_enableWorkerThread] in
  ∃ s, run id (λ _, []) Producer (λ _, true) before (construct sharedContainer true) = Steps s ∧
  ∃ schedule s',
    threads_only schedule = true ∧
    run id (λ _, []) Producer (λ _, true) (call_shutdownMainThread :: schedule) s = Steps s' ∧
    main_at s' = returned ∧
    shutdownMainThread_join s' = Returns tt (set_m_mainThread (Some joined) s') ∧
    (m_workerThread s' = None ∨ m_workerThread s' = Some joined).
Proof.
  intros sharedContainer before.
  destruct (run id (λ _, []) Producer (λ _, true) before (construct sharedContainer true))
    as [s| | |] eqn:Hrun; try (by vm_compute in Hrun).
  exists s. split; [done|].
  apply (the_destructor_of_concurrency_can_always_complete id (λ _, []) Producer (λ _, true)
           sharedContainer s).
  - apply create_valid.
  - apply (run_reachable id (λ _, []) Producer (λ _, true) before
             (construct sharedContainer true) (construct sharedContainer true) s);
      [constructor|exact Hrun].
Defined.

(** ** The control thread of [mt] is never stuck for good *)

Section mt_completes.
Context {Elem : Type} `{!Inhabited Elem}.
Context (moved_from : Elem → Elem) (moved_from_vector : list Elem → list Elem).
Context (m_callable : Elem → bool).

Local Abbreviation step type := (mt.step moved_from moved_from_vector type m_callable).
Local Abbreviation run type := (mt.run moved_from moved_from_vector type m_callable).

Local Abbreviation leads type s s' :=
  (∃ schedule, mt.threads_only schedule = true ∧ run type schedule s = mt.Steps s').

Lemma mt_returned_main_thread_step type e (s s' : @mt.System Elem) :
  (mt.main_at s = mt.returned → mt.m_mainThread s = Some finished) →
  step type e s = mt.Steps s' →
  mt.main_at s' = mt.returned → mt.m_mainThread s' = Some finished.
Proof.
  intros Hmain Hstep. destruct e; mt_step_cases Hstep; mt_fields; try done; auto.
Qed.

Lemma well_started_step type e (s s' : @mt.System Elem) :
  mt.well_started s → step type e s = mt.Steps s' → mt.well_started s'.
Proof.
  intros (Hthreads & Hpending & Hbq & Hvalid & Hmain) Hstep.
  destruct (mt_containers_step moved_from moved_from_vector type m_callable e s s')
    as [Hbq' Hvalid']; try done.
  split_and!; try done.
  - by apply (mt_threads_consistent_step moved_from moved_from_vector type m_callable e s).
  - by apply (enable_pending_step moved_from moved_from_vector type m_callable e s).
  - by apply (mt_returned_main_thread_step type e s).
Qed.

Lemma well_started_run type schedule (s s' : @mt.System Elem) :
  mt.well_started s → run type schedule s = mt.Steps s' → mt.well_started s'.
Proof.
  revert s. induction schedule as [|e schedule IH]; intros s Hs Hrun; cbn in Hrun.
  - by simplify_eq.
  - destruct (mt.step _ _ _ _ e s) as [s1| | |] eqn:Hstep; try done.
    apply (IH s1); [|done]. by apply (well_started_step type e s).
Qed.

Lemma mt_leads_refl type (s : @mt.System Elem) : leads type s s.
Proof. by exists []. Qed.

Lemma mt_leads_trans type (s1 s2 s3 : @mt.System Elem) :
  leads type s1 s2 → leads type s2 s3 → leads type s1 s3.
Proof.
  intros (schedule1 & Ht1 & Hrun1) (schedule2 & Ht2 & Hrun2).
  exists (schedule1 ++ schedule2). split.
  - unfold mt.threads_only in *. by rewrite forallb_app, Ht1, Ht2.
  - by rewrite mt_run_app, Hrun1.
Qed.

Lemma mt_leads_worker type n (s s' : @mt.System Elem) :
  run type (replicate n mt.worker_thread) s = mt.Steps s' → leads type s s'.
Proof.
  intros Hrun. exists (replicate n mt.worker_thread). split; [|done].
  clear Hrun. unfold mt.threads_only. induction n as [|n IH]; [done|]. simpl. exact IH.
Qed.

Lemma mt_leads_main type (s s' : @mt.System Elem) :
  step type (mt.main_thread true) s = mt.Steps s' → leads type s s'.
Proof.
  intros Hstep. exists [mt.main_thread true]. split; [done|].
  cbn [mt.run]. by rewrite Hstep.
Qed.

Lemma mt_leads_well_started type (s s' : @mt.System Elem) :
  mt.well_started s → leads type s s' → mt.well_started s'.
Proof. intros Hs (schedule & _ & Hrun). by eapply well_started_run. Qed.

(** The statements of the worker leave the control thread and its queue
    alone. *)
Lemma mt_workers_keep_control type n (s s' : @mt.System Elem) :
  run type (replicate n mt.worker_thread) s = mt.Steps s' →
  mt.m_commandQueue s' = mt.m_commandQueue s ∧ mt.main_at s' = mt.main_at s.
Proof.
  revert s. induction n as [|n IH]; intros s Hrun; cbn in Hrun; [by simplify_eq|].
  destruct (mt.workerThreadWork _ _ _ _ s) as [s1| | |] eqn:Hstep; try done.
  destruct (IH s1 Hrun) as [-> ->].
  mt_step_cases Hstep; by mt_fields.
Qed.

(** A worker whose flag was cleared returns. *)
Lemma mt_worker_returns type (s : @mt.System Elem) :
  mt.well_started s → mt.m_workerThread s = Some running →
  mt.m_workerThreadEnabled s = false →
  ∃ n s', run type (replicate n mt.worker_thread) s = mt.Steps s' ∧
          mt.m_workerThread s' = Some finished.
Proof.
  intros (Hthreads & _ & Hbq & Hvalid & _) Hw Hflag. destruct type.
  - destruct (mt_producer_returns moved_from moved_from_vector m_callable s)
      as (n & s' & Hrun & _ & Hw' & _); try done. by exists n, s'.
  - destruct (mt_consumer_returns moved_from moved_from_vector m_callable s)
      as (n & s' & Hrun & _ & Hw' & _); try done. by exists n, s'.
Qed.

(** The join of the control thread returns once the worker has run. *)
Lemma mt_join_completes type (s : @mt.System Elem) c :
  mt.well_started s → mt.main_at s = mt.in_join c →
  ∃ s', leads type s s' ∧ mt.m_commandQueue s' = mt.m_commandQueue s ∧
        mt.main_at s' = mt.main_at (mt.go_after_interrupt c s).
Proof.
  intros Hs Hpc.
  assert (∀ s1 : @mt.System Elem, leads type s s1 → mt.main_at s1 = mt.in_join c →
            mt.m_workerThread s1 = Some finished ∨ mt.m_workerThread s1 = Some joined →
            mt.m_commandQueue s1 = mt.m_commandQueue s →
            ∃ s', leads type s s' ∧ mt.m_commandQueue s' = mt.m_commandQueue s ∧
                  mt.main_at s' = mt.main_at (mt.go_after_interrupt c s)) as Hfinished.
  { intros s1 Hleads Hpc1 Hw1 Hcq1.
    assert (∃ s', step type (mt.main_thread true) s1 = mt.Steps s' ∧
                  mt.m_commandQueue s' = mt.m_commandQueue s1 ∧
                  mt.main_at s' = mt.main_at (mt.go_after_interrupt c s))
      as (s' & Hstep & Hcq' & Hpc').
    { cbn. unfold mt.mainThreadWork. rewrite Hpc1.
      destruct Hw1 as [-> | ->]; eexists; (split; [done|]); by destruct c. }
    exists s'. split_and!; [|congruence|done].
    apply (mt_leads_trans type s s1); [done|]. by apply mt_leads_main. }
  pose proof Hs as (Hthreads & Hpending & Hrest).
  destruct (mt.m_workerThread s) as [[| |]|] eqn:Hw.
  - destruct Hthreads as (_ & _ & _ & Hflag & _).
    destruct (mt_worker_returns type s Hs Hw (Hflag c Hpc)) as (n & s1 & Hrun & Hw1).
    destruct (mt_workers_keep_control type n s s1 Hrun) as [Hcq1 Hpc1].
    apply (Hfinished s1); [by eapply mt_leads_worker|congruence|by left|done].
  - apply (Hfinished s); [apply mt_leads_refl|done|by left|done].
  - apply (Hfinished s); [apply mt_leads_refl|done|by right|done].
  - destruct (Hpending Hw) as [?|[[? _]|[? _]]]; congruence.
Qed.

(** The control thread finishes the command it has taken. *)
Lemma mt_command_completes type (s : @mt.System Elem) c :
  mt.well_started s → mt.main_at s = mt.at_command c ∨ mt.main_at s = mt.in_join c →
  ∃ s', leads type s s' ∧ mt.m_commandQueue s' = mt.m_commandQueue s ∧
        mt.main_at s' = mt.main_at (mt.go_after_interrupt c s).
Proof.
  intros Hs [Hpc|Hpc]; [|by apply mt_join_completes].
  pose proof Hs as (Hthreads & Hpending & _).
  pose proof (mt_never_second_worker moved_from moved_from_vector type m_callable
                (mt.main_thread true) s Hthreads) as Hsecond.
  cbn [mt.step] in Hsecond.
  destruct (mt.mainThreadWork true s) as [s2| | |] eqn:Hstep; try done.
  - assert (mt.m_commandQueue s2 = mt.m_commandQueue s ∧
            (mt.main_at s2 = mt.main_at (mt.go_after_interrupt c s) ∨
             mt.main_at s2 = mt.in_join c)) as [Hcq2 Hpc2].
    { unfold mt.mainThreadWork, mt.interruptWorkerThread in Hstep. rewrite Hpc in Hstep.
      destruct c; repeat case_match; simplify_eq; mt_fields; auto. }
    assert (leads type s s2) as Hleads by (by apply mt_leads_main).
    destruct Hpc2 as [Hpc2|Hpc2].
    + by exists s2.
    + destruct (mt_join_completes type s2 c) as (s' & Hleads' & Hcq' & Hpc'); [|done|].
      { by apply (well_started_step type (mt.main_thread true) s). }
      exists s'. split_and!; [exact (mt_leads_trans type s s2 s' Hleads Hleads')|congruence|].
      rewrite Hpc'. by destruct c.
  - unfold mt.mainThreadWork, mt.interruptWorkerThread in Hstep. rewrite Hpc in Hstep.
    destruct c; repeat case_match; simplify_eq.
  - unfold mt.mainThreadWork, mt.interruptWorkerThread in Hstep. rewrite Hpc in Hstep.
    revert Hstep. mt_fields. destruct c; [by repeat case_match|..].
    all: destruct (mt.m_workerThread s) eqn:Hw; [by repeat case_match|].
    all: destruct (Hpending Hw) as [?|[[? _]|[? _]]]; congruence.
Qed.

(** With a Shutdown in its queue, the control thread returns. *)
Lemma mt_queue_drains type l (s : @mt.System Elem) :
  mt.well_started s → mt.main_at s = mt.in_waitAndPop →
  payloads (mt.m_commandQueue s) = l → mt.ShutdownMainThread ∈ l →
  ∃ s', leads type s s' ∧ mt.main_at s' = mt.returned.
Proof.
  revert s. induction l as [|c rest IH]; intros s Hs Hpc Hp Hin.
  - by apply elem_of_nil in Hin.
  - pose proof Hs as ((Hcq & _) & _).
    destruct (mt_takes_command moved_from moved_from_vector type m_callable true s c rest)
      as (q & Hq & Hrest & Hstep); try done.
    apply mt_leads_main in Hstep as Hleads1.
    pose proof (mt_leads_well_started type s _ Hs Hleads1) as Hs1.
    destruct (mt_command_completes type _ c Hs1 (or_introl eq_refl))
      as (s2 & Hleads2 & Hcq2 & Hpc2).
    pose proof (mt_leads_well_started type _ s2 Hs1 Hleads2) as Hs2.
    pose proof (mt_leads_trans type s _ s2 Hleads1 Hleads2) as Hleads.
    assert (c = mt.ShutdownMainThread ∨ c ≠ mt.ShutdownMainThread) as [->|Hc]
      by (destruct c; auto).
    + by exists s2.
    + destruct (IH s2) as (s' & Hleads' & Hpc'); try done.
      * rewrite Hpc2. by destruct c.
      * by rewrite Hcq2.
      * apply elem_of_cons in Hin as [?|?]; [congruence|done].
      * exists s'. split; [exact (mt_leads_trans type s s2 s' Hleads Hleads')|done].
Qed.

(** After a first command that is Enable, the controller is well started. *)
Lemma well_started_after type schedule (s s' : @mt.System Elem) :
  mt.threads_consistent s → mt.nothing_issued s →
  is_fifo (mt.m_vectorItemsQueue s) → valid (mt.m_sharedContainer s) →
  (mt.main_at s = mt.returned → mt.m_mainThread s = Some finished) →
  head (mt.issued schedule) = Some mt.EnableWorkerThread →
  run type schedule s = mt.Steps s' → mt.well_started s'.
Proof.
  revert s. induction schedule as [|e schedule IH];
    intros s Hthreads Hnothing Hbq Hvalid Hmain Hfirst Hrun; [done|].
  cbn [mt.run] in Hrun.
  destruct (mt.step _ _ _ _ e s) as [s1| | |] eqn:Hstep; try done.
  destruct (mt_containers_step moved_from moved_from_vector type m_callable e s s1
              Hbq Hvalid Hstep) as [Hbq1 Hvalid1].
  pose proof (mt_threads_consistent_step moved_from moved_from_vector type m_callable
                e s s1 Hthreads Hstep) as Hthreads1.
  pose proof (mt_returned_main_thread_step type e s s1 Hmain Hstep) as Hmain1.
  destruct (mt.issued [e]) as [|c l] eqn:Hissued.
  - apply (IH s1); try done.
    + by apply (nothing_issued_step moved_from moved_from_vector type m_callable e s).
    + revert Hfirst. change (e :: schedule) with ([e] ++ schedule).
      unfold mt.issued in *. by rewrite omap_app, Hissued.
  - apply (well_started_run type schedule s1); [|done].
    split_and!; try done.
    destruct Hnothing as (Hw & Hempty & Hpc & Hflag).
    destruct Hthreads as (Hcq & _).
    destruct e; try done; cbn in Hstep, Hfirst; simplify_eq.
    intros _. unfold mt.enableWorkerThread. mt_fields.
    destruct (is_fifo_push mt.EnableWorkerThread (mt.m_commandQueue s) Hcq) as [_ Hp].
    unfold pushAndNotify. rewrite Hp, Hempty. destruct Hpc as [Hpc|Hpc]; auto.
Qed.

End mt_completes.

(** X16.  A controller of [mt] whose first command was
    [enableWorkerThread] can always be destroyed.  Whatever happened since,
    once [shutdownMainThread] has queued its command the control thread and
    the worker can run until the control thread has returned: every queued
    command is handled, no interrupt finds [m_workerThread] null, a worker
    whose flag is cleared returns and is joined.  The [join] in
    [shutdownMainThread] then returns. *)
Theorem the_destructor_of_mt_completes_after_a_first_enable
    {Elem : Type} `{!Inhabited Elem} (moved_from : Elem → Elem)
    (moved_from_vector : list Elem → list Elem) (type : mt.Type_) (m_callable : Elem → bool)
    (sharedContainer : ThreadsafeSTLAdapter) (before : list mt.event) (s : mt.System) :
  valid sharedContainer →
  head (mt.issued before) = Some mt.EnableWorkerThread →
  mt.run moved_from moved_from_vector type m_callable before
    (mt.construct sharedContainer true) = mt.Steps s →
  ∃ schedule s',
    mt.threads_only schedule = true ∧
    mt.run moved_from moved_from_vector type m_callable
      (mt.call_shutdownMainThread :: schedule) s = mt.Steps s' ∧
    mt.main_at s' = mt.returned ∧
    mt.shutdownMainThread_join s' = Returns tt (mt.set_m_mainThread (Some joined) s').
Proof.
  intros Hvalid Hfirst Hbefore.
  assert (mt.well_started s) as Hs.
  { destruct (is_fifo_create ([] : list mt.Command) ∅) as [_ Hp].
    apply (well_started_after moved_from moved_from_vector m_callable type before
             (mt.construct sharedContainer true) s); try done.
    - apply mt_threads_consistent_init.
    - unfold mt.nothing_issued. split_and!; auto.
    - apply (is_fifo_create (Elem := list Elem)). }
  set (s1 := mt.shutdownMainThread_push s).
  assert (mt.well_started s1) as Hs1.
  { by apply (well_started_step moved_from moved_from_vector m_callable type
                mt.call_shutdownMainThread s). }
  assert (∃ schedule s', mt.threads_only schedule = true ∧
            mt.run moved_from moved_from_vector type m_callable schedule s1 = mt.Steps s' ∧
            mt.main_at s' = mt.returned) as (schedule & s' & Honly & Hrun & Hpc').
  { destruct Hs as ((Hcq & _) & _).
    destruct (is_fifo_push mt.ShutdownMainThread (mt.m_commandQueue s) Hcq) as [_ Hp].
    assert (∀ s2 : mt.System, mt.well_started s2 →
              mt.main_at s2 = mt.in_waitAndPop →
              mt.m_commandQueue s2 = mt.m_commandQueue s1 →
              ∃ schedule s', mt.threads_only schedule = true ∧
                mt.run moved_from moved_from_vector type m_callable schedule s2
                  = mt.Steps s' ∧
                mt.main_at s' = mt.returned) as Hdrain.
    { intros s2 Hs2 Hpc2 Hcq2.
      destruct (mt_queue_drains moved_from moved_from_vector m_callable type
                  (payloads (mt.m_commandQueue s) ++ [mt.ShutdownMainThread]) s2)
        as (s' & (schedule & ? & ?) & ?); try done.
      - by rewrite Hcq2.
      - apply elem_of_app. right. by apply list_elem_of_singleton.
      - by exists schedule, s'. }
    assert (∀ c, mt.main_at s1 = mt.at_command c ∨ mt.main_at s1 = mt.in_join c →
              ∃ schedule s', mt.threads_only schedule = true ∧
                mt.run moved_from moved_from_vector type m_callable schedule s1
                  = mt.Steps s' ∧
                mt.main_at s' = mt.returned) as Hcommand.
    { intros c Hpc1.
      destruct (mt_command_completes moved_from moved_from_vector m_callable type s1 c
                  Hs1 Hpc1) as (s2 & (schedule2 & Honly2 & Hrun2) & Hcq2 & Hpc2).
      destruct c; cbn in Hpc2.
      1,2: destruct (Hdrain s2) as (schedule & s' & Honly & Hrun & Hpc');
             [by eapply well_started_run|done..|];
           exists (schedule2 ++ schedule), s'; unfold mt.threads_only in *;
           rewrite forallb_app, mt_run_app, Honly2, Honly, Hrun2; by split_and!.
      by exists schedule2, s2. }
    destruct (mt.main_at s1) as [|c|c|] eqn:Hpc1.
    - destruct (Hdrain s1) as (schedule & s' & ?); try done. by exists schedule, s'.
    - apply (Hcommand c). by left.
    - apply (Hcommand c). by right.
    - by exists [], s1. }
  exists schedule, s'. split_and!; try done.
  assert (mt.well_started s') as (_ & _ & _ & _ & Hmain) by (by eapply well_started_run).
  unfold mt.shutdownMainThread_join. by rewrite (Hmain Hpc').
Qed.

(** X16 at a consumer of the queue 1, 2, 3 that is destroyed while its
    worker holds 1 and a Disable is being handled. *)
Lemma the_destructor_of_mt_completes_after_a_first_enable_witness :
  let sharedContainer := createThreadsafeSTLAdapterFrom (stl.queue [1; 2; 3]%Z) tt ∅ in
  let before :=
    [mt.call_enableWorkerThread; mt.call_disableWorkerThread; mt.main_thread true;
     mt.main_thread true; mt.worker_thread; mt.worker_thread; mt.main_thread true;
     mt.main_thread true; mt.call_enableWorkerThread] in
  ∃ s, mt.run id (λ _, []) mt.Consumer (λ _, true) before
         (mt.construct sharedContainer true) = mt.Steps s ∧
  ∃ schedule s',
    mt.threads_only schedule = true ∧
    mt.run id (λ _, []) mt.Consumer (λ _, true)
      (mt.call_shutdownMainThread :: schedule) s = mt.Steps s' ∧
    mt.main_at s' = mt.returned ∧
    mt.shutdownMainThread_join s' = Returns tt (mt.set_m_mainThread (Some joined) s').
Proof.
  intros sharedContainer before.
  destruct (mt.run id (λ _, []) mt.Consumer (λ _, true) before
              (mt.construct sharedContainer true)) as [s| | |] eqn:Hrun;
    try (by vm_compute in Hrun).
  exists s. split; [done|].
  apply (the_destructor_of_mt_completes_after_a_first_enable id (λ _, []) mt.Consumer
           (λ _, true) sharedContainer before s).
  - apply create_valid.
  - reflexivity.
  - exact Hrun.
Defined.

(** X17.  [mt::ProducerConsumerBase::shutdownMainThread] needs the control
    thread.  When [runMainThread] could not create it, [m_mainThread] stays
    null: the controller accepts calls, no thread of it ever moves, and
    [shutdownMainThread], which the destructors call, evaluates
    [m_mainThread->joinable()] on the null pointer in whatever state the
    controller is.  When the control thread was created, [shutdownMainThread]
    never dereferences the null pointer. *)
Theorem the_destructor_of_mt_needs_its_control_thread
    {Elem : Type} `{!Inhabited Elem} (moved_from : Elem → Elem)
    (moved_from_vector : list Elem → list Elem) (type : mt.Type_) (m_callable : Elem → bool)
    (sharedContainer : ThreadsafeSTLAdapter) (thread_starts : bool) (s : mt.System) :
  mt.reachable moved_from moved_from_vector type m_callable
    (mt.construct sharedContainer thread_starts) s →
  if thread_starts then mt.shutdownMainThread s ≠ Undefined
  else
    mt.shutdownMainThread s = Undefined ∧
    (∀ starts, mt.step moved_from moved_from_vector type m_callable (mt.main_thread starts) s
               = mt.Blocked) ∧
    mt.step moved_from moved_from_vector type m_callable mt.worker_thread s = mt.Blocked.
Proof.
  intros Hreach.
  pose proof (mt_main_thread_object moved_from moved_from_vector type m_callable
                sharedContainer thread_starts s Hreach) as Hm.
  unfold mt.shutdownMainThread, mt.shutdownMainThread_join, mt.shutdownMainThread_push.
  mt_fields. destruct thread_starts.
  - destruct Hm as [t ->]. by destruct t.
  - destruct Hm as (-> & Hpc & Hw). split_and!; [done|..].
    + intros starts. cbn. unfold mt.mainThreadWork. by rewrite Hpc.
    + cbn. unfold mt.workerThreadWork. by rewrite Hw.
Qed.

(** X17 at the queue of integers: the controller whose control thread could
    not be created, after the client asked for Enable and pushed a batch. *)
Lemma the_destructor_of_mt_needs_its_control_thread_witness :
  let step := @mt.step Z _ id (λ _, []) mt.Producer (λ _, true) in
  let s0 := mt.construct (createThreadsafeSTLAdapterFrom (stl.queue [1; 2; 3]%Z) tt ∅) false in
  ∃ s, mt.run id (λ _, []) mt.Producer (λ _, true)
         [mt.call_enableWorkerThread; mt.call_push [4; 5]%Z] s0 = mt.Steps s ∧
       mt.shutdownMainThread s = Undefined ∧
       (∀ starts, step (mt.main_thread starts) s = mt.Blocked) ∧
       step mt.worker_thread s = mt.Blocked.
Proof.
  intros step s0.
  destruct (mt.run id (λ _, []) mt.Producer (λ _, true)
              [mt.call_enableWorkerThread; mt.call_push [4; 5]%Z] s0) as [s| | |] eqn:Hrun;
    try (by vm_compute in Hrun).
  exists s. split; [done|].
  apply (the_destructor_of_mt_needs_its_control_thread id (λ _, []) mt.Producer (λ _, true)
           (createThreadsafeSTLAdapterFrom (stl.queue [1; 2; 3]%Z) tt ∅) false s).
  apply (mt_run_reachable id (λ _, []) mt.Producer (λ _, true)
           [mt.call_enableWorkerThread; mt.call_push [4; 5]%Z] s0 s0 s);
    [constructor|exact Hrun].
Defined.
